(** * AI Research Agent dashboard script: a model of [assets/custom.js]

    The script keeps two preferences in the browser's storage (theme and
    sidebar state), decorates summary boxes that the host page inserts, and
    drives both from timers: a trailing-edge debounce behind a mutation
    observer and a bounded start-up poll.

    The development follows the file top to bottom:
    - the DOM as a tree of elements addressed by paths;
    - the page (document, storage, console, dispatched events, listeners);
    - theme and sidebar management;
    - the enhancement pass;
    - timers, [debounce], the mutation observer, [initUI] and the poll,
      run by an event loop over a virtual clock.

    Every [setTimeout] and [setInterval] of the file is a timer of the
    model, the two that animate a progress bar included.  The order in
    which the host runs two timers that are due at the same time is a
    parameter of the event loop ([ties]), and so is what the host does with
    the nodes that pending timers hold when it changes the document
    ([moved]).

    The statements numbered C1 to C10 are those of the specification; the
    ones numbered X1 to X22 are further properties of the same functions
    and of the rest of the script's API: [resetTheme], [randomTheme],
    [applySavedSidebarState], the resize handler, the click and key
    listeners, [cleanup], and whole runs of the start-up poll. *)

From stdpp Require Import gmap strings list fin_maps.
From Stdlib Require Import ZArith Lia.

Open Scope Z_scope.
Open Scope string_scope.
Open Scope list_scope.

(** ** The DOM *)

(** An element carries what the script reads or writes: its class list, its
    attributes, its inline style, the text put in through [innerHTML], and
    its element children. *)
#[warnings="-register-all"]
Inductive Element : Type :=
  mkElement {
    tagName : string;
    classList : list string;
    attributes : gmap string string;
    style : gmap string string;
    innerHTML : string;
    children : list Element }.

(** A node handle is the path of child indices from the document element. *)
Definition Path := list nat.

(** Every selector of the script is a single class selector ([.name]). *)
Inductive Selector := ClassSel (cls : string).

Definition contains (cls : string) (l : list string) : bool :=
  bool_decide (cls ∈ l).

(** [element.matches(selector)] *)
Definition matches (sel : Selector) (e : Element) : bool :=
  match sel with ClassSel c => contains c (classList e) end.

Section PathsFrom.
Context (f : Element → list Path).

(** Paths found by [f] in the children [ks], the first of which has index
    [i], in document order. *)
Fixpoint paths_from (i : nat) (ks : list Element) : list Path :=
  match ks with
  | [] => []
  | k :: ks' => map (cons i) (f k) ++ paths_from (S i) ks'
  end.
End PathsFrom.

(** All elements of the subtree of [e], [e] included, that match [sel], in
    document order (pre-order): what [document.querySelectorAll] returns
    when [e] is the document element. *)
Fixpoint querySelectorAll (sel : Selector) (e : Element) : list Path :=
  match e with
  | mkElement _ cl _ _ _ ks =>
      (if contains (match sel with ClassSel c => c end) cl then [[]] else [])
        ++ paths_from (querySelectorAll sel) 0 ks
  end.

(** [document.querySelector(sel)]: the first match in document order. *)
Definition querySelector (sel : Selector) (doc : Element) : option Path :=
  head (querySelectorAll sel doc).

(** [element.querySelectorAll(sel)] looks at proper descendants only. *)
Definition descendants (sel : Selector) (e : Element) : list Path :=
  paths_from (querySelectorAll sel) 0 (children e).

(** [element.querySelector(sel)] *)
Definition Element_querySelector (sel : Selector) (e : Element) : option Path :=
  head (descendants sel e).

Fixpoint get (p : Path) (e : Element) : option Element :=
  match p with
  | [] => Some e
  | i :: p' => children e !! i ≫= get p'
  end.

Definition set_children (ks : list Element) (e : Element) : Element :=
  mkElement (tagName e) (classList e) (attributes e) (style e) (innerHTML e) ks.

Definition set_classList (cl : list string) (e : Element) : Element :=
  mkElement (tagName e) cl (attributes e) (style e) (innerHTML e) (children e).

Definition set_attributes (a : gmap string string) (e : Element) : Element :=
  mkElement (tagName e) (classList e) a (style e) (innerHTML e) (children e).

Definition set_style (s : gmap string string) (e : Element) : Element :=
  mkElement (tagName e) (classList e) (attributes e) s (innerHTML e) (children e).

(** In-place mutation of the node at [p]; a path that leads nowhere changes
    nothing. *)
Fixpoint update (p : Path) (f : Element → Element) (e : Element) : Element :=
  match p with
  | [] => f e
  | i :: p' => set_children (alter (update p' f) i (children e)) e
  end.

(** [element.setAttribute(k, v)], [element.hasAttribute(k)] *)
Definition setAttribute (k v : string) (e : Element) : Element :=
  set_attributes (<[k := v]> (attributes e)) e.

Definition hasAttribute (k : string) (e : Element) : bool :=
  bool_decide (is_Some (attributes e !! k)).

(** [classList.add] and [classList.remove]: the class list is an ordered set
    of tokens. *)
Definition classList_add (cls : string) (e : Element) : Element :=
  if contains cls (classList e) then e
  else set_classList (classList e ++ [cls]) e.

Definition classList_remove (cls : string) (e : Element) : Element :=
  set_classList (filter (λ c, c ≠ cls) (classList e)) e.

(** [element.appendChild(c)] for a freshly created [c]. *)
Definition appendChild (c : Element) (e : Element) : Element :=
  set_children (children e ++ [c]) e.

(** [document.createElement('div')] *)
Definition createElement (tag : string) : Element :=
  mkElement tag [] ∅ ∅ "" [].

(** ** Configuration *)

Module CONFIG.
Definition themes : list string := ["Light"; "Dark"; "Cyberpunk"].
Definition defaultTheme : string := "Light".
Module storageKeys.
Definition theme : string := "aiResearchAgent_theme".
Definition sidebarCollapsed : string := "aiResearchAgent_sidebarCollapsed".
End storageKeys.
Module selectors.
Definition app : Selector := ClassSel "stApp".
Definition sidebar : Selector := ClassSel "stSidebar".
Definition summaryBox : Selector := ClassSel "summary-box".
Definition themeToggle : Selector := ClassSel "theme-toggle-btn".
Definition sidebarToggle : Selector := ClassSel "sidebar-toggle-btn".
End selectors.
End CONFIG.

(** ** The page *)

Inductive LogEntry :=
  | Log (msg : string)
  | Warn (msg : string)
  | Error (msg : string).

Inductive CustomEvent :=
  | themeChanged (theme : string)
  | sidebarToggled (collapsed : bool).

(** Listeners the script registers on [document] and [window]; a resize
    listener is a debounced function, named by its closure. *)
Inductive Listener :=
  | OnClick
  | OnKeydown
  | OnThemeChanged
  | OnSidebarToggled
  | OnResize (closure : nat)
  | OnBeforeUnload
  | OnDOMContentLoaded.

Record Page := mkPage {
  document : Element;
  storage : gmap string string;
  console : list LogEntry;
  dispatched : list CustomEvent;
  listeners : list Listener;
  reducedMotion : bool;
  innerWidth : Z }.

Definition set_document (d : Element) (p : Page) : Page :=
  mkPage d (storage p) (console p) (dispatched p) (listeners p)
         (reducedMotion p) (innerWidth p).

Definition set_storage (s : gmap string string) (p : Page) : Page :=
  mkPage (document p) s (console p) (dispatched p) (listeners p)
         (reducedMotion p) (innerWidth p).

Definition set_console (c : list LogEntry) (p : Page) : Page :=
  mkPage (document p) (storage p) c (dispatched p) (listeners p)
         (reducedMotion p) (innerWidth p).

Definition set_dispatched (d : list CustomEvent) (p : Page) : Page :=
  mkPage (document p) (storage p) (console p) d (listeners p)
         (reducedMotion p) (innerWidth p).

Definition set_listeners (l : list Listener) (p : Page) : Page :=
  mkPage (document p) (storage p) (console p) (dispatched p) l
         (reducedMotion p) (innerWidth p).

Definition set_innerWidth (w : Z) (p : Page) : Page :=
  mkPage (document p) (storage p) (console p) (dispatched p) (listeners p)
         (reducedMotion p) w.

(** Console output is kept oldest first. *)
Definition console_write (e : LogEntry) (p : Page) : Page :=
  set_console (console p ++ [e]) p.

(** [storage.getItem], [storage.setItem].  [storage] is whatever
    [safeLocalStorage] returned when the script was loaded, [localStorage] or
    the wrapper around [sessionStorage]: a map from keys to strings either
    way. *)
Definition getItem (k : string) (p : Page) : option string := storage p !! k.

Definition setItem (k v : string) (p : Page) : Page :=
  set_storage (<[k := v]> (storage p)) p.

(** In-place mutation of a node of the document. *)
Definition mutate (path : Path) (f : Element → Element) (p : Page) : Page :=
  set_document (update path f (document p)) p.

(** The two listeners of [attachEventHandlers] that react to the script's
    own events write one console line each. *)
Definition listener_output (ev : CustomEvent) (l : Listener) : list LogEntry :=
  match ev, l with
  | themeChanged t, OnThemeChanged => [Log ("Theme changed to: " ++ t)]
  | sidebarToggled c, OnSidebarToggled =>
      [Log ("Sidebar collapsed: " ++ if c then "true" else "false")]
  | _, _ => []
  end.

(** [window.dispatchEvent(new CustomEvent(..))]: the event is delivered
    synchronously to the registered listeners. *)
Definition dispatchEvent (ev : CustomEvent) (p : Page) : Page :=
  let p := set_dispatched (dispatched p ++ [ev]) p in
  set_console (console p ++ mbind (listener_output ev) (listeners p)) p.

(** ** Theme management *)

(** [a || b] on a string that may be [null]: the empty string is falsy. *)
Definition or_else (v : option string) (d : string) : string :=
  match v with
  | Some s => if decide (s = "") then d else s
  | None => d
  end.

(** [array.includes(x)] and [array.indexOf(x)] *)
Definition includes (x : string) (l : list string) : bool :=
  bool_decide (x ∈ l).

Fixpoint indexOf (x : string) (l : list string) : Z :=
  match l with
  | [] => -1
  | y :: l' =>
      if decide (y = x) then 0
      else let i := indexOf x l' in if decide (i = -1) then -1 else i + 1
  end.

Definition setTheme (theme : string) (p : Page) : Page :=
  let '(theme, p) :=
    if includes theme CONFIG.themes then (theme, p)
    else (CONFIG.defaultTheme,
          console_write (Warn ("Invalid theme: " ++ theme ++ ". Using default.")) p) in
  match querySelector CONFIG.selectors.app (document p) with
  | Some appElement =>
      let p := mutate appElement (setAttribute "data-theme" theme) p in
      let p := setItem CONFIG.storageKeys.theme theme p in
      dispatchEvent (themeChanged theme) p
  | None => p
  end.

Definition getTheme (p : Page) : string :=
  or_else (getItem CONFIG.storageKeys.theme p) CONFIG.defaultTheme.

(** [CONFIG.themes[i]]; an index out of range gives [undefined], which
    [setTheme] would print as such. *)
Definition themes_at (i : Z) : string :=
  if decide (0 ≤ i)%Z then default "undefined" (CONFIG.themes !! Z.to_nat i)
  else "undefined".

Definition toggleTheme (p : Page) : Page :=
  let currentTheme := getTheme p in
  let currentIndex := indexOf currentTheme CONFIG.themes in
  let nextIndex := Z.rem (currentIndex + 1) (Z.of_nat (length CONFIG.themes)) in
  setTheme (themes_at nextIndex) p.

Definition resetTheme (p : Page) : Page := setTheme CONFIG.defaultTheme p.

(** [randomIndex] stands for [Math.floor(Math.random() * themes.length)]. *)
Definition randomTheme (randomIndex : Z) (p : Page) : Page :=
  setTheme (themes_at randomIndex) p.

(** ** Sidebar management *)

Definition toggleSidebar (p : Page) : Page :=
  match querySelector CONFIG.selectors.sidebar (document p),
        querySelector CONFIG.selectors.app (document p) with
  | Some sidebar, Some appElement =>
      let isCollapsed :=
        from_option (λ e, contains "collapsed" (classList e)) false
                    (get sidebar (document p)) in
      let p :=
        if isCollapsed then
          let p := mutate sidebar (classList_remove "collapsed") p in
          let p := mutate appElement (setAttribute "data-sidebar-collapsed" "false") p in
          setItem CONFIG.storageKeys.sidebarCollapsed "false" p
        else
          let p := mutate sidebar (classList_add "collapsed") p in
          let p := mutate appElement (setAttribute "data-sidebar-collapsed" "true") p in
          setItem CONFIG.storageKeys.sidebarCollapsed "true" p in
      dispatchEvent (sidebarToggled (negb isCollapsed)) p
  | _, _ => p
  end.

Definition applySavedSidebarState (p : Page) : Page :=
  let isCollapsed :=
    bool_decide (getItem CONFIG.storageKeys.sidebarCollapsed p = Some "true") in
  match querySelector CONFIG.selectors.sidebar (document p),
        querySelector CONFIG.selectors.app (document p) with
  | Some sidebar, Some appElement =>
      if isCollapsed then
        let p := mutate sidebar (classList_add "collapsed") p in
        mutate appElement (setAttribute "data-sidebar-collapsed" "true") p
      else p
  | _, _ => p
  end.

(** ** UI enhancements *)

Definition summary_icon : Selector := ClassSel "summary-icon".
Definition summary_progress : Selector := ClassSel "summary-progress".

(** [element.className = cls] for a single class, [element.innerHTML = text]
    for a text without markup, and [element.style.cssText = ...] given as
    its declarations. *)
Definition set_className (cls : string) (e : Element) : Element :=
  set_classList [cls] e.

Definition set_innerHTML (text : string) (e : Element) : Element :=
  mkElement (tagName e) (classList e) (attributes e) (style e) text (children e).

Definition set_cssText (declarations : list (string * string)) (e : Element)
  : Element :=
  set_style (list_to_map declarations) e.

(** The icon element as [decorateSummaryBox] builds it. *)
Definition icon : Element :=
  let icon := createElement "div" in
  let icon := set_className "summary-icon" icon in
  let icon := set_innerHTML "ðŸ“Š" icon in
  set_cssText [("position", "absolute"); ("top", "12px"); ("right", "12px");
               ("font-size", "16px"); ("opacity", "0.7")] icon.

(** The progress bar as [decorateSummaryBox] appends it.  With reduced
    motion it is put in its final state at once; otherwise it starts at
    width 0% and two timers (100 ms, then 300 ms) write the same two style
    properties later: [show_progress] and [fade_progress] below. *)
Definition progressBar (reduced : bool) : Element :=
  let progressBar := createElement "div" in
  let progressBar := set_className "summary-progress" progressBar in
  let progressBar :=
    set_cssText
      [("position", "absolute"); ("bottom", "0"); ("left", "0"); ("height", "2px");
       ("background",
        "linear-gradient(90deg, var(--accent-primary), var(--accent-secondary))");
       ("width", "0%"); ("transition", "width 0.3s ease");
       ("border-radius", "0 0 8px 8px")] progressBar in
  if reduced then
    set_style (<["opacity" := "0.3"]> (<["width" := "100%"]> (style progressBar)))
              progressBar
  else progressBar.

(** What a call of [decorateSummaryBox] has done to the box when it
    returns, given what [prefersReducedMotion()] returns: the marker check,
    the two children appended and, with reduced motion, the bar's final
    style.  The call is [decorateSummaryBox_timed] below, once timers are
    there: it does this to the box and, when motion is not reduced, sets
    the timer that animates the bar. *)
Definition decorateSummaryBox (reduced : bool) (summaryBox : Element) : Element :=
  (* Only decorate once per element *)
  match Element_querySelector summary_icon summaryBox with
  | Some _ => summaryBox
  | None =>
      let summaryBox :=
        set_style (<["position" := "relative"]> (style summaryBox)) summaryBox in
      let summaryBox := appendChild icon summaryBox in
      appendChild (progressBar reduced) summaryBox
  end.

(** [summaryBoxes.forEach(decorateSummaryBox)] over the static node list
    that [querySelectorAll] returned: each box is mutated in place, in
    document order.  This is what a pass does to the document;
    [enhanceNewElements_timed] below is the pass with its timers. *)
Definition enhance (reduced : bool) (doc : Element) : Element :=
  foldl (λ d box, update box (decorateSummaryBox reduced) d) doc
        (querySelectorAll CONFIG.selectors.summaryBox doc).

Definition enhanceNewElements (p : Page) : Page :=
  set_document (enhance (reducedMotion p) (document p)) p.

(** ** Timers and the script's run-time state *)

(** What a pending timer runs. *)
Inductive Callback :=
  | Later (closure : nat)   (* [later] of the debounced function [closure] *)
  | PollTick                (* the body of the [streamlitReady] interval *)
  | PollAbandon             (* the timeout that clears [streamlitReady] *)
  | ShowProgress (bar : option Path)
                            (* the 100 ms timer of [decorateSummaryBox] *)
  | FadeProgress (bar : option Path).
                            (* the 300 ms timer which that one sets *)

Record Timer := mkTimer {
  handle : nat;
  due : Z;
  period : option Z;        (* [Some d] for [setInterval(_, d)] *)
  callback : Callback }.

(** The two functions the script debounces. *)
Inductive DebouncedFunc :=
  | EnhanceFunc             (* [enhanceNewElements] *)
  | ResizeFunc.             (* the arrow function of [initUI] *)

(** One call of [debounce(func, wait)]: the closure with its [timeout]
    variable. *)
Record Closure := mkClosure {
  func : DebouncedFunc;
  wait : Z;
  timeout : option nat }.

(** The observer held by the global [mutationObserver], with the debounced
    function its callback closes over. *)
Record Observer := mkObserver {
  connected : bool;
  debouncedEnhance : nat }.

(** The execution trace records, with the time, every timer callback run,
    every entry into [initUI], every call a [later] makes to its [func], and
    every tick of the poll that finds an app root without the marker. *)
Inductive TraceItem :=
  | TimerFired (cb : Callback)
  | InitUI
  | Called (f : DebouncedFunc) (closure : nat)
  | Sighted.

Record World := mkWorld {
  page : Page;
  now : Z;
  next_handle : nat;
  timers : list Timer;
  closures : list Closure;
  mutationObserver : option Observer;
  streamlitReady : option nat;
  trace : list (Z * TraceItem) }.

Definition set_page (x : Page) (w : World) : World :=
  mkWorld x (now w) (next_handle w) (timers w) (closures w)
          (mutationObserver w) (streamlitReady w) (trace w).

Definition set_now (x : Z) (w : World) : World :=
  mkWorld (page w) x (next_handle w) (timers w) (closures w)
          (mutationObserver w) (streamlitReady w) (trace w).

Definition set_next_handle (x : nat) (w : World) : World :=
  mkWorld (page w) (now w) x (timers w) (closures w)
          (mutationObserver w) (streamlitReady w) (trace w).

Definition set_timers (x : list Timer) (w : World) : World :=
  mkWorld (page w) (now w) (next_handle w) x (closures w)
          (mutationObserver w) (streamlitReady w) (trace w).

Definition set_closures (x : list Closure) (w : World) : World :=
  mkWorld (page w) (now w) (next_handle w) (timers w) x
          (mutationObserver w) (streamlitReady w) (trace w).

Definition set_mutationObserver (x : option Observer) (w : World) : World :=
  mkWorld (page w) (now w) (next_handle w) (timers w) (closures w)
          x (streamlitReady w) (trace w).

Definition set_streamlitReady (x : option nat) (w : World) : World :=
  mkWorld (page w) (now w) (next_handle w) (timers w) (closures w)
          (mutationObserver w) x (trace w).

Definition set_trace (x : list (Z * TraceItem)) (w : World) : World :=
  mkWorld (page w) (now w) (next_handle w) (timers w) (closures w)
          (mutationObserver w) (streamlitReady w) x.

Definition on_page (f : Page → Page) (w : World) : World :=
  set_page (f (page w)) w.

Definition record (item : TraceItem) (w : World) : World :=
  set_trace (trace w ++ [(now w, item)]) w.

(** [setTimeout], [setInterval]: a fresh handle, due after [delay]. *)
Definition add_timer (per : option Z) (cb : Callback) (delay : Z) (w : World)
  : nat * World :=
  let h := next_handle w in
  (h, set_next_handle (S h)
        (set_timers (timers w ++ [mkTimer h (now w + delay) per cb]) w)).

Definition setTimeout (cb : Callback) (delay : Z) (w : World) : nat * World :=
  add_timer None cb delay w.

Definition setInterval (cb : Callback) (delay : Z) (w : World) : nat * World :=
  add_timer (Some delay) cb delay w.

(** [clearTimeout], [clearInterval]: one pool of handles; clearing
    [undefined] or a handle that is no longer pending does nothing. *)
Definition clearTimer (h : option nat) (w : World) : World :=
  match h with
  | Some h => set_timers (filter (λ t, handle t ≠ h) (timers w)) w
  | None => w
  end.

Definition clearTimeout := clearTimer.
Definition clearInterval := clearTimer.

(** *** [debounce] *)

(** [debounce(func, wait)] allocates the closure and returns the debounced
    function, named by the closure's index. *)
Definition debounce (f : DebouncedFunc) (wt : Z) (w : World) : nat * World :=
  (length (closures w), set_closures (closures w ++ [mkClosure f wt None]) w).

Definition set_timeout_var (c : nat) (h : option nat) (w : World) : World :=
  set_closures (alter (λ cl, mkClosure (func cl) (wait cl) h) c (closures w)) w.

(** [executedFunction]: cancel the pending [later], schedule a new one. *)
Definition executedFunction (c : nat) (w : World) : World :=
  match closures w !! c with
  | Some cl =>
      let w := clearTimeout (timeout cl) w in
      let '(h, w) := setTimeout (Later c) (wait cl) w in
      set_timeout_var c (Some h) w
  | None => w
  end.

(** The arrow function that [initUI] debounces for [resize]. *)
Definition handleResize_func (p : Page) : Page :=
  match querySelector CONFIG.selectors.sidebar (document p) with
  | Some sidebar =>
      if bool_decide (innerWidth p ≤ 768)%Z
      then mutate sidebar (classList_add "mobile") p
      else mutate sidebar (classList_remove "mobile") p
  | None => p
  end.

(** *** The enhancement pass with its timers *)

(** The two timer callbacks of [decorateSummaryBox].  They hold the
    progress bar itself, wherever the host has put it since: [bar] is its
    place in the document, or [None] when it is no longer in the document,
    in which case the style is written to a node nobody sees. *)
Definition show_progress (bar : option Path) (w : World) : World :=
  let w :=
    match bar with
    | Some progressBar =>
        on_page (mutate progressBar
                   (λ e, set_style (<["width" := "100%"]> (style e)) e)) w
    | None => w
    end in
  (setTimeout (FadeProgress bar) 300 w).2.

Definition fade_progress (bar : option Path) (w : World) : World :=
  match bar with
  | Some progressBar =>
      on_page (mutate progressBar
                 (λ e, set_style (<["opacity" := "0.3"]> (style e)) e)) w
  | None => w
  end.

(** [decorateSummaryBox(summaryBox)] for the box at a path of the document.
    A box that holds a marker is left alone.  Otherwise the box is
    decorated, and when motion is not reduced the first timer is set for
    its progress bar, the second of the two children appended. *)
Definition decorateSummaryBox_timed (summaryBox : Path) (w : World) : World :=
  match get summaryBox (document (page w)) with
  | Some box =>
      match Element_querySelector summary_icon box with
      | Some _ => w
      | None =>
          let reduced := reducedMotion (page w) in
          let progressBar := summaryBox ++ [S (length (children box))] in
          let w := on_page (mutate summaryBox (decorateSummaryBox reduced)) w in
          if reduced then w
          else (setTimeout (ShowProgress (Some progressBar)) 100 w).2
      end
  | None => w
  end.

(** [enhanceNewElements()]: the boxes that [querySelectorAll] finds are
    decorated one after the other. *)
Definition enhanceNewElements_timed (w : World) : World :=
  foldl (λ w summaryBox, decorateSummaryBox_timed summaryBox w) w
        (querySelectorAll CONFIG.selectors.summaryBox (document (page w))).

Definition call_func (f : DebouncedFunc) (w : World) : World :=
  match f with
  | EnhanceFunc => enhanceNewElements_timed w
  | ResizeFunc => on_page handleResize_func w
  end.

(** [later]: clear the (already fired) timer and call [func]. *)
Definition later (c : nat) (w : World) : World :=
  match closures w !! c with
  | Some cl =>
      let w := clearTimeout (timeout cl) w in
      call_func (func cl) (record (Called (func cl) c) w)
  | None => w
  end.

(** *** The mutation observer *)

Inductive Node :=
  | ElementNode (e : Element)
  | OtherNode.              (* text, comment, ... *)

Record MutationRecord := mkMutationRecord {
  type : string;
  addedNodes : list Node }.

Definition relevant_node (node : Node) : bool :=
  match node with
  | ElementNode e =>
      matches CONFIG.selectors.summaryBox e
      || bool_decide (is_Some (Element_querySelector CONFIG.selectors.summaryBox e))
  | OtherNode => false
  end.

(** The flag the observer's callback computes over a batch of records. *)
Definition shouldEnhance (mutations : list MutationRecord) : bool :=
  existsb (λ mutation,
             bool_decide (type mutation = "childList")
             && bool_decide (0 < length (addedNodes mutation))%nat
             && existsb relevant_node (addedNodes mutation))
          mutations.

Definition observer_callback (mutations : list MutationRecord) (w : World) : World :=
  match mutationObserver w with
  | Some o =>
      if connected o && shouldEnhance mutations
      then executedFunction (debouncedEnhance o) w
      else w
  | None => w
  end.

(** A new debounced function and a new observer replace the old observer,
    which is disconnected.  Which subtree is observed is the host's
    business here: the records it delivers are an input of the model. *)
Definition setupMutationObserver (w : World) : World :=
  let '(debouncedEnhance, w) := debounce EnhanceFunc 250 w in
  set_mutationObserver (Some (mkObserver true debouncedEnhance)) w.

Definition cleanup (w : World) : World :=
  match mutationObserver w with
  | Some o => set_mutationObserver (Some (mkObserver false (debouncedEnhance o))) w
  | None => w
  end.

(** *** Event handlers *)

Definition addEventListener (l : Listener) (p : Page) : Page :=
  set_listeners (listeners p ++ [l]) p.

Definition attachEventHandlers (p : Page) : Page :=
  let p := addEventListener OnClick p in
  let p := addEventListener OnKeydown p in
  let p := addEventListener OnThemeChanged p in
  addEventListener OnSidebarToggled p.

Definition click_handler (target : Element) (p : Page) : Page :=
  let p := if matches CONFIG.selectors.themeToggle target then toggleTheme p else p in
  if matches CONFIG.selectors.sidebarToggle target then toggleSidebar p else p.

Record KeyboardEvent := mkKeyboardEvent {
  ctrlKey : bool; metaKey : bool; shiftKey : bool; key : string }.

Definition keydown_handler (e : KeyboardEvent) (p : Page) : Page :=
  let p := if (ctrlKey e || metaKey e) && shiftKey e && bool_decide (key e = "T")
           then toggleTheme p else p in
  if (ctrlKey e || metaKey e) && shiftKey e && bool_decide (key e = "S")
  then toggleSidebar p else p.

(** ** Exceptions *)

(** A computation ends normally with a value or throws; either way it leaves
    a world behind. *)
Inductive Outcome (A : Type) :=
  | Normal (a : A) (w : World)
  | Thrown (error : string) (w : World).
Arguments Normal {A} a w.
Arguments Thrown {A} error w.

Definition M (A : Type) : Type := World → Outcome A.

Definition ret {A} (a : A) : M A := λ w, Normal a w.

Definition bind {A B} (m : M A) (k : A → M B) : M B :=
  λ w, match m w with
       | Normal a w' => k a w'
       | Thrown e w' => Thrown e w'
       end.

Notation "x ←$ m ; k" := (bind m (λ x, k))
  (at level 20, m at level 100, k at level 200, only parsing, right associativity).
Notation "m ;; k" := (bind m (λ _, k))
  (at level 100, k at level 200, only parsing, right associativity).

Definition run0 (f : World → World) : M unit := λ w, Normal tt (f w).
Definition run1 {A} (f : World → A * World) : M A :=
  λ w, let '(a, w') := f w in Normal a w'.
Definition read {A} (f : World → A) : M A := λ w, Normal (f w) w.

(** [try { body } catch (error) { handler }] *)
Definition try_catch {A} (body : M A) (handler : string → M A) : M A :=
  λ w, match body w with
       | Normal a w' => Normal a w'
       | Thrown e w' => handler e w'
       end.

Definition world_of {A} (o : Outcome A) : World :=
  match o with Normal _ w => w | Thrown _ w => w end.

(** ** Initialization *)

Section Script.
(** Where the host environment makes a statement of [initUI] throw:
    [faults n w] is the error that statement [n] of the [try] block raises
    when it is reached in world [w], if any.  A statement that throws is
    taken to throw before it has changed anything. *)
Context (faults : nat → World → option string).

Definition statement {A} (n : nat) (m : M A) : M A :=
  λ w, match faults n w with
       | Some error => Thrown error w
       | None => m w
       end.

Definition initUI_body : M unit :=
  savedTheme ←$ statement 1 (read (λ w, getTheme (page w)));
  statement 2 (run0 (on_page (setTheme savedTheme)));;
  statement 3 (run0 (on_page applySavedSidebarState));;
  statement 4 (run0 enhanceNewElements_timed);;
  statement 5 (run0 setupMutationObserver);;
  statement 6 (run0 (on_page attachEventHandlers));;
  handleResize ←$ statement 7 (run1 (debounce ResizeFunc 250));
  statement 8 (run0 (on_page (addEventListener (OnResize handleResize))));;
  statement 9 (run0 (executedFunction handleResize));;
  statement 10 (run0 (on_page (console_write
                                 (Log "AI Research Agent Dashboard initialized")))).

Definition initUI : M unit :=
  run0 (record InitUI);;
  try_catch initUI_body
    (λ error, run0 (on_page (console_write
                               (Error ("Error initializing UI: " ++ error))))).

(** *** The start-up poll *)

Definition initialized_marker : string := "data-ai-agent-initialized".

(** The body of the [streamlitReady] interval. *)
Definition poll_tick : M unit :=
  λ w,
    match querySelector CONFIG.selectors.app (document (page w)) with
    | Some appElement =>
        if from_option (λ e, negb (hasAttribute initialized_marker e)) false
                       (get appElement (document (page w)))
        then
          (run0 (record Sighted);;
           run0 (on_page (mutate appElement
                            (setAttribute initialized_marker "true")));;
           initUI;;
           run0 (λ w, clearInterval (streamlitReady w) w)) w
        else Normal tt w
    | None => Normal tt w
    end.

Definition poll_abandon : M unit :=
  run0 (λ w, clearInterval (streamlitReady w) w).

(** What the script does when it is loaded: [loading] says whether
    [document.readyState] is ['loading'] at that moment. *)
Definition script_load (loading : bool) : M unit :=
  run0 (on_page (addEventListener OnBeforeUnload));;
  (if loading then run0 (on_page (addEventListener OnDOMContentLoaded))
   else initUI);;
  h ←$ run1 (setInterval PollTick 500);
  run0 (set_streamlitReady (Some h));;
  _h ←$ run1 (setTimeout PollAbandon 10000);
  ret tt.

(** ** The event loop *)

Definition run_callback (cb : Callback) : M unit :=
  match cb with
  | Later c => run0 (later c)
  | PollTick => poll_tick
  | PollAbandon => poll_abandon
  | ShowProgress bar => run0 (show_progress bar)
  | FadeProgress bar => run0 (fade_progress bar)
  end.

(** Timers run in order of due time.  Which of two timers that are due at
    the same time runs first is up to the host: [ties a b] says whether it
    is [a]. *)
Context (ties : Timer → Timer → bool).

Definition before (a b : Timer) : bool :=
  bool_decide (due a < due b)%Z || (bool_decide (due a = due b) && ties a b).

Fixpoint earliest (ts : list Timer) : option Timer :=
  match ts with
  | [] => None
  | t :: ts' =>
      match earliest ts' with
      | Some m => if before m t then Some m else Some t
      | None => Some t
      end
  end.

(** A one-shot timer leaves the table when it fires; an interval is due
    again one period later. *)
Definition reschedule (tm : Timer) (ts : list Timer) : list Timer :=
  match period tm with
  | Some d =>
      (λ t, if decide (handle t = handle tm)
            then mkTimer (handle t) (due t + d) (period t) (callback t)
            else t) <$> ts
  | None => filter (λ t, handle t ≠ handle tm) ts
  end.

(** An exception that escapes a timer callback ends that callback only. *)
Definition fire (tm : Timer) (w : World) : World :=
  let w := set_now (Z.max (now w) (due tm)) w in
  let w := set_timers (reschedule tm (timers w)) w in
  let w := record (TimerFired (callback tm)) w in
  world_of (run_callback (callback tm) w).

(** Run every timer due by time [T], then let the clock reach [T]. *)
Fixpoint run_until (fuel : nat) (T : Z) (w : World) : option World :=
  match earliest (timers w) with
  | Some tm =>
      if bool_decide (due tm ≤ T)%Z then
        match fuel with
        | O => None
        | S fuel' => run_until fuel' T (fire tm w)
        end
      else Some (set_now (Z.max (now w) T) w)
  | None => Some (set_now (Z.max (now w) T) w)
  end.

(** What the host page and the user do to the script.  A mutation is what
    it makes of the document, where it leaves the nodes that were there
    ([moved] gives the new path of the node at a path, or [None] when the
    node is taken out of the document), and the records the observer is
    handed. *)
Inductive HostEvent :=
  | Mutate (change : Element → Element) (moved : Path → option Path)
           (records : list MutationRecord)
  | Resize (width : Z)
  | DOMContentLoaded
  | Click (target : Element)
  | Keydown (e : KeyboardEvent)
  | BeforeUnload.

Definition for_each_listener (f : Listener → World → World) (w : World) : World :=
  foldl (λ w l, f l w) w (listeners (page w)).

(** The progress bars that pending timers hold go where the host moves
    them. *)
Definition retarget (moved : Path → option Path) (tm : Timer) : Timer :=
  match callback tm with
  | ShowProgress bar =>
      mkTimer (handle tm) (due tm) (period tm) (ShowProgress (bar ≫= moved))
  | FadeProgress bar =>
      mkTimer (handle tm) (due tm) (period tm) (FadeProgress (bar ≫= moved))
  | _ => tm
  end.

Definition follow (moved : Path → option Path) (w : World) : World :=
  set_timers (retarget moved <$> timers w) w.

Definition handle_event (ev : HostEvent) (w : World) : World :=
  match ev with
  | Mutate change moved records =>
      observer_callback records
        (follow moved (on_page (λ p, set_document (change (document p)) p) w))
  | Resize width =>
      for_each_listener
        (λ l w, match l with OnResize c => executedFunction c w | _ => w end)
        (on_page (set_innerWidth width) w)
  | DOMContentLoaded =>
      for_each_listener
        (λ l w, match l with OnDOMContentLoaded => world_of (initUI w) | _ => w end)
        w
  | Click target =>
      for_each_listener
        (λ l w, match l with OnClick => on_page (click_handler target) w | _ => w end)
        w
  | Keydown e =>
      for_each_listener
        (λ l w, match l with OnKeydown => on_page (keydown_handler e) w | _ => w end)
        w
  | BeforeUnload =>
      for_each_listener
        (λ l w, match l with OnBeforeUnload => cleanup w | _ => w end)
        w
  end.

(** Host events arrive at the given times; the timers due by then run
    first. *)
Fixpoint simulate (fuel : nat) (evs : list (Z * HostEvent)) (w : World)
  : option World :=
  match evs with
  | [] => Some w
  | (t, ev) :: evs' =>
      match run_until fuel t w with
      | Some w' => simulate fuel evs' (handle_event ev w')
      | None => None
      end
  end.
End Script.

(** The environment in which nothing throws. *)
Definition no_faults : nat → World → option string := λ _ _, None.

(** Two hosts that differ in how they break ties: of two timers due at the
    same time the first runs the one with the lower handle first, the
    second the one with the higher handle. *)
Definition lower_handle_first (a b : Timer) : bool :=
  bool_decide (handle a < handle b)%nat.

Definition higher_handle_first (a b : Timer) : bool :=
  bool_decide (handle b < handle a)%nat.

(** A freshly loaded page: nothing pending, nothing logged. *)
Definition boot (p : Page) : World :=
  mkWorld p 0 1 [] [] None None [].

(** ** Notions the statements below are phrased in *)

(** The number of elements matching [sel] inside [e], as
    [e.querySelectorAll(sel).length] counts them. *)
Definition inside (sel : Selector) (e : Element) : nat :=
  length (descendants sel e).

(** An attribute of the app root, when there is a root and it has one. *)
Definition root_attribute (k : string) (p : Page) : option string :=
  path ← querySelector CONFIG.selectors.app (document p);
  e ← get path (document p);
  attributes e !! k.

(** Whether the sidebar carries the [collapsed] class, when there is a
    sidebar. *)
Definition sidebar_collapsed (p : Page) : option bool :=
  path ← querySelector CONFIG.selectors.sidebar (document p);
  e ← get path (document p);
  Some (contains "collapsed" (classList e)).

(** The string the script stores for a boolean. *)
Definition encode (b : bool) : string := if b then "true" else "false".

(** A reload: a new document and a clean page over the storage that was
    there. *)
Definition reload (doc : Element) (reduced : bool) (width : Z) (old : Page) : Page :=
  mkPage doc (storage old) [] [] [] reduced width.

(** The enhancement pass written by recursion on the tree: a box is
    decorated when its subtree, as it was before the pass, holds no marker;
    the pass then goes on into the children that were there. *)
Fixpoint enhance_rec (reduced : bool) (e : Element) : Element :=
  match e with
  | mkElement tag cl attrs st text ks =>
      let ks' := map (enhance_rec reduced) ks in
      if contains "summary-box" cl then
        match head (paths_from (querySelectorAll summary_icon) 0 ks) with
        | Some _ => mkElement tag cl attrs st text ks'
        | None =>
            mkElement tag cl attrs (<["position" := "relative"]> st) text
                      (ks' ++ [icon; progressBar reduced])
        end
      else mkElement tag cl attrs st text ks'
  end.

(** The times at which a debounced [enhanceNewElements] ran. *)
Definition enhance_passes (w : World) : list Z :=
  omap (λ '(t, item), match item with Called EnhanceFunc _ => Some t | _ => None end)
       (trace w).

(** The times at which the poll looked at the page, and the times at which
    [initUI] was entered. *)
Definition poll_ticks (w : World) : list Z :=
  omap (λ '(t, item), match item with TimerFired PollTick => Some t | _ => None end)
       (trace w).

Definition activations (w : World) : list Z :=
  omap (λ '(t, item), match item with InitUI => Some t | _ => None end) (trace w).

(** The times at which the poll found an app root without the marker. *)
Definition sightings (w : World) : list Z :=
  omap (λ '(t, item), match item with Sighted => Some t | _ => None end) (trace w).

(** The theme [setTheme] settles on. *)
Definition settled (theme : string) : string :=
  if includes theme CONFIG.themes then theme else CONFIG.defaultTheme.

Definition warning (theme : string) : list LogEntry :=
  if includes theme CONFIG.themes then []
  else [Warn ("Invalid theme: " ++ theme ++ ". Using default.")].

(** The class change a toggle makes on the sidebar. *)
Definition flip_collapsed (c : bool) : Element → Element :=
  if c then classList_remove "collapsed" else classList_add "collapsed".

(** *** Example pages *)

Definition plain (tag : string) (classes : list string) (ks : list Element) : Element :=
  mkElement tag classes ∅ ∅ "" ks.

(** A page with an app root that holds a sidebar and two summary boxes. *)
Definition dashboard : Element :=
  plain "html" []
    [plain "body" []
       [plain "div" ["stApp"]
          [plain "section" ["stSidebar"] [];
           plain "div" ["summary-box"] [plain "p" [] []];
           plain "div" ["summary-box"] []]]].

(** A page the host has not rendered the app into yet. *)
Definition blank : Element := plain "html" [] [plain "body" [] []].

Definition page_of (doc : Element) (stored : list (string * string)) : Page :=
  mkPage doc (list_to_map stored) [] [] [] false 1280.

(** *** Notions for the enhancement pass *)

(** One step of [forEach]: the box at a path is decorated in place. *)
Definition visit (reduced : bool) (d : Element) (box : Path) : Element :=
  update box (decorateSummaryBox reduced) d.

(** [n] passes in a row. *)
Definition passes (n : nat) (reduced : bool) (doc : Element) : Element :=
  Nat.iter n (enhance reduced) doc.

(** A box that holds no marker, no progress bar and no other box. *)
Definition undecorated (e : Element) : Prop :=
  inside summary_icon e = 0%nat
  ∧ inside summary_progress e = 0%nat
  ∧ inside CONFIG.selectors.summaryBox e = 0%nat.

(** Every box of the document holds exactly one marker and exactly one
    progress bar. *)
Definition decorated_once (doc : Element) : Prop :=
  ∀ p e,
    p ∈ querySelectorAll CONFIG.selectors.summaryBox doc →
    get p doc = Some e →
    inside summary_icon e = 1%nat ∧ inside summary_progress e = 1%nat.

(** A box in which the host page already put an element of class
    [summary-icon], and a box inside a box. *)
Definition premarked : Element :=
  plain "html" [] [plain "div" ["summary-box"] [plain "span" ["summary-icon"] []]].

Definition nested : Element :=
  plain "html" [] [plain "div" ["summary-box"] [plain "div" ["summary-box"] []]].

(** The summary boxes of the document. *)
Definition boxes (w : World) : list Path :=
  querySelectorAll CONFIG.selectors.summaryBox (document (page w)).

(** The progress bars' timers that a pass sets: one-shot timers, due
    100 ms on, with the handles from [h] on. *)
Definition progress_timers (h : nat) (t : Z) (news : list Timer) : Prop :=
  ∀ i tm, news !! i = Some tm →
          ∃ bar, tm = mkTimer (h + i) (t + 100) None (ShowProgress (Some bar)).

(** *** Reasoning about computations that may throw *)

(** From a world satisfying [P], the computation [m] ends normally in a
    world satisfying [Q], or throws in a world satisfying [E]. *)
Definition triple {A} (P : World → Prop) (m : M A)
    (Q : A → World → Prop) (E : World → Prop) : Prop :=
  ∀ w, P w → match m w with
             | Normal a w' => Q a w'
             | Thrown _ w' => E w'
             end.

(** The environment in which one statement of [initUI] throws. *)
Definition fault_at (n : nat) (error : string) : nat → World → option string :=
  λ m _, if decide (m = n) then Some error else None.

(** *** Notions for the debounce *)

(** A burst of mutations: when it happens, what it does to the document,
    where it leaves the nodes that were there, and the records the observer
    is handed. *)
Record Burst := mkBurst {
  at_time : Z;
  change : Element → Element;
  moved : Path → option Path;
  records : list MutationRecord }.

Definition burst_event (b : Burst) : Z * HostEvent :=
  (at_time b, Mutate (change b) (moved b) (records b)).

(** Each time is at or after the one before and within the debounce window
    of it. *)
Fixpoint chained (t : Z) (ts : list Z) : Prop :=
  match ts with
  | [] => True
  | t' :: ts' => (t ≤ t' < t + 250)%Z ∧ chained t' ts'
  end.

(** A pending timer that runs neither an enhancement pass nor an
    activation: the [later] of a debounced resize handler, the timeout of
    the poll, or one of the timers that animate a progress bar. *)
Definition harmless (w : World) (tm : Timer) : Prop :=
  period tm = None
  ∧ ((∃ c cl, callback tm = Later c ∧ closures w !! c = Some cl
              ∧ func cl = ResizeFunc)
     ∨ callback tm = PollAbandon
     ∨ (∃ bar, callback tm = ShowProgress bar)
     ∨ (∃ bar, callback tm = FadeProgress bar)).

(** What is left of the timers when [h] is cleared. *)
Definition drop (h : option nat) (ts : list Timer) : list Timer :=
  match h with
  | Some h => filter (λ t, handle t ≠ h) ts
  | None => ts
  end.

(** The observer is connected with the debounced function [c], and nothing
    that could run an enhancement pass or set the observer up again is
    pending: no [later] of an enhancement and no tick of the poll, every
    pending timer is harmless.  Handles in use are below the next one to be
    given out. *)
Definition observing (c : nat) (w : World) : Prop :=
  mutationObserver w = Some (mkObserver true c)
  ∧ (∃ h, closures w !! c = Some (mkClosure EnhanceFunc 250 h))
  ∧ (∀ tm, tm ∈ timers w → harmless w tm ∧ (handle tm < next_handle w)%nat)
  ∧ (∀ c' cl g, closures w !! c' = Some cl → timeout cl = Some g →
                (g < next_handle w)%nat)
  ∧ (∀ sid, streamlitReady w = Some sid → (sid < next_handle w)%nat).

(** Only harmless timers are pending. *)
Definition calm (w : World) : Prop :=
  ∀ tm, tm ∈ timers w → harmless w tm.

(** The dashboard 600 ms after the script was loaded: the poll has seen the
    app root at 500 ms and activated; its timeout and the [later] of the
    resize handler are still pending. *)
Definition running : World :=
  default (boot (page_of dashboard []))
    (run_until no_faults lower_handle_first 30 600
       (world_of (script_load no_faults false (boot (page_of dashboard []))))).

(** A relevant record: a summary box was added. *)
Definition box_added : list MutationRecord :=
  [mkMutationRecord "childList" [ElementNode (plain "div" ["summary-box"] [])]].

(** What [observing] and [armed] worlds have in common: once the [later] of
    [c] that may be pending, [h], is cleared, only harmless timers are
    pending. *)
Definition ready (c : nat) (h : option nat) (w : World) : Prop :=
  mutationObserver w = Some (mkObserver true c)
  ∧ closures w !! c = Some (mkClosure EnhanceFunc 250 h)
  ∧ (∀ tm, tm ∈ drop h (timers w) →
           harmless w tm ∧ (handle tm < next_handle w)%nat)
  ∧ (∀ c' cl g, c' ≠ c → closures w !! c' = Some cl → timeout cl = Some g →
                (g < next_handle w)%nat)
  ∧ (∀ sid, streamlitReady w = Some sid → (sid < next_handle w)%nat).

(** The pending timers with a given handle. *)
Definition with_handle (h : nat) (ts : list Timer) : list Timer :=
  filter (λ t, handle t = h) ts.

(** The debounced function [c] has its [later] pending, due at [d], under
    a handle that nothing else knows of. *)
Definition armed (c : nat) (d : Z) (w : World) : Prop :=
  ∃ h,
    with_handle h (timers w) = [mkTimer h d None (Later c)]
    ∧ ready c (Some h) w
    ∧ (h < next_handle w)%nat
    ∧ (∀ c' cl, c' ≠ c → closures w !! c' = Some cl → timeout cl ≠ Some h)
    ∧ streamlitReady w ≠ Some h.

(** What the pending timers can still cost: a timer that shows a progress
    bar sets another one, every other harmless timer just runs. *)
Definition cost (ts : list Timer) : nat :=
  sum_list_with (λ tm, match callback tm with ShowProgress _ => 2 | _ => 1 end)%nat
                ts.

(** The scenario of the specification: five bursts, 50 ms apart, here from
    1 s after loading on. *)
Definition five_bursts : list Burst :=
  map (λ t, mkBurst t (appendChild (plain "div" ["summary-box"] [])) Some box_added)
      [1000; 1050; 1100; 1150; 1200]%Z.

(** *** Notions for the start-up poll *)

(** The first [k] ticks of a 500 ms interval started at time 0. *)
Definition ticks_upto (k : nat) : list Z :=
  map (λ i, 500 * Z.of_nat i)%Z (seq 1 k).

Definition interval_timer (sid : nat) (k : nat) : Timer :=
  mkTimer sid (500 * Z.of_nat (S k)) (Some 500%Z) PollTick.

Definition abandon_timer (sid : nat) : Timer :=
  mkTimer (S sid) 10000 None PollAbandon.

(** A timer of the script that is not one of the poll's two: it runs
    once, and what it runs is the [later] of a debounced function or one
    of the two steps that animate a progress bar. *)
Definition one_shot (tm : Timer) : Prop :=
  period tm = None ∧ callback tm ≠ PollTick ∧ callback tm ≠ PollAbandon.

(** The poll's timers are [sid] (the interval) and [S sid] (the timeout).
    Everything else that is pending is a one-shot timer; no closure holds
    one of the poll's handles; handles in use are below the next one to be
    given out; and nothing pending is overdue. *)
Definition poll_sane (sid : nat) (w : World) : Prop :=
  streamlitReady w = Some sid
  ∧ (S sid < next_handle w)%nat
  ∧ (∀ tm, tm ∈ timers w → handle tm ≠ sid → handle tm ≠ S sid → one_shot tm)
  ∧ (∀ c cl g, closures w !! c = Some cl → timeout cl = Some g →
               g ≠ sid ∧ g ≠ S sid)
  ∧ (∀ c cl, closures w !! c = Some cl → (0 ≤ wait cl)%Z)
  ∧ (∀ tm, tm ∈ timers w → (now w ≤ due tm)%Z).

(** What the poll has of its own in a world. *)
Definition poll_view (sid : nat) (w : World)
  : list Timer * list Timer * list Z * list Z :=
  (with_handle sid (timers w), with_handle (S sid) (timers w),
   poll_ticks w, sightings w).

(** A sane world with a given view and clock. *)
Definition held (sid : nat) (v : list Timer * list Timer * list Z * list Z)
    (n : Z) (w : World) : Prop :=
  poll_sane sid w ∧ poll_view sid w = v ∧ now w = n.

(** Where the poll stands after [k] ticks: still polling, with the next
    tick and the timeout pending; or stopped, by the timeout with nothing
    seen, which takes 10 s and comes after 19 ticks at least; or stopped by
    the one sighting it made, at its last tick. *)
Definition poll_phase (sid : nat) (k : nat) (w : World) : Prop :=
  poll_ticks w = ticks_upto k
  ∧ (k ≤ 20)%nat
  ∧ ((with_handle sid (timers w) = [interval_timer sid k]
      ∧ with_handle (S sid) (timers w) = [abandon_timer sid]
      ∧ sightings w = [])
     ∨ (with_handle sid (timers w) = []
        ∧ ((sightings w = [] ∧ with_handle (S sid) (timers w) = []
            ∧ (19 ≤ k)%nat ∧ (10000 ≤ now w)%Z)
           ∨ (sightings w = [500 * Z.of_nat k]%Z ∧ (1 ≤ k)%nat
              ∧ (with_handle (S sid) (timers w) = [abandon_timer sid]
                 ∨ with_handle (S sid) (timers w) = []))))).

Definition poll_inv (sid : nat) (w : World) : Prop :=
  poll_sane sid w ∧ ∃ k, poll_phase sid k w.

(** How many timers a pending timer can still make run, itself included,
    when there are [n] summary boxes: a [later] may run a pass, which sets
    a timer for every box it decorates, and each of those sets another one;
    a tick of the poll comes again every 500 ms, and the one that sights
    the root runs a pass and calls the resize handler. *)
Definition weight (n : nat) (tm : Timer) : nat :=
  match callback tm with
  | Later _ => 1 + 2 * n
  | PollTick => 2 + 4 * n + Z.to_nat (10500 - due tm)
  | PollAbandon => 1
  | ShowProgress _ => 2
  | FadeProgress _ => 1
  end%nat.

(** How many more timers can fire at most. *)
Definition poll_budget (w : World) : nat :=
  sum_list_with (weight (length (boxes w))) (timers w).

(** The host renders the app root into the body. *)
Definition render_app (doc : Element) : Element :=
  update [0%nat] (appendChild (plain "div" ["stApp"] [])) doc.

(** The world a tick of the poll leaves when it finds the app root at
    [appElement] without the marker. *)
Definition after_sighting (faults : nat → World → option string)
    (appElement : Path) (w : World) : World :=
  let w' :=
    world_of (initUI faults
                (on_page (mutate appElement (setAttribute initialized_marker "true"))
                         (record Sighted w))) in
  clearInterval (streamlitReady w') w'.

(** Whether a tick of the poll would find an app root without the marker,
    and where. *)
Definition unmarked_root (w : World) : option Path :=
  match querySelector CONFIG.selectors.app (document (page w)) with
  | Some appElement =>
      if from_option (λ e, negb (hasAttribute initialized_marker e)) false
                     (get appElement (document (page w)))
      then Some appElement else None
  | None => None
  end.

(** An interval one period later. *)
Definition bump (tm : Timer) (d : Z) (t : Timer) : Timer :=
  if decide (handle t = handle tm)
  then mkTimer (handle t) (due t + d) (period t) (callback t)
  else t.

(** A world before the poll is started: every pending timer is a one-shot
    timer, handles in use are below the next one to be given out, the clock
    is at 0 and the poll has left no trace. *)
Definition tidy (w : World) : Prop :=
  (∀ tm, tm ∈ timers w →
         (handle tm < next_handle w)%nat ∧ one_shot tm ∧ (now w ≤ due tm)%Z)
  ∧ (∀ c cl g, closures w !! c = Some cl → timeout cl = Some g →
               (g < next_handle w)%nat)
  ∧ (∀ c cl, closures w !! c = Some cl → (0 ≤ wait cl)%Z)
  ∧ now w = 0%Z ∧ poll_ticks w = [] ∧ sightings w = [].

(** No tick of the poll is pending. *)
Definition poll_stopped (w : World) : Prop :=
  ∀ tm, tm ∈ timers w → callback tm ≠ PollTick.

(** The next tick of the poll is pending: the interval, due at
    [500 * (k + 1)]. *)
Definition tick_pending (k : nat) (w : World) : Prop :=
  ∃ tm, tm ∈ timers w ∧ callback tm = PollTick ∧ period tm = Some 500%Z
        ∧ due tm = (500 * Z.of_nat (S k))%Z.

(** What the trace and the timers say about the poll when the timers due
    by [T] have run.  It ticked [k] times, at 500 ms, 1000 ms and so on,
    at most 20 times and so never after 10 s.  It sighted an unmarked root
    at most once, at its last tick, after which no tick is pending; and no
    tick is pending once 10 s have passed.  As long as it has sighted
    nothing it has missed no tick: the tick after the last one is still to
    come at [T], or there have been 19 ticks, which takes it to 9.5 s
    (whether the tick due at 10 s runs before the timeout due at the same
    time is up to the host).  And as long as it has sighted nothing and the
    clock has not reached 10 s, the next tick is pending. *)
Definition poll_history (T : Z) (w : World) : Prop :=
  ∃ k, (k ≤ 20)%nat
       ∧ poll_ticks w = ticks_upto k
       ∧ (sightings w = [] ∨ (sightings w = [500 * Z.of_nat k]%Z ∧ (1 ≤ k)%nat))
       ∧ (sightings w ≠ [] → poll_stopped w)
       ∧ (10000 ≤ T → poll_stopped w)%Z
       ∧ (sightings w = [] → (T < 500 * Z.of_nat (S k))%Z ∨ (19 ≤ k)%nat)
       ∧ (sightings w = [] → (now w < 10000)%Z → tick_pending k w).

(** The host renders the app root 1.2 s after the script is loaded. *)
Definition late_render : list (Z * HostEvent) :=
  [(1200%Z, Mutate render_app Some [])].

(** Reduce the projections of an updated world, and nothing else. *)
Ltac fields :=
  cbn [page now next_handle timers closures mutationObserver streamlitReady trace
       record on_page set_page set_now set_next_handle set_timers set_closures
       set_mutationObserver set_streamlitReady set_trace].

(** Two relevant bursts, 150 ms apart, on either side of the poll's tick at
    500 ms. *)
Definition straddling : list Burst :=
  [mkBurst 400 (appendChild (plain "div" ["summary-box"] [])) Some box_added;
   mkBurst 550 (appendChild (plain "div" ["summary-box"] [])) Some box_added].

(** The statements of [initUI] that write the document and the storage:
    the saved theme and sidebar state are applied and the boxes decorated. *)
Definition restore (p : Page) : Page :=
  enhanceNewElements (applySavedSidebarState (setTheme (getTheme p) p)).

(** How many of the listeners are click listeners of [attachEventHandlers]. *)
Fixpoint click_listeners (ls : list Listener) : nat :=
  match ls with
  | [] => 0
  | OnClick :: ls' => S (click_listeners ls')
  | _ :: ls' => click_listeners ls'
  end.

(** How many of the listeners are [DOMContentLoaded] listeners, and how
    many of the host's events are [DOMContentLoaded] events. *)
Fixpoint ready_listeners (ls : list Listener) : nat :=
  match ls with
  | [] => 0
  | OnDOMContentLoaded :: ls' => S (ready_listeners ls')
  | _ :: ls' => ready_listeners ls'
  end.

Fixpoint ready_events (evs : list (Z * HostEvent)) : nat :=
  match evs with
  | [] => 0
  | (_, DOMContentLoaded) :: evs' => S (ready_events evs')
  | _ :: evs' => ready_events evs'
  end.

(** The entries into [initUI] are accounted for: [n] of them were made at
    load time or for a [DOMContentLoaded] event, and each of the others
    goes with a sighting of the poll.  [d] is the number of
    [DOMContentLoaded] listeners. *)
Definition accounted (d n : nat) (w : World) : Prop :=
  ready_listeners (listeners (page w)) = d
  ∧ length (activations w) = (n + length (sightings w))%nat.

(** What a timer callback adds to the trace after the entry for the timer
    itself, when it runs at time [t] in world [w]. *)
Definition callback_items (cb : Callback) (t : Z) (w : World)
  : list (Z * TraceItem) :=
  match cb with
  | Later c =>
      match closures w !! c with
      | Some cl => [(t, Called (func cl) c)]
      | None => []
      end
  | PollTick =>
      match unmarked_root w with
      | Some _ => [(t, Sighted); (t, InitUI)]
      | None => []
      end
  | PollAbandon | ShowProgress _ | FadeProgress _ => []
  end.

(** The app root is where it was, marked or not as it was. *)
Definition same_root (p p' : Page) : Prop :=
  querySelector CONFIG.selectors.app (document p')
  = querySelector CONFIG.selectors.app (document p)
  ∧ root_attribute initialized_marker p' = root_attribute initialized_marker p.

(** When the host does nothing after the script is loaded, a debounced
    call is due within the 250 ms of its window, the first step of a
    progress bar 100 ms after the pass that set it, and the second step
    300 ms after the first. *)
Definition latest (cb : Callback) : Z :=
  match cb with
  | Later _ => 250
  | ShowProgress _ => 350
  | FadeProgress _ => 650
  | PollTick | PollAbandon => 10000
  end.

(** At load time: the clock is at 0 and whatever is pending is due within
    those bounds. *)
Definition prompt (w : World) : Prop :=
  now w = 0%Z
  ∧ (∀ tm, tm ∈ timers w → (due tm ≤ latest (callback tm))%Z)
  ∧ (∀ c cl, closures w !! c = Some cl → (wait cl ≤ 250)%Z).

(** The poll has ticked [k] times without a sighting, its next tick comes
    before its timeout, and that tick will find an unmarked app root. *)
Definition before_sighting (sid : nat) (first : list Z) (k : nat) (w : World)
  : Prop :=
  poll_ticks w = ticks_upto k ∧ sightings w = [] ∧ activations w = first
  ∧ is_Some (unmarked_root w)
  ∧ (k < 19)%nat
  ∧ with_handle sid (timers w) = [interval_timer sid k].

(** The poll has sighted the root at tick [S k], which was its last. *)
Definition sighted_at (first : list Z) (k : nat) (w : World) : Prop :=
  poll_ticks w = ticks_upto (S k)
  ∧ sightings w = [(500 * Z.of_nat (S k))%Z]
  ∧ activations w = first ++ [(500 * Z.of_nat (S k))%Z]
  ∧ root_attribute initialized_marker (page w) = Some "true".

(** There is no unmarked app root for the poll to see, and it has seen
    none: what is pending besides the poll is due early, the poll's next
    tick is at most 500 ms away, and the timeout is still to come or has
    stopped the poll, after the tick of 9.5 s or after the tick of 10 s. *)
Definition nothing_to_see (sid : nat) (first : list Z) (w : World) : Prop :=
  unmarked_root w = None ∧ sightings w = [] ∧ activations w = first
  ∧ (∀ tm, tm ∈ timers w → handle tm ≠ sid → handle tm ≠ S sid →
           (due tm ≤ latest (callback tm))%Z)
  ∧ (∀ tm, tm ∈ with_handle sid (timers w) → (due tm ≤ now w + 500)%Z)
  ∧ (with_handle (S sid) (timers w) = [abandon_timer sid]
     ∨ ((poll_ticks w = ticks_upto 19 ∨ poll_ticks w = ticks_upto 20)
        ∧ with_handle sid (timers w) = []
        ∧ (10000 ≤ now w)%Z)).

(** How many of the listeners are keydown listeners of
    [attachEventHandlers]. *)
Fixpoint keydown_listeners (ls : list Listener) : nat :=
  match ls with
  | [] => 0
  | OnKeydown :: ls' => S (keydown_listeners ls')
  | _ :: ls' => keydown_listeners ls'
  end.

(** Whether a key event is one of the two shortcuts' modifier chord:
    Ctrl or Cmd, with Shift. *)
Definition chord (e : KeyboardEvent) : bool :=
  (ctrlKey e || metaKey e) && shiftKey e.

(** The stored theme is a member of the theme list and the app root
    carries it as its [data-theme]. *)
Definition theme_consistent (p : Page) : Prop :=
  ∃ theme, theme ∈ CONFIG.themes
           ∧ getItem CONFIG.storageKeys.theme p = Some theme
           ∧ root_attribute "data-theme" p = Some theme.

(** The three records of the sidebar state agree: the class of the
    sidebar, the attribute of the app root and the stored string. *)
Definition sidebar_consistent (p : Page) : Prop :=
  ∃ b, sidebar_collapsed p = Some b
       ∧ root_attribute "data-sidebar-collapsed" p = Some (encode b)
       ∧ getItem CONFIG.storageKeys.sidebarCollapsed p = Some (encode b).

(** Whether the sidebar has the class [mobile]; [None] when there is no
    sidebar. *)
Definition sidebar_mobile (p : Page) : option bool :=
  path ← querySelector CONFIG.selectors.sidebar (document p);
  e ← get path (document p);
  Some (contains "mobile" (classList e)).

(** The times at which the resize handler has been called. *)
Definition resize_calls (w : World) : list Z :=
  omap (λ '(t, item), match item with
                      | Called ResizeFunc _ => Some t
                      | _ => None
                      end) (trace w).

(** The call [handleResize()] that ends [initUI] at load time is still to
    come: its [later] is pending under the handle [h], due at 250 ms, and is
    the only [later] that is; the handler has not been called; the sidebar
    is [mobile] as [m] says and the window is [width] wide. *)
Definition resize_pending (h : nat) (m : option bool) (width : Z) (w : World)
  : Prop :=
  closures w !! 1%nat = Some (mkClosure ResizeFunc 250 (Some h))
  ∧ with_handle h (timers w) = [mkTimer h 250 None (Later 1)]
  ∧ (∀ tm, tm ∈ timers w → handle tm ≠ h → ∀ c, callback tm ≠ Later c)
  ∧ (h < next_handle w)%nat
  ∧ resize_calls w = []
  ∧ sidebar_mobile (page w) = m
  ∧ innerWidth (page w) = width.

(** That call has been made, at 250 ms, and no [later] is pending. *)
Definition resize_done (m : option bool) (width : Z) (w : World) : Prop :=
  (∀ tm, tm ∈ timers w → ∀ c, callback tm ≠ Later c)
  ∧ resize_calls w = [250%Z]
  ∧ sidebar_mobile (page w) = (λ _, bool_decide (width ≤ 768)%Z) <$> m.

(** ** The DOM: basic facts *)

Section ElementInduction.
Context (P : Element → Prop).
Hypothesis step : ∀ tag cl attrs st text ks,
    Forall P ks → P (mkElement tag cl attrs st text ks).

Fixpoint Element_ind' (e : Element) : P e :=
  match e with
  | mkElement tag cl attrs st text ks =>
      step tag cl attrs st text ks
        ((fix go (l : list Element) : Forall P l :=
            match l with
            | [] => List.Forall_nil P
            | k :: l' => List.Forall_cons P k l' (Element_ind' k) (go l')
            end) ks)
  end.
End ElementInduction.

Lemma querySelectorAll_unfold sel e :
  querySelectorAll sel e =
  (if matches sel e then [[]] else [])
    ++ paths_from (querySelectorAll sel) 0 (children e).
Proof. destruct e, sel; reflexivity. Qed.

Lemma paths_from_app F i l1 l2 :
  paths_from F i (l1 ++ l2) =
  paths_from F i l1 ++ paths_from F (i + length l1) l2.
Proof.
  revert i; induction l1 as [|k l1 IH]; intros i; simpl.
  - by rewrite Nat.add_0_r.
  - rewrite IH, <- app_assoc. do 2 f_equal. f_equal. lia.
Qed.

Lemma paths_from_alter F g i j ks :
  (∀ k, F (g k) = F k) → paths_from F j (alter g i ks) = paths_from F j ks.
Proof.
  intros Hg; revert i j; induction ks as [|k ks IH]; intros i j; [done|].
  destruct i as [|i]; simpl.
  - by rewrite Hg.
  - f_equal. apply IH.
Qed.

Lemma paths_from_nil F i ks :
  Forall (λ k, F k = []) ks → paths_from F i ks = [].
Proof.
  intros H; revert i; induction H as [|k ks Hk _ IH]; intros i; simpl; [done|].
  by rewrite Hk, IH.
Qed.

Lemma paths_from_nil_inv F i ks :
  paths_from F i ks = [] → Forall (λ k, F k = []) ks.
Proof.
  revert i; induction ks as [|k ks IH]; intros i; simpl; [constructor|].
  intros [H1 H2]%app_eq_nil. constructor; [|by eapply IH].
  by destruct (F k).
Qed.

(** A path that [paths_from] returns goes through one of the children. *)
Lemma elem_of_paths_from F i ks p :
  p ∈ paths_from F i ks ↔
  ∃ j k q, ks !! j = Some k ∧ q ∈ F k ∧ p = (i + j)%nat :: q.
Proof.
  revert i; induction ks as [|k ks IH]; intros i; simpl.
  - split; [by intros ?%elem_of_nil|]. by intros (j & k & q & ? & _).
  - rewrite elem_of_app, IH, list_elem_of_fmap. split.
    + intros [(q & -> & Hq)|(j & k' & q & Hj & Hq & ->)].
      * exists 0%nat, k, q. by rewrite Nat.add_0_r.
      * exists (S j), k', q. split_and!; [done..|f_equal; lia].
    + intros ([|j] & k' & q & Hj & Hq & ->); simpl in Hj.
      * left. exists q. injection Hj as ->. by rewrite Nat.add_0_r.
      * right. exists j, k', q. split_and!; [done..|f_equal; lia].
Qed.

(** Every path [querySelectorAll] returns leads to a matching element. *)
Lemma querySelectorAll_get sel e p :
  p ∈ querySelectorAll sel e → ∃ x, get p e = Some x ∧ matches sel x = true.
Proof.
  revert p; induction e as [tag cl attrs st text ks IH] using Element_ind'.
  intros p. rewrite querySelectorAll_unfold, elem_of_app. intros [Hp|Hp].
  - destruct (matches _ _) eqn:Hm; [|by apply elem_of_nil in Hp].
    apply list_elem_of_singleton in Hp as ->. eauto.
  - apply elem_of_paths_from in Hp as (j & k & q & Hj & Hq & ->). simpl in *.
    rewrite Hj. simpl. rewrite Forall_forall in IH.
    apply IH; [|done]. by eapply list_elem_of_lookup_2.
Qed.

Lemma querySelector_get sel doc p :
  querySelector sel doc = Some p → ∃ x, get p doc = Some x ∧ matches sel x = true.
Proof.
  unfold querySelector. intros H. apply querySelectorAll_get.
  destruct (querySelectorAll sel doc); simplify_eq/=. left.
Qed.

Lemma get_update p f e : get p (update p f e) = f <$> get p e.
Proof.
  revert e; induction p as [|i p IH]; intros e; simpl; [done|].
  rewrite list_lookup_alter_eq. destruct (children e !! i); simpl; [apply IH|done].
Qed.

(** Mutating a node in a way that keeps its children and its matching of
    [sel] leaves the answers of [querySelectorAll sel] as they are. *)
Lemma querySelectorAll_update sel p f e :
  (∀ x, children (f x) = children x) →
  (∀ x, matches sel (f x) = matches sel x) →
  querySelectorAll sel (update p f e) = querySelectorAll sel e.
Proof.
  intros Hc Hm. revert e; induction p as [|i p IH]; intros e; cbn [update].
  - by rewrite !querySelectorAll_unfold, Hc, Hm.
  - rewrite (querySelectorAll_unfold sel (set_children _ _)).
    rewrite (querySelectorAll_unfold sel e). cbn [set_children children].
    f_equal. by apply paths_from_alter.
Qed.

Lemma querySelector_update sel p f e :
  (∀ x, children (f x) = children x) →
  (∀ x, matches sel (f x) = matches sel x) →
  querySelector sel (update p f e) = querySelector sel e.
Proof. intros. unfold querySelector. by rewrite querySelectorAll_update. Qed.

(** What such a mutation keeps in every node, it keeps at every path. *)
Lemma get_update_field {A} (F : Element → A) q p f e :
  (∀ x, children (f x) = children x) →
  (∀ x, F (f x) = F x) →
  (∀ ks x, F (set_children ks x) = F x) →
  F <$> get q (update p f e) = F <$> get q e.
Proof.
  intros Hc HF Hs. revert p e; induction q as [|j q IH]; intros p e.
  - destruct p; simpl; by rewrite ?HF, ?Hs.
  - destruct p as [|i p]; simpl.
    + by rewrite Hc.
    + destruct (decide (i = j)) as [->|Hne].
      * rewrite list_lookup_alter_eq. destruct (children e !! j); simpl; [apply IH|done].
      * by rewrite list_lookup_alter_ne.
Qed.

Lemma set_children_children e : set_children (children e) e = e.
Proof. by destruct e. Qed.

Lemma alter_id_at {A} (f : A → A) i (l : list A) x :
  l !! i = Some x → f x = x → alter f i l = l.
Proof.
  intros Hi Hx. apply list_eq; intros j. destruct (decide (i = j)) as [<-|Hne].
  - by rewrite list_lookup_alter_eq, Hi; simpl; rewrite Hx.
  - by rewrite list_lookup_alter_ne.
Qed.

Lemma update_id p f e x : get p e = Some x → f x = x → update p f e = e.
Proof.
  revert e. induction p as [|i p IH]; intros e Hg Hx; simpl in *.
  - by simplify_eq.
  - destruct (children e !! i) as [k|] eqn:Hk; simplify_eq/=.
    rewrite (alter_id_at _ _ _ k); [apply set_children_children|done|by apply IH].
Qed.

(** A path that leads nowhere: nothing is updated. *)
Lemma update_nowhere p f e : get p e = None → update p f e = e.
Proof.
  revert e. induction p as [|i p IH]; intros e Hg; simpl in *; [done|].
  destruct (children e !! i) as [k|] eqn:Hk; simpl in Hg.
  - rewrite (alter_id_at _ _ _ k); [apply set_children_children|done|by apply IH].
  - assert (alter (update p f) i (children e) = children e) as ->;
      [|apply set_children_children].
    apply list_eq; intros j. destruct (decide (i = j)) as [<-|Hne].
    + by rewrite list_lookup_alter_eq, Hk.
    + by rewrite list_lookup_alter_ne.
Qed.

(** ** Theme management: what [setTheme] and [toggleTheme] do *)

Lemma children_setAttribute k v x : children (setAttribute k v x) = children x.
Proof. done. Qed.

Lemma matches_setAttribute sel k v x : matches sel (setAttribute k v x) = matches sel x.
Proof. by destruct sel. Qed.

Lemma querySelector_setAttribute sel path k v doc :
  querySelector sel (update path (setAttribute k v) doc) = querySelector sel doc.
Proof.
  apply querySelector_update;
    auto using children_setAttribute, matches_setAttribute.
Qed.

Lemma setTheme_absent theme p :
  querySelector CONFIG.selectors.app (document p) = None →
  setTheme theme p = set_console (console p ++ warning theme) p.
Proof.
  intros Hq. unfold setTheme, warning.
  destruct (includes theme CONFIG.themes); simpl; rewrite Hq.
  - rewrite app_nil_r. by destruct p.
  - done.
Qed.

Lemma setTheme_present theme p path :
  querySelector CONFIG.selectors.app (document p) = Some path →
  setTheme theme p =
  mkPage (update path (setAttribute "data-theme" (settled theme)) (document p))
         (<[CONFIG.storageKeys.theme := settled theme]> (storage p))
         (console p ++ warning theme
            ++ mbind (listener_output (themeChanged (settled theme))) (listeners p))
         (dispatched p ++ [themeChanged (settled theme)])
         (listeners p) (reducedMotion p) (innerWidth p).
Proof.
  intros Hq. unfold setTheme, settled, warning.
  destruct (includes theme CONFIG.themes); simpl; rewrite Hq; simpl.
  - done.
  - unfold dispatchEvent, set_console; simpl. by rewrite <- app_assoc.
Qed.

Lemma root_attribute_setTheme theme p path :
  querySelector CONFIG.selectors.app (document p) = Some path →
  root_attribute "data-theme" (setTheme theme p) = Some (settled theme).
Proof.
  intros Hq. rewrite (setTheme_present _ _ _ Hq). unfold root_attribute; simpl.
  rewrite querySelector_setAttribute, Hq; simpl. rewrite get_update.
  destruct (querySelector_get _ _ _ Hq) as (x & -> & _); simpl.
  apply lookup_insert_eq.
Qed.

Lemma getItem_setTheme theme p path :
  querySelector CONFIG.selectors.app (document p) = Some path →
  getItem CONFIG.storageKeys.theme (setTheme theme p) = Some (settled theme).
Proof.
  intros Hq. rewrite (setTheme_present _ _ _ Hq). apply lookup_insert_eq.
Qed.

Lemma querySelector_setTheme sel theme p :
  querySelector sel (document (setTheme theme p)) = querySelector sel (document p).
Proof.
  destruct (querySelector CONFIG.selectors.app (document p)) as [path|] eqn:Hq.
  - rewrite (setTheme_present _ _ _ Hq); simpl. apply querySelector_setAttribute.
  - by rewrite (setTheme_absent _ _ Hq).
Qed.

Lemma settled_in theme : settled theme ∈ CONFIG.themes.
Proof.
  unfold settled, includes. case_bool_decide; [done|].
  unfold CONFIG.defaultTheme, CONFIG.themes. set_solver.
Qed.

Lemma settled_not_empty theme : settled theme ≠ "".
Proof.
  intros H. pose proof (settled_in theme) as Hin. rewrite H in Hin.
  unfold CONFIG.themes in Hin. rewrite !elem_of_cons, elem_of_nil in Hin.
  by destruct Hin as [?|[?|[?|[]]]].
Qed.

Lemma getTheme_setTheme theme p path :
  querySelector CONFIG.selectors.app (document p) = Some path →
  getTheme (setTheme theme p) = settled theme.
Proof.
  intros Hq. unfold getTheme. rewrite (getItem_setTheme _ _ _ Hq); simpl.
  destruct (decide _) as [H|]; [by apply settled_not_empty in H|done].
Qed.

Lemma toggleTheme_unfold p :
  toggleTheme p =
  setTheme (themes_at (Z.rem (indexOf (getTheme p) CONFIG.themes + 1) 3)) p.
Proof. done. Qed.

(** One toggle when the root is there and the stored theme is a known one. *)
Lemma toggleTheme_next p path :
  querySelector CONFIG.selectors.app (document p) = Some path →
  (getTheme p = "Light" → getTheme (toggleTheme p) = "Dark")
  ∧ (getTheme p = "Dark" → getTheme (toggleTheme p) = "Cyberpunk")
  ∧ (getTheme p = "Cyberpunk" → getTheme (toggleTheme p) = "Light").
Proof.
  intros Hq. rewrite toggleTheme_unfold.
  split_and!; intros ->; by rewrite (getTheme_setTheme _ _ _ Hq).
Qed.

Lemma querySelector_toggleTheme sel p :
  querySelector sel (document (toggleTheme p)) = querySelector sel (document p).
Proof. rewrite toggleTheme_unfold. apply querySelector_setTheme. Qed.

(** ** Sidebar management: what [toggleSidebar] does *)

Lemma contains_classList_add c cls x :
  contains c (classList (classList_add cls x)) =
  contains c (classList x) || bool_decide (c = cls).
Proof.
  unfold classList_add. destruct (contains cls (classList x)) eqn:Hc; simpl.
  - case_bool_decide as Heq; [subst; by rewrite Hc|by rewrite orb_false_r].
  - unfold contains; simpl. apply Bool.eq_iff_eq_true.
    by rewrite orb_true_iff, !bool_decide_eq_true, elem_of_app, list_elem_of_singleton.
Qed.

Lemma contains_classList_remove c cls x :
  contains c (classList (classList_remove cls x)) =
  contains c (classList x) && negb (bool_decide (c = cls)).
Proof.
  unfold classList_remove, contains; simpl.
  apply Bool.eq_iff_eq_true.
  rewrite andb_true_iff, negb_true_iff, bool_decide_eq_false, !bool_decide_eq_true.
  rewrite list_elem_of_filter. tauto.
Qed.

Lemma children_classList_add cls x : children (classList_add cls x) = children x.
Proof. unfold classList_add. by destruct (contains _ _). Qed.

Lemma attributes_classList_add cls x :
  attributes (classList_add cls x) = attributes x.
Proof. unfold classList_add. by destruct (contains _ _). Qed.

Lemma matches_classList_add c cls x :
  c ≠ cls → matches (ClassSel c) (classList_add cls x) = matches (ClassSel c) x.
Proof.
  intros Hne; unfold matches. rewrite contains_classList_add.
  rewrite bool_decide_eq_false_2 by done. apply orb_false_r.
Qed.

Lemma matches_classList_remove c cls x :
  c ≠ cls → matches (ClassSel c) (classList_remove cls x) = matches (ClassSel c) x.
Proof.
  intros Hne; unfold matches. rewrite contains_classList_remove.
  rewrite bool_decide_eq_false_2 by done. apply andb_true_r.
Qed.

Lemma children_flip c x : children (flip_collapsed c x) = children x.
Proof. destruct c; [done|apply children_classList_add]. Qed.

Lemma attributes_flip c x : attributes (flip_collapsed c x) = attributes x.
Proof. destruct c; [done|apply attributes_classList_add]. Qed.

Lemma matches_flip s c x :
  s ≠ "collapsed" → matches (ClassSel s) (flip_collapsed c x) = matches (ClassSel s) x.
Proof.
  destruct c; [apply matches_classList_remove|apply matches_classList_add].
Qed.

Lemma contains_flip c x :
  contains "collapsed" (classList x) = c →
  contains "collapsed" (classList (flip_collapsed c x)) = negb c.
Proof.
  intros <-. unfold flip_collapsed.
  destruct (contains "collapsed" (classList x)) eqn:Hc.
  - rewrite contains_classList_remove, Hc. by rewrite bool_decide_eq_true_2.
  - rewrite contains_classList_add, Hc. by rewrite bool_decide_eq_true_2.
Qed.

Lemma toggleSidebar_absent p :
  querySelector CONFIG.selectors.sidebar (document p) = None
  ∨ querySelector CONFIG.selectors.app (document p) = None →
  toggleSidebar p = p.
Proof.
  unfold toggleSidebar. intros [-> | ->]; [done|].
  by destruct (querySelector CONFIG.selectors.sidebar _).
Qed.

Lemma toggleSidebar_present p s a c :
  querySelector CONFIG.selectors.sidebar (document p) = Some s →
  querySelector CONFIG.selectors.app (document p) = Some a →
  sidebar_collapsed p = Some c →
  toggleSidebar p =
  mkPage (update a (setAttribute "data-sidebar-collapsed" (encode (negb c)))
            (update s (flip_collapsed c) (document p)))
         (<[CONFIG.storageKeys.sidebarCollapsed := encode (negb c)]> (storage p))
         (console p ++ mbind (listener_output (sidebarToggled (negb c))) (listeners p))
         (dispatched p ++ [sidebarToggled (negb c)])
         (listeners p) (reducedMotion p) (innerWidth p).
Proof.
  intros Hs Ha Hc. unfold sidebar_collapsed in Hc. rewrite Hs in Hc; simpl in Hc.
  unfold toggleSidebar. rewrite Hs, Ha.
  destruct (get s (document p)) as [e|]; simplify_eq/=.
  by destruct (contains "collapsed" (classList e)).
Qed.

(** After a toggle the two elements are found where they were, the class
    has flipped, and attribute and stored value spell the new state. *)
Lemma toggleSidebar_effect p s a c :
  querySelector CONFIG.selectors.sidebar (document p) = Some s →
  querySelector CONFIG.selectors.app (document p) = Some a →
  sidebar_collapsed p = Some c →
  querySelector CONFIG.selectors.sidebar (document (toggleSidebar p)) = Some s
  ∧ querySelector CONFIG.selectors.app (document (toggleSidebar p)) = Some a
  ∧ sidebar_collapsed (toggleSidebar p) = Some (negb c)
  ∧ root_attribute "data-sidebar-collapsed" (toggleSidebar p) = Some (encode (negb c))
  ∧ getItem CONFIG.storageKeys.sidebarCollapsed (toggleSidebar p)
    = Some (encode (negb c)).
Proof.
  intros Hs Ha Hc. rewrite (toggleSidebar_present _ _ _ _ Hs Ha Hc).
  assert (∀ sel : string, sel ≠ "collapsed" →
            querySelector (ClassSel sel)
              (update a (setAttribute "data-sidebar-collapsed" (encode (negb c)))
                 (update s (flip_collapsed c) (document p)))
            = querySelector (ClassSel sel) (document p)) as Hsel.
  { intros sel Hne. rewrite querySelector_setAttribute.
    apply querySelector_update; auto using children_flip, matches_flip. }
  unfold sidebar_collapsed, root_attribute, getItem; simpl.
  unfold CONFIG.selectors.sidebar, CONFIG.selectors.app in *.
  rewrite !Hsel by done. rewrite Hs, Ha; simpl.
  unfold sidebar_collapsed in Hc.
  unfold CONFIG.selectors.sidebar in Hc. rewrite Hs in Hc; simpl in Hc.
  destruct (get s (document p)) as [e|] eqn:He; simplify_eq/=.
  split_and!; try done.
  - pose proof (get_update_field classList s a
        (setAttribute "data-sidebar-collapsed" (encode (negb (contains "collapsed" (classList e)))))
        (update s (flip_collapsed (contains "collapsed" (classList e))) (document p))
        (children_setAttribute _ _) (λ _, eq_refl) (λ _ _, eq_refl)) as H.
    rewrite get_update, He in H; simpl in H.
    destruct (get s (update a _ _)) as [e'|]; simplify_eq/=.
    f_equal. rewrite H. by apply contains_flip.
  - rewrite get_update.
    pose proof (get_update_field attributes a s
        (flip_collapsed (contains "collapsed" (classList e))) (document p)
        (children_flip _) (attributes_flip _) (λ _ _, eq_refl)) as H.
    destruct (querySelector_get _ _ _ Ha) as (x & Hx & _). rewrite Hx in H.
    destruct (get a (update s _ _)) as [x'|]; simplify_eq/=.
    apply lookup_insert_eq.
  - apply lookup_insert_eq.
Qed.

Lemma sidebar_collapsed_present p s :
  querySelector CONFIG.selectors.sidebar (document p) = Some s →
  ∃ c, sidebar_collapsed p = Some c.
Proof.
  intros Hs. unfold sidebar_collapsed. rewrite Hs; simpl.
  destruct (querySelector_get _ _ _ Hs) as (x & -> & _); simpl. eauto.
Qed.

(** ** The claims about themes and the sidebar *)

(** C8, amended.  [getTheme] returns the stored string as it is, whether or
    not it names a theme, when that string is not empty; it returns the
    default theme when the key is absent and also when the stored string is
    empty. *)
Theorem getTheme_reads_storage (p : Page) :
  (∀ s, getItem CONFIG.storageKeys.theme p = Some s → s ≠ "" → getTheme p = s)
  ∧ (getItem CONFIG.storageKeys.theme p = None → getTheme p = CONFIG.defaultTheme)
  ∧ (getItem CONFIG.storageKeys.theme p = Some "" → getTheme p = CONFIG.defaultTheme).
Proof.
  unfold getTheme. split_and!.
  - intros s -> Hs; simpl. by destruct (decide (s = "")).
  - by intros ->.
  - by intros ->.
Qed.

Lemma getTheme_reads_storage_witness :
  getTheme (page_of blank [(CONFIG.storageKeys.theme, "Solarized")]) = "Solarized".
Proof.
  apply (proj1 (getTheme_reads_storage
                  (page_of blank [(CONFIG.storageKeys.theme, "Solarized")]))).
  - reflexivity.
  - discriminate.
Defined.

(** C8 as stated fails: the key is present and holds the empty string, and
    [getTheme] answers with the default theme instead of that string. *)
Lemma getTheme_empty_string :
  let p := page_of blank [(CONFIG.storageKeys.theme, "")] in
  getItem CONFIG.storageKeys.theme p = Some ""
  ∧ getTheme p = "Light"
  ∧ ¬ (∀ s, getItem CONFIG.storageKeys.theme p = Some s → getTheme p = s).
Proof.
  split_and!; [reflexivity..|]. intros H. by specialize (H "" eq_refl).
Qed.

(** C10.  Without an app root [setTheme] leaves the document, the storage,
    the dispatched events and the listeners as they were, whatever its
    argument; its only trace is the console warning for an unknown name. *)
Theorem setTheme_without_root (theme : string) (p : Page) :
  querySelector CONFIG.selectors.app (document p) = None →
  document (setTheme theme p) = document p
  ∧ storage (setTheme theme p) = storage p
  ∧ getTheme (setTheme theme p) = getTheme p
  ∧ root_attribute "data-theme" (setTheme theme p) = None
  ∧ dispatched (setTheme theme p) = dispatched p
  ∧ listeners (setTheme theme p) = listeners p
  ∧ console (setTheme theme p) = console p ++ warning theme.
Proof.
  intros Hq. rewrite (setTheme_absent _ _ Hq).
  split_and!; try done. unfold root_attribute; simpl. by rewrite Hq.
Qed.

Lemma setTheme_without_root_witness :
  storage (setTheme "Dark" (page_of blank [])) = storage (page_of blank [])
  ∧ dispatched (setTheme "Nope" (page_of blank [])) = [].
Proof.
  split.
  - apply (setTheme_without_root "Dark" (page_of blank [])). reflexivity.
  - apply (setTheme_without_root "Nope" (page_of blank [])). reflexivity.
Defined.

(** C2, amended.  For a name outside the theme list [setTheme] always writes
    the warning; when the app root is present it then makes the default
    theme active: root attribute, stored value and notification all carry
    ["Light"]. *)
Theorem setTheme_unknown_name (theme : string) (p : Page) :
  theme ∉ CONFIG.themes →
  Warn ("Invalid theme: " ++ theme ++ ". Using default.") ∈ console (setTheme theme p)
  ∧ ∀ path,
      querySelector CONFIG.selectors.app (document p) = Some path →
      root_attribute "data-theme" (setTheme theme p) = Some "Light"
      ∧ getItem CONFIG.storageKeys.theme (setTheme theme p) = Some "Light"
      ∧ getTheme (setTheme theme p) = "Light"
      ∧ dispatched (setTheme theme p) = dispatched p ++ [themeChanged "Light"].
Proof.
  intros Hin.
  assert (includes theme CONFIG.themes = false) as Hinc
      by (by apply bool_decide_eq_false).
  assert (settled theme = "Light") as Hset by (unfold settled; by rewrite Hinc).
  assert (warning theme = [Warn ("Invalid theme: " ++ theme ++ ". Using default.")])
    as Hw by (unfold warning; by rewrite Hinc).
  split.
  - destruct (querySelector CONFIG.selectors.app (document p)) as [path|] eqn:Hq.
    + rewrite (setTheme_present _ _ _ Hq), Hw; simpl.
      rewrite elem_of_app, elem_of_cons. auto.
    + rewrite (setTheme_absent _ _ Hq), Hw; simpl.
      rewrite elem_of_app, list_elem_of_singleton. auto.
  - intros path Hq. rewrite <- Hset. split_and!.
    + by eapply root_attribute_setTheme.
    + by eapply getItem_setTheme.
    + by eapply getTheme_setTheme.
    + by rewrite (setTheme_present _ _ _ Hq).
Qed.

Lemma setTheme_unknown_name_witness :
  getTheme (setTheme "Solarized"
              (page_of dashboard [(CONFIG.storageKeys.theme, "Dark")])) = "Light".
Proof.
  refine (proj1 (proj2 (proj2 (proj2
    (setTheme_unknown_name "Solarized"
       (page_of dashboard [(CONFIG.storageKeys.theme, "Dark")]) _)
    [0; 0]%nat _)))).
  - apply (bool_decide_unpack _). vm_compute. exact I.
  - reflexivity.
Defined.

(** C2 as stated fails: the name is unknown, there is no app root, and the
    active theme stays what the storage says, ["Dark"], with no attribute
    written. *)
Lemma setTheme_unknown_name_no_root :
  let p := page_of blank [(CONFIG.storageKeys.theme, "Dark")] in
  ("Solarized" ∉ CONFIG.themes)
  ∧ getTheme (setTheme "Solarized" p) = "Dark"
  ∧ getItem CONFIG.storageKeys.theme (setTheme "Solarized" p) = Some "Dark"
  ∧ root_attribute "data-theme" (setTheme "Solarized" p) = None.
Proof.
  split_and!; [|reflexivity..].
  apply (bool_decide_unpack _). vm_compute. exact I.
Qed.

(** C3, amended.  With the app root present, a toggle takes each known
    theme to the next one in the list and the last back to the first, the
    root attribute following, so three toggles close the cycle; a stored
    name outside the list is taken to the first theme. *)
Theorem toggleTheme_cycle (p : Page) (path : Path) :
  querySelector CONFIG.selectors.app (document p) = Some path →
  (getTheme p = "Light" → getTheme (toggleTheme p) = "Dark")
  ∧ (getTheme p = "Dark" → getTheme (toggleTheme p) = "Cyberpunk")
  ∧ (getTheme p = "Cyberpunk" → getTheme (toggleTheme p) = "Light")
  ∧ (getTheme p ∉ CONFIG.themes → getTheme (toggleTheme p) = "Light")
  ∧ root_attribute "data-theme" (toggleTheme p) = Some (getTheme (toggleTheme p))
  ∧ (getTheme p ∈ CONFIG.themes →
     getTheme (toggleTheme (toggleTheme (toggleTheme p))) = getTheme p).
Proof.
  intros Hq.
  assert (∀ q, querySelector CONFIG.selectors.app (document q) = Some path →
            querySelector CONFIG.selectors.app (document (toggleTheme q)) = Some path)
    as Hkeep by (intros q Hq'; by rewrite querySelector_toggleTheme).
  destruct (toggleTheme_next p path Hq) as (HL & HD & HC).
  split_and!; try done.
  - intros Hout. rewrite toggleTheme_unfold, (getTheme_setTheme _ _ _ Hq).
    assert (indexOf (getTheme p) CONFIG.themes = -1) as ->; [|done].
    unfold CONFIG.themes in *. rewrite !not_elem_of_cons in Hout.
    destruct Hout as (? & ? & ? & _). cbn [indexOf].
    repeat case_decide; by simplify_eq.
  - rewrite toggleTheme_unfold, (getTheme_setTheme _ _ _ Hq).
    by eapply root_attribute_setTheme.
  - intros Hin. unfold CONFIG.themes in Hin.
    rewrite !elem_of_cons, elem_of_nil in Hin.
    pose proof (Hkeep _ Hq) as Hq1. pose proof (Hkeep _ Hq1) as Hq2.
    destruct (toggleTheme_next _ path Hq1) as (HL1 & HD1 & HC1).
    destruct (toggleTheme_next _ path Hq2) as (HL2 & HD2 & HC2).
    destruct Hin as [H|[H|[H|[]]]]; rewrite H; auto.
Qed.

Lemma toggleTheme_cycle_witness :
  getTheme (toggleTheme (page_of dashboard [(CONFIG.storageKeys.theme, "Cyberpunk")]))
  = "Light".
Proof.
  refine (proj1 (proj2 (proj2
    (toggleTheme_cycle
       (page_of dashboard [(CONFIG.storageKeys.theme, "Cyberpunk")])
       [0; 0]%nat _))) _); reflexivity.
Defined.

(** C3 as stated fails in two starting states: with a stored name outside
    the list three toggles end on ["Cyberpunk"], not on the name they
    started from; and without an app root a toggle does not advance. *)
Lemma toggleTheme_cycle_broken :
  let p := page_of dashboard [(CONFIG.storageKeys.theme, "Solarized")] in
  let q := page_of blank [(CONFIG.storageKeys.theme, "Dark")] in
  getTheme p = "Solarized"
  ∧ getTheme (toggleTheme (toggleTheme (toggleTheme p))) = "Cyberpunk"
  ∧ getTheme q = "Dark"
  ∧ getTheme (toggleTheme q) = "Dark".
Proof. split_and!; reflexivity. Qed.

(** C4, amended.  With sidebar and app root present, a toggle flips the
    [collapsed] class and two toggles bring it back; the root attribute and
    the stored value then spell that restored state, ["true"] or ["false"],
    which is what they held before only if they already spelled it.  When
    either element is missing a toggle changes nothing at all. *)
Theorem toggleSidebar_twice (p : Page) :
  match querySelector CONFIG.selectors.sidebar (document p),
        querySelector CONFIG.selectors.app (document p) with
  | Some _, Some _ =>
      ∃ c, sidebar_collapsed p = Some c
           ∧ sidebar_collapsed (toggleSidebar p) = Some (negb c)
           ∧ sidebar_collapsed (toggleSidebar (toggleSidebar p)) = Some c
           ∧ root_attribute "data-sidebar-collapsed" (toggleSidebar (toggleSidebar p))
             = Some (encode c)
           ∧ getItem CONFIG.storageKeys.sidebarCollapsed (toggleSidebar (toggleSidebar p))
             = Some (encode c)
  | _, _ => toggleSidebar p = p
  end.
Proof.
  destruct (querySelector CONFIG.selectors.sidebar (document p)) as [s|] eqn:Hs;
    [|by apply toggleSidebar_absent; left].
  destruct (querySelector CONFIG.selectors.app (document p)) as [a|] eqn:Ha;
    [|by apply toggleSidebar_absent; right].
  destruct (sidebar_collapsed_present _ _ Hs) as [c Hc]. exists c.
  destruct (toggleSidebar_effect _ _ _ _ Hs Ha Hc) as (Hs1 & Ha1 & Hc1 & _ & _).
  destruct (toggleSidebar_effect _ _ _ _ Hs1 Ha1 Hc1) as (_ & _ & Hc2 & Hr2 & Hg2).
  rewrite negb_involutive in *. done.
Qed.

(** C4 as stated fails on a page that has never been toggled: the key and
    the attribute are absent before and hold ["false"] after two toggles. *)
Lemma toggleSidebar_twice_writes :
  let p := page_of dashboard [] in
  getItem CONFIG.storageKeys.sidebarCollapsed p = None
  ∧ getItem CONFIG.storageKeys.sidebarCollapsed (toggleSidebar (toggleSidebar p))
    = Some "false"
  ∧ root_attribute "data-sidebar-collapsed" p = None
  ∧ root_attribute "data-sidebar-collapsed" (toggleSidebar (toggleSidebar p))
    = Some "false".
Proof. split_and!; reflexivity. Qed.

(** ** The enhancement pass *)

(** *** The pass over the node list is the pass by recursion *)

Section Enhance.
Context (reduced : bool).

Lemma visit_cons i p l e :
  visit reduced (set_children l e) (i :: p) =
  set_children (alter (update p (decorateSummaryBox reduced)) i l) e.
Proof. done. Qed.

(** Boxes inside child [i] are decorated inside child [i]. *)
Lemma visit_in_child i ps l e :
  foldl (visit reduced) (set_children l e) (map (cons i) ps) =
  set_children (alter (λ k, foldl (visit reduced) k ps) i l) e.
Proof.
  revert l; induction ps as [|p ps IH]; intros l; cbn [map foldl].
  - by rewrite list_alter_id.
  - rewrite visit_cons, IH, list_alter_alter_eq. done.
Qed.

(** The boxes of the children [ks], visited child after child. *)
Lemma visit_children ks pre post e :
  foldl (visit reduced) (set_children (pre ++ ks ++ post) e)
        (paths_from (querySelectorAll CONFIG.selectors.summaryBox) (length pre) ks) =
  set_children
    (pre ++ map (λ k, foldl (visit reduced) k
                        (querySelectorAll CONFIG.selectors.summaryBox k)) ks
         ++ post) e.
Proof.
  revert pre; induction ks as [|k ks IH]; intros pre; simpl; [done|].
  rewrite foldl_app, visit_in_child.
  replace (length pre) with (length pre + 0)%nat at 1 by lia.
  rewrite alter_app_r; simpl.
  specialize (IH (pre ++ [foldl (visit reduced) k
                   (querySelectorAll CONFIG.selectors.summaryBox k)])).
  rewrite length_app, <- !app_assoc in IH; simpl in IH.
  replace (length pre + 1)%nat with (S (length pre)) in IH by lia.
  apply IH.
Qed.

Lemma enhance_unfold e :
  enhance reduced e =
  foldl (visit reduced) e (querySelectorAll CONFIG.selectors.summaryBox e).
Proof. done. Qed.

Theorem enhance_enhance_rec e : enhance reduced e = enhance_rec reduced e.
Proof.
  induction e as [tag cl attrs st text ks IH] using Element_ind'.
  assert (map (λ k, foldl (visit reduced) k (querySelectorAll CONFIG.selectors.summaryBox k)) ks
          = map (enhance_rec reduced) ks) as Hks.
  { clear -IH. induction IH as [|k ks Hk _ IHks]; simpl; [done|].
    by rewrite <- Hk, IHks. }
  rewrite enhance_unfold, querySelectorAll_unfold.
  cbn [matches CONFIG.selectors.summaryBox classList children enhance_rec].
  destruct (contains "summary-box" cl); simpl.
  - unfold visit at 2; simpl. unfold decorateSummaryBox, Element_querySelector,
      descendants; simpl.
    destruct (head (paths_from (querySelectorAll summary_icon) 0 ks)).
    + pose proof (visit_children ks [] []
                    (mkElement tag cl attrs st text ks)) as H.
      rewrite app_nil_r in H; simpl in H.
      unfold set_children in H; simpl in H. rewrite H, app_nil_r. by rewrite Hks.
    + pose proof (visit_children ks [] [icon; progressBar reduced]
                    (mkElement tag cl attrs (<["position" := "relative"]> st) text ks))
        as H.
      unfold appendChild, set_style; simpl. rewrite <- app_assoc; simpl.
      rewrite <- Hks. exact H.
  - pose proof (visit_children ks [] [] (mkElement tag cl attrs st text ks)) as H.
    rewrite app_nil_r in H; simpl in H.
    unfold set_children in H; simpl in H. rewrite H, app_nil_r. by rewrite Hks.
Qed.
End Enhance.

(** *** What a pass does to the tree *)

Section EnhanceRec.
Context (reduced : bool).
Local Notation "'enh'" := (enhance_rec reduced).

Lemma enhance_rec_icon : enh icon = icon.
Proof. reflexivity. Qed.

Lemma enhance_rec_progressBar : enh (progressBar reduced) = progressBar reduced.
Proof. by destruct reduced. Qed.

Lemma classList_enhance_rec e : classList (enh e) = classList e.
Proof.
  destruct e as [tag cl attrs st text ks]; simpl.
  destruct (contains _ cl); [destruct (head _)|]; done.
Qed.

Lemma attributes_enhance_rec e : attributes (enh e) = attributes e.
Proof.
  destruct e as [tag cl attrs st text ks]; simpl.
  destruct (contains _ cl); [destruct (head _)|]; done.
Qed.

Lemma matches_enhance_rec sel e : matches sel (enh e) = matches sel e.
Proof. destruct sel; simpl. by rewrite classList_enhance_rec. Qed.

(** The children after a pass: the old children after their own pass,
    then possibly the two decorations. *)
Lemma children_enhance_rec e :
  children (enh e) = map enh (children e)
  ∨ children (enh e) = map enh (children e) ++ [icon; progressBar reduced].
Proof.
  destruct e as [tag cl attrs st text ks]; simpl.
  destruct (contains _ cl); [destruct (head _)|]; auto.
Qed.

Lemma map_enhance_rec_fixed ks :
  Forall (λ k, enh k = k) ks → map enh ks = ks.
Proof. induction 1 as [|k ks Hk _ IH]; simpl; [done|]. by rewrite Hk, IH. Qed.

(** A pass removes no match of any selector. *)
Lemma querySelectorAll_enhance_rec_nil sel e :
  querySelectorAll sel (enh e) = [] → querySelectorAll sel e = [].
Proof.
  induction e as [tag cl attrs st text ks IH] using Element_ind'.
  rewrite !querySelectorAll_unfold, matches_enhance_rec.
  intros [Hm Hk]%app_eq_nil. rewrite Hm; simpl.
  assert (paths_from (querySelectorAll sel) 0 (map enh ks) = []) as Hk'.
  { destruct (children_enhance_rec (mkElement tag cl attrs st text ks)) as [H|H];
      rewrite H in Hk; simpl in Hk; [done|].
    rewrite paths_from_app in Hk. by apply app_eq_nil in Hk as [? _]. }
  apply paths_from_nil_inv in Hk'. apply paths_from_nil.
  clear -IH Hk'. induction IH as [|k ks Hk _ IHks]; [constructor|].
  simpl in Hk'. inversion Hk'; subst. constructor; auto.
Qed.

Lemma marker_survives ks x :
  head (paths_from (querySelectorAll summary_icon) 0 ks) = Some x →
  is_Some (head (paths_from (querySelectorAll summary_icon) 0 (map enh ks))).
Proof.
  intros Hx. apply head_is_Some. intros Hnil%paths_from_nil_inv.
  assert (paths_from (querySelectorAll summary_icon) 0 ks = []) as Hks;
    [|by rewrite Hks in Hx].
  apply paths_from_nil. clear Hx.
  induction ks as [|k ks IH]; [constructor|]. simpl in Hnil.
  inversion Hnil; subst. constructor; [|by apply IH].
  by apply querySelectorAll_enhance_rec_nil.
Qed.

Lemma marker_appended ks :
  is_Some (head (paths_from (querySelectorAll summary_icon) 0
                   (ks ++ [icon; progressBar reduced]))).
Proof.
  rewrite paths_from_app. apply head_is_Some.
  intros [_ H]%app_eq_nil. by destruct reduced.
Qed.

(** A second pass changes nothing. *)
Theorem enhance_rec_idempotent e : enh (enh e) = enh e.
Proof.
  induction e as [tag cl attrs st text ks IH] using Element_ind'.
  assert (map enh (map enh ks) = map enh ks) as Hks.
  { clear -IH. induction IH as [|k ks Hk _ IHks]; simpl; [done|].
    by rewrite Hk, IHks. }
  cbn [enhance_rec].
  destruct (contains "summary-box" cl) eqn:Hbox.
  - destruct (head (paths_from (querySelectorAll summary_icon) 0 ks)) as [x|] eqn:Hm.
    + cbn [enhance_rec]. rewrite Hbox.
      destruct (marker_survives _ _ Hm) as [y ->]. by rewrite Hks.
    + cbn [enhance_rec]. rewrite Hbox.
      destruct (marker_appended (map enh ks)) as [y ->].
      rewrite map_app, Hks. cbn [map].
      by rewrite enhance_rec_icon, enhance_rec_progressBar.
  - cbn [enhance_rec]. by rewrite Hbox, Hks.
Qed.

(** Where there is no box, a pass changes nothing. *)
Lemma enhance_rec_no_box e :
  querySelectorAll CONFIG.selectors.summaryBox e = [] → enh e = e.
Proof.
  induction e as [tag cl attrs st text ks IH] using Element_ind'.
  rewrite querySelectorAll_unfold. intros [Hm Hk]%app_eq_nil.
  simpl in Hm, Hk. cbn [enhance_rec].
  destruct (contains "summary-box" cl); [done|].
  rewrite map_enhance_rec_fixed; [done|].
  apply paths_from_nil_inv in Hk. clear -IH Hk.
  induction IH as [|k ks Hk' _ IHks]; [constructor|].
  inversion Hk; subst. constructor; auto.
Qed.

(** A selector that matches neither decoration finds after the pass what
    it found before. *)
Lemma querySelectorAll_enhance_rec sel e :
  matches sel icon = false →
  matches sel (progressBar reduced) = false →
  querySelectorAll sel (enh e) = querySelectorAll sel e.
Proof.
  intros Hi Hp.
  induction e as [tag cl attrs st text ks IH] using Element_ind'.
  rewrite !querySelectorAll_unfold, matches_enhance_rec. f_equal.
  assert (∀ i, paths_from (querySelectorAll sel) i (map enh ks)
               = paths_from (querySelectorAll sel) i ks) as Hk.
  { clear -IH. induction IH as [|k ks Hk _ IHks]; intros i; simpl; [done|].
    by rewrite Hk, IHks. }
  destruct (children_enhance_rec (mkElement tag cl attrs st text ks)) as [H|H];
    rewrite H; simpl; [done|].
  rewrite paths_from_app, Hk. cbn [paths_from].
  rewrite (querySelectorAll_unfold sel icon), Hi.
  rewrite (querySelectorAll_unfold sel (progressBar reduced)), Hp.
  assert (children (progressBar reduced) = []) as -> by (by destruct reduced).
  simpl. by rewrite app_nil_r.
Qed.

(** The node at a path of the old tree is, after the pass, that node
    after its own pass. *)
Lemma get_enhance_rec p e x :
  get p e = Some x → get p (enh e) = Some (enh x).
Proof.
  revert e; induction p as [|i p IH]; intros e; simpl.
  - by intros [= ->].
  - destruct (children e !! i) as [k|] eqn:Hk; simpl; [|done].
    intros Hx.
    assert (children (enh e) !! i = Some (enh k)) as ->; [|by apply IH].
    assert (map enh (children e) !! i = Some (enh k)) as Hm.
    { change (map enh (children e)) with (enh <$> children e).
      by rewrite list_lookup_fmap, Hk. }
    destruct (children_enhance_rec e) as [-> | ->]; [done|].
    by apply lookup_app_l_Some.
Qed.
End EnhanceRec.

Lemma head_is_Some_length {A} (l : list A) : is_Some (head l) → (1 ≤ length l)%nat.
Proof. destruct l; simpl; [by intros [? ?]|lia]. Qed.

(** After a pass every box holds a marker. *)
Lemma decorated_has_marker reduced e p x :
  get p (enhance_rec reduced e) = Some x →
  matches CONFIG.selectors.summaryBox x = true →
  (1 ≤ inside summary_icon x)%nat.
Proof.
  revert p; induction e as [tag cl attrs st text ks IH] using Element_ind'.
  intros [|i p].
  - cbn [get]. intros Hx Hbox.
    assert (x = enhance_rec reduced (mkElement tag cl attrs st text ks)) as ->
        by congruence.
    rewrite matches_enhance_rec in Hbox. simpl in Hbox.
    unfold inside, descendants. apply head_is_Some_length. simpl. rewrite Hbox.
    destruct (head (paths_from (querySelectorAll summary_icon) 0 ks)) as [y|] eqn:Hm;
      simpl.
    + by eapply marker_survives.
    + apply marker_appended.
  - cbn [get]. intros Hx Hbox.
    destruct (children (enhance_rec reduced (mkElement tag cl attrs st text ks)) !! i)
      as [c|] eqn:Hc; simpl in Hx; [|done].
    assert (c ∈ map (enhance_rec reduced) ks ∨ c = icon ∨ c = progressBar reduced)
      as [Hin|Hdeco].
    { apply list_elem_of_lookup_2 in Hc.
      destruct (children_enhance_rec reduced (mkElement tag cl attrs st text ks))
        as [H|H]; rewrite H in Hc; simpl in Hc; [by left|].
      apply elem_of_app in Hc as [?|Hc]; [by left|right].
      rewrite !elem_of_cons, elem_of_nil in Hc. tauto. }
    + change (map (enhance_rec reduced) ks) with (enhance_rec reduced <$> ks) in Hin.
      apply list_elem_of_fmap in Hin as (k & -> & Hk).
      rewrite Forall_forall in IH. by eapply IH.
    + assert (x = c) as ->.
      { destruct Hdeco as [-> | ->]; destruct p, reduced; simpl in Hx;
          by simplify_eq. }
      by destruct Hdeco as [-> | ->], reduced.
Qed.

(** A pass on an undecorated box appends the two decorations and nothing
    else. *)
Lemma enhance_rec_undecorated reduced e :
  matches CONFIG.selectors.summaryBox e = true →
  undecorated e →
  inside summary_icon (enhance_rec reduced e) = 1%nat
  ∧ inside summary_progress (enhance_rec reduced e) = 1%nat.
Proof.
  destruct e as [tag cl attrs st text ks]. unfold undecorated, inside, descendants.
  simpl. intros Hbox (Hi & Hp & Hb). rewrite Hbox.
  apply nil_length_inv in Hi, Hp, Hb. rewrite Hi; simpl.
  assert (map (enhance_rec reduced) ks = ks) as ->.
  { apply map_enhance_rec_fixed. apply paths_from_nil_inv in Hb.
    eapply Forall_impl; [exact Hb|]. intros k. apply enhance_rec_no_box. }
  rewrite !paths_from_app, Hi, Hp. by destruct reduced.
Qed.

Lemma passes_S n reduced doc :
  passes (S n) reduced doc = enhance reduced doc.
Proof.
  induction n as [|n IH]; [done|].
  change (passes (S (S n)) reduced doc)
    with (enhance reduced (passes (S n) reduced doc)).
  rewrite IH, !enhance_enhance_rec. apply enhance_rec_idempotent.
Qed.

(** ** The claim about decoration *)

(** C1, amended.  A second pass changes nothing, so any positive number of
    passes leaves the document as the first pass left it; after a pass every
    box holds a marker; and a box that held no marker, no progress bar and
    no other box before the first pass holds exactly one marker and exactly
    one progress bar after any positive number of passes. *)
Theorem decoration_idempotent (reduced : bool) (doc : Element) :
  enhance reduced (enhance reduced doc) = enhance reduced doc
  ∧ (∀ n, passes (S n) reduced doc = enhance reduced doc)
  ∧ (∀ p e, get p (enhance reduced doc) = Some e →
            matches CONFIG.selectors.summaryBox e = true →
            (1 ≤ inside summary_icon e)%nat)
  ∧ (∀ n p e, get p doc = Some e →
              matches CONFIG.selectors.summaryBox e = true →
              undecorated e →
              ∃ e', get p (passes (S n) reduced doc) = Some e'
                    ∧ inside summary_icon e' = 1%nat
                    ∧ inside summary_progress e' = 1%nat).
Proof.
  split_and!.
  - rewrite !enhance_enhance_rec. apply enhance_rec_idempotent.
  - intros n. apply passes_S.
  - intros p e. rewrite enhance_enhance_rec. apply decorated_has_marker.
  - intros n p e Hget Hbox Hclean. exists (enhance_rec reduced e).
    rewrite passes_S, enhance_enhance_rec.
    split; [by apply get_enhance_rec|by apply enhance_rec_undecorated].
Qed.

Lemma decoration_idempotent_witness :
  ∃ e', get [0; 0; 2]%nat (passes 3 false dashboard) = Some e'
        ∧ inside summary_icon e' = 1%nat
        ∧ inside summary_progress e' = 1%nat.
Proof.
  refine (proj2 (proj2 (proj2 (decoration_idempotent false dashboard)))
            2%nat [0; 0; 2]%nat (plain "div" ["summary-box"] []) _ _ _).
  - reflexivity.
  - reflexivity.
  - repeat split.
Defined.

(** C1 as stated fails for two boxes.  A box that already holds an element
    of class [summary-icon] is skipped and never gets a progress bar; and of
    two nested boxes the outer one holds two markers after a pass, its own
    and the inner one's. *)
Lemma decoration_not_exactly_one :
  ¬ decorated_once (enhance true premarked)
  ∧ ¬ decorated_once (enhance true nested).
Proof.
  split; intros H.
  - assert (∃ e, get [0%nat] (enhance true premarked) = Some e
                 ∧ inside summary_progress e = 0%nat) as (e & He & H0)
        by (eexists; split; reflexivity).
    destruct (H [0%nat] e) as [_ H1]; [vm_compute; left|done|]. congruence.
  - assert (∃ e, get [0%nat] (enhance true nested) = Some e
                 ∧ inside summary_icon e = 2%nat) as (e & He & H0)
        by (eexists; split; reflexivity).
    destruct (H [0%nat] e) as [H1 _]; [vm_compute; left|done|]. congruence.
Qed.

(** ** The pass with its timers *)

Lemma set_document_document p : set_document (document p) p = p.
Proof. by destruct p. Qed.

Lemma progress_timers_nil h t : progress_timers h t [].
Proof. intros i tm Hi. by rewrite lookup_nil in Hi. Qed.

Lemma progress_timers_app h t l1 l2 :
  progress_timers h t l1 → progress_timers (h + length l1) t l2 →
  progress_timers h t (l1 ++ l2).
Proof.
  intros H1 H2 i tm [Hi|[Hlen Hi]]%lookup_app_Some; [by apply H1|].
  destruct (H2 _ _ Hi) as [bar ->]. exists bar. f_equal. lia.
Qed.

(** One call of [decorateSummaryBox]: the box is changed as
    [decorateSummaryBox] says, and at most one timer is set, none when
    motion is reduced. *)
Lemma decorateSummaryBox_timed_spec box w :
  ∃ news,
    decorateSummaryBox_timed box w =
    mkWorld (mutate box (decorateSummaryBox (reducedMotion (page w))) (page w))
            (now w) (next_handle w + length news) (timers w ++ news)
            (closures w) (mutationObserver w) (streamlitReady w) (trace w)
    ∧ progress_timers (next_handle w) (now w) news
    ∧ (length news ≤ 1)%nat
    ∧ (reducedMotion (page w) = true → news = [])
    ∧ (∀ e, get box (document (page w)) = Some e →
            is_Some (Element_querySelector summary_icon e) → news = []).
Proof.
  unfold decorateSummaryBox_timed.
  assert (∀ p, p = page w →
               ∃ news,
                 w = mkWorld p (now w) (next_handle w + length news) (timers w ++ news)
                       (closures w) (mutationObserver w) (streamlitReady w) (trace w)
                 ∧ progress_timers (next_handle w) (now w) news
                 ∧ (length news ≤ 1)%nat
                 ∧ (reducedMotion (page w) = true → news = [])
                 ∧ (∀ e, get box (document (page w)) = Some e →
                         is_Some (Element_querySelector summary_icon e) → news = []))
    as Hsame.
  { intros p ->. exists []. simpl. rewrite Nat.add_0_r, app_nil_r.
    split_and!; [by destruct w|apply progress_timers_nil|lia|done|done]. }
  destruct (get box (document (page w))) as [e|] eqn:He.
  - destruct (Element_querySelector summary_icon e) as [m|] eqn:Hm.
    + apply Hsame. unfold mutate.
      rewrite (update_id _ _ _ e); [apply set_document_document|done|].
      unfold decorateSummaryBox. by rewrite Hm.
    + destruct (reducedMotion (page w)) eqn:Hr.
      * exists []. simpl. rewrite Nat.add_0_r, app_nil_r.
        split_and!; [by destruct w|apply progress_timers_nil|lia|done|done].
      * eexists [_]. unfold setTimeout, add_timer. cbn [snd]. fields. cbn [length].
        rewrite Nat.add_1_r.
        split_and!; [by destruct w| |done|done|].
        -- intros [|i] tm; simpl; [|done]. intros [= <-].
           eexists. by rewrite Nat.add_0_r.
        -- intros e' [= <-] [m Hm']. congruence.
  - apply Hsame. unfold mutate. by rewrite update_nowhere, set_document_document.
Qed.

(** A pass: the document is changed as [enhance] says, and at most one
    timer is set for each box, none when motion is reduced. *)
Lemma foldl_decorateSummaryBox_timed bs :
  ∀ w, ∃ news,
    foldl (λ w box, decorateSummaryBox_timed box w) w bs =
    mkWorld (set_document (foldl (visit (reducedMotion (page w))) (document (page w)) bs)
                          (page w))
            (now w) (next_handle w + length news) (timers w ++ news)
            (closures w) (mutationObserver w) (streamlitReady w) (trace w)
    ∧ progress_timers (next_handle w) (now w) news
    ∧ (length news ≤ length bs)%nat
    ∧ (reducedMotion (page w) = true → news = []).
Proof.
  induction bs as [|b bs IH]; intros w; cbn [foldl].
  - exists []. simpl. rewrite Nat.add_0_r, app_nil_r, set_document_document.
    split_and!; [by destruct w|apply progress_timers_nil|lia|done].
  - destruct (decorateSummaryBox_timed_spec b w) as (n1 & -> & Hs1 & Hl1 & Hr1 & _).
    match goal with |- context [foldl _ ?w1 bs] =>
      destruct (IH w1) as (n2 & -> & Hs2 & Hl2 & Hr2) end.
    cbn [page now next_handle timers closures mutationObserver streamlitReady trace
         mutate set_document document reducedMotion storage console dispatched
         listeners innerWidth] in *.
    exists (n1 ++ n2). rewrite length_app, Nat.add_assoc, <- app_assoc.
    split_and!; [done| |simpl; lia|].
    + by apply progress_timers_app.
    + intros Hr. by rewrite Hr1, Hr2.
Qed.

Lemma enhanceNewElements_timed_spec w :
  ∃ news,
    enhanceNewElements_timed w =
    mkWorld (enhanceNewElements (page w)) (now w) (next_handle w + length news)
            (timers w ++ news) (closures w) (mutationObserver w) (streamlitReady w)
            (trace w)
    ∧ progress_timers (next_handle w) (now w) news
    ∧ (length news ≤ length (boxes w))%nat
    ∧ (reducedMotion (page w) = true → news = []).
Proof. apply foldl_decorateSummaryBox_timed. Qed.

(** What a pass leaves alone. *)
Lemma enhanceNewElements_timed_fields w :
  page (enhanceNewElements_timed w) = enhanceNewElements (page w)
  ∧ now (enhanceNewElements_timed w) = now w
  ∧ closures (enhanceNewElements_timed w) = closures w
  ∧ mutationObserver (enhanceNewElements_timed w) = mutationObserver w
  ∧ streamlitReady (enhanceNewElements_timed w) = streamlitReady w
  ∧ trace (enhanceNewElements_timed w) = trace w.
Proof. by destruct (enhanceNewElements_timed_spec w) as (news & -> & _). Qed.

Lemma page_enhanceNewElements_timed w :
  page (enhanceNewElements_timed w) = enhanceNewElements (page w).
Proof. apply enhanceNewElements_timed_fields. Qed.

(** An invariant of the page operations that does not look at the timers
    a pass sets is kept by the pass. *)
Lemma progress_timers_elem h t news tm :
  progress_timers h t news → tm ∈ news →
  ∃ i bar, (i < length news)%nat
           ∧ tm = mkTimer (h + i) (t + 100) None (ShowProgress (Some bar)).
Proof.
  intros Hs (i & Hi)%list_elem_of_lookup_1. destruct (Hs _ _ Hi) as [bar ->].
  exists i, bar. split; [by eapply lookup_lt_Some|done].
Qed.

(** ** Exceptions and [initUI] *)

Section Triples.
Context {A B : Type}.

Lemma triple_bind P (m : M A) (k : A → M B) Q R E :
  triple P m Q E → (∀ a, triple (Q a) (k a) R E) → triple P (bind m k) R E.
Proof.
  intros Hm Hk w Hw. unfold bind. specialize (Hm w Hw).
  destruct (m w) as [a w'|e w']; [by apply Hk|done].
Qed.

Lemma triple_run1 P (f : World → A * World) (Q : A → World → Prop) E :
  (∀ w, P w → Q (f w).1 (f w).2) → triple P (run1 f) Q E.
Proof. intros H w Hw. unfold run1. specialize (H w Hw). by destruct (f w). Qed.

Lemma triple_read P (f : World → A) (Q : A → World → Prop) E :
  (∀ w, P w → Q (f w) w) → triple P (read f) Q E.
Proof. intros H w Hw. by apply H. Qed.

Lemma triple_try_catch P (body : M A) handler Q E E' :
  triple P body Q E' → (∀ e, triple E' (handler e) Q E) →
  triple P (try_catch body handler) Q E.
Proof.
  intros Hb Hh w Hw. unfold try_catch. specialize (Hb w Hw).
  destruct (body w) as [a w'|e w']; [done|by apply Hh].
Qed.

Lemma triple_statement faults n P (m : M A) Q (E : World → Prop) :
  (∀ w, P w → E w) → triple P m Q E → triple P (statement faults n m) Q E.
Proof.
  intros HE Hm w Hw. unfold statement.
  destruct (faults n w); [by apply HE|by apply Hm].
Qed.
End Triples.

Lemma triple_run0 P (f : World → World) (Q : unit → World → Prop) E :
  (∀ w, P w → Q tt (f w)) → triple P (run0 f) Q E.
Proof. intros H w Hw. by apply H. Qed.

Section InitUI.
Context (faults : nat → World → option string).

(** [initUI] is its body behind the failure boundary. *)
Lemma initUI_unfold w :
  initUI faults w =
  match initUI_body faults (record InitUI w) with
  | Normal _ w' => Normal tt w'
  | Thrown error w' =>
      Normal tt (on_page (console_write
                            (Error ("Error initializing UI: " ++ error))) w')
  end.
Proof.
  unfold initUI, bind, run0, try_catch.
  by destruct (initUI_body faults (record InitUI w)) as [[] w'|e w'].
Qed.

Lemma initUI_normal w : ∃ w', initUI faults w = Normal tt w'.
Proof. rewrite initUI_unfold. destruct (initUI_body _ _); eauto. Qed.

(** [initUI] in three phases: up to the enhancement pass, from the pass up
    to the last call, [handleResize()], and after it.  What holds in each
    phase and is handed on to the next gives what holds when [initUI]
    returns, whatever throws. *)
Lemma initUI_three_phase (I I' J : World → Prop) :
  (∀ w, I w → I (on_page (setTheme (getTheme (page w))) w)) →
  (∀ w, I w → I (on_page applySavedSidebarState w)) →
  (∀ w, I w → I' (enhanceNewElements_timed w)) →
  (∀ w, I' w → I' (setupMutationObserver w)) →
  (∀ w, I' w → I' (on_page attachEventHandlers w)) →
  (∀ w, I' w → I' (debounce ResizeFunc 250 w).2) →
  (∀ c w, I' w → I' (on_page (addEventListener (OnResize c)) w)) →
  (∀ c w, I' w → J (executedFunction c w)) →
  (∀ e w, I w → J (on_page (console_write e) w)) →
  (∀ e w, I' w → J (on_page (console_write e) w)) →
  (∀ e w, J w → J (on_page (console_write e) w)) →
  ∀ w, I (record InitUI w) → J (world_of (initUI faults w)).
Proof.
  intros H2 H3 H4 H5 H6 H7 H8 H9 H10 H10' H11 w Hw.
  assert (triple (λ w', w' = w) (initUI faults) (λ _, J) J) as Ht;
    [|by specialize (Ht w eq_refl); destruct (initUI faults w)].
  unfold initUI, initUI_body.
  eapply triple_bind with (Q := λ _, I);
    [apply triple_run0; by intros ? ->|intros _].
  apply triple_try_catch with (E' := λ w', I w' ∨ I' w' ∨ J w');
    [|intros e; apply triple_run0; intros w' [?|[?|?]]; auto].
  eapply triple_bind.
  { apply triple_statement; [tauto|].
    apply (triple_read I _ (λ a w, I w ∧ a = getTheme (page w))); auto. }
  intros savedTheme. simpl.
  eapply triple_bind with (Q := λ _, I).
  { apply triple_statement; [tauto|]. apply triple_run0.
    intros w' [Hw' ->]. auto. }
  intros _.
  eapply triple_bind with (Q := λ _, I);
    [apply triple_statement; [tauto|]; apply triple_run0; auto|intros _].
  eapply triple_bind with (Q := λ _, I');
    [apply triple_statement; [tauto|]; apply triple_run0; auto|intros _].
  do 2 (eapply triple_bind with (Q := λ _, I');
        [apply triple_statement; [tauto|]; apply triple_run0; auto|intros _]).
  eapply triple_bind with (Q := λ _, I').
  { apply triple_statement; [tauto|]. apply triple_run1. auto. }
  intros handleResize.
  eapply triple_bind with (Q := λ _, I');
    [apply triple_statement; [tauto|]; apply triple_run0; auto|intros _].
  eapply triple_bind with (Q := λ _, J);
    [apply triple_statement; [tauto|]; apply triple_run0; auto|intros _].
  apply triple_statement; [tauto|]. apply triple_run0; auto.
Qed.

(** [initUI] in two phases.  What holds up to the last call,
    [handleResize()], and is turned by that call, or by the handler, into
    something the final log line keeps, gives what holds when [initUI]
    returns, whatever throws. *)
Lemma initUI_two_phase (I J : World → Prop) :
  (∀ w, I w → I (on_page (setTheme (getTheme (page w))) w)) →
  (∀ w, I w → I (on_page applySavedSidebarState w)) →
  (∀ w, I w → I (enhanceNewElements_timed w)) →
  (∀ w, I w → I (setupMutationObserver w)) →
  (∀ w, I w → I (on_page attachEventHandlers w)) →
  (∀ w, I w → I (debounce ResizeFunc 250 w).2) →
  (∀ c w, I w → I (on_page (addEventListener (OnResize c)) w)) →
  (∀ c w, I w → J (executedFunction c w)) →
  (∀ e w, I w → J (on_page (console_write e) w)) →
  (∀ e w, J w → J (on_page (console_write e) w)) →
  ∀ w, I (record InitUI w) → J (world_of (initUI faults w)).
Proof.
  intros H2 H3 H4 H5 H6 H7 H8 H9 H10 H11. apply (initUI_three_phase I I J); auto.
Qed.

(** An invariant of the ten statements and of the handler is an invariant
    of [initUI], whatever throws. *)
Lemma initUI_preserves (I : World → Prop) :
  (∀ w, I w → I (record InitUI w)) →
  (∀ w, I w → I (on_page (setTheme (getTheme (page w))) w)) →
  (∀ w, I w → I (on_page applySavedSidebarState w)) →
  (∀ w, I w → I (enhanceNewElements_timed w)) →
  (∀ w, I w → I (setupMutationObserver w)) →
  (∀ w, I w → I (on_page attachEventHandlers w)) →
  (∀ w, I w → I (debounce ResizeFunc 250 w).2) →
  (∀ c w, I w → I (on_page (addEventListener (OnResize c)) w)) →
  (∀ c w, I w → I (executedFunction c w)) →
  (∀ e w, I w → I (on_page (console_write e) w)) →
  ∀ w, I w → I (world_of (initUI faults w)).
Proof.
  intros H0 H2 H3 H4 H5 H6 H7 H8 H9 H10 w Hw.
  apply (initUI_two_phase I I); auto.
Qed.
End InitUI.

(** ** The claim about the failure boundary *)

(** C9.  Whatever statement of its body throws, and whatever the error,
    [initUI] returns normally: the world it returns is the one its body
    ended in, with one more console error when the body threw. *)
Theorem initUI_never_throws (faults : nat → World → option string) (w : World) :
  ∃ w', initUI faults w = Normal tt w'
        ∧ match initUI_body faults (record InitUI w) with
          | Normal _ w1 => w' = w1
          | Thrown error w1 =>
              page w' = console_write (Error ("Error initializing UI: " ++ error))
                                      (page w1)
              ∧ timers w' = timers w1 ∧ closures w' = closures w1
          end.
Proof.
  rewrite initUI_unfold.
  destruct (initUI_body faults (record InitUI w)) as [a w1|error w1]; eauto.
Qed.

(** A run in which [new MutationObserver] throws: the error is logged, the
    statements before it have taken effect (the two boxes are decorated and
    the timers for their progress bars are set), and those after it have
    not. *)
Example initUI_swallows_fault :
  let w := world_of (initUI (fault_at 5 "MutationObserver is not defined")
                            (boot (page_of dashboard []))) in
  console (page w) = [Error "Error initializing UI: MutationObserver is not defined"]
  ∧ root_attribute "data-theme" (page w) = Some "Light"
  ∧ inside summary_icon <$> get [0; 0; 2]%nat (document (page w)) = Some 1%nat
  ∧ mutationObserver w = None
  ∧ listeners (page w) = []
  ∧ timers w = [mkTimer 1 100 None (ShowProgress (Some [0; 0; 1; 2]%nat));
                mkTimer 2 100 None (ShowProgress (Some [0; 0; 2; 1]%nat))].
Proof. repeat split. Qed.

(** ** The theme across a reload *)

Lemma storage_applySavedSidebarState p :
  storage (applySavedSidebarState p) = storage p.
Proof.
  unfold applySavedSidebarState.
  destruct (querySelector CONFIG.selectors.sidebar _); [|done].
  destruct (querySelector CONFIG.selectors.app _); [|done].
  by case_bool_decide.
Qed.

Lemma getItem_setTheme_same theme p :
  theme ∈ CONFIG.themes →
  getItem CONFIG.storageKeys.theme p = Some theme →
  getItem CONFIG.storageKeys.theme (setTheme theme p) = Some theme.
Proof.
  intros Hin Hg.
  assert (settled theme = theme) as Hs.
  { unfold settled, includes. by rewrite bool_decide_eq_true_2. }
  destruct (querySelector CONFIG.selectors.app (document p)) as [path|] eqn:Hq.
  - by rewrite (getItem_setTheme _ _ _ Hq), Hs.
  - by rewrite (setTheme_absent _ _ Hq).
Qed.

(** The decorations are no app root, so the root is found after a pass
    where it was before, with the attributes it had. *)
Lemma root_attribute_enhanceNewElements k p :
  root_attribute k (enhanceNewElements p) = root_attribute k p.
Proof.
  unfold root_attribute, enhanceNewElements; simpl.
  rewrite enhance_enhance_rec. unfold querySelector.
  rewrite querySelectorAll_enhance_rec; [|done|by destruct (reducedMotion p)].
  destruct (head _) as [a|] eqn:Ha; simpl; [|done].
  destruct (querySelector_get _ _ _ Ha) as (x & Hx & _).
  rewrite (get_enhance_rec _ _ _ _ Hx), Hx; simpl.
  by rewrite attributes_enhance_rec.
Qed.

Lemma root_attribute_applySavedSidebarState k p :
  k ≠ "data-sidebar-collapsed" →
  root_attribute k (applySavedSidebarState p) = root_attribute k p.
Proof.
  intros Hk. unfold applySavedSidebarState.
  destruct (querySelector CONFIG.selectors.sidebar _) as [s|] eqn:Hs; [|done].
  destruct (querySelector CONFIG.selectors.app _) as [a|] eqn:Ha; [|done].
  case_bool_decide; [|done].
  unfold root_attribute; simpl. rewrite querySelector_setAttribute.
  unfold CONFIG.selectors.app in *.
  rewrite querySelector_update;
    [|apply children_classList_add|intros x; by apply matches_classList_add].
  rewrite Ha; simpl. rewrite get_update.
  pose proof (get_update_field attributes a s (classList_add "collapsed") (document p)
                (children_classList_add _) (attributes_classList_add _)
                (λ _ _, eq_refl)) as H'.
  destruct (get a (update s _ _)) as [y|], (get a (document p)) as [x|];
    simplify_eq/=; [|done].
  rewrite lookup_insert_ne by done. by rewrite H'.
Qed.

Lemma page_executedFunction c w : page (executedFunction c w) = page w.
Proof.
  unfold executedFunction. destruct (closures w !! c) as [cl|]; [|done].
  by destruct (timeout cl).
Qed.

(** The page [initUI] leaves when nothing throws. *)
Lemma page_initUI_no_faults w :
  ∃ c, page (world_of (initUI no_faults w)) =
       console_write (Log "AI Research Agent Dashboard initialized")
         (addEventListener (OnResize c)
            (attachEventHandlers
               (enhanceNewElements
                  (applySavedSidebarState
                     (setTheme (getTheme (page w)) (page w)))))).
Proof.
  unfold initUI, initUI_body, bind, statement, run0, run1, read,
    try_catch, no_faults, world_of.
  match goal with |- context [enhanceNewElements_timed ?x] =>
    destruct (enhanceNewElements_timed_spec x) as (news & -> & _) end.
  eexists.
  cbn [debounce on_page page set_page]. rewrite page_executedFunction. reflexivity.
Qed.

(** ** The claim about persistence *)

(** C7.  After [setTheme("Dark")] on a page with an app root, an activation
    on a reloaded page over the same storage reads ["Dark"] back, whatever
    the new document is and whatever throws during the activation; and when
    nothing throws and the new document has an app root, that root carries
    ["Dark"] as its theme attribute. *)
Theorem theme_survives_reload (faults : nat → World → option string)
    (p : Page) (path : Path) (doc : Element) (reduced : bool) (width : Z) :
  querySelector CONFIG.selectors.app (document p) = Some path →
  let fresh := reload doc reduced width (setTheme "Dark" p) in
  getTheme fresh = "Dark"
  ∧ getTheme (page (world_of (initUI faults (boot fresh)))) = "Dark"
  ∧ (is_Some (querySelector CONFIG.selectors.app doc) →
     root_attribute "data-theme" (page (world_of (initUI no_faults (boot fresh))))
     = Some "Dark").
Proof.
  intros Hq fresh.
  assert (getItem CONFIG.storageKeys.theme fresh = Some "Dark") as Hfresh.
  { unfold fresh, reload, getItem; simpl. by apply (getItem_setTheme "Dark" p path). }
  assert (∀ q, getItem CONFIG.storageKeys.theme q = Some "Dark" → getTheme q = "Dark")
    as Hread by (intros q Hg; unfold getTheme; by rewrite Hg).
  split_and!.
  - by apply Hread.
  - apply Hread.
    apply (initUI_preserves faults
             (λ w, getItem CONFIG.storageKeys.theme (page w) = Some "Dark"));
      try done.
    + intros w Hw; simpl. rewrite (Hread _ Hw).
      apply getItem_setTheme_same; [|done].
      unfold CONFIG.themes. rewrite !elem_of_cons. auto.
    + intros w Hw; simpl. unfold getItem in *.
      by rewrite storage_applySavedSidebarState.
    + intros w Hw. by rewrite page_enhanceNewElements_timed.
    + intros c w Hw. unfold executedFunction.
      destruct (closures w !! c) as [cl|]; [|done]. by destruct (timeout cl).
  - intros [a Ha].
    destruct (page_initUI_no_faults (boot fresh)) as [c ->].
    change (root_attribute "data-theme"
              (enhanceNewElements
                 (applySavedSidebarState (setTheme (getTheme fresh) fresh)))
            = Some "Dark").
    rewrite root_attribute_enhanceNewElements,
      root_attribute_applySavedSidebarState by done.
    rewrite (Hread _ Hfresh). by apply (root_attribute_setTheme "Dark" fresh a).
Qed.

Lemma theme_survives_reload_witness :
  let fresh := reload blank true 800 (setTheme "Dark" (page_of dashboard [])) in
  getTheme (page (world_of (initUI (fault_at 4 "out of memory") (boot fresh))))
  = "Dark".
Proof.
  refine (proj1 (proj2
    (theme_survives_reload (fault_at 4 "out of memory") (page_of dashboard [])
       [0; 0]%nat blank true 800 _))).
  reflexivity.
Defined.

(** ** Timers: which one runs next *)

Section Earliest.
Context (ties : Timer → Timer → bool).

Lemma before_due a b : before ties a b = true → (due a ≤ due b)%Z.
Proof.
  unfold before. rewrite orb_true_iff, andb_true_iff, !bool_decide_eq_true. lia.
Qed.

Lemma before_false_due a b : before ties a b = false → (due b ≤ due a)%Z.
Proof.
  unfold before. rewrite orb_false_iff, bool_decide_eq_false. lia.
Qed.

Lemma earliest_None ts : earliest ties ts = None ↔ ts = [].
Proof.
  destruct ts as [|t ts]; simpl; [done|].
  destruct (earliest ties ts) as [m|]; [destruct (before ties m t)|]; done.
Qed.

Lemma earliest_elem ts tm : earliest ties ts = Some tm → tm ∈ ts.
Proof.
  revert tm; induction ts as [|t ts IH]; intros tm; simpl; [done|].
  destruct (earliest ties ts) as [m|].
  - destruct (before ties m t); intros [= <-]; [right; by apply IH|left].
  - intros [= <-]. left.
Qed.

(** However ties are broken, no pending timer is due before the one
    [earliest] picks. *)
Lemma earliest_due ts tm t :
  earliest ties ts = Some tm → t ∈ ts → (due tm ≤ due t)%Z.
Proof.
  revert tm; induction ts as [|t0 ts IH]; intros tm; simpl; [done|].
  intros Htm Ht. destruct (earliest ties ts) as [m|] eqn:Hm.
  - destruct (before ties m t0) eqn:Hb; injection Htm as <-.
    + apply before_due in Hb.
      apply elem_of_cons in Ht as [->|Ht]; [done|by apply IH].
    + apply before_false_due in Hb.
      apply elem_of_cons in Ht as [->|Ht]; [done|].
      specialize (IH m eq_refl Ht). lia.
  - apply earliest_None in Hm as ->. injection Htm as <-.
    apply list_elem_of_singleton in Ht as ->. done.
Qed.
End Earliest.

(** ** The clock *)

Lemma now_executedFunction c w : now (executedFunction c w) = now w.
Proof.
  unfold executedFunction. destruct (closures w !! c) as [cl|]; [|done].
  by destruct (timeout cl).
Qed.

Lemma now_clearTimer h w : now (clearTimer h w) = now w.
Proof. by destruct h. Qed.

(** What a call of the debounced function's [func] leaves alone, and the
    timers it sets. *)
Lemma call_func_fields f w :
  closures (call_func f w) = closures w
  ∧ mutationObserver (call_func f w) = mutationObserver w
  ∧ streamlitReady (call_func f w) = streamlitReady w
  ∧ trace (call_func f w) = trace w
  ∧ now (call_func f w) = now w
  ∧ ∃ news, timers (call_func f w) = timers w ++ news
            ∧ next_handle (call_func f w) = (next_handle w + length news)%nat
            ∧ progress_timers (next_handle w) (now w) news
            ∧ (length news ≤ length (boxes w))%nat
            ∧ (f = ResizeFunc → news = []).
Proof.
  destruct f; simpl.
  - destruct (enhanceNewElements_timed_spec w) as (news & -> & Hs & Hl & _).
    split_and!; try done. exists news. by split_and!.
  - split_and!; try done. exists []. rewrite app_nil_r, Nat.add_0_r.
    split_and!; [done|done|apply progress_timers_nil|simpl; lia|done].
Qed.

Lemma now_later c w : now (later c w) = now w.
Proof.
  unfold later. destruct (closures w !! c) as [cl|]; [|done].
  match goal with |- context [call_func ?f ?x] =>
    destruct (call_func_fields f x) as (_ & _ & _ & _ & -> & _) end.
  by destruct (timeout cl).
Qed.

Lemma now_initUI faults w : now (world_of (initUI faults w)) = now w.
Proof.
  apply (initUI_preserves faults (λ w', now w' = now w)); try done.
  - intros w' <-. apply enhanceNewElements_timed_fields.
  - intros c w' <-. apply now_executedFunction.
Qed.

Lemma now_poll_tick faults w : now (world_of (poll_tick faults w)) = now w.
Proof.
  unfold poll_tick.
  destruct (querySelector CONFIG.selectors.app _) as [a|]; [|done].
  destruct (from_option _ _ _); [|done].
  unfold bind, run0. destruct (initUI_normal faults
    (on_page (mutate a (setAttribute initialized_marker "true")) (record Sighted w)))
    as [w' Hw'].
  pose proof (now_initUI faults
    (on_page (mutate a (setAttribute initialized_marker "true")) (record Sighted w)))
    as Hn.
  rewrite Hw' in *. simpl in *. by rewrite now_clearTimer.
Qed.

Lemma now_run_callback faults cb w :
  now (world_of (run_callback faults cb w)) = now w.
Proof.
  destruct cb as [c| | |bar|bar]; simpl.
  - apply now_later.
  - apply now_poll_tick.
  - unfold poll_abandon, run0; simpl. apply now_clearTimer.
  - by destruct bar.
  - by destruct bar.
Qed.

Lemma now_fire faults tm w :
  now (fire faults tm w) = Z.max (now w) (due tm).
Proof. unfold fire. by rewrite now_run_callback. Qed.

Section Runs.
Context (faults : nat → World → option string) (ties : Timer → Timer → bool).

Lemma run_until_unfold fuel T w :
  run_until faults ties fuel T w =
  match earliest ties (timers w) with
  | Some tm =>
      if bool_decide (due tm ≤ T)%Z then
        match fuel with
        | O => None
        | S fuel' => run_until faults ties fuel' T (fire faults tm w)
        end
      else Some (set_now (Z.max (now w) T) w)
  | None => Some (set_now (Z.max (now w) T) w)
  end.
Proof. by destruct fuel. Qed.

(** More fuel changes nothing once the timers have run. *)
Lemma run_until_more_fuel fuel fuel' T w w' :
  run_until faults ties fuel T w = Some w' → (fuel ≤ fuel')%nat →
  run_until faults ties fuel' T w = Some w'.
Proof.
  revert fuel' w; induction fuel as [|fuel IH]; intros fuel' w;
    rewrite !run_until_unfold;
    (destruct (earliest ties (timers w)) as [tm|]; [|done]);
    (case_bool_decide; [|done]); [done|].
  intros Hrun Hle. destruct fuel' as [|fuel']; [lia|]. apply IH; [done|lia].
Qed.

(** When the timers have run up to [T], the clock shows [T] and what is
    still pending is due later. *)
Lemma run_until_done fuel T w w' :
  run_until faults ties fuel T w = Some w' →
  now w' = Z.max (now w') T
  ∧ (now w ≤ T → now w' = T)%Z
  ∧ ∀ tm, tm ∈ timers w' → (T < due tm)%Z.
Proof.
  revert w; induction fuel as [|fuel IH]; intros w; rewrite run_until_unfold.
  - destruct (earliest ties (timers w)) as [tm|] eqn:Htm.
    + case_bool_decide as Hd; [done|]. intros [= <-]; simpl.
      split_and!; [lia..|]. intros t Ht.
      pose proof (earliest_due _ _ _ _ Htm Ht). lia.
    + intros [= <-]; simpl. apply earliest_None in Htm as ->.
      split_and!; [lia..|]. by intros t ?%elem_of_nil.
  - destruct (earliest ties (timers w)) as [tm|] eqn:Htm.
    + case_bool_decide as Hd.
      * intros Hrun. destruct (IH _ Hrun) as (H1 & H2 & H3).
        split_and!; [done| |done]. intros Hw. apply H2.
        rewrite now_fire. lia.
      * intros [= <-]; simpl. split_and!; [lia..|]. intros t Ht.
        pose proof (earliest_due _ _ _ _ Htm Ht). lia.
    + intros [= <-]; simpl. apply earliest_None in Htm as ->.
      split_and!; [lia..|]. by intros t ?%elem_of_nil.
Qed.

(** One step of a run. *)
Lemma run_until_step T tm w :
  earliest ties (timers w) = Some tm → (due tm ≤ T)%Z →
  ∀ fuel w', run_until faults ties fuel T (fire faults tm w) = Some w' →
             run_until faults ties (S fuel) T w = Some w'.
Proof.
  intros He Hd fuel w' Hrun.
  rewrite run_until_unfold, He. by rewrite bool_decide_eq_true_2.
Qed.

End Runs.

(** ** The debounce *)

Lemma timers_clearTimer h w : timers (clearTimer h w) = drop h (timers w).
Proof. by destruct h. Qed.

Lemma drop_elem_of h ts tm : tm ∈ drop h ts → tm ∈ ts.
Proof. destruct h; simpl; [|done]. by intros [_ ?]%list_elem_of_filter. Qed.

Lemma drop_app h ts ts' : drop h (ts ++ ts') = drop h ts ++ drop h ts'.
Proof. destruct h; simpl; [apply filter_app|done]. Qed.

(** What [executedFunction] does to a closure that exists. *)
Lemma executedFunction_unfold c cl w :
  closures w !! c = Some cl →
  executedFunction c w =
  mkWorld (page w) (now w) (S (next_handle w))
    (drop (timeout cl) (timers w)
       ++ [mkTimer (next_handle w) (now w + wait cl) None (Later c)])
    (alter (λ cl, mkClosure (func cl) (wait cl) (Some (next_handle w))) c (closures w))
    (mutationObserver w) (streamlitReady w) (trace w).
Proof.
  intros Hc. unfold executedFunction. rewrite Hc. by destruct (timeout cl).
Qed.

(** What firing the [later] of a closure does. *)
Lemma fire_later faults tm c cl w :
  callback tm = Later c → period tm = None → closures w !! c = Some cl →
  fire faults tm w =
  call_func (func cl)
    (mkWorld (page w) (Z.max (now w) (due tm)) (next_handle w)
       (drop (timeout cl) (filter (λ t, handle t ≠ handle tm) (timers w)))
       (closures w) (mutationObserver w) (streamlitReady w)
       (trace w ++ [(Z.max (now w) (due tm), TimerFired (Later c));
                    (Z.max (now w) (due tm), Called (func cl) c)])).
Proof.
  intros Hcb Hp Hc. unfold fire, reschedule. rewrite Hcb, Hp; simpl.
  unfold later; simpl. rewrite Hc.
  destruct (timeout cl); simpl; unfold record; simpl; by rewrite <- app_assoc.
Qed.

Lemma clearTimer_fields h w :
  closures (clearTimer h w) = closures w
  ∧ next_handle (clearTimer h w) = next_handle w
  ∧ mutationObserver (clearTimer h w) = mutationObserver w
  ∧ streamlitReady (clearTimer h w) = streamlitReady w
  ∧ trace (clearTimer h w) = trace w
  ∧ now (clearTimer h w) = now w.
Proof. by destruct h. Qed.

Lemma harmless_closures w w' tm :
  closures w' = closures w → harmless w tm → harmless w' tm.
Proof. unfold harmless. by intros ->. Qed.

Lemma filter_snoc_False {A} (P : A → Prop) `{∀ x, Decision (P x)} l x :
  ¬ P x → filter P (l ++ [x]) = filter P l.
Proof.
  intros Hx. by rewrite filter_app, filter_cons_False, filter_nil, app_nil_r.
Qed.

(** *** Sums over the pending timers *)

Lemma sum_list_with_filter_le {A} (f : A → nat) (P : A → Prop)
    `{∀ x, Decision (P x)} l :
  (sum_list_with f (filter P l) ≤ sum_list_with f l)%nat.
Proof.
  induction l as [|x l IH]; [done|]. rewrite filter_cons.
  destruct (decide (P x)); simpl; lia.
Qed.

Lemma sum_list_with_filter_elem {A} (f : A → nat) (P : A → Prop)
    `{∀ x, Decision (P x)} l x :
  x ∈ l → ¬ P x →
  (sum_list_with f (filter P l) + f x ≤ sum_list_with f l)%nat.
Proof.
  intros Hin Hx. induction l as [|y l IH]; [by apply elem_of_nil in Hin|].
  rewrite filter_cons. apply elem_of_cons in Hin as [->|Hin].
  - rewrite decide_False by done. simpl.
    pose proof (sum_list_with_filter_le f P l). lia.
  - specialize (IH Hin). destruct (decide (P y)); simpl; lia.
Qed.

Lemma sum_list_with_drop (f : Timer → nat) h ts :
  (sum_list_with f (drop h ts) ≤ sum_list_with f ts)%nat.
Proof. destruct h; simpl; [apply sum_list_with_filter_le|done]. Qed.

(** *** Timers by handle *)

Lemma with_handle_drop s g ts :
  g ≠ Some s → with_handle s (drop g ts) = with_handle s ts.
Proof.
  destruct g as [g|]; [|done]. intros Hne. unfold with_handle; simpl.
  apply list_filter_filter_l. intros x ->. congruence.
Qed.

Lemma with_handle_app s ts ts' :
  with_handle s (ts ++ ts') = with_handle s ts ++ with_handle s ts'.
Proof. apply filter_app. Qed.

Lemma with_handle_other s ts tm :
  handle tm ≠ s → with_handle s (ts ++ [tm]) = with_handle s ts.
Proof. intros. by apply filter_snoc_False. Qed.

Lemma with_handle_elem s ts tm : tm ∈ ts → handle tm = s → tm ∈ with_handle s ts.
Proof. intros. by apply list_elem_of_filter. Qed.

Lemma with_handle_none s ts :
  with_handle s (filter (λ t, handle t ≠ s) ts) = [].
Proof.
  unfold with_handle. rewrite list_filter_filter.
  induction ts as [|t ts IH]; [done|].
  rewrite filter_cons_False; [done|]. tauto.
Qed.

Lemma with_handle_fresh h ts :
  (∀ tm, tm ∈ ts → handle tm ≠ h) → with_handle h ts = [].
Proof.
  intros H. unfold with_handle. induction ts as [|t ts IH]; [done|].
  rewrite filter_cons_False.
  - apply IH. intros tm Hin. apply H. by right.
  - apply H. left.
Qed.

(** *** The host moves the progress bars *)

Lemma handle_retarget moved tm : handle (retarget moved tm) = handle tm.
Proof. unfold retarget. by destruct (callback tm). Qed.

Lemma due_retarget moved tm : due (retarget moved tm) = due tm.
Proof. unfold retarget. by destruct (callback tm). Qed.

Lemma period_retarget moved tm : period (retarget moved tm) = period tm.
Proof. unfold retarget. by destruct (callback tm). Qed.

(** Only the timers of progress bars are touched, and they stay what they
    are. *)
Lemma callback_retarget moved tm :
  match callback tm with
  | ShowProgress _ => ∃ bar, callback (retarget moved tm) = ShowProgress bar
  | FadeProgress _ => ∃ bar, callback (retarget moved tm) = FadeProgress bar
  | _ => retarget moved tm = tm
  end.
Proof. unfold retarget. destruct (callback tm); simpl; eauto. Qed.

Lemma drop_retarget moved h ts :
  drop h (retarget moved <$> ts) = retarget moved <$> drop h ts.
Proof.
  destruct h as [h|]; [|done]. simpl.
  induction ts as [|t ts IH]; [done|]. rewrite fmap_cons, !filter_cons.
  rewrite handle_retarget. destruct (decide (handle t ≠ h)); by rewrite IH.
Qed.

Lemma with_handle_retarget moved h ts :
  with_handle h (retarget moved <$> ts) = retarget moved <$> with_handle h ts.
Proof.
  unfold with_handle.
  induction ts as [|t ts IH]; [done|]. rewrite fmap_cons, !filter_cons.
  rewrite handle_retarget. destruct (decide (handle t = h)); by rewrite IH.
Qed.

Lemma harmless_retarget moved w tm : harmless w tm → harmless w (retarget moved tm).
Proof.
  intros [Hp Hk]. split; [by rewrite period_retarget|].
  pose proof (callback_retarget moved tm) as Hc.
  destruct Hk as [(c & cl & Hcb & Hcl & Hf)|[Hcb|[[bar Hcb]|[bar Hcb]]]];
    rewrite Hcb in Hc.
  - rewrite Hc. left. eauto.
  - rewrite Hc. by right; left.
  - by right; right; left.
  - by right; right; right.
Qed.

Section Debounce.
Context (faults : nat → World → option string).

(** What a harmless timer does when it fires: it leaves the table, clears
    at most the handle [g] its callback knows of, runs no pass, and sets at
    most one timer, the second one of a progress bar. *)
Lemma fire_harmless tm w :
  harmless w tm →
  ∃ g news,
    (g = streamlitReady w
     ∨ (∃ c cl, closures w !! c = Some cl ∧ func cl = ResizeFunc ∧ g = timeout cl)
     ∨ g = None)
    ∧ timers (fire faults tm w)
      = drop g (filter (λ t, handle t ≠ handle tm) (timers w)) ++ news
    ∧ (news = []
       ∨ ∃ bar bar', callback tm = ShowProgress bar
                     ∧ news = [mkTimer (next_handle w) (Z.max (now w) (due tm) + 300)
                                       None (FadeProgress bar')])
    ∧ closures (fire faults tm w) = closures w
    ∧ next_handle (fire faults tm w) = (next_handle w + length news)%nat
    ∧ mutationObserver (fire faults tm w) = mutationObserver w
    ∧ streamlitReady (fire faults tm w) = streamlitReady w
    ∧ enhance_passes (fire faults tm w) = enhance_passes w.
Proof.
  intros [Hp [(c & cl & Hcb & Hc & Hf)|[Hcb|[[bar Hcb]|[bar Hcb]]]]].
  - exists (timeout cl), []. split; [right; left; by exists c, cl|].
    rewrite (fire_later faults tm c cl w Hcb Hp Hc).
    match goal with |- context [call_func ?f ?x] =>
      destruct (call_func_fields f x)
        as (-> & -> & -> & Htr & _ & news & -> & -> & _ & _ & Hnil)
    end.
    rewrite (Hnil Hf). fields. cbn [length].
    split_and!; try done; [by left|].
    unfold enhance_passes. rewrite Htr; simpl. rewrite omap_app; simpl.
    rewrite Hf. by rewrite app_nil_r.
  - exists (streamlitReady w), []. split; [by left|].
    unfold fire, reschedule. rewrite Hp, Hcb.
    cbn [run_callback poll_abandon run0 world_of]. unfold clearInterval. fields.
    match goal with |- context [clearTimer ?h ?x] =>
      destruct (clearTimer_fields h x) as (-> & -> & -> & -> & Htr & _)
    end.
    rewrite timers_clearTimer, app_nil_r. fields. cbn [length].
    rewrite Nat.add_0_r.
    split_and!; try done; [by left|].
    unfold enhance_passes. rewrite Htr.
    fields. rewrite omap_app; simpl. by rewrite app_nil_r.
  - exists None. eexists [_]. split; [by right; right|].
    unfold fire, reschedule. rewrite Hp, Hcb.
    cbn [run_callback run0 world_of]. unfold show_progress, setTimeout, add_timer.
    cbn [snd]. cbn [drop].
    assert (∀ x : World,
              match bar with
              | Some progressBar =>
                  on_page (mutate progressBar
                             (λ e, set_style (<["width" := "100%"]> (style e)) e)) x
              | None => x
              end = on_page (λ p, match bar with
                                  | Some progressBar =>
                                      mutate progressBar
                                        (λ e, set_style (<["width" := "100%"]> (style e)) e) p
                                  | None => p
                                  end) x) as Hb.
    { intros x. destruct bar; [done|]. by destruct x. }
    rewrite Hb. fields. cbn [length]. rewrite Nat.add_1_r.
    split_and!; try done; [right; by eexists _, _|].
    unfold enhance_passes. fields. rewrite omap_app; simpl. by rewrite app_nil_r.
  - exists None, []. split; [by right; right|].
    unfold fire, reschedule. rewrite Hp, Hcb.
    cbn [run_callback run0 world_of]. unfold fade_progress.
    assert (∀ x : World,
              match bar with
              | Some progressBar =>
                  on_page (mutate progressBar
                             (λ e, set_style (<["opacity" := "0.3"]> (style e)) e)) x
              | None => x
              end = on_page (λ p, match bar with
                                  | Some progressBar =>
                                      mutate progressBar
                                        (λ e, set_style (<["opacity" := "0.3"]> (style e)) e) p
                                  | None => p
                                  end) x) as Hb.
    { intros x. destruct bar; [done|]. by destruct x. }
    rewrite Hb. fields. cbn [length drop]. rewrite app_nil_r, Nat.add_0_r.
    split_and!; try done; [by left|].
    unfold enhance_passes. fields. rewrite omap_app; simpl. by rewrite app_nil_r.
Qed.

(** A harmless timer that fires makes what is pending cost less. *)
Lemma fire_harmless_cost tm w g news :
  tm ∈ timers w →
  (news = []
   ∨ ∃ bar bar', callback tm = ShowProgress bar
                 ∧ news = [mkTimer (next_handle w) (Z.max (now w) (due tm) + 300)
                                   None (FadeProgress bar')]) →
  (cost (drop g (filter (λ t, handle t ≠ handle tm) (timers w)) ++ news)
   < cost (timers w))%nat.
Proof.
  intros Htm Hnews. unfold cost. rewrite sum_list_with_app.
  pose proof (sum_list_with_drop
                (λ tm, match callback tm with ShowProgress _ => 2 | _ => 1 end)%nat
                g (filter (λ t, handle t ≠ handle tm) (timers w))) as H1.
  pose proof (sum_list_with_filter_elem
                (λ tm, match callback tm with ShowProgress _ => 2 | _ => 1 end)%nat
                (λ t, handle t ≠ handle tm) (timers w) tm Htm) as H2.
  specialize (H2 (λ H, H eq_refl)). cbv beta in H2.
  destruct Hnews as [->|(bar & bar' & Hcb & ->)]; simpl.
  - destruct (callback tm); lia.
  - rewrite Hcb in H2. lia.
Qed.

(** A harmless timer fires in a calm world. *)
Lemma fire_calm tm w :
  calm w → tm ∈ timers w →
  calm (fire faults tm w)
  ∧ enhance_passes (fire faults tm w) = enhance_passes w
  ∧ (cost (timers (fire faults tm w)) < cost (timers w))%nat.
Proof.
  intros Hcalm Htm.
  destruct (fire_harmless tm w (Hcalm tm Htm))
    as (g & news & _ & Ht & Hnews & Hcl & _ & _ & _ & Hp).
  split_and!; [|done|].
  - intros t. rewrite Ht. intros [Hin%drop_elem_of|Hin]%elem_of_app.
    + apply list_elem_of_filter in Hin as [_ Hin].
      apply (harmless_closures w); [done|by apply Hcalm].
    + destruct Hnews as [->|(bar & bar' & Hcb & ->)];
        [by apply elem_of_nil in Hin|].
      apply list_elem_of_singleton in Hin as ->.
      split; [done|]. right; right; right. by eexists.
  - rewrite Ht. by apply fire_harmless_cost.
Qed.

Lemma observing_ready c w : observing c w → ∃ h, ready c h w.
Proof.
  intros (Ho & [h Hc] & Ht & Hcl & Hr). exists h. split_and!; try done.
  - intros tm Htm%drop_elem_of. by apply Ht.
  - intros c' cl g _. apply Hcl.
Qed.

(** A relevant burst cancels the pending [later] and schedules a new one,
    250 ms from now. *)
Lemma burst_arms c h w ch mv recs :
  ready c h w → shouldEnhance recs = true →
  armed c (now w + 250) (handle_event faults (Mutate ch mv recs) w)
  ∧ enhance_passes (handle_event faults (Mutate ch mv recs) w) = enhance_passes w
  ∧ now (handle_event faults (Mutate ch mv recs) w) = now w.
Proof.
  intros (Ho & Hc & Hts & Hcl & Hr) Hrel.
  cbn [handle_event]. unfold observer_callback, follow.
  cbn [on_page set_page set_timers mutationObserver]. rewrite Ho;
    cbn [connected debouncedEnhance].
  rewrite Hrel; cbn [andb].
  rewrite (executedFunction_unfold c (mkClosure EnhanceFunc 250 h)) by done.
  fields. cbn [timeout wait func].
  rewrite drop_retarget.
  assert (∀ tm, tm ∈ retarget mv <$> drop h (timers w) →
                harmless w tm ∧ (handle tm < next_handle w)%nat) as Hts'.
  { intros tm (t & -> & Hin)%list_elem_of_fmap. destruct (Hts t Hin).
    split; [by apply harmless_retarget|by rewrite handle_retarget]. }
  assert (∀ tm, tm ∈ retarget mv <$> drop h (timers w) →
                harmless
                  (mkWorld (set_document (ch (document (page w))) (page w)) (now w)
                     (S (next_handle w))
                     (retarget mv <$> drop h (timers w)
                        ++ [mkTimer (next_handle w) (now w + 250) None (Later c)])
                     (alter (λ cl, mkClosure (func cl) (wait cl) (Some (next_handle w)))
                            c (closures w))
                     (mutationObserver w) (streamlitReady w) (trace w)) tm) as Hharm.
  { intros tm Htm. destruct (Hts' tm Htm) as [[Hp Hk] Hh]. split; [done|].
    destruct Hk as [(c' & cl & Hcb & Hc' & Hf)|Hcb]; [left|by right].
    exists c', cl. split_and!; [done| |done].
    cbn [closures]. rewrite list_lookup_alter_ne; [done|]. intros ->.
    rewrite Hc in Hc'. by simplify_eq/=. }
  split_and!; [|done|done].
  exists (next_handle w).
  cbn [timers next_handle closures mutationObserver streamlitReady].
  split_and!.
  - rewrite with_handle_app, with_handle_fresh.
    + unfold with_handle. by rewrite filter_cons_True, filter_nil.
    + intros tm Htm. destruct (Hts' tm Htm). lia.
  - unfold ready.
    cbn [timers next_handle closures mutationObserver streamlitReady].
    split_and!.
    + done.
    + rewrite (list_lookup_alter_eq _ (closures w) c), Hc. done.
    + cbn [drop]. intros tm [Hne Htm]%list_elem_of_filter.
      apply elem_of_app in Htm as [Htm|Htm].
      * split; [by apply Hharm|]. destruct (Hts' tm Htm). lia.
      * apply list_elem_of_singleton in Htm as ->. done.
    + intros c' cl g Hne. rewrite list_lookup_alter_ne by done.
      intros H1 H2. specialize (Hcl c' cl g Hne H1 H2). lia.
    + intros sid Hsid. specialize (Hr sid Hsid). lia.
  - lia.
  - intros c' cl Hne. rewrite list_lookup_alter_ne by done.
    intros H1 H2. specialize (Hcl c' cl _ Hne H1 H2). lia.
  - intros Hsid. specialize (Hr _ Hsid). lia.
Qed.
End Debounce.

Section DebounceSteps.
Context (faults : nat → World → option string).

(** A harmless timer fires while the observer waits. *)
Lemma fire_observing c tm w :
  observing c w → tm ∈ timers w →
  observing c (fire faults tm w)
  ∧ enhance_passes (fire faults tm w) = enhance_passes w
  ∧ (cost (timers (fire faults tm w)) < cost (timers w))%nat.
Proof.
  intros (Ho & [h Hc] & Hts & Hcl & Hr) Htm.
  destruct (Hts tm Htm) as [Hharm Hh].
  destruct (fire_harmless faults tm w Hharm)
    as (g & news & _ & Ht' & Hnews & Hcl' & Hn' & Ho' & Hr' & Hp').
  split_and!; [|done|].
  - unfold observing. rewrite Ho', Hcl', Hn', Ht', Hr'. split_and!; eauto.
    + intros t [Hin%drop_elem_of|Hin]%elem_of_app.
      * apply list_elem_of_filter in Hin as [_ Hin].
        destruct (Hts t Hin). split; [by apply (harmless_closures w)|lia].
      * destruct Hnews as [->|(bar & bar' & Hcb & ->)];
          [by apply elem_of_nil in Hin|].
        apply list_elem_of_singleton in Hin as ->. simpl.
        split; [|lia]. split; [done|]. right; right; right. by eexists.
    + intros c' cl g0 H1 H2. specialize (Hcl c' cl g0 H1 H2). lia.
    + intros sid Hsid. specialize (Hr sid Hsid). lia.
  - rewrite Ht'. by apply fire_harmless_cost.
Qed.

(** What a timer does when it fires in an armed world: it is either the
    [later] of the enhancement, and the pass runs, or a harmless one, and
    the world stays armed. *)
Lemma fire_armed c d tm w :
  armed c d w → tm ∈ timers w →
  (due tm = d ∧ calm (fire faults tm w)
   ∧ enhance_passes (fire faults tm w) = enhance_passes w ++ [Z.max (now w) d])
  ∨ (armed c d (fire faults tm w)
     ∧ enhance_passes (fire faults tm w) = enhance_passes w
     ∧ (cost (timers (fire faults tm w)) < cost (timers w))%nat).
Proof.
  intros (h & Hown & (Ho & Hc & Hts & Hcl & Hr) & Hh & Hcl' & Hr') Htm.
  destruct (decide (handle tm = h)) as [Heq|Hne].
  - (* the enhancement *)
    left. pose proof (with_handle_elem _ _ _ Htm Heq) as Hin.
    rewrite Hown in Hin. apply list_elem_of_singleton in Hin as ->.
    rewrite (fire_later faults (mkTimer h d None (Later c)) c
               (mkClosure EnhanceFunc 250 (Some h)) w eq_refl eq_refl Hc).
    match goal with |- context [call_func ?f ?x] =>
      destruct (call_func_fields f x)
        as (Hcl1 & _ & _ & Htr1 & _ & news & Ht1 & _ & Hs1 & _);
      set (w' := call_func f x) in *
    end.
    cbn [timers trace closures timeout func handle due now next_handle] in *.
    clearbody w'. split_and!; [done| |].
    + intros t. rewrite Ht1. intros [Hin|Hin]%elem_of_app.
      * apply drop_elem_of in Hin. cbn [drop] in Hts.
        apply (harmless_closures w); [done|]. by apply Hts.
      * destruct (progress_timers_elem _ _ _ _ Hs1 Hin) as (i & bar & _ & ->).
        split; [done|]. right; right; left. by eexists.
    + unfold enhance_passes. rewrite Htr1, omap_app. done.
  - (* a harmless timer *)
    right.
    assert (tm ∈ drop (Some h) (timers w)) as Hin
        by (cbn [drop]; by apply list_elem_of_filter).
    destruct (Hts tm Hin) as [Hharm Hlt].
    destruct (fire_harmless faults tm w Hharm)
      as (g & news & Hg & Ht1 & Hnews & Hcl1 & Hn1 & Ho1 & Hr1 & Hp1).
    assert (g ≠ Some h) as Hgh.
    { destruct Hg as [->|[(c' & cl & Hc' & Hf & ->)| ->]]; [done| |done].
      assert (c' ≠ c) as Hc'c
          by (intros ->; rewrite Hc in Hc'; by simplify_eq/=).
      by apply (Hcl' c' cl). }
    assert (∀ t, t ∈ news →
                 harmless (fire faults tm w) t ∧ handle t = next_handle w) as Hnew.
    { intros t Ht. destruct Hnews as [->|(bar & bar' & Hcb & ->)];
        [by apply elem_of_nil in Ht|].
      apply list_elem_of_singleton in Ht as ->. split; [|done].
      split; [done|]. right; right; right. by eexists. }
    split_and!; [|done|rewrite Ht1; by apply fire_harmless_cost].
    exists h. unfold ready. rewrite Ht1, Hcl1, Hn1, Ho1, Hr1.
    split_and!; [|done|done| | | |lia|done|done].
    + rewrite with_handle_app, with_handle_drop by done.
      change (filter (λ t, handle t ≠ handle tm) (timers w))
        with (drop (Some (handle tm)) (timers w)).
      rewrite with_handle_drop by congruence.
      rewrite (with_handle_fresh h news), app_nil_r; [done|].
      intros t Ht. destruct (Hnew t Ht) as [_ ->]. lia.
    + cbn [drop]. intros t [Hth Ht]%list_elem_of_filter.
      apply elem_of_app in Ht as [Ht|Ht].
      * apply drop_elem_of, list_elem_of_filter in Ht as [_ Ht].
        destruct (Hts t) as [Hk ?]; [cbn [drop]; by apply list_elem_of_filter|].
        split; [by apply (harmless_closures w)|lia].
      * assert (1 ≤ length news)%nat
          by (destruct news; [by apply elem_of_nil in Ht|simpl; lia]).
        destruct (Hnew t Ht) as [Hk ->]. split; [done|lia].
    + intros c' cl g' H1 H2 H3. specialize (Hcl c' cl g' H1 H2 H3). lia.
    + intros sid Hsid. specialize (Hr sid Hsid). lia.
Qed.

Lemma armed_set_now c d x w : armed c d w → armed c d (set_now x w).
Proof. done. Qed.

Lemma armed_pending c d w :
  armed c d w → ∃ tm, tm ∈ timers w ∧ due tm = d ∧ callback tm = Later c.
Proof.
  intros (h & Hown & _). exists (mkTimer h d None (Later c)).
  split; [|done].
  assert (mkTimer h d None (Later c) ∈ with_handle h (timers w)) as H
      by (rewrite Hown; left).
  by apply list_elem_of_filter in H as [_ ?].
Qed.

Lemma armed_ready c d w : armed c d w → ∃ h, ready c h w.
Proof. intros (h & _ & Hready & _). by exists (Some h). Qed.
End DebounceSteps.

Section DebounceRuns.
Context (faults : nat → World → option string) (ties : Timer → Timer → bool).

(** Running a calm world runs no enhancement pass. *)
Lemma run_until_calm T w :
  calm w →
  ∃ fuel w', run_until faults ties fuel T w = Some w'
             ∧ enhance_passes w' = enhance_passes w.
Proof.
  remember (cost (timers w)) as n eqn:Hn. revert w Hn.
  induction n as [n IH] using lt_wf_ind. intros w -> Hcalm.
  destruct (earliest ties (timers w)) as [tm|] eqn:He;
    [destruct (decide (due tm ≤ T)%Z) as [Hd|Hd]|].
  - pose proof (earliest_elem _ _ _ He) as Htm.
    destruct (fire_calm faults tm w Hcalm Htm) as (Hcalm' & Hp & Hl).
    destruct (IH _ Hl (fire faults tm w) eq_refl Hcalm') as (fuel & w' & Hrun & Hp').
    exists (S fuel), w'. split; [by apply (run_until_step faults ties T tm)|congruence].
  - exists 0%nat, (set_now (Z.max (now w) T) w). split; [|reflexivity].
    rewrite run_until_unfold, He. by rewrite bool_decide_eq_false_2.
  - exists 0%nat, (set_now (Z.max (now w) T) w). split; [|reflexivity].
    by rewrite run_until_unfold, He.
Qed.

Lemma run_until_observing T c w :
  observing c w →
  ∃ fuel w', run_until faults ties fuel T w = Some w'
             ∧ observing c w'
             ∧ enhance_passes w' = enhance_passes w.
Proof.
  remember (cost (timers w)) as n eqn:Hn. revert w Hn.
  induction n as [n IH] using lt_wf_ind. intros w -> Hobs.
  destruct (earliest ties (timers w)) as [tm|] eqn:He;
    [destruct (decide (due tm ≤ T)%Z) as [Hd|Hd]|].
  - pose proof (earliest_elem _ _ _ He) as Htm.
    destruct (fire_observing faults c tm w Hobs Htm) as (Hobs' & Hp & Hl).
    destruct (IH _ Hl (fire faults tm w) eq_refl Hobs')
      as (fuel & w' & Hrun & ? & Hp').
    exists (S fuel), w'.
    split_and!; [by apply (run_until_step faults ties T tm)|done|congruence].
  - exists 0%nat, (set_now (Z.max (now w) T) w). split_and!; [|exact Hobs|reflexivity].
    rewrite run_until_unfold, He. by rewrite bool_decide_eq_false_2.
  - exists 0%nat, (set_now (Z.max (now w) T) w). split_and!; [|exact Hobs|reflexivity].
    by rewrite run_until_unfold, He.
Qed.

(** Before the [later] is due, nothing but harmless timers runs. *)
Lemma run_until_armed_wait T c d w :
  armed c d w → (T < d)%Z →
  ∃ fuel w', run_until faults ties fuel T w = Some w'
             ∧ armed c d w'
             ∧ enhance_passes w' = enhance_passes w.
Proof.
  remember (cost (timers w)) as n eqn:Hn. revert w Hn.
  induction n as [n IH] using lt_wf_ind. intros w -> Harm HT.
  destruct (earliest ties (timers w)) as [tm|] eqn:He;
    [destruct (decide (due tm ≤ T)%Z) as [Hd|Hd]|].
  - pose proof (earliest_elem _ _ _ He) as Htm.
    destruct (fire_armed faults c d tm w Harm Htm)
      as [(Hdue & _)|(Harm' & Hp & Hl)]; [lia|].
    destruct (IH _ Hl (fire faults tm w) eq_refl Harm' HT)
      as (fuel & w' & Hrun & ? & Hp').
    exists (S fuel), w'.
    split_and!; [by apply (run_until_step faults ties T tm)|done|congruence].
  - exists 0%nat, (set_now (Z.max (now w) T) w). split_and!; [|by apply armed_set_now|reflexivity].
    rewrite run_until_unfold, He. by rewrite bool_decide_eq_false_2.
  - exists 0%nat, (set_now (Z.max (now w) T) w). split_and!; [|by apply armed_set_now|reflexivity].
    by rewrite run_until_unfold, He.
Qed.

(** Once the [later] is due, the pass runs, at the time it was due. *)
Lemma run_until_armed_fire T c d w :
  armed c d w → (now w ≤ d)%Z → (d ≤ T)%Z →
  ∃ fuel w', run_until faults ties fuel T w = Some w'
             ∧ enhance_passes w' = enhance_passes w ++ [d].
Proof.
  remember (cost (timers w)) as n eqn:Hn. revert w Hn.
  induction n as [n IH] using lt_wf_ind. intros w -> Harm Hnow HT.
  destruct (armed_pending _ _ _ Harm) as (own & Hown & Hd & _).
  destruct (earliest ties (timers w)) as [tm|] eqn:He;
    [|apply earliest_None in He; rewrite He in Hown; by apply elem_of_nil in Hown].
  pose proof (earliest_due _ _ _ _ He Hown) as Hle.
  pose proof (earliest_elem _ _ _ He) as Htm.
  destruct (fire_armed faults c d tm w Harm Htm)
    as [(_ & Hcalm & Hp)|(Harm' & Hp & Hl)].
  - destruct (run_until_calm T _ Hcalm) as (fuel & w' & Hrun & Hp').
    exists (S fuel), w'. split; [apply (run_until_step faults ties T tm); [done|lia|done]|].
    rewrite Hp', Hp. do 2 f_equal. lia.
  - destruct (IH _ Hl (fire faults tm w) eq_refl Harm') as (fuel & w' & Hrun & Hp');
      [rewrite now_fire; lia|done|].
    exists (S fuel), w'.
    split; [apply (run_until_step faults ties T tm); [done|lia|done]|congruence].
Qed.

(** Bursts that keep coming within the window keep the [later] pending
    and move it along. *)
Lemma bursts_rearm c bs :
  ∀ t w,
    armed c (t + 250) w → now w = t →
    chained t (map at_time bs) →
    Forall (λ b, shouldEnhance (records b) = true) bs →
    ∃ fuel0 w1,
      (∀ fuel, (fuel0 ≤ fuel)%nat →
               simulate faults ties fuel (map burst_event bs) w = Some w1)
      ∧ armed c (default t (last (map at_time bs)) + 250) w1
      ∧ now w1 = default t (last (map at_time bs))
      ∧ enhance_passes w1 = enhance_passes w.
Proof.
  induction bs as [|b bs IH]; intros t w Harm Hnow Hch Hrel.
  - exists 0%nat, w. by split_and!.
  - destruct Hch as [Ht Hch]. inversion Hrel as [|? ? Hb Hrel']; subst.
    cbn [map simulate burst_event].
    destruct (run_until_armed_wait (at_time b) c (now w + 250) w Harm)
      as (fuel1 & w' & Hrun & Harm' & Hp); [lia|].
    destruct (run_until_done _ _ _ _ _ _ Hrun) as (_ & Hnow' & _).
    specialize (Hnow' ltac:(lia)).
    destruct (armed_ready _ _ _ Harm') as (h & Hready).
    destruct (burst_arms faults c h w' (change b) (moved b) (records b) Hready Hb)
      as (Harm'' & Hp'' & Hnow'').
    rewrite Hnow' in Harm''.
    destruct (IH (at_time b) _ Harm'') as (fuel2 & w1 & Hsim & Harm1 & Hnow1 & Hp1);
      [congruence|done|done|].
    exists (fuel1 `max` fuel2)%nat, w1. rewrite last_cons.
    split_and!.
    + intros fuel Hfuel.
      rewrite (run_until_more_fuel faults ties fuel1 fuel _ _ _ Hrun) by lia.
      apply Hsim. lia.
    + by destruct (last (map at_time bs)).
    + by destruct (last (map at_time bs)).
    + congruence.
Qed.
End DebounceRuns.

(** On the running dashboard the observer of the second activation is
    connected, and the poll's timeout and the resize handler's [later] are
    all that is pending. *)
Lemma running_observing : observing 2 running.
Proof.
  assert (timers running
          = [mkTimer 5 10000 None PollAbandon; mkTimer 8 750 None (Later 3)])
    as Ht by (vm_compute; reflexivity).
  assert (closures running
          = [mkClosure EnhanceFunc 250 None; mkClosure ResizeFunc 250 (Some 3%nat);
             mkClosure EnhanceFunc 250 None; mkClosure ResizeFunc 250 (Some 8%nat)])
    as Hc by (vm_compute; reflexivity).
  assert (next_handle running = 9%nat) as Hn by (vm_compute; reflexivity).
  assert (streamlitReady running = Some 4%nat) as Hr by (vm_compute; reflexivity).
  assert (mutationObserver running = Some (mkObserver true 2)) as Ho
      by (vm_compute; reflexivity).
  revert Ht Hc Hn Hr Ho. generalize running. intros w Ht Hc Hn Hr Ho.
  unfold observing, harmless. split_and!.
  - done.
  - rewrite Hc. by eexists.
  - intros tm Htm. rewrite Ht, !elem_of_cons, elem_of_nil in Htm. rewrite Hn, Hc.
    destruct Htm as [->|[->|[]]]; simpl.
    + split; [split; [done|by right; left]|lia].
    + split; [split; [done|left]|lia].
      by exists 3%nat, (mkClosure ResizeFunc 250 (Some 8%nat)).
  - intros c' cl g Hcl Hg. rewrite Hc in Hcl. rewrite Hn.
    destruct c' as [|[|[|[|c']]]]; simplify_eq/=; lia.
  - intros sid Hsid. rewrite Hr in Hsid. rewrite Hn. simplify_eq. lia.
Qed.

(** ** The claim about the debounce *)

(** C5, amended.  While the observer set up by an activation is in place and what is
    pending besides is harmless (resize handlers, the poll's timeout, the
    timers of progress bars), a run of one or more relevant
    bursts, each within 250 ms of the one before, leads to exactly one
    enhancement pass: none has run when the last burst has been handled,
    none runs before 250 ms have passed since the last burst, and by any
    later time exactly one has run, at the last burst's time plus 250 ms.
    This holds however the host breaks ties between timers, and the timers
    due by any given time all run. *)
Theorem debounce_trailing_edge (faults : nat → World → option string)
    (ties : Timer → Timer → bool)
    (c : nat) (w : World) (b : Burst) (bs : list Burst) :
  observing c w →
  (now w ≤ at_time b)%Z →
  chained (at_time b) (map at_time bs) →
  Forall (λ b, shouldEnhance (records b) = true) (b :: bs) →
  let t_last := default (at_time b) (last (map at_time bs)) in
  ∃ fuel0 w1,
    (∀ fuel, (fuel0 ≤ fuel)%nat →
             simulate faults ties fuel (map burst_event (b :: bs)) w = Some w1)
    ∧ enhance_passes w1 = enhance_passes w
    ∧ (∀ T, (t_last ≤ T < t_last + 250)%Z →
            ∃ fuel1 w2,
              (∀ fuel, (fuel1 ≤ fuel)%nat →
                       run_until faults ties fuel T w1 = Some w2)
              ∧ enhance_passes w2 = enhance_passes w)
    ∧ (∀ T, (t_last + 250 ≤ T)%Z →
            ∃ fuel1 w2,
              (∀ fuel, (fuel1 ≤ fuel)%nat →
                       run_until faults ties fuel T w1 = Some w2)
              ∧ enhance_passes w2 = enhance_passes w ++ [t_last + 250]).
Proof.
  intros Hobs Hnow Hch Hrel t_last.
  inversion Hrel as [|? ? Hb Hrel']; subst.
  cbn [map simulate burst_event].
  destruct (run_until_observing faults ties (at_time b) c w Hobs)
    as (fuel1 & w' & Hrun & Hobs' & Hp).
  destruct (run_until_done _ _ _ _ _ _ Hrun) as (_ & Hnow' & _).
  specialize (Hnow' Hnow).
  destruct (observing_ready _ _ Hobs') as [h Hready].
  destruct (burst_arms faults c h w' (change b) (moved b) (records b) Hready Hb)
    as (Harm & Hp' & Hnow'').
  rewrite Hnow' in Harm.
  destruct (bursts_rearm faults ties c bs (at_time b) _ Harm)
    as (fuel2 & w1 & Hsim & Harm1 & Hnow1 & Hp1); [congruence|done|done|].
  fold t_last in Harm1, Hnow1.
  exists (fuel1 `max` fuel2)%nat, w1. split_and!.
  - intros fuel Hfuel.
    rewrite (run_until_more_fuel faults ties fuel1 fuel _ _ _ Hrun) by lia.
    apply Hsim. lia.
  - congruence.
  - intros T HT.
    destruct (run_until_armed_wait faults ties T c _ w1 Harm1)
      as (fuel3 & w2 & Hrun2 & _ & Hp2); [lia|].
    exists fuel3, w2. split; [|congruence].
    intros fuel Hfuel. by apply (run_until_more_fuel faults ties fuel3).
  - intros T HT.
    destruct (run_until_armed_fire faults ties T c _ w1 Harm1)
      as (fuel3 & w2 & Hrun2 & Hp2); [lia..|].
    exists fuel3, w2. split; [|congruence].
    intros fuel Hfuel. by apply (run_until_more_fuel faults ties fuel3).
Qed.

Lemma debounce_trailing_edge_witness :
  ∃ fuel0 w1,
    (∀ fuel, (fuel0 ≤ fuel)%nat →
             simulate no_faults lower_handle_first fuel (map burst_event five_bursts)
                      running = Some w1)
    ∧ ∃ fuel1 w2,
        (∀ fuel, (fuel1 ≤ fuel)%nat →
                 run_until no_faults lower_handle_first fuel 12000 w1 = Some w2)
        ∧ enhance_passes w2 = [1450]%Z.
Proof.
  destruct (debounce_trailing_edge no_faults lower_handle_first 2 running
              (mkBurst 1000 (appendChild (plain "div" ["summary-box"] [])) Some
                       box_added)
              (tail five_bursts))
    as (fuel0 & w1 & Hsim & _ & _ & Hfire).
  - apply running_observing.
  - vm_compute. discriminate.
  - vm_compute. intuition discriminate.
  - repeat constructor.
  - exists fuel0, w1. split; [exact Hsim|]. apply (Hfire 12000%Z). vm_compute.
    discriminate.
Defined.

(** C5 as stated fails when an activation falls between the bursts.  The
    dashboard is loaded with its app root in place; a burst at 400 ms arms
    the debounced function of the observer set up at load time; the poll's
    tick at 500 ms sees the unmarked root and activates again, which sets up
    a new observer with a new debounced function and leaves the pending
    [later] of the old one alone; the burst at 550 ms arms the new one.
    Both fire: two passes, at 650 ms and at 800 ms, for two bursts 150 ms
    apart. *)
Lemma debounce_across_activation :
  chained 400 [550]%Z
  ∧ Forall (λ b, shouldEnhance (records b) = true) straddling
  ∧ enhance_passes
      <$> (simulate no_faults lower_handle_first 30 (map burst_event straddling)
             (world_of (script_load no_faults false (boot (page_of dashboard []))))
           ≫= run_until no_faults lower_handle_first 30 2000)
    = Some [650; 800]%Z.
Proof.
  split_and!.
  - simpl. lia.
  - repeat constructor.
  - vm_compute. reflexivity.
Qed.

(** ** The start-up poll *)

(** *** The summary boxes stay where they are *)

(** No timer callback adds or removes a summary box, which bounds the
    number of timers they can set. *)
Lemma boxes_mutate path f p :
  (∀ x, children (f x) = children x) →
  (∀ x, matches CONFIG.selectors.summaryBox (f x)
        = matches CONFIG.selectors.summaryBox x) →
  querySelectorAll CONFIG.selectors.summaryBox (document (mutate path f p))
  = querySelectorAll CONFIG.selectors.summaryBox (document p).
Proof. intros. unfold mutate; simpl. by apply querySelectorAll_update. Qed.

Lemma boxes_setTheme theme p :
  querySelectorAll CONFIG.selectors.summaryBox (document (setTheme theme p))
  = querySelectorAll CONFIG.selectors.summaryBox (document p).
Proof.
  destruct (querySelector CONFIG.selectors.app (document p)) as [path|] eqn:Hq.
  - rewrite (setTheme_present _ _ _ Hq); simpl.
    apply querySelectorAll_update; auto using children_setAttribute, matches_setAttribute.
  - by rewrite (setTheme_absent _ _ Hq).
Qed.

Lemma boxes_applySavedSidebarState p :
  querySelectorAll CONFIG.selectors.summaryBox (document (applySavedSidebarState p))
  = querySelectorAll CONFIG.selectors.summaryBox (document p).
Proof.
  unfold applySavedSidebarState.
  destruct (querySelector CONFIG.selectors.sidebar _) as [s|]; [|done].
  destruct (querySelector CONFIG.selectors.app _) as [a|]; [|done].
  case_bool_decide; [|done].
  rewrite boxes_mutate; auto using children_setAttribute, matches_setAttribute.
  apply boxes_mutate; [apply children_classList_add|].
  intros x. by apply matches_classList_add.
Qed.

Lemma boxes_enhanceNewElements p :
  querySelectorAll CONFIG.selectors.summaryBox (document (enhanceNewElements p))
  = querySelectorAll CONFIG.selectors.summaryBox (document p).
Proof.
  unfold enhanceNewElements; simpl. rewrite enhance_enhance_rec.
  apply querySelectorAll_enhance_rec; [done|by destruct (reducedMotion p)].
Qed.

Lemma boxes_handleResize_func p :
  querySelectorAll CONFIG.selectors.summaryBox (document (handleResize_func p))
  = querySelectorAll CONFIG.selectors.summaryBox (document p).
Proof.
  unfold handleResize_func.
  destruct (querySelector CONFIG.selectors.sidebar _) as [s|]; [|done].
  case_bool_decide.
  - apply boxes_mutate; [apply children_classList_add|].
    intros x. by apply matches_classList_add.
  - apply boxes_mutate; [done|].
    intros x. by apply matches_classList_remove.
Qed.

Lemma boxes_executedFunction c w : boxes (executedFunction c w) = boxes w.
Proof. unfold boxes. by rewrite page_executedFunction. Qed.

Lemma boxes_initUI faults w : boxes (world_of (initUI faults w)) = boxes w.
Proof.
  apply (initUI_preserves faults (λ w', boxes w' = boxes w)); try done.
  - intros w' <-. apply boxes_setTheme.
  - intros w' <-. apply boxes_applySavedSidebarState.
  - intros w' <-. unfold boxes. rewrite page_enhanceNewElements_timed.
    apply boxes_enhanceNewElements.
  - intros c w' <-. apply boxes_executedFunction.
Qed.

Lemma boxes_clearTimer h w : boxes (clearTimer h w) = boxes w.
Proof. by destruct h. Qed.

Lemma boxes_call_func f w : boxes (call_func f w) = boxes w.
Proof.
  destruct f; simpl; unfold boxes.
  - rewrite page_enhanceNewElements_timed. apply boxes_enhanceNewElements.
  - apply boxes_handleResize_func.
Qed.

Lemma boxes_later c w : boxes (later c w) = boxes w.
Proof.
  unfold later. destruct (closures w !! c) as [cl|]; [|done].
  rewrite boxes_call_func. unfold boxes; simpl. by destruct (timeout cl).
Qed.

Lemma boxes_style k v bar w :
  boxes (on_page (mutate bar (λ e, set_style (<[k := v]> (style e)) e)) w) = boxes w.
Proof. by apply boxes_mutate. Qed.

Lemma boxes_poll_tick faults w : boxes (world_of (poll_tick faults w)) = boxes w.
Proof.
  unfold poll_tick.
  destruct (querySelector CONFIG.selectors.app _) as [a|]; [|done].
  destruct (from_option _ _ _); [|done].
  unfold bind, run0.
  set (w0 := on_page (mutate a (setAttribute initialized_marker "true"))
                     (record Sighted w)).
  destruct (initUI_normal faults w0) as [w' Hw'].
  pose proof (boxes_initUI faults w0) as Hb. rewrite Hw' in *. simpl in *.
  rewrite boxes_clearTimer, Hb. unfold w0.
  apply boxes_mutate; auto using children_setAttribute, matches_setAttribute.
Qed.

Lemma boxes_run_callback faults cb w :
  boxes (world_of (run_callback faults cb w)) = boxes w.
Proof.
  destruct cb as [c| | |bar|bar]; simpl.
  - apply boxes_later.
  - apply boxes_poll_tick.
  - unfold poll_abandon, run0; simpl. apply boxes_clearTimer.
  - unfold show_progress, setTimeout, add_timer. cbn [snd].
    destruct bar; [apply boxes_style|done].
  - unfold fade_progress. destruct bar; [apply boxes_style|done].
Qed.

Lemma boxes_fire faults tm w : boxes (fire faults tm w) = boxes w.
Proof. unfold fire. by rewrite boxes_run_callback. Qed.

(** *** Steps that leave the poll alone *)

Lemma poll_ticks_record item w :
  poll_ticks (record item w) =
  poll_ticks w ++ match item with TimerFired PollTick => [now w] | _ => [] end.
Proof.
  unfold poll_ticks, record; simpl. rewrite omap_app; simpl.
  destruct item as [[]| | |]; by rewrite ?app_nil_r.
Qed.

Lemma sightings_record item w :
  sightings (record item w) =
  sightings w ++ match item with Sighted => [now w] | _ => [] end.
Proof.
  unfold sightings, record; simpl. rewrite omap_app; simpl.
  destruct item as [[]| | |]; by rewrite ?app_nil_r.
Qed.

Lemma one_shot_retarget moved tm : one_shot tm → one_shot (retarget moved tm).
Proof.
  intros (Hp & H1 & H2). unfold one_shot. rewrite period_retarget.
  pose proof (callback_retarget moved tm) as Hc.
  destruct (callback tm) eqn:E; try done.
  - by rewrite Hc, E.
  - destruct Hc as [bar' ->]. done.
  - destruct Hc as [bar' ->]. done.
Qed.

Section Held.
Context (sid : nat) (v : list Timer * list Timer * list Z * list Z) (n : Z).

Lemma held_on_page f w : held sid v n w → held sid v n (on_page f w).
Proof. done. Qed.

Lemma held_record item w :
  item ≠ TimerFired PollTick → item ≠ Sighted →
  held sid v n w → held sid v n (record item w).
Proof.
  intros H1 H2 (Hs & Hv & Hn). unfold held. split_and!; [done| |done].
  rewrite <- Hv. unfold poll_view.
  rewrite poll_ticks_record, sightings_record.
  destruct item as [[]| | |]; by rewrite ?app_nil_r.
Qed.

Lemma held_new_closure f w :
  held sid v n w →
  held sid v n (set_closures (closures w ++ [mkClosure f 250 None]) w).
Proof.
  intros ((Hr & Hh & Ht & Hc & Hw & Hd) & Hv & Hn).
  unfold held, poll_sane. split_and!; try done.
  - intros c cl g [Hin|[_ Heq]]%lookup_app_Some; [by eapply Hc|].
    apply list_lookup_singleton_Some in Heq as [_ <-]. done.
  - intros c cl [Hin|[_ Heq]]%lookup_app_Some; [by eapply Hw|].
    apply list_lookup_singleton_Some in Heq as [_ <-]. simpl. lia.
Qed.

Lemma held_setupMutationObserver w :
  held sid v n w → held sid v n (setupMutationObserver w).
Proof. intros H. by apply (held_new_closure EnhanceFunc) in H. Qed.

Lemma held_debounce f w : held sid v n w → held sid v n (debounce f 250 w).2.
Proof. apply held_new_closure. Qed.

Lemma held_cleanup w : held sid v n w → held sid v n (cleanup w).
Proof. unfold cleanup. by destruct (mutationObserver w). Qed.

(** New one-shot timers with fresh handles, none of them overdue. *)
Lemma held_new_timers news w :
  (∀ tm, tm ∈ news →
         one_shot tm ∧ (next_handle w ≤ handle tm)%nat ∧ (now w ≤ due tm)%Z) →
  held sid v n w →
  held sid v n
    (mkWorld (page w) (now w) (next_handle w + length news) (timers w ++ news)
             (closures w) (mutationObserver w) (streamlitReady w) (trace w)).
Proof.
  intros Hnews ((Hr & Hh & Ht & Hc & Hw & Hd) & Hv & Hn).
  unfold held, poll_sane. fields. split_and!; try done.
  - lia.
  - intros tm [Hin|Hin]%elem_of_app; [by apply Ht|].
    intros _ _. by apply Hnews.
  - intros tm [Hin|Hin]%elem_of_app; [by apply Hd|]. by apply Hnews.
  - rewrite <- Hv. unfold poll_view. fields.
    rewrite !with_handle_app, !(with_handle_fresh _ news), !app_nil_r; [done|..];
      intros tm Hin; destruct (Hnews tm Hin) as (_ & ? & _); lia.
Qed.

Lemma held_enhanceNewElements_timed w :
  held sid v n w → held sid v n (enhanceNewElements_timed w).
Proof.
  intros H. destruct (enhanceNewElements_timed_spec w) as (news & -> & Hs & _).
  apply (held_new_timers news (on_page enhanceNewElements w)); [|done].
  intros tm Hin. destruct (progress_timers_elem _ _ _ _ Hs Hin) as (i & bar & _ & ->).
  simpl. split_and!; [done|lia|lia].
Qed.

Lemma held_call_func f w : held sid v n w → held sid v n (call_func f w).
Proof. destruct f; [apply held_enhanceNewElements_timed|done]. Qed.

Lemma held_executedFunction c w :
  held sid v n w → held sid v n (executedFunction c w).
Proof.
  intros H.
  destruct (closures w !! c) as [cl|] eqn:Hcl;
    [|by unfold executedFunction; rewrite Hcl].
  rewrite (executedFunction_unfold c cl w Hcl).
  destruct H as ((Hr & Hh & Ht & Hc & Hw & Hd) & Hv & Hn).
  assert (timeout cl ≠ Some sid ∧ timeout cl ≠ Some (S sid)) as [Hg1 Hg2].
  { destruct (timeout cl) as [g|] eqn:Hg; [|done].
    destruct (Hc c cl g Hcl Hg). split; congruence. }
  unfold held, poll_sane. split_and!; simpl; try done.
  - lia.
  - intros tm [Hin%drop_elem_of|Hin]%elem_of_app; [by apply Ht|].
    apply list_elem_of_singleton in Hin as ->. done.
  - intros c' cl' g. rewrite list_lookup_alter.
    case_decide as Heq; [subst c'|by apply Hc].
    rewrite Hcl; simpl. intros [= <-]; simpl. intros [= <-]. lia.
  - intros c' cl'. rewrite list_lookup_alter.
    case_decide as Heq; [subst c'|by apply Hw].
    rewrite Hcl; simpl. intros [= <-]; simpl. by eapply Hw.
  - intros tm [Hin%drop_elem_of|Hin]%elem_of_app; [by apply Hd|].
    apply list_elem_of_singleton in Hin as ->. simpl.
    specialize (Hw c cl Hcl). lia.
  - rewrite <- Hv. unfold poll_view; simpl.
    rewrite !with_handle_other by (simpl; lia).
    by rewrite !with_handle_drop.
Qed.

Lemma held_initUI faults w :
  held sid v n w → held sid v n (world_of (initUI faults w)).
Proof.
  apply (initUI_preserves faults (held sid v n));
    auto using held_on_page, held_setupMutationObserver, held_debounce,
      held_executedFunction, held_enhanceNewElements_timed.
  intros w'. by apply held_record.
Qed.
End Held.

Lemma poll_sane_subset sid w ts :
  poll_sane sid w → (∀ tm, tm ∈ ts → tm ∈ timers w) →
  poll_sane sid (set_timers ts w).
Proof.
  intros (Hr & Hh & Ht & Hc & Hw & Hd) Hsub.
  unfold poll_sane; simpl. split_and!; auto.
Qed.

Section HeldSteps.
Context (faults : nat → World → option string).
Context (sid : nat) (v : list Timer * list Timer * list Z * list Z) (n : Z).

Lemma held_clearTimer g w :
  g ≠ Some sid → g ≠ Some (S sid) →
  held sid v n w → held sid v n (clearTimer g w).
Proof.
  intros Hg1 Hg2 (Hs & Hv & Hn). destruct g as [g|]; [|done].
  unfold held. split_and!; [|simpl|done].
  - apply poll_sane_subset; [done|]. by intros tm [_ ?]%list_elem_of_filter.
  - rewrite <- Hv. unfold poll_view; simpl.
    change (filter (λ t, handle t ≠ g) (timers w)) with (drop (Some g) (timers w)).
    by rewrite !with_handle_drop.
Qed.

Lemma held_later c w : held sid v n w → held sid v n (later c w).
Proof.
  intros H. unfold later.
  destruct (closures w !! c) as [cl|] eqn:Hcl; [|done].
  assert (timeout cl ≠ Some sid ∧ timeout cl ≠ Some (S sid)) as [Hg1 Hg2].
  { destruct H as ((_ & _ & _ & Hc & _) & _).
    destruct (timeout cl) as [g|] eqn:Hg; [|done].
    destruct (Hc c cl g Hcl Hg). split; congruence. }
  apply held_call_func, held_record; [done..|by apply held_clearTimer].
Qed.

Lemma held_for_each_listener f w :
  (∀ l w', held sid v n w' → held sid v n (f l w')) →
  held sid v n w → held sid v n (for_each_listener f w).
Proof.
  intros Hf. unfold for_each_listener.
  generalize (listeners (page w)). intros ls. revert w.
  induction ls as [|l ls IH]; intros w Hw; simpl; [done|]. apply IH, Hf, Hw.
Qed.

(** The host moves progress bars: the poll's own timers hold none. *)
Lemma held_follow moved w :
  (∀ tm, tm ∈ v.1.1.1 ++ v.1.1.2 → retarget moved tm = tm) →
  held sid v n w → held sid v n (follow moved w).
Proof.
  intros Hfix ((Hr & Hh & Ht & Hc & Hw & Hd) & Hv & Hn).
  unfold held, poll_sane, follow. fields. split_and!; try done.
  - intros tm (t & -> & Hin)%list_elem_of_fmap. rewrite handle_retarget.
    intros H1 H2. by apply one_shot_retarget, Ht.
  - intros tm (t & -> & Hin)%list_elem_of_fmap. rewrite due_retarget. by apply Hd.
  - rewrite <- Hv in *. unfold poll_view in *. fields. cbn [fst snd] in Hfix.
    rewrite !with_handle_retarget. do 3 f_equal.
    + apply list_eq; intros i. rewrite list_lookup_fmap.
      destruct (with_handle sid (timers w) !! i) as [t|] eqn:Hi; [|done]. simpl.
      f_equal. apply Hfix, elem_of_app. left. by eapply list_elem_of_lookup_2.
    + apply list_eq; intros i. rewrite list_lookup_fmap.
      destruct (with_handle (S sid) (timers w) !! i) as [t|] eqn:Hi; [|done]. simpl.
      f_equal. apply Hfix, elem_of_app. right. by eapply list_elem_of_lookup_2.
Qed.

(** Whatever the host or the user does leaves the poll alone. *)
Lemma held_handle_event ev w :
  (∀ moved tm, tm ∈ v.1.1.1 ++ v.1.1.2 → retarget moved tm = tm) →
  held sid v n w → held sid v n (handle_event faults ev w).
Proof.
  intros Hfix Hw. destruct ev as [ch mv recs|width| |target|e|]; simpl.
  - assert (held sid v n
              (follow mv (on_page (λ p, set_document (ch (document p)) p) w)))
      as Hw' by (apply held_follow; [by apply Hfix|done]).
    revert Hw'. generalize (follow mv (on_page (λ p, set_document (ch (document p)) p) w)).
    intros w' Hw'. unfold observer_callback.
    destruct (mutationObserver w') as [o|]; [|done].
    destruct (connected o && shouldEnhance recs); [|done].
    by apply held_executedFunction.
  - apply held_for_each_listener; [|done].
    intros [] w' Hw'; try done. by apply held_executedFunction.
  - apply held_for_each_listener; [|done].
    intros [] w' Hw'; try done. by apply held_initUI.
  - apply held_for_each_listener; [|done]. by intros [] w' Hw'.
  - apply held_for_each_listener; [|done]. by intros [] w' Hw'.
  - apply held_for_each_listener; [|done].
    intros [] w' Hw'; try done. by apply held_cleanup.
Qed.
End HeldSteps.

(** The poll's own timers hold no progress bar. *)
Lemma poll_phase_fixed sid k w moved tm :
  poll_phase sid k w →
  tm ∈ with_handle sid (timers w) ++ with_handle (S sid) (timers w) →
  retarget moved tm = tm.
Proof.
  intros (_ & _ & Hph) Hin.
  assert (tm = interval_timer sid k ∨ tm = abandon_timer sid) as [-> | ->];
    [|done..].
  destruct Hph as [(Hi & Hab & _)|(Hi & [(_ & Hab & _)|(_ & _ & [Hab|Hab])])];
    rewrite Hi, Hab in Hin; cbn [app] in Hin;
    rewrite ?elem_of_cons, ?elem_of_nil in Hin; tauto.
Qed.

Lemma poll_phase_view sid k w w' :
  poll_view sid w' = poll_view sid w → (now w ≤ now w')%Z →
  poll_phase sid k w → poll_phase sid k w'.
Proof.
  unfold poll_view, poll_phase. intros [= -> -> -> ->] Hn.
  intros (? & ? & [?|(? & [(? & ? & ? & ?)|?])]); split_and!; auto.
  right. split; [done|]. left. split_and!; [done..|lia].
Qed.

Lemma poll_inv_held sid w w' n :
  poll_inv sid w → (now w ≤ n)%Z → held sid (poll_view sid w) n w' → poll_inv sid w'.
Proof.
  intros [_ [k Hk]] Hn (Hs & Hv & Hn'). split; [done|].
  exists k. apply (poll_phase_view sid k w); [done|lia|done].
Qed.

Lemma poll_inv_handle_event faults sid ev w :
  poll_inv sid w → poll_inv sid (handle_event faults ev w).
Proof.
  intros Hinv. apply (poll_inv_held sid w _ (now w)); [done|lia|].
  apply held_handle_event; [|by destruct Hinv].
  destruct Hinv as [_ [k Hk]]. intros moved tm. by apply (poll_phase_fixed sid k w).
Qed.

(** *** Timers: what they can still cost *)

Lemma weight_progress_timers n h t news :
  progress_timers h t news → sum_list_with (weight n) news = (2 * length news)%nat.
Proof.
  revert h. induction news as [|tm news IH]; intros h Hs; [done|].
  destruct (Hs 0%nat tm eq_refl) as [bar ->]. cbn [sum_list_with length].
  rewrite (IH (S h)).
  - unfold weight; simpl. lia.
  - intros i tm' Hi. destruct (Hs (S i) tm' Hi) as [bar' ->]. exists bar'.
    f_equal. lia.
Qed.

Lemma weight_executedFunction n c w :
  (sum_list_with (weight n) (timers (executedFunction c w))
   ≤ sum_list_with (weight n) (timers w) + (1 + 2 * n))%nat.
Proof.
  destruct (closures w !! c) as [cl|] eqn:Hcl;
    [|unfold executedFunction; rewrite Hcl; lia].
  rewrite (executedFunction_unfold c cl w Hcl); simpl.
  rewrite sum_list_with_app; simpl.
  pose proof (sum_list_with_drop (weight n) (timeout cl) (timers w)).
  lia.
Qed.

(** [initUI] sets at most one timer for each summary box, and the resize
    handler's. *)
Lemma weight_initUI faults w :
  (sum_list_with (weight (length (boxes w))) (timers (world_of (initUI faults w)))
   ≤ sum_list_with (weight (length (boxes w))) (timers w)
     + (1 + 4 * length (boxes w)))%nat.
Proof.
  set (n := length (boxes w)).
  apply (initUI_three_phase faults
           (λ w', boxes w' = boxes w ∧ timers w' = timers w)
           (λ w', (sum_list_with (weight n) (timers w')
                   ≤ sum_list_with (weight n) (timers w) + 2 * n)%nat)
           (λ w', (sum_list_with (weight n) (timers w')
                   ≤ sum_list_with (weight n) (timers w) + (1 + 4 * n))%nat));
    try done.
  - intros w' [<- <-]. split; [apply boxes_setTheme|done].
  - intros w' [<- <-]. split; [apply boxes_applySavedSidebarState|done].
  - intros w' [Hb Ht].
    destruct (enhanceNewElements_timed_spec w') as (news & -> & Hs & Hl & _).
    fields. rewrite sum_list_with_app, (weight_progress_timers _ _ _ _ Hs), Ht.
    rewrite Hb in Hl. fold n in Hl. lia.
  - intros c w' H. pose proof (weight_executedFunction n c w'). lia.
  - intros e w' [_ Ht]; simpl. rewrite Ht. lia.
  - intros e w' H; simpl. lia.
Qed.

(** The timers the [later] of a debounced function leaves. *)
Lemma timers_later c w :
  ∃ g news, timers (later c w) = drop g (timers w) ++ news
            ∧ progress_timers (next_handle w) (now w) news
            ∧ (length news ≤ length (boxes w))%nat.
Proof.
  unfold later. destruct (closures w !! c) as [cl|].
  - match goal with |- context [call_func ?f ?x] =>
      destruct (call_func_fields f x)
        as (_ & _ & _ & _ & _ & news & -> & _ & Hs & Hl & _) end.
    exists (timeout cl), news.
    assert (boxes (record (Called (func cl) c) (clearTimeout (timeout cl) w))
            = boxes w) as Hb by (unfold boxes; simpl; by destruct (timeout cl)).
    rewrite Hb in Hl.
    destruct (clearTimer_fields (timeout cl) w) as (_ & Hn & _ & _ & _ & Hnow).
    cbn [record next_handle now set_trace] in Hs. unfold clearTimeout in Hs.
    rewrite Hn, Hnow in Hs.
    split_and!; [|done..]. cbn [record timers set_trace].
    unfold clearTimeout. by rewrite timers_clearTimer.
  - exists None, []. simpl. rewrite app_nil_r.
    split_and!; [done|apply progress_timers_nil|lia].
Qed.

(** *** What a tick of the poll does *)

Lemma poll_tick_unfold faults w :
  poll_tick faults w =
  Normal tt (match unmarked_root w with
             | Some appElement => after_sighting faults appElement w
             | None => w
             end).
Proof.
  unfold poll_tick, unmarked_root.
  destruct (querySelector CONFIG.selectors.app _) as [a|]; [|done].
  destruct (from_option _ _ _); [|done].
  unfold after_sighting, bind, run0.
  destruct (initUI_normal faults
    (on_page (mutate a (setAttribute initialized_marker "true")) (record Sighted w)))
    as [w' ->]. done.
Qed.

Lemma ticks_upto_S k :
  ticks_upto (S k) = ticks_upto k ++ [(500 * Z.of_nat (S k))%Z].
Proof. unfold ticks_upto. by rewrite seq_S, map_app. Qed.

Lemma with_handle_bump_same tm d ts :
  with_handle (handle tm) (bump tm d <$> ts)
  = bump tm d <$> with_handle (handle tm) ts.
Proof.
  unfold with_handle. induction ts as [|t ts IH]; [done|].
  rewrite fmap_cons. destruct (decide (handle t = handle tm)) as [Heq|Hne].
  - rewrite !filter_cons_True, fmap_cons, IH; [done..|].
    unfold bump. by rewrite decide_True.
  - rewrite !filter_cons_False, IH; [done..|].
    unfold bump. by rewrite decide_False.
Qed.

Lemma with_handle_bump_other s tm d ts :
  s ≠ handle tm → with_handle s (bump tm d <$> ts) = with_handle s ts.
Proof.
  intros Hne. unfold with_handle. induction ts as [|t ts IH]; [done|].
  rewrite fmap_cons. unfold bump at 1.
  destruct (decide (handle t = handle tm)) as [Heq|Hne'].
  - rewrite !filter_cons_False, IH; [done|congruence|simpl; congruence].
  - destruct (decide (handle t = s)).
    + by rewrite !filter_cons_True, IH.
    + by rewrite !filter_cons_False, IH.
Qed.

(** A tick of the interval takes 500 off what the interval can still
    cost. *)
Lemma weight_bump n sid k ts :
  (S k ≤ 20)%nat →
  with_handle sid ts = [interval_timer sid k] →
  (sum_list_with (weight n) (bump (interval_timer sid k) 500 <$> ts) + 500
   ≤ sum_list_with (weight n) ts)%nat.
Proof.
  intros Hk Hi.
  assert (∀ t, t ∈ ts → handle t = sid → t = interval_timer sid k) as Hall.
  { intros t Hin Hh. pose proof (with_handle_elem _ _ _ Hin Hh) as H.
    rewrite Hi in H. by apply list_elem_of_singleton in H. }
  assert (interval_timer sid k ∈ ts) as Hin.
  { assert (interval_timer sid k ∈ with_handle sid ts) as H by (rewrite Hi; left).
    by apply list_elem_of_filter in H as [_ ?]. }
  clear Hi.
  assert (∀ t, t ∈ ts →
               (weight n (bump (interval_timer sid k) 500 t)
                + (if decide (handle t = sid) then 500 else 0)
                = weight n t)%nat) as Hw.
  { intros t Ht. unfold bump. cbn [handle interval_timer].
    destruct (decide (handle t = sid)) as [Hh|Hh]; [|lia].
    rewrite (Hall t Ht Hh). unfold weight; simpl. lia. }
  induction ts as [|t ts IH]; [by apply elem_of_nil in Hin|].
  rewrite fmap_cons. cbn [sum_list_with].
  pose proof (Hw t ltac:(left)) as Ht.
  assert (sum_list_with (weight n) (bump (interval_timer sid k) 500 <$> ts)
          ≤ sum_list_with (weight n) ts)%nat as Hle.
  { clear -Hw. induction ts as [|t' ts IH]; [done|].
    rewrite fmap_cons. cbn [sum_list_with].
    pose proof (Hw t' ltac:(right; left)).
    assert (sum_list_with (weight n) (bump (interval_timer sid k) 500 <$> ts)
            ≤ sum_list_with (weight n) ts)%nat.
    { apply IH. intros x [->|Hx]%elem_of_cons; apply Hw; [left|right; by right]. }
    destruct (decide (handle t' = sid)); lia. }
  apply elem_of_cons in Hin as [<-|Hin].
  - cbn [handle interval_timer] in Ht. rewrite decide_True in Ht by done. lia.
  - assert (sum_list_with (weight n) (bump (interval_timer sid k) 500 <$> ts) + 500
            ≤ sum_list_with (weight n) ts)%nat.
    { apply IH; [|done|].
      - intros x Hx. apply Hall. by right.
      - intros x Hx. apply Hw. by right. }
    destruct (decide (handle t = sid)); lia.
Qed.

Lemma reschedule_interval tm d ts :
  period tm = Some d → reschedule tm ts = bump tm d <$> ts.
Proof. intros Hp. unfold reschedule. by rewrite Hp. Qed.

Lemma streamlitReady_initUI faults w :
  streamlitReady (world_of (initUI faults w)) = streamlitReady w.
Proof.
  apply (initUI_preserves faults (λ w', streamlitReady w' = streamlitReady w));
    try done.
  - intros w' <-. apply enhanceNewElements_timed_fields.
  - intros c w' <-. unfold executedFunction.
    destruct (closures w' !! c) as [cl|]; [|done]. by destruct (timeout cl).
Qed.

Section PollSteps.
Context (faults : nat → World → option string) (ties : Timer → Timer → bool).
Context (sid : nat).

Lemma held_setTimeout v n cb d w :
  cb ≠ PollTick → cb ≠ PollAbandon → (0 ≤ d)%Z →
  held sid v n w → held sid v n (setTimeout cb d w).2.
Proof.
  intros H1 H2 Hd ((Hr & Hh & Ht & Hc & Hw & Hdue) & Hv & Hn).
  unfold setTimeout, add_timer. cbn [snd].
  unfold held, poll_sane. fields. split_and!; try done.
  - lia.
  - intros tm [Hin|Hin]%elem_of_app; [by apply Ht|].
    apply list_elem_of_singleton in Hin as ->. done.
  - intros tm [Hin|Hin]%elem_of_app; [by apply Hdue|].
    apply list_elem_of_singleton in Hin as ->. simpl. lia.
  - rewrite <- Hv. unfold poll_view. fields.
    by rewrite !with_handle_other by (simpl; lia).
Qed.

(** A one-shot timer fires: the poll is left alone. *)
Lemma fire_other tm w :
  poll_sane sid w → earliest ties (timers w) = Some tm →
  handle tm ≠ sid → handle tm ≠ S sid →
  held sid (poll_view sid w) (due tm) (fire faults tm w)
  ∧ (poll_budget (fire faults tm w) < poll_budget w)%nat.
Proof.
  intros Hs He H1 H2. pose proof (earliest_elem _ _ _ He) as Hin.
  pose proof Hs as (Hr & Hh & Ht & Hc & Hw & Hd).
  destruct (Ht tm Hin H1 H2) as (Hp & Hcb1 & Hcb2).
  unfold poll_budget. rewrite boxes_fire.
  set (n := length (boxes w)).
  pose proof (sum_list_with_filter_elem (weight n) (λ t, handle t ≠ handle tm)
                (timers w) tm Hin (λ H, H eq_refl)) as Hsum.
  set (w1 := record (TimerFired (callback tm))
               (set_timers (filter (λ t, handle t ≠ handle tm) (timers w))
                  (set_now (Z.max (now w) (due tm)) w))).
  assert (fire faults tm w = world_of (run_callback faults (callback tm) w1)) as ->.
  { unfold fire, reschedule. by rewrite Hp. }
  assert (held sid (poll_view sid w) (due tm) w1) as Hheld.
  { apply held_record; [congruence|done|].
    unfold held. split_and!.
    + unfold poll_sane; simpl. split_and!; try done.
      * intros t [_ Hin']%list_elem_of_filter. by apply Ht.
      * intros t [_ Hin']%list_elem_of_filter.
        pose proof (earliest_due _ _ _ _ He Hin'). specialize (Hd tm Hin). lia.
    + unfold poll_view; simpl.
      change (filter (λ t, handle t ≠ handle tm) (timers w))
        with (drop (Some (handle tm)) (timers w)).
      rewrite !with_handle_drop; [done|congruence..].
    + simpl. specialize (Hd tm Hin). lia. }
  assert (timers w1 = filter (λ t, handle t ≠ handle tm) (timers w)) as Ht1 by done.
  assert (boxes w1 = boxes w) as Hb1 by done.
  clearbody w1.
  destruct (callback tm) as [c| | |bar|bar] eqn:Hcb; try done;
    cbn [run_callback run0 world_of].
  - split; [by apply held_later|].
    destruct (timers_later c w1) as (g & news & -> & Hsn & Hl).
    rewrite sum_list_with_app, (weight_progress_timers _ _ _ _ Hsn), Ht1.
    pose proof (sum_list_with_drop (weight n) g
                  (filter (λ t, handle t ≠ handle tm) (timers w))).
    rewrite Hb1 in Hl. fold n in Hl.
    unfold weight at 2 in Hsum. rewrite Hcb in Hsum. lia.
  - unfold show_progress. split.
    + apply held_setTimeout; [done..|]. by destruct bar.
    + unfold setTimeout, add_timer. cbn [snd]. fields.
      assert (timers (match bar with
                      | Some progressBar =>
                          on_page (mutate progressBar
                                     (λ e, set_style (<["width" := "100%"]> (style e)) e))
                                  w1
                      | None => w1
                      end) = timers w1) as -> by (by destruct bar).
      rewrite sum_list_with_app, Ht1. unfold weight at 2 in Hsum.
      rewrite Hcb in Hsum. unfold weight at 2. simpl. lia.
  - unfold fade_progress. split; [by destruct bar|].
    assert (timers (match bar with
                    | Some progressBar =>
                        on_page (mutate progressBar
                                   (λ e, set_style (<["opacity" := "0.3"]> (style e)) e))
                                w1
                    | None => w1
                    end) = timers w1) as -> by (by destruct bar).
    rewrite Ht1. unfold weight at 2 in Hsum. rewrite Hcb in Hsum. lia.
Qed.

(** The timeout fires: the poll is stopped, if it was not already.  When
    the timeout stops it, the next tick was due at 10 s or later, so 19
    ticks have run. *)
Lemma fire_abandon k tm w :
  poll_sane sid w → poll_phase sid k w → earliest ties (timers w) = Some tm →
  handle tm = S sid →
  poll_sane sid (fire faults tm w) ∧ poll_phase sid k (fire faults tm w)
  ∧ (poll_budget (fire faults tm w) < poll_budget w)%nat.
Proof.
  intros Hs (Hticks & Hk & Hph) He Hh. pose proof (earliest_elem _ _ _ He) as Hin.
  pose proof Hs as (Hr & Hnh & Ht & Hc & Hw & Hd).
  pose proof (with_handle_elem _ _ _ Hin Hh) as Hin'.
  assert (with_handle (S sid) (timers w) = [abandon_timer sid]) as Hab.
  { destruct Hph as [(_ & -> & _)|(_ & [(_ & Hn & _)|(_ & _ & [->|Hn])])]; try done;
      rewrite Hn in Hin'; by apply elem_of_nil in Hin'. }
  rewrite Hab in Hin'. apply list_elem_of_singleton in Hin' as ->.
  unfold poll_budget. rewrite boxes_fire. set (n := length (boxes w)).
  pose proof (sum_list_with_filter_elem (weight n) (λ t, handle t ≠ S sid)
                (timers w) (abandon_timer sid) Hin (λ H, H eq_refl)) as Hsum.
  unfold weight at 2 in Hsum. cbn [abandon_timer callback] in Hsum.
  unfold fire, reschedule.
  cbn [abandon_timer period callback run_callback poll_abandon run0 world_of handle due].
  set (ts' := filter (λ t, handle t ≠ sid) (filter (λ t, handle t ≠ S sid) (timers w))).
  assert (∀ t, t ∈ ts' → t ∈ timers w) as Hsub.
  { intros t [_ [_ ?]%list_elem_of_filter]%list_elem_of_filter. done. }
  assert (with_handle sid ts' = []) as Hsid by apply with_handle_none.
  assert (with_handle (S sid) ts' = []) as Hab'.
  { unfold ts'.
    change (filter (λ t, handle t ≠ sid) ?l) with (drop (Some sid) l).
    rewrite with_handle_drop by (intros [=]; lia). apply with_handle_none. }
  assert (sum_list_with (weight n) ts' < sum_list_with (weight n) (timers w))%nat
    as Hlen.
  { unfold ts'.
    pose proof (sum_list_with_filter_le (weight n) (λ t, handle t ≠ sid)
                  (filter (λ t, handle t ≠ S sid) (timers w))). lia. }
  simpl. rewrite Hr. simpl. fold ts'.
  split_and!; [| |done].
  - unfold poll_sane; simpl. split_and!; try done.
    + intros t Hin'. by apply Ht, Hsub.
    + intros t Hin'. pose proof (earliest_due _ _ _ _ He (Hsub _ Hin')).
      specialize (Hd _ Hin). simpl in *. lia.
  - unfold poll_phase; simpl. rewrite Hsid, Hab'. split_and!; try done.
    + unfold poll_ticks in *; simpl. rewrite omap_app; simpl.
      by rewrite app_nil_r.
    + right. split; [done|].
      assert (sightings (set_trace (trace w ++ [(Z.max (now w) 10000, TimerFired PollAbandon)])
                           (set_timers ts' (set_now (Z.max (now w) 10000) w)))
              = sightings w) as Hsg.
      { unfold sightings; simpl. rewrite omap_app; simpl. by rewrite app_nil_r. }
      unfold sightings in *; simpl in *.
      destruct Hph as [(Hi & _ & Hs0)|(_ & [(Hs0 & _ & ? & ?)|(Hs0 & ? & _)])].
      * left. rewrite Hsg, Hs0. split_and!; [done..| |lia].
        (* the tick that is pending is not due before the timeout *)
        assert (interval_timer sid k ∈ timers w) as Hi_in.
        { assert (interval_timer sid k ∈ with_handle sid (timers w)) as H
              by (rewrite Hi; left).
          by apply list_elem_of_filter in H as [_ ?]. }
        pose proof (earliest_due _ _ _ _ He Hi_in) as Hdue. simpl in Hdue. lia.
      * left. rewrite Hsg, Hs0. split_and!; [done..|lia].
      * right. rewrite Hsg, Hs0. auto.
Qed.

(** A tick that sights the root: one activation, and the interval is
    cleared. *)
Lemma held_after_sighting v n a w :
  held sid v n (record Sighted w) →
  ∃ w', after_sighting faults a w = clearInterval (Some sid) w'
        ∧ held sid v n w'
        ∧ boxes w' = boxes w
        ∧ (sum_list_with (weight (length (boxes w))) (timers w')
           ≤ sum_list_with (weight (length (boxes w))) (timers w)
             + (1 + 4 * length (boxes w)))%nat.
Proof.
  intros Hw. unfold after_sighting.
  set (w0 := on_page (mutate a (setAttribute initialized_marker "true"))
                     (record Sighted w)).
  assert (boxes w0 = boxes w) as Hb0.
  { unfold w0. apply boxes_mutate; auto using children_setAttribute, matches_setAttribute. }
  exists (world_of (initUI faults w0)).
  rewrite streamlitReady_initUI.
  assert (streamlitReady w0 = Some sid) as -> by (by destruct Hw as ((? & _) & _)).
  split_and!; [done| | |].
  - apply held_initUI. by apply held_on_page.
  - by rewrite boxes_initUI.
  - pose proof (weight_initUI faults w0) as H. by rewrite Hb0 in H.
Qed.

(** The interval fires. *)
Lemma fire_tick k tm w :
  poll_sane sid w → poll_phase sid k w → earliest ties (timers w) = Some tm →
  handle tm = sid →
  poll_sane sid (fire faults tm w)
  ∧ poll_phase sid (S k) (fire faults tm w)
  ∧ (poll_budget (fire faults tm w) < poll_budget w)%nat.
Proof.
  intros Hs (Hticks & Hk & Hph) He Hh. pose proof (earliest_elem _ _ _ He) as Hin.
  pose proof Hs as (Hr & Hnh & Ht & Hc & Hw & Hd).
  pose proof (with_handle_elem _ _ _ Hin Hh) as Hin'.
  destruct Hph as [(Hi & Hab & Hsg)|(Hn & _)];
    [|rewrite Hn in Hin'; by apply elem_of_nil in Hin'].
  rewrite Hi in Hin'. apply list_elem_of_singleton in Hin'. subst tm.
  (* the timeout is pending, so this tick is due by 10 s *)
  assert (abandon_timer sid ∈ timers w) as Hab_in.
  { assert (abandon_timer sid ∈ with_handle (S sid) (timers w)) as H
        by (rewrite Hab; left).
    by apply list_elem_of_filter in H as [_ ?]. }
  pose proof (earliest_due _ _ _ _ He Hab_in) as Hdue. simpl in Hdue.
  assert (S k ≤ 20)%nat as Hk' by lia.
  pose proof (Hd _ Hin) as Hnow. simpl in Hnow.
  unfold poll_budget. rewrite boxes_fire. set (n := length (boxes w)).
  pose proof (weight_bump n sid k (timers w) Hk' Hi) as Hbump.
  unfold fire. cbv zeta.
  cbn [timers now set_now set_timers].
  rewrite (reschedule_interval _ 500) by done.
  cbn [interval_timer callback run_callback due].
  rewrite poll_tick_unfold. cbn [world_of].
  set (t := (500 * Z.of_nat (S k))%Z) in *.
  set (w3 := record (TimerFired PollTick)
               (set_timers (bump (interval_timer sid k) 500 <$> timers w)
                  (set_now (Z.max (now w) t) w))).
  assert (now w3 = t) as Hnow3 by (simpl; lia).
  assert (boxes w3 = boxes w) as Hb3 by done.
  assert (timers w3 = bump (interval_timer sid k) 500 <$> timers w) as Ht3 by done.
  assert (with_handle sid (timers w3) = [interval_timer sid (S k)]) as Hi3.
  { unfold w3. fields.
    change sid with (handle (interval_timer sid k)) at 1.
    rewrite with_handle_bump_same. cbn [handle interval_timer]. rewrite Hi. simpl.
    unfold bump, interval_timer; simpl. rewrite decide_True by done.
    do 2 f_equal. lia. }
  assert (with_handle (S sid) (timers w3) = [abandon_timer sid]) as Hab3.
  { unfold w3. fields.
    rewrite (with_handle_bump_other (S sid) (interval_timer sid k));
      [done|simpl; lia]. }
  assert (poll_ticks w3 = ticks_upto (S k)) as Hticks3.
  { unfold w3. rewrite poll_ticks_record, ticks_upto_S. simpl.
    unfold poll_ticks in *; simpl. rewrite Hticks. do 2 f_equal. lia. }
  assert (sightings w3 = []) as Hsg3.
  { unfold w3. rewrite sightings_record. simpl. unfold sightings in *; simpl.
    by rewrite Hsg. }
  assert (poll_sane sid w3) as Hs3.
  { unfold poll_sane; simpl. split_and!; try done.
    - intros t' (t0 & -> & Hin0)%list_elem_of_fmap. unfold bump.
      destruct (decide (handle t0 = handle (interval_timer sid k))) as [Heq|Hne];
        simpl; [by intros ?|by apply Ht].
    - intros t' (t0 & -> & Hin0)%list_elem_of_fmap. unfold bump.
      pose proof (earliest_due _ _ _ _ He Hin0) as Hle. simpl in Hle.
      destruct (decide _); simpl; lia. }
  clearbody w3.
  destruct (unmarked_root w3) as [a|].
  - (* a sighting *)
    destruct (held_after_sighting (poll_view sid (record Sighted w3)) t a w3)
      as (w' & -> & (Hs' & Hv' & Hn') & Hb' & Hw').
    { unfold held. split_and!; [|done|done].
      destruct Hs3 as (? & ? & ? & ? & ? & ?). unfold poll_sane. by split_and!. }
    unfold poll_view in Hv'. injection Hv' as Hi' Hab' Hticks' Hsg'.
    rewrite poll_ticks_record, app_nil_r, Hticks3 in Hticks'.
    rewrite sightings_record, Hsg3, Hnow3 in Hsg'.
    cbn [timers record set_trace app] in Hi', Hab', Hsg'.
    set (ts' := filter (λ t0, handle t0 ≠ sid) (timers w')).
    assert (clearInterval (Some sid) w' = set_timers ts' w') as -> by done.
    assert (with_handle sid ts' = []) as Hsid by apply with_handle_none.
    assert (with_handle (S sid) ts' = [abandon_timer sid]) as Hab''.
    { unfold ts'.
      change (filter (λ t, handle t ≠ sid) ?l) with (drop (Some sid) l).
      rewrite with_handle_drop by (intros [=]; lia). rewrite Hab'. exact Hab3. }
    assert (interval_timer sid (S k) ∈ timers w') as Hin3.
    { assert (interval_timer sid (S k) ∈ with_handle sid (timers w')) as H
          by (rewrite Hi', Hi3; left).
      by apply list_elem_of_filter in H as [_ ?]. }
    pose proof (sum_list_with_filter_elem (weight n) (λ t0, handle t0 ≠ sid)
                  (timers w') (interval_timer sid (S k)) Hin3 (λ H, H eq_refl))
      as Hsum.
    unfold weight at 2 in Hsum. cbn [interval_timer callback due] in Hsum.
    split_and!.
    + apply poll_sane_subset; [done|]. by intros t0 [_ ?]%list_elem_of_filter.
    + unfold poll_phase. fields. rewrite Hsid, Hab''.
      split_and!; [done|done|].
      right. split; [done|]. right. split_and!; [done|lia|by left].
    + fields. rewrite Hb3 in Hw'. fold n in Hw'. fold ts' in Hsum.
      rewrite Ht3 in Hw'. lia.
  - (* nothing to see yet *)
    split_and!; [done| |rewrite Ht3; lia].
    unfold poll_phase. split_and!; [done..|]. left. by split_and!.
Qed.
End PollSteps.

(** *** The poll runs to an end *)

Section PollRuns.
Context (faults : nat → World → option string) (ties : Timer → Timer → bool).
Context (sid : nat).

Lemma fire_poll tm w :
  poll_inv sid w → earliest ties (timers w) = Some tm →
  poll_inv sid (fire faults tm w)
  ∧ (poll_budget (fire faults tm w) < poll_budget w)%nat.
Proof.
  intros [Hs [k Hk]] He.
  destruct (decide (handle tm = sid)) as [H1|H1].
  { destruct (fire_tick faults ties sid k tm w Hs Hk He H1) as (? & ? & ?).
    split; [split; eauto|done]. }
  destruct (decide (handle tm = S sid)) as [H2|H2].
  { destruct (fire_abandon faults ties sid k tm w Hs Hk He H2) as (? & ? & ?).
    split; [split; eauto|done]. }
  destruct (fire_other faults ties sid tm w Hs He H1 H2) as [Hheld Hlen].
  split; [|done].
  apply (poll_inv_held sid w _ (due tm)); [split; eauto| |done].
  destruct Hs as (_ & _ & _ & _ & _ & Hd). apply Hd. by eapply earliest_elem.
Qed.

Lemma poll_inv_set_now T w :
  poll_inv sid w → (∀ tm, tm ∈ timers w → (T < due tm)%Z) →
  poll_inv sid (set_now (Z.max (now w) T) w).
Proof.
  intros [(Hr & Hh & Ht & Hc & Hw & Hd) [k Hk]] HT. split.
  - unfold poll_sane; simpl. split_and!; try done.
    intros tm Hin. specialize (Hd tm Hin). specialize (HT tm Hin). lia.
  - exists k. apply (poll_phase_view sid k w); [done|simpl; lia|done].
Qed.

(** With fuel enough the timers due by [T] have all run. *)
Lemma run_until_poll T w :
  poll_inv sid w →
  ∃ fuel w', run_until faults ties fuel T w = Some w' ∧ poll_inv sid w'.
Proof.
  remember (poll_budget w) as b eqn:Hb. revert w Hb.
  induction b as [b IH] using lt_wf_ind. intros w -> Hinv.
  destruct (earliest ties (timers w)) as [tm|] eqn:He.
  - destruct (decide (due tm ≤ T)%Z) as [Hd|Hd].
    + destruct (fire_poll tm w Hinv He) as [Hinv' Hlt].
      destruct (IH _ Hlt (fire faults tm w) eq_refl Hinv') as (fuel & w' & Hrun & ?).
      exists (S fuel), w'. split; [|done].
      rewrite run_until_unfold, He. by rewrite bool_decide_eq_true_2.
    + exists 0%nat, (set_now (Z.max (now w) T) w). split.
      * rewrite run_until_unfold, He. by rewrite bool_decide_eq_false_2.
      * apply poll_inv_set_now; [done|]. intros t Ht.
        pose proof (earliest_due _ _ _ _ He Ht). lia.
  - exists 0%nat, (set_now (Z.max (now w) T) w). split.
    + by rewrite run_until_unfold, He.
    + apply poll_inv_set_now; [done|]. apply earliest_None in He.
      rewrite He. by intros t ?%elem_of_nil.
Qed.

Lemma simulate_poll evs :
  ∀ w, poll_inv sid w →
       ∃ fuel0 w', poll_inv sid w'
                   ∧ ∀ fuel, (fuel0 ≤ fuel)%nat →
                             simulate faults ties fuel evs w = Some w'.
Proof.
  induction evs as [|[t ev] evs IH]; intros w Hinv.
  - exists 0%nat, w. eauto.
  - destruct (run_until_poll t w Hinv) as (fuel1 & w1 & Hrun & Hinv1).
    destruct (IH (handle_event faults ev w1)) as (fuel2 & w' & Hinv' & Hsim);
      [by apply poll_inv_handle_event|].
    exists (fuel1 `max` fuel2)%nat, w'. split; [done|]. intros fuel Hfuel.
    cbn [simulate].
    rewrite (run_until_more_fuel faults ties fuel1 fuel t w w1 Hrun) by lia.
    apply Hsim. lia.
Qed.

Lemma interval_pending k w :
  with_handle sid (timers w) = [interval_timer sid k] → tick_pending k w.
Proof.
  intros Hi. exists (interval_timer sid k). split; [|done].
  assert (interval_timer sid k ∈ with_handle sid (timers w)) as H
      by (rewrite Hi; left).
  by apply list_elem_of_filter in H as [_ ?].
Qed.

(** What the invariant says once the timers due by [T] have run. *)
Lemma poll_inv_history T w :
  poll_inv sid w → (∀ tm, tm ∈ timers w → (T < due tm)%Z) → poll_history T w.
Proof.
  intros [(Hr & Hh & Ht & Hc & Hw & Hd) [k (Hticks & Hk & Hph)]] HT.
  assert (with_handle sid (timers w) = [] →
          (with_handle (S sid) (timers w) = [abandon_timer sid]
           ∨ with_handle (S sid) (timers w) = []) →
          poll_stopped w) as Hstop.
  { intros Hi Hab tm Hin Hcb.
    destruct (decide (handle tm = sid)) as [H1|H1].
    { pose proof (with_handle_elem _ _ _ Hin H1) as H. rewrite Hi in H.
      by apply elem_of_nil in H. }
    destruct (decide (handle tm = S sid)) as [H2|H2].
    { pose proof (with_handle_elem _ _ _ Hin H2) as H.
      destruct Hab as [Hab|Hab]; rewrite Hab in H.
      - apply list_elem_of_singleton in H as ->. done.
      - by apply elem_of_nil in H. }
    destruct (Ht tm Hin H1 H2) as (_ & ? & _). congruence. }
  exists k. split_and!; [done|done| | | | |].
  - destruct Hph as [(_ & _ & ->)|(_ & [(-> & _)|(-> & ? & _)])]; auto.
  - destruct Hph as [(_ & _ & ->)|(Hi & [(-> & _)|(_ & _ & Hab)])]; try done.
    intros _. by apply Hstop.
  - intros HT'. destruct Hph as [(_ & Hab & _)|(Hi & [(_ & Hab & _)|(_ & _ & Hab)])].
    + assert (abandon_timer sid ∈ with_handle (S sid) (timers w)) as H
          by (rewrite Hab; left).
      apply list_elem_of_filter in H as [_ H]. specialize (HT _ H). simpl in HT. lia.
    + apply Hstop; auto.
    + by apply Hstop.
  - intros Hsg.
    destruct Hph as [(Hi & _ & _)|(_ & [(_ & _ & ? & _)|(Hsg' & _)])].
    + left. destruct (interval_pending k w Hi) as (tm & Hin & _ & _ & <-).
      by apply HT.
    + by right.
    + by rewrite Hsg in Hsg'.
  - intros Hsg Hnow.
    destruct Hph as [(Hi & _ & _)|(_ & [(_ & _ & _ & ?)|(Hsg' & _)])].
    + by apply interval_pending.
    + lia.
    + by rewrite Hsg in Hsg'.
Qed.
End PollRuns.

(** *** The poll is started in a tidy world *)

Lemma tidy_on_page f w : tidy w → tidy (on_page f w).
Proof. done. Qed.

Lemma tidy_record_InitUI w : tidy w → tidy (record InitUI w).
Proof.
  intros (Ht & Hc & Hw & Hn & Hp & Hs). unfold tidy. split_and!; try done.
  - by rewrite poll_ticks_record, Hp.
  - by rewrite sightings_record, Hs.
Qed.

Lemma tidy_new_closure f w :
  tidy w → tidy (set_closures (closures w ++ [mkClosure f 250 None]) w).
Proof.
  intros (Ht & Hc & Hw & Hn & Hp & Hs). unfold tidy. split_and!; try done.
  - intros c cl g [Hin|[_ Heq]]%lookup_app_Some; [by eapply Hc|].
    apply list_lookup_singleton_Some in Heq as [_ <-]. done.
  - intros c cl [Hin|[_ Heq]]%lookup_app_Some; [by eapply Hw|].
    apply list_lookup_singleton_Some in Heq as [_ <-]. simpl. lia.
Qed.

Lemma tidy_executedFunction c w : tidy w → tidy (executedFunction c w).
Proof.
  intros H.
  destruct (closures w !! c) as [cl|] eqn:Hcl;
    [|by unfold executedFunction; rewrite Hcl].
  rewrite (executedFunction_unfold c cl w Hcl).
  destruct H as (Ht & Hc & Hw & Hn & Hp & Hs).
  unfold tidy; simpl. split_and!; try done.
  - intros tm [Hin%drop_elem_of|Hin]%elem_of_app.
    + destruct (Ht tm Hin) as (? & ? & ?). split_and!; [lia|done..].
    + apply list_elem_of_singleton in Hin as ->. simpl.
      specialize (Hw c cl Hcl). split_and!; [lia|done|lia].
  - intros c' cl' g. rewrite list_lookup_alter.
    case_decide as Heq; [subst c'|].
    + rewrite Hcl; simpl. intros [= <-]; simpl. intros [= <-]. lia.
    + intros H1 H2. specialize (Hc c' cl' g H1 H2). lia.
  - intros c' cl'. rewrite list_lookup_alter.
    case_decide as Heq; [subst c'|by apply Hw].
    rewrite Hcl; simpl. intros [= <-]; simpl. by eapply Hw.
Qed.

Lemma tidy_enhanceNewElements_timed w : tidy w → tidy (enhanceNewElements_timed w).
Proof.
  intros (Ht & Hc & Hw & Hn & Hp & Hs).
  destruct (enhanceNewElements_timed_spec w) as (news & -> & Hsn & _).
  unfold tidy. fields. split_and!; try done.
  - intros tm [Hin|Hin]%elem_of_app.
    + destruct (Ht tm Hin) as (? & ? & ?). split_and!; [lia|done..].
    + destruct (progress_timers_elem _ _ _ _ Hsn Hin) as (i & bar & Hi & ->).
      simpl. split_and!; [lia|done|lia].
  - intros c cl g H1 H2. specialize (Hc c cl g H1 H2). lia.
Qed.

Lemma tidy_initUI faults w : tidy w → tidy (world_of (initUI faults w)).
Proof.
  apply (initUI_preserves faults tidy);
    auto using tidy_on_page, tidy_record_InitUI, tidy_executedFunction,
      tidy_enhanceNewElements_timed.
  - intros w'. apply (tidy_new_closure EnhanceFunc).
  - intros w'. apply (tidy_new_closure ResizeFunc).
Qed.

Lemma tidy_boot p : tidy (boot p).
Proof.
  unfold tidy; simpl. split_and!; try done; by intros ? ?%elem_of_nil.
Qed.

(** Starting the poll in a tidy world. *)
Lemma poll_inv_start w :
  tidy w →
  poll_inv (next_handle w)
    (setTimeout PollAbandon 10000
       (set_streamlitReady (Some (next_handle w))
          (setInterval PollTick 500 w).2)).2.
Proof.
  intros (Ht & Hc & Hw & Hn & Hp & Hs).
  set (sid := next_handle w).
  assert (∀ h, (sid ≤ h)%nat → with_handle h (timers w) = []) as Hfresh.
  { intros h Hh. apply with_handle_fresh. intros tm Hin.
    destruct (Ht tm Hin) as (? & _). unfold sid in Hh. lia. }
  unfold setTimeout, setInterval, add_timer. fields. cbn [snd fst].
  fold sid. rewrite Hn. split.
  - unfold poll_sane. fields. split_and!; [done|lia| | |done|].
    + intros tm [[Hin|Hin]%elem_of_app|Hin]%elem_of_app H1 H2.
      * destruct (Ht tm Hin) as (_ & ? & _). done.
      * apply list_elem_of_singleton in Hin as ->. done.
      * apply list_elem_of_singleton in Hin as ->. done.
    + intros c cl g Hcl Hg. specialize (Hc c cl g Hcl Hg). fold sid in Hc. lia.
    + intros tm [[Hin|Hin]%elem_of_app|Hin]%elem_of_app.
      * destruct (Ht tm Hin) as (_ & _ & ?). lia.
      * apply list_elem_of_singleton in Hin as ->. simpl. lia.
      * apply list_elem_of_singleton in Hin as ->. simpl. lia.
  - exists 0%nat. unfold poll_phase. fields.
    rewrite !with_handle_app, !Hfresh by lia.
    split_and!; [done|lia|]. left. split_and!; [| |done].
    + unfold with_handle. rewrite filter_cons_True by done.
      rewrite filter_nil, filter_cons_False, filter_nil by (simpl; lia).
      rewrite ?Hn. done.
    + unfold with_handle. rewrite filter_cons_False by (simpl; lia).
      rewrite filter_nil, filter_cons_True, filter_nil by done.
      rewrite ?Hn. done.
Qed.

Lemma script_load_unfold faults loading w :
  script_load faults loading w =
  let w1 := on_page (addEventListener OnBeforeUnload) w in
  let w2 := if loading then on_page (addEventListener OnDOMContentLoaded) w1
            else world_of (initUI faults w1) in
  Normal tt (setTimeout PollAbandon 10000
               (set_streamlitReady (Some (next_handle w2))
                  (setInterval PollTick 500 w2).2)).2.
Proof.
  unfold script_load, bind, run0, run1, ret. destruct loading; [done|].
  destruct (initUI_normal faults (on_page (addEventListener OnBeforeUnload) w))
    as [w' ->]. done.
Qed.

Lemma poll_inv_script_load faults loading p :
  ∃ sid, poll_inv sid (world_of (script_load faults loading (boot p))).
Proof.
  rewrite script_load_unfold. cbv zeta. cbn [world_of].
  eexists. apply poll_inv_start.
  destruct loading; [apply tidy_on_page, tidy_on_page, tidy_boot|].
  apply tidy_initUI, tidy_on_page, tidy_boot.
Qed.

(** *** A sighting *)

Lemma root_attribute_setTheme_other k theme p :
  k ≠ "data-theme" → root_attribute k (setTheme theme p) = root_attribute k p.
Proof.
  intros Hk.
  destruct (querySelector CONFIG.selectors.app (document p)) as [a|] eqn:Ha.
  - rewrite (setTheme_present _ _ _ Ha). unfold root_attribute; simpl.
    rewrite querySelector_setAttribute, Ha; simpl. rewrite get_update.
    destruct (get a (document p)) as [x|]; simpl; [|done].
    by rewrite lookup_insert_ne.
  - by rewrite (setTheme_absent _ _ Ha).
Qed.

Lemma marker_initUI faults w :
  root_attribute initialized_marker (page w) = Some "true" →
  root_attribute initialized_marker (page (world_of (initUI faults w))) = Some "true".
Proof.
  apply (initUI_preserves faults
           (λ w', root_attribute initialized_marker (page w') = Some "true"));
    try done.
  - intros w'; simpl. by rewrite root_attribute_setTheme_other.
  - intros w'; simpl. by rewrite root_attribute_applySavedSidebarState.
  - intros w'. by rewrite page_enhanceNewElements_timed,
      root_attribute_enhanceNewElements.
  - intros c w'. by rewrite page_executedFunction.
Qed.

Lemma trace_initUI faults w :
  trace (world_of (initUI faults w)) = trace w ++ [(now w, InitUI)].
Proof.
  apply (initUI_two_phase faults
           (λ w', trace w' = trace w ++ [(now w, InitUI)])
           (λ w', trace w' = trace w ++ [(now w, InitUI)]));
    try done.
  - intros w' <-. apply enhanceNewElements_timed_fields.
  - intros c w' <-. unfold executedFunction.
    destruct (closures w' !! c) as [cl|]; [|done]. by destruct (timeout cl).
Qed.

Lemma after_sighting_spec faults a w sid :
  querySelector CONFIG.selectors.app (document (page w)) = Some a →
  streamlitReady w = Some sid →
  root_attribute initialized_marker (page (after_sighting faults a w)) = Some "true"
  ∧ trace (after_sighting faults a w) = trace w ++ [(now w, Sighted); (now w, InitUI)]
  ∧ with_handle sid (timers (after_sighting faults a w)) = [].
Proof.
  intros Ha Hr. unfold after_sighting.
  set (w0 := on_page (mutate a (setAttribute initialized_marker "true"))
                     (record Sighted w)).
  rewrite streamlitReady_initUI.
  assert (streamlitReady w0 = Some sid) as -> by done.
  cbn [clearInterval clearTimer]. fields. split_and!.
  - apply marker_initUI. unfold root_attribute, w0; simpl.
    rewrite querySelector_setAttribute, Ha; simpl. rewrite get_update.
    destruct (querySelector_get _ _ _ Ha) as (x & -> & _); simpl.
    apply lookup_insert_eq.
  - rewrite trace_initUI. unfold w0; simpl. by rewrite <- app_assoc.
  - apply with_handle_none.
Qed.

(** ** The claim about the start-up poll *)

(** C6.  A tick of the poll that finds an app root without the marker sets
    the marker, enters [initUI] once and clears the interval; a tick that
    finds no root, or a marked one, changes nothing.  And from the loading
    of the script on, whatever the page was, whatever the host and the user
    do, whatever throws inside [initUI] and however the host breaks ties
    between timers, the timers due by any time [T] all run, and then: the
    poll has ticked every 500 ms, at 500 ms, 1000 ms and so on, at most 20
    times, so never after 10 s; as long as it has sighted nothing it has
    missed no tick up to [T] or up to 9.5 s, and its next tick is pending
    until the clock reaches 10 s; it has sighted an unmarked root at most
    once, at its last tick, and no tick is pending after that; and no tick
    is pending once 10 s have passed. *)
Theorem poll_is_bounded (faults : nat → World → option string)
    (ties : Timer → Timer → bool) :
  (∀ w a sid,
      unmarked_root w = Some a → streamlitReady w = Some sid →
      root_attribute initialized_marker (page (world_of (poll_tick faults w)))
      = Some "true"
      ∧ trace (world_of (poll_tick faults w))
        = trace w ++ [(now w, Sighted); (now w, InitUI)]
      ∧ with_handle sid (timers (world_of (poll_tick faults w))) = [])
  ∧ (∀ w, unmarked_root w = None → poll_tick faults w = Normal tt w)
  ∧ (∀ loading p evs T,
        ∃ fuel0 w,
          (∀ fuel, (fuel0 ≤ fuel)%nat →
                   simulate faults ties fuel evs
                     (world_of (script_load faults loading (boot p)))
                   ≫= run_until faults ties fuel T = Some w)
          ∧ poll_history T w).
Proof.
  split_and!.
  - intros w a sid Ha Hr. rewrite poll_tick_unfold, Ha. cbn [world_of].
    apply after_sighting_spec; [|done].
    unfold unmarked_root in Ha.
    destruct (querySelector CONFIG.selectors.app _) as [a'|]; [|done].
    destruct (from_option _ _ _); by simplify_eq.
  - intros w Hw. by rewrite poll_tick_unfold, Hw.
  - intros loading p evs T.
    destruct (poll_inv_script_load faults loading p) as [sid Hinv].
    destruct (simulate_poll faults ties sid evs _ Hinv)
      as (fuel1 & w1 & Hinv1 & Hsim).
    destruct (run_until_poll faults ties sid T w1 Hinv1)
      as (fuel2 & w2 & Hrun & Hinv2).
    exists (fuel1 `max` fuel2)%nat, w2. split.
    + intros fuel Hfuel. rewrite Hsim by lia. simpl.
      apply (run_until_more_fuel faults ties fuel2); [done|lia].
    + apply (poll_inv_history sid); [done|].
      by destruct (run_until_done _ _ _ _ _ _ Hrun) as (_ & _ & ?).
Qed.

Lemma poll_is_bounded_witness :
  let w := world_of (script_load no_faults false (boot (page_of dashboard []))) in
  root_attribute initialized_marker (page (world_of (poll_tick no_faults w)))
  = Some "true".
Proof.
  refine (proj1 (proj1 (poll_is_bounded no_faults lower_handle_first)
                   _ [0; 0]%nat 4%nat _ _));
    reflexivity.
Defined.

(** The app root is rendered 1.2 s after loading: the poll ticks at 0.5 s
    and 1 s without seeing it, sees it at 1.5 s, activates once (after the
    activation at load time) and is gone. *)
Example poll_late_render :
  (λ w, (poll_ticks w, sightings w, activations w, timers w,
         root_attribute initialized_marker (page w)))
    <$> (simulate no_faults lower_handle_first 30 late_render
           (world_of (script_load no_faults false (boot (page_of blank []))))
         ≫= run_until no_faults lower_handle_first 30 20000)
  = Some ([500; 1000; 1500]%Z, [1500]%Z, [0; 1500]%Z, [], Some "true").
Proof. vm_compute. reflexivity. Qed.

(** The app root never appears.  The twentieth tick and the timeout are
    both due at 10 s: on a host that runs the tick first there are twenty
    ticks, the last one at 10 s; on a host that runs the timeout first
    there are nineteen, the last one at 9.5 s. *)
Example poll_gives_up :
  (λ w, (length (poll_ticks w), last (poll_ticks w), sightings w, timers w))
    <$> run_until no_faults lower_handle_first 30 60000
          (world_of (script_load no_faults false (boot (page_of blank []))))
  = Some (20%nat, Some 10000%Z, [], [])
  ∧ (λ w, (length (poll_ticks w), last (poll_ticks w), sightings w, timers w))
      <$> run_until no_faults higher_handle_first 30 60000
            (world_of (script_load no_faults false (boot (page_of blank []))))
    = Some (19%nat, Some 9500%Z, [], []).
Proof. split; vm_compute; reflexivity. Qed.

(** With motion not reduced the progress bars of the dashboard's two boxes
    are shown 100 ms after the pass and faded 300 ms later; with reduced
    motion the pass leaves them in that state at once. *)
Example progress_bars_animated :
  let bars w := (λ bar, style <$> get bar (document (page w)))
                  <$> [[0; 0; 1; 2]; [0; 0; 2; 1]]%nat in
  let load reduced :=
    world_of (script_load no_faults false
                (boot (mkPage dashboard ∅ [] [] [] reduced 1280))) in
  let final := Some (style (progressBar true)) in
  bars (load false) = [Some (style (progressBar false)); Some (style (progressBar false))]
  ∧ bars <$> run_until no_faults lower_handle_first 30 100 (load false)
    = Some [Some (<["width" := "100%"]> (style (progressBar false)));
            Some (<["width" := "100%"]> (style (progressBar false)))]
  ∧ bars <$> run_until no_faults lower_handle_first 30 400 (load false)
    = Some [final; final]
  ∧ bars (load true) = [final; final].
Proof. repeat split; vm_compute; reflexivity. Qed.

(** * Further properties of the script *)

(** ** Documents: updates that change nothing, and what an update leaves alone *)

Lemma sidebar_collapsed_mutate path f p :
  (∀ x, children (f x) = children x) →
  (∀ x, classList (f x) = classList x) →
  sidebar_collapsed (mutate path f p) = sidebar_collapsed p.
Proof.
  intros Hch Hcl. unfold sidebar_collapsed, mutate; simpl.
  rewrite querySelector_update;
    [|done|intros x; destruct CONFIG.selectors.sidebar; simpl; by rewrite Hcl].
  destruct (querySelector _ _) as [s|]; simpl; [|done].
  pose proof (get_update_field classList s path f (document p) Hch Hcl (λ _ _, eq_refl)) as H.
  destruct (get s (update _ _ _)) as [y|], (get s (document p)) as [x|];
    simplify_eq/=; [|done]. by rewrite H.
Qed.

Lemma root_attribute_mutate k path f p :
  (∀ x, children (f x) = children x) →
  (∀ x, matches CONFIG.selectors.app (f x) = matches CONFIG.selectors.app x) →
  (∀ x, attributes (f x) !! k = attributes x !! k) →
  root_attribute k (mutate path f p) = root_attribute k p.
Proof.
  intros Hch Hm Hat. unfold root_attribute, mutate; simpl.
  rewrite querySelector_update by done.
  destruct (querySelector _ _) as [a|]; simpl; [|done].
  pose proof (get_update_field (λ e, attributes e !! k) a path f (document p)
                Hch Hat (λ _ _, eq_refl)) as H.
  destruct (get a (update _ _ _)) as [y|], (get a (document p)) as [x|];
    simplify_eq/=; done.
Qed.

(** ** The rest of the theme API: [resetTheme] and [randomTheme] *)

Lemma warning_valid theme : theme ∈ CONFIG.themes → warning theme = [].
Proof. intros H. unfold warning, includes. by rewrite bool_decide_eq_true_2. Qed.

Lemma settled_valid theme : theme ∈ CONFIG.themes → settled theme = theme.
Proof. intros H. unfold settled, includes. by rewrite bool_decide_eq_true_2. Qed.

(** The listeners of the script write [console.log] lines only. *)
Lemma listener_output_no_warning ev ls m :
  Warn m ∉ mbind (listener_output ev) ls.
Proof.
  rewrite list_elem_of_bind. intros (l & Hin & _).
  destruct ev, l; simpl in Hin;
    first [by apply elem_of_nil in Hin | by apply list_elem_of_singleton in Hin].
Qed.

Lemma setTheme_valid_console theme p m :
  theme ∈ CONFIG.themes →
  Warn m ∈ console (setTheme theme p) → Warn m ∈ console p.
Proof.
  intros Hin.
  destruct (querySelector CONFIG.selectors.app (document p)) as [a|] eqn:Ha.
  - rewrite (setTheme_present _ _ _ Ha); simpl. rewrite warning_valid by done; simpl.
    rewrite elem_of_app. intros [H|H]; [done|].
    by apply listener_output_no_warning in H.
  - rewrite (setTheme_absent _ _ Ha); simpl. rewrite warning_valid by done.
    by rewrite app_nil_r.
Qed.

Lemma setTheme_valid_absent theme p :
  theme ∈ CONFIG.themes →
  querySelector CONFIG.selectors.app (document p) = None →
  setTheme theme p = p.
Proof.
  intros Hin Ha. rewrite (setTheme_absent _ _ Ha), warning_valid by done.
  rewrite app_nil_r. by destruct p.
Qed.

Lemma defaultTheme_valid : CONFIG.defaultTheme ∈ CONFIG.themes.
Proof. unfold CONFIG.themes, CONFIG.defaultTheme. apply elem_of_cons; auto. Qed.

(** X1.  [resetTheme] makes the default theme active wherever [setTheme]
    keeps a theme (the attribute of the app root, the storage, the
    [themeChanged] event) and writes no warning; on a page without an app
    root it changes nothing at all, so a theme persisted earlier stays. *)
Theorem resetTheme_restores_default (p : Page) :
  match querySelector CONFIG.selectors.app (document p) with
  | Some _ =>
      getTheme (resetTheme p) = "Light"
      ∧ root_attribute "data-theme" (resetTheme p) = Some "Light"
      ∧ getItem CONFIG.storageKeys.theme (resetTheme p) = Some "Light"
      ∧ dispatched (resetTheme p) = dispatched p ++ [themeChanged "Light"]
      ∧ (∀ m, Warn m ∈ console (resetTheme p) → Warn m ∈ console p)
  | None => resetTheme p = p
  end.
Proof.
  unfold resetTheme.
  destruct (querySelector CONFIG.selectors.app (document p)) as [a|] eqn:Ha.
  - split_and!.
    + by rewrite (getTheme_setTheme _ _ _ Ha).
    + by rewrite (root_attribute_setTheme _ _ _ Ha).
    + by rewrite (getItem_setTheme _ _ _ Ha).
    + by rewrite (setTheme_present _ _ _ Ha).
    + intros m. apply setTheme_valid_console, defaultTheme_valid.
  - by apply setTheme_valid_absent; [apply defaultTheme_valid|].
Qed.

Lemma themes_at_valid i :
  (0 ≤ i < Z.of_nat (length CONFIG.themes))%Z → themes_at i ∈ CONFIG.themes.
Proof.
  intros Hi. simpl in Hi.
  assert (i = 0 ∨ i = 1 ∨ i = 2)%Z as [->|[->| ->]] by lia;
    unfold themes_at, CONFIG.themes; simpl; rewrite !elem_of_cons; auto.
Qed.

(** X2.  [randomTheme] draws an index with
    [Math.floor(Math.random() * themes.length)], which lies in
    [0 .. themes.length - 1].  For every such index the theme it sets is a
    member of the theme list, so no warning is written; with an app root
    that theme becomes the active one. *)
Theorem randomTheme_valid (randomIndex : Z) (p : Page) :
  (0 ≤ randomIndex < Z.of_nat (length CONFIG.themes))%Z →
  themes_at randomIndex ∈ CONFIG.themes
  ∧ (∀ m, Warn m ∈ console (randomTheme randomIndex p) → Warn m ∈ console p)
  ∧ (is_Some (querySelector CONFIG.selectors.app (document p)) →
     getTheme (randomTheme randomIndex p) = themes_at randomIndex
     ∧ root_attribute "data-theme" (randomTheme randomIndex p)
       = Some (themes_at randomIndex)
     ∧ dispatched (randomTheme randomIndex p)
       = dispatched p ++ [themeChanged (themes_at randomIndex)])
  ∧ (querySelector CONFIG.selectors.app (document p) = None →
     randomTheme randomIndex p = p).
Proof.
  intros Hi. pose proof (themes_at_valid _ Hi) as Hin. unfold randomTheme.
  split_and!; [done|..].
  - intros m. by apply setTheme_valid_console.
  - intros [a Ha]. split_and!.
    + by rewrite (getTheme_setTheme _ _ _ Ha), settled_valid.
    + by rewrite (root_attribute_setTheme _ _ _ Ha), settled_valid.
    + by rewrite (setTheme_present _ _ _ Ha); simpl; rewrite settled_valid.
  - by apply setTheme_valid_absent.
Qed.

Lemma randomTheme_valid_witness :
  getTheme (randomTheme 2 (page_of dashboard [])) = "Cyberpunk".
Proof.
  refine (proj1 (proj1 (proj2 (proj2 (randomTheme_valid 2 (page_of dashboard []) _))) _)).
  - simpl; lia.
  - by eexists.
Defined.

(** ** The sidebar across a reload: [applySavedSidebarState] *)

Lemma sidebar_collapsed_document p q :
  document p = document q → sidebar_collapsed p = sidebar_collapsed q.
Proof. unfold sidebar_collapsed. by intros ->. Qed.

Lemma root_attribute_document k p q :
  document p = document q → root_attribute k p = root_attribute k q.
Proof. unfold root_attribute. by intros ->. Qed.

Lemma mutate_id path f p x :
  get path (document p) = Some x → f x = x → mutate path f p = p.
Proof.
  intros Hg Hx. unfold mutate. rewrite (update_id _ _ _ _ Hg Hx). by destruct p.
Qed.

Lemma sidebar_collapsed_Some p c :
  sidebar_collapsed p = Some c →
  ∃ s x, querySelector CONFIG.selectors.sidebar (document p) = Some s
         ∧ get s (document p) = Some x
         ∧ contains "collapsed" (classList x) = c.
Proof.
  unfold sidebar_collapsed. intros H.
  destruct (querySelector _ _) as [s|]; simplify_eq/=.
  destruct (get s _) as [x|] eqn:Hx; simplify_eq/=. by exists s, x.
Qed.

Lemma root_attribute_Some k p v :
  root_attribute k p = Some v →
  ∃ a x, querySelector CONFIG.selectors.app (document p) = Some a
         ∧ get a (document p) = Some x
         ∧ attributes x !! k = Some v.
Proof.
  unfold root_attribute. intros H.
  destruct (querySelector _ _) as [a|]; simplify_eq/=.
  destruct (get a _) as [x|] eqn:Hx; simplify_eq/=. by exists a, x.
Qed.

Lemma applySavedSidebarState_other p :
  getItem CONFIG.storageKeys.sidebarCollapsed p ≠ Some "true" →
  applySavedSidebarState p = p.
Proof.
  intros H. unfold applySavedSidebarState. rewrite bool_decide_eq_false_2 by done.
  destruct (querySelector CONFIG.selectors.sidebar _); [|done].
  by destruct (querySelector CONFIG.selectors.app _).
Qed.

Lemma applySavedSidebarState_absent p :
  querySelector CONFIG.selectors.sidebar (document p) = None
  ∨ querySelector CONFIG.selectors.app (document p) = None →
  applySavedSidebarState p = p.
Proof.
  unfold applySavedSidebarState. intros [-> | ->]; [done|].
  by destruct (querySelector CONFIG.selectors.sidebar _).
Qed.

Lemma applySavedSidebarState_true p s a :
  getItem CONFIG.storageKeys.sidebarCollapsed p = Some "true" →
  querySelector CONFIG.selectors.sidebar (document p) = Some s →
  querySelector CONFIG.selectors.app (document p) = Some a →
  applySavedSidebarState p =
  mutate a (setAttribute "data-sidebar-collapsed" "true")
         (mutate s (classList_add "collapsed") p).
Proof.
  intros Hg Hs Ha. unfold applySavedSidebarState.
  by rewrite Hs, Ha, bool_decide_eq_true_2.
Qed.

(** What a saved ['true'] does when both elements are there. *)
Lemma applySavedSidebarState_collapses p s a :
  getItem CONFIG.storageKeys.sidebarCollapsed p = Some "true" →
  querySelector CONFIG.selectors.sidebar (document p) = Some s →
  querySelector CONFIG.selectors.app (document p) = Some a →
  querySelector CONFIG.selectors.sidebar (document (applySavedSidebarState p)) = Some s
  ∧ querySelector CONFIG.selectors.app (document (applySavedSidebarState p)) = Some a
  ∧ sidebar_collapsed (applySavedSidebarState p) = Some true
  ∧ root_attribute "data-sidebar-collapsed" (applySavedSidebarState p) = Some "true".
Proof.
  intros Hg Hs Ha. rewrite (applySavedSidebarState_true _ _ _ Hg Hs Ha).
  assert (∀ sel : string, sel ≠ "collapsed" →
            querySelector (ClassSel sel)
              (document (mutate a (setAttribute "data-sidebar-collapsed" "true")
                           (mutate s (classList_add "collapsed") p)))
            = querySelector (ClassSel sel) (document p)) as Hsel.
  { intros sel Hne; simpl. rewrite querySelector_setAttribute.
    apply querySelector_update;
      [apply children_classList_add|intros x; by apply matches_classList_add]. }
  unfold CONFIG.selectors.sidebar, CONFIG.selectors.app in *.
  rewrite !Hsel by done. split_and!; [done|done|..].
  - rewrite sidebar_collapsed_mutate by done.
    unfold sidebar_collapsed. unfold CONFIG.selectors.sidebar.
    specialize (Hsel "stSidebar"). simpl in Hsel.
    rewrite querySelector_setAttribute in Hsel. simpl.
    rewrite querySelector_update;
      [|apply children_classList_add|intros x; by apply matches_classList_add].
    rewrite Hs; simpl. rewrite get_update.
    destruct (querySelector_get _ _ _ Hs) as (x & -> & _); simpl.
    rewrite contains_classList_add. by rewrite bool_decide_eq_true_2, orb_true_r.
  - unfold root_attribute. unfold CONFIG.selectors.app.
    rewrite Hsel by done. rewrite Ha; simpl. rewrite get_update.
    pose proof (get_update_field attributes a s (classList_add "collapsed") (document p)
                  (children_classList_add _) (attributes_classList_add _)
                  (λ _ _, eq_refl)) as H.
    destruct (querySelector_get _ _ _ Ha) as (x & Hx & _). rewrite Hx in H.
    destruct (get a (update s _ _)) as [y|]; simplify_eq/=.
    apply lookup_insert_eq.
Qed.

Lemma classList_add_present cls x :
  contains cls (classList x) = true → classList_add cls x = x.
Proof. intros H. unfold classList_add. by rewrite H. Qed.

Lemma setAttribute_present k v x :
  attributes x !! k = Some v → setAttribute k v x = x.
Proof.
  intros H. unfold setAttribute. rewrite insert_id by done. by destruct x.
Qed.

(** X3.  The sidebar state survives a reload.  After [toggleSidebar] on a
    page with sidebar and app root, take any new document that has both and
    shows the sidebar expanded, as the host renders it, over the same
    storage: [applySavedSidebarState] leaves the sidebar in the state the
    toggle had put it in, and for a collapsed sidebar the root says so. *)
Theorem sidebar_survives_reload (p : Page) (doc : Element) (reduced : bool)
    (width : Z) (c : bool) :
  sidebar_collapsed p = Some c →
  is_Some (querySelector CONFIG.selectors.app (document p)) →
  let fresh := reload doc reduced width (toggleSidebar p) in
  sidebar_collapsed fresh = Some false →
  is_Some (querySelector CONFIG.selectors.app doc) →
  sidebar_collapsed (applySavedSidebarState fresh) = Some (negb c)
  ∧ (c = false →
     root_attribute "data-sidebar-collapsed" (applySavedSidebarState fresh)
     = Some "true").
Proof.
  intros Hc [a Ha] fresh Hfresh [a' Ha'].
  destruct (sidebar_collapsed_Some _ _ Hc) as (s & _ & Hs & _).
  destruct (sidebar_collapsed_Some _ _ Hfresh) as (s' & _ & Hs' & _).
  destruct (toggleSidebar_effect _ _ _ _ Hs Ha Hc) as (_ & _ & _ & _ & Hg).
  assert (getItem CONFIG.storageKeys.sidebarCollapsed fresh = Some (encode (negb c)))
    as Hg' by done.
  destruct c; simpl in *.
  - rewrite applySavedSidebarState_other; [done|by rewrite Hg'].
  - destruct (applySavedSidebarState_collapses fresh s' a' Hg' Hs' Ha')
      as (_ & _ & ? & ?). done.
Qed.

Lemma sidebar_survives_reload_witness :
  sidebar_collapsed
    (applySavedSidebarState
       (reload dashboard false 1280 (toggleSidebar (page_of dashboard []))))
  = Some true.
Proof.
  refine (proj1 (sidebar_survives_reload (page_of dashboard []) dashboard false 1280
                   false _ _ _ _)).
  - reflexivity.
  - by eexists.
  - reflexivity.
  - by eexists.
Defined.

(** X4.  [applySavedSidebarState] only ever collapses.  It writes neither
    storage nor console and dispatches nothing; unless the saved value is
    the string ['true'] and both elements exist it changes nothing, so a
    sidebar that is collapsed stays collapsed whatever is saved; with
    ['true'] saved and both elements there, the class and the root's
    attribute are set; and applying it a second time changes nothing. *)
Theorem applySavedSidebarState_only_collapses (p : Page) :
  storage (applySavedSidebarState p) = storage p
  ∧ console (applySavedSidebarState p) = console p
  ∧ dispatched (applySavedSidebarState p) = dispatched p
  ∧ (getItem CONFIG.storageKeys.sidebarCollapsed p ≠ Some "true" →
     applySavedSidebarState p = p)
  ∧ (sidebar_collapsed p = Some true →
     sidebar_collapsed (applySavedSidebarState p) = Some true)
  ∧ (getItem CONFIG.storageKeys.sidebarCollapsed p = Some "true" →
     is_Some (querySelector CONFIG.selectors.sidebar (document p)) →
     is_Some (querySelector CONFIG.selectors.app (document p)) →
     sidebar_collapsed (applySavedSidebarState p) = Some true
     ∧ root_attribute "data-sidebar-collapsed" (applySavedSidebarState p)
       = Some "true")
  ∧ applySavedSidebarState (applySavedSidebarState p) = applySavedSidebarState p.
Proof.
  assert (getItem CONFIG.storageKeys.sidebarCollapsed p = Some "true" →
          ∀ s a,
            querySelector CONFIG.selectors.sidebar (document p) = Some s →
            querySelector CONFIG.selectors.app (document p) = Some a →
            applySavedSidebarState (applySavedSidebarState p)
            = applySavedSidebarState p) as Hagain.
  { intros Hg s a Hs Ha.
    destruct (applySavedSidebarState_collapses p s a Hg Hs Ha)
      as (Hs1 & Ha1 & Hc1 & Hr1).
    set (p1 := applySavedSidebarState p) in *.
    assert (getItem CONFIG.storageKeys.sidebarCollapsed p1 = Some "true") as Hg1.
    { unfold getItem, p1. by rewrite storage_applySavedSidebarState. }
    rewrite (applySavedSidebarState_true p1 s a Hg1 Hs1 Ha1).
    destruct (sidebar_collapsed_Some _ _ Hc1) as (s' & x & Hs' & Hx & Hcx).
    destruct (root_attribute_Some _ _ _ Hr1) as (a' & y & Ha' & Hy & Hky).
    simplify_eq.
    rewrite (mutate_id s _ p1 x Hx (classList_add_present _ _ Hcx)).
    by rewrite (mutate_id a _ p1 y Hy (setAttribute_present _ _ _ Hky)). }
  split_and!.
  - apply storage_applySavedSidebarState.
  - unfold applySavedSidebarState.
    destruct (querySelector CONFIG.selectors.sidebar _); [|done].
    destruct (querySelector CONFIG.selectors.app _); [|done].
    by case_bool_decide.
  - unfold applySavedSidebarState.
    destruct (querySelector CONFIG.selectors.sidebar _); [|done].
    destruct (querySelector CONFIG.selectors.app _); [|done].
    by case_bool_decide.
  - apply applySavedSidebarState_other.
  - intros Hc.
    destruct (decide (getItem CONFIG.storageKeys.sidebarCollapsed p = Some "true"))
      as [Hg|Hg]; [|by rewrite applySavedSidebarState_other].
    destruct (sidebar_collapsed_Some _ _ Hc) as (s & _ & Hs & _).
    destruct (querySelector CONFIG.selectors.app (document p)) as [a|] eqn:Ha.
    + by destruct (applySavedSidebarState_collapses p s a Hg Hs Ha) as (_ & _ & ? & _).
    + rewrite applySavedSidebarState_absent; auto.
  - intros Hg [s Hs] [a Ha].
    by destruct (applySavedSidebarState_collapses p s a Hg Hs Ha) as (_ & _ & ? & ?).
  - destruct (decide (getItem CONFIG.storageKeys.sidebarCollapsed p = Some "true"))
      as [Hg|Hg]; [|by rewrite !(applySavedSidebarState_other p Hg)].
    destruct (querySelector CONFIG.selectors.sidebar (document p)) as [s|] eqn:Hs;
      [|by rewrite !(applySavedSidebarState_absent p (or_introl Hs))].
    destruct (querySelector CONFIG.selectors.app (document p)) as [a|] eqn:Ha;
      [|by rewrite !(applySavedSidebarState_absent p (or_intror Ha))].
    by apply (Hagain Hg s a).
Qed.

Lemma applySavedSidebarState_only_collapses_witness :
  sidebar_collapsed
    (applySavedSidebarState
       (page_of dashboard [(CONFIG.storageKeys.sidebarCollapsed, "true")]))
  = Some true.
Proof.
  refine (proj1 (proj1 (proj2 (proj2 (proj2 (proj2 (proj2
    (applySavedSidebarState_only_collapses
       (page_of dashboard [(CONFIG.storageKeys.sidebarCollapsed, "true")])))))))
    _ _ _)).
  - reflexivity.
  - by eexists.
  - by eexists.
Defined.

(** ** The two preferences do not interfere *)

Lemma getTheme_storage p q :
  storage p !! CONFIG.storageKeys.theme = storage q !! CONFIG.storageKeys.theme →
  getTheme p = getTheme q.
Proof. unfold getTheme, getItem. by intros ->. Qed.

Lemma sidebar_collapsed_setTheme theme p :
  sidebar_collapsed (setTheme theme p) = sidebar_collapsed p.
Proof.
  destruct (querySelector CONFIG.selectors.app (document p)) as [a|] eqn:Ha.
  - rewrite (setTheme_present _ _ _ Ha).
    rewrite <- (sidebar_collapsed_mutate a (setAttribute "data-theme" (settled theme)) p)
      by done.
    by apply sidebar_collapsed_document.
  - rewrite (setTheme_absent _ _ Ha). by apply sidebar_collapsed_document.
Qed.

Lemma getItem_setTheme_other k theme p :
  k ≠ CONFIG.storageKeys.theme → getItem k (setTheme theme p) = getItem k p.
Proof.
  intros Hk.
  destruct (querySelector CONFIG.selectors.app (document p)) as [a|] eqn:Ha.
  - rewrite (setTheme_present _ _ _ Ha). unfold getItem; simpl.
    by rewrite lookup_insert_ne.
  - by rewrite (setTheme_absent _ _ Ha).
Qed.

Lemma root_attribute_toggleSidebar k p :
  k ≠ "data-sidebar-collapsed" →
  root_attribute k (toggleSidebar p) = root_attribute k p.
Proof.
  intros Hk.
  destruct (querySelector CONFIG.selectors.sidebar (document p)) as [s|] eqn:Hs;
    [|by rewrite toggleSidebar_absent; auto].
  destruct (querySelector CONFIG.selectors.app (document p)) as [a|] eqn:Ha;
    [|by rewrite toggleSidebar_absent; auto].
  destruct (sidebar_collapsed_present _ _ Hs) as [c Hc].
  rewrite (toggleSidebar_present _ _ _ _ Hs Ha Hc).
  rewrite (root_attribute_document k _
             (mutate a (setAttribute "data-sidebar-collapsed" (encode (negb c)))
                (mutate s (flip_collapsed c) p))) by done.
  rewrite root_attribute_mutate; [|done|done|].
  - apply root_attribute_mutate; [apply children_flip| |].
    + intros x. by apply matches_flip.
    + intros x. by rewrite attributes_flip.
  - intros x; simpl. by rewrite lookup_insert_ne.
Qed.

Lemma getItem_toggleSidebar_other k p :
  k ≠ CONFIG.storageKeys.sidebarCollapsed →
  getItem k (toggleSidebar p) = getItem k p.
Proof.
  intros Hk.
  destruct (querySelector CONFIG.selectors.sidebar (document p)) as [s|] eqn:Hs;
    [|by rewrite toggleSidebar_absent; auto].
  destruct (querySelector CONFIG.selectors.app (document p)) as [a|] eqn:Ha;
    [|by rewrite toggleSidebar_absent; auto].
  destruct (sidebar_collapsed_present _ _ Hs) as [c Hc].
  rewrite (toggleSidebar_present _ _ _ _ Hs Ha Hc). unfold getItem; simpl.
  by rewrite lookup_insert_ne.
Qed.

(** X5.  Theme and sidebar state are kept apart.  Setting a theme (and so
    toggling, resetting or drawing one) leaves the sidebar's class, the
    root's [data-sidebar-collapsed] attribute and the stored sidebar state
    as they were; toggling the sidebar or applying its saved state leaves
    the active theme and the root's [data-theme] attribute as they were. *)
Theorem theme_and_sidebar_independent (theme : string) (p : Page) :
  (sidebar_collapsed (setTheme theme p) = sidebar_collapsed p
   ∧ root_attribute "data-sidebar-collapsed" (setTheme theme p)
     = root_attribute "data-sidebar-collapsed" p
   ∧ getItem CONFIG.storageKeys.sidebarCollapsed (setTheme theme p)
     = getItem CONFIG.storageKeys.sidebarCollapsed p)
  ∧ (sidebar_collapsed (toggleTheme p) = sidebar_collapsed p
     ∧ getItem CONFIG.storageKeys.sidebarCollapsed (toggleTheme p)
       = getItem CONFIG.storageKeys.sidebarCollapsed p)
  ∧ (getTheme (toggleSidebar p) = getTheme p
     ∧ root_attribute "data-theme" (toggleSidebar p) = root_attribute "data-theme" p)
  ∧ (getTheme (applySavedSidebarState p) = getTheme p
     ∧ root_attribute "data-theme" (applySavedSidebarState p)
       = root_attribute "data-theme" p).
Proof.
  split_and!.
  - apply sidebar_collapsed_setTheme.
  - by apply root_attribute_setTheme_other.
  - by apply getItem_setTheme_other.
  - rewrite toggleTheme_unfold. apply sidebar_collapsed_setTheme.
  - rewrite toggleTheme_unfold. by apply getItem_setTheme_other.
  - apply getTheme_storage. by apply (getItem_toggleSidebar_other _ p).
  - by apply root_attribute_toggleSidebar.
  - apply getTheme_storage. by rewrite storage_applySavedSidebarState.
  - by apply root_attribute_applySavedSidebarState.
Qed.

(** ** The resize handler *)

Lemma classList_remove_absent cls x :
  contains cls (classList x) = false → classList_remove cls x = x.
Proof.
  unfold contains, classList_remove. intros H%bool_decide_eq_false.
  assert (filter (λ c, c ≠ cls) (classList x) = classList x) as ->; [|by destruct x].
  induction (classList x) as [|c l IH]; [done|].
  rewrite not_elem_of_cons in H. destruct H as [Hne Hl].
  rewrite filter_cons_True by done. by rewrite IH.
Qed.

Lemma attributes_classList_remove cls x :
  attributes (classList_remove cls x) = attributes x.
Proof. done. Qed.

Lemma handleResize_func_present p s :
  querySelector CONFIG.selectors.sidebar (document p) = Some s →
  handleResize_func p =
  mutate s (if bool_decide (innerWidth p ≤ 768)%Z
            then classList_add "mobile" else classList_remove "mobile") p.
Proof.
  intros Hs. unfold handleResize_func. rewrite Hs. by case_bool_decide.
Qed.

Lemma handleResize_func_absent p :
  querySelector CONFIG.selectors.sidebar (document p) = None →
  handleResize_func p = p.
Proof. intros Hs. unfold handleResize_func. by rewrite Hs. Qed.

Lemma querySelector_handleResize_func sel p :
  sel ≠ "mobile" →
  querySelector (ClassSel sel) (document (handleResize_func p))
  = querySelector (ClassSel sel) (document p).
Proof.
  intros Hne.
  destruct (querySelector CONFIG.selectors.sidebar (document p)) as [s|] eqn:Hs;
    [|by rewrite handleResize_func_absent].
  rewrite (handleResize_func_present _ _ Hs); simpl.
  case_bool_decide.
  - apply querySelector_update;
      [apply children_classList_add|intros x; by apply matches_classList_add].
  - apply querySelector_update; [done|intros x; by apply matches_classList_remove].
Qed.

(** X6.  The handler that [initUI] debounces for [resize] makes the class
    [mobile] of the sidebar say whether the window is at most 768 px wide:
    afterwards the sidebar, found where it was, carries [mobile] exactly
    when [innerWidth <= 768], with its other classes and its attributes as
    before.  Without a sidebar the handler changes nothing; it writes
    neither storage nor console; and running it again changes nothing. *)
Theorem handleResize_tracks_width (p : Page) :
  storage (handleResize_func p) = storage p
  ∧ console (handleResize_func p) = console p
  ∧ match querySelector CONFIG.selectors.sidebar (document p) with
    | Some s =>
        querySelector CONFIG.selectors.sidebar (document (handleResize_func p))
        = Some s
        ∧ ∃ x x',
            get s (document p) = Some x
            ∧ get s (document (handleResize_func p)) = Some x'
            ∧ contains "mobile" (classList x') = bool_decide (innerWidth p ≤ 768)%Z
            ∧ (∀ c, c ≠ "mobile" →
                    contains c (classList x') = contains c (classList x))
            ∧ attributes x' = attributes x
    | None => handleResize_func p = p
    end
  ∧ handleResize_func (handleResize_func p) = handleResize_func p.
Proof.
  destruct (querySelector CONFIG.selectors.sidebar (document p)) as [s|] eqn:Hs;
    [|by rewrite !(handleResize_func_absent p Hs)].
  pose proof (querySelector_handleResize_func "stSidebar" p) as Hq.
  unfold CONFIG.selectors.sidebar in *. rewrite Hs in Hq.
  specialize (Hq ltac:(done)).
  destruct (querySelector_get _ _ _ Hs) as (x & Hx & _).
  set (g := if bool_decide (innerWidth p ≤ 768)%Z
            then classList_add "mobile" else classList_remove "mobile").
  assert (handleResize_func p = mutate s g p) as Hp
    by apply (handleResize_func_present _ _ Hs).
  assert (get s (document (handleResize_func p)) = Some (g x)) as Hx'.
  { rewrite Hp; simpl. by rewrite get_update, Hx. }
  assert (contains "mobile" (classList (g x)) = bool_decide (innerWidth p ≤ 768)%Z)
    as Hm.
  { unfold g. case_bool_decide.
    - rewrite contains_classList_add. by rewrite bool_decide_eq_true_2, orb_true_r.
    - rewrite contains_classList_remove. by rewrite bool_decide_eq_true_2, andb_false_r. }
  split_and!.
  - by rewrite Hp.
  - by rewrite Hp.
  - done.
  - exists x, (g x). split_and!; [done|done|done| |].
    + intros c Hc. unfold g. case_bool_decide.
      * rewrite contains_classList_add. by rewrite bool_decide_eq_false_2, orb_false_r.
      * rewrite contains_classList_remove.
        by rewrite bool_decide_eq_false_2, andb_true_r.
    + unfold g. case_bool_decide; [apply attributes_classList_add|done].
  - rewrite (handleResize_func_present (handleResize_func p) s Hq).
    assert (innerWidth (handleResize_func p) = innerWidth p) as -> by by rewrite Hp.
    fold g. apply (mutate_id s g _ (g x) Hx').
    revert Hm. unfold g. case_bool_decide; intros Hm.
    + by apply classList_add_present.
    + by apply classList_remove_absent.
Qed.

(** ** What the observer lets through *)

Lemma relevant_node_spec e :
  relevant_node (ElementNode e) = true
  ↔ querySelectorAll CONFIG.selectors.summaryBox e ≠ [].
Proof.
  unfold relevant_node, Element_querySelector, descendants.
  rewrite querySelectorAll_unfold.
  destruct (matches CONFIG.selectors.summaryBox e); simpl; [done|].
  rewrite bool_decide_eq_true.
  destruct (paths_from _ 0 (children e)) as [|q l]; simpl.
  - split; [by intros [? ?]|done].
  - split; [done|by eauto].
Qed.

Lemma enhance_no_box reduced e :
  querySelectorAll CONFIG.selectors.summaryBox e = [] → enhance reduced e = e.
Proof. intros H. unfold enhance. by rewrite H. Qed.

Lemma shouldEnhance_spec mutations :
  shouldEnhance mutations = true
  ↔ ∃ m e, m ∈ mutations ∧ type m = "childList" ∧ ElementNode e ∈ addedNodes m
           ∧ querySelectorAll CONFIG.selectors.summaryBox e ≠ [].
Proof.
  unfold shouldEnhance. rewrite existsb_exists. split.
  - intros (m & Hm & H). rewrite !andb_true_iff in H.
    destruct H as [[Ht _] Hn]. apply bool_decide_eq_true in Ht.
    apply existsb_exists in Hn as (n & Hn & Hr).
    destruct n as [e|]; [|done].
    exists m, e. rewrite !list_elem_of_In. by rewrite <- relevant_node_spec.
  - intros (m & e & Hm & Ht & He & Hq).
    exists m. rewrite <- list_elem_of_In. split; [done|].
    rewrite !andb_true_iff, !bool_decide_eq_true. split_and!; [done|..].
    + destruct (addedNodes m); [by apply elem_of_nil in He|simpl; lia].
    + apply existsb_exists. exists (ElementNode e).
      rewrite <- list_elem_of_In. by rewrite relevant_node_spec.
Qed.

(** X7.  The observer's filter agrees with the enhancement pass.  A batch
    of records sets the flag exactly when some [childList] record adds an
    element in whose subtree (the element included) the pass would find a
    summary box.  So in a batch that is ignored every added element is one
    the pass would leave unchanged, and the callback schedules nothing:
    the world stays as it is. *)
Theorem observer_filter_sound (mutations : list MutationRecord) :
  (shouldEnhance mutations = true
   ↔ ∃ m e, m ∈ mutations ∧ type m = "childList" ∧ ElementNode e ∈ addedNodes m
            ∧ querySelectorAll CONFIG.selectors.summaryBox e ≠ [])
  ∧ (shouldEnhance mutations = false →
     (∀ m e reduced,
         m ∈ mutations → type m = "childList" → ElementNode e ∈ addedNodes m →
         enhance reduced e = e)
     ∧ ∀ w, observer_callback mutations w = w).
Proof.
  split; [apply shouldEnhance_spec|].
  intros Hno. split.
  - intros m e reduced Hm Ht He. apply enhance_no_box.
    destruct (querySelectorAll CONFIG.selectors.summaryBox e) as [|q l] eqn:Hq;
      [done|].
    assert (shouldEnhance mutations = true) as Hyes; [|congruence].
    apply shouldEnhance_spec. exists m, e. by rewrite Hq.
  - intros w. unfold observer_callback. rewrite Hno.
    destruct (mutationObserver w) as [o|]; [|done]. by rewrite andb_false_r.
Qed.

Lemma observer_filter_sound_witness :
  observer_callback
    [mkMutationRecord "childList"
       [ElementNode (plain "div" ["chart"] [plain "p" ["summary"] []])]]
    running
  = running.
Proof.
  refine (proj2 (proj2 (observer_filter_sound
                          [mkMutationRecord "childList"
                             [ElementNode
                                (plain "div" ["chart"] [plain "p" ["summary"] []])]])
                   _) _).
  reflexivity.
Defined.

(** ** The pass keeps what was there *)

Lemma fields_enhance_rec reduced e :
  tagName (enhance_rec reduced e) = tagName e
  ∧ innerHTML (enhance_rec reduced e) = innerHTML e
  ∧ (matches CONFIG.selectors.summaryBox e = false →
     style (enhance_rec reduced e) = style e)
  ∧ (∀ k, k ≠ "position" → style (enhance_rec reduced e) !! k = style e !! k)
  ∧ (length (children e) ≤ length (children (enhance_rec reduced e)))%nat.
Proof.
  assert (length (children e) ≤ length (children (enhance_rec reduced e)))%nat
    as Hlen.
  { destruct (children_enhance_rec reduced e) as [-> | ->];
      rewrite ?length_app, length_map; lia. }
  split_and!; [..|exact Hlen]; clear Hlen;
    destruct e as [tag cl attrs st text ks];
    cbn [enhance_rec matches CONFIG.selectors.summaryBox classList];
    destruct (contains "summary-box" cl); try done;
    destruct (head _); try done.
  intros k Hk. cbn [style]. by rewrite lookup_insert_ne.
Qed.

(** X8.  The enhancement pass takes nothing away.  Every element of the
    document is found at the same path after a pass, with its tag, its
    classes, its attributes and its text as before and with at least the
    children it had; its inline style is untouched except for the
    [position] a decorated box is given. *)
Theorem enhance_keeps_what_was_there (reduced : bool) (doc : Element)
    (p : Path) (x : Element) :
  get p doc = Some x →
  ∃ x', get p (enhance reduced doc) = Some x'
        ∧ tagName x' = tagName x
        ∧ classList x' = classList x
        ∧ attributes x' = attributes x
        ∧ innerHTML x' = innerHTML x
        ∧ (matches CONFIG.selectors.summaryBox x = false → style x' = style x)
        ∧ (∀ k, k ≠ "position" → style x' !! k = style x !! k)
        ∧ (length (children x) ≤ length (children x'))%nat.
Proof.
  intros Hx. exists (enhance_rec reduced x).
  rewrite enhance_enhance_rec.
  destruct (fields_enhance_rec reduced x) as (? & ? & ? & ? & ?).
  split_and!; try done.
  - by apply get_enhance_rec.
  - apply classList_enhance_rec.
  - apply attributes_enhance_rec.
Qed.

Lemma enhance_keeps_what_was_there_witness :
  ∃ x', get [0; 0; 0]%nat (enhance false dashboard) = Some x'
        ∧ classList x' = ["stSidebar"].
Proof.
  destruct (enhance_keeps_what_was_there false dashboard [0; 0; 0]%nat
              (plain "section" ["stSidebar"] []) eq_refl)
    as (x' & Hx' & _ & Hc & _).
  by exists x'.
Defined.

(** ** The pass, box by box, is a recursion on the tree *)

(** X9.  The enhancement pass is compositional.  [enhanceNewElements]
    walks the node list that [querySelectorAll] returned and mutates the
    document box by box, in document order; the outcome is the one a
    recursion on the tree gives.  The children of an element are passed
    one by one; and a summary box gets [position: relative] and, after its
    children, the icon and the progress bar, exactly when its subtree held
    no marker before the pass: the decorations that the same pass gives to
    boxes nested inside it do not count.  Nothing else changes. *)
Theorem enhance_is_compositional (reduced : bool) (tag : string)
    (cl : list string) (attrs st : gmap string string) (text : string)
    (ks : list Element) :
  enhance reduced (mkElement tag cl attrs st text ks)
  = if contains "summary-box" cl
       && negb (bool_decide
                  (is_Some (Element_querySelector summary_icon
                              (mkElement tag cl attrs st text ks))))
    then mkElement tag cl attrs (<["position" := "relative"]> st) text
                   (map (enhance reduced) ks ++ [icon; progressBar reduced])
    else mkElement tag cl attrs st text (map (enhance reduced) ks).
Proof.
  rewrite enhance_enhance_rec.
  assert (map (enhance reduced) ks = map (enhance_rec reduced) ks) as ->.
  { apply map_ext. intros k. apply enhance_enhance_rec. }
  cbn [enhance_rec]. unfold Element_querySelector, descendants. cbn [children].
  destruct (contains "summary-box" cl); [|done]. cbn [andb].
  destruct (head _) as [q|] eqn:Hq.
  - by rewrite bool_decide_eq_true_2 by by eexists.
  - by rewrite bool_decide_eq_false_2 by by intros [? ?].
Qed.

(** ** A second activation finds the page as the first one left it *)

Lemma querySelector_applySavedSidebarState sel p :
  sel ≠ "collapsed" →
  querySelector (ClassSel sel) (document (applySavedSidebarState p))
  = querySelector (ClassSel sel) (document p).
Proof.
  intros Hne. unfold applySavedSidebarState.
  destruct (querySelector CONFIG.selectors.sidebar _) as [s|]; [|done].
  destruct (querySelector CONFIG.selectors.app _) as [a|]; [|done].
  case_bool_decide; [|done]. simpl. rewrite querySelector_setAttribute.
  apply querySelector_update;
    [apply children_classList_add|intros x; by apply matches_classList_add].
Qed.

Lemma querySelector_enhanceNewElements sel p :
  sel ≠ "summary-icon" → sel ≠ "summary-progress" →
  querySelector (ClassSel sel) (document (enhanceNewElements p))
  = querySelector (ClassSel sel) (document p).
Proof.
  intros H1 H2. unfold enhanceNewElements, querySelector; simpl.
  rewrite enhance_enhance_rec, querySelectorAll_enhance_rec; [done|..].
  - unfold matches, contains, icon; simpl. apply bool_decide_eq_false_2.
    rewrite list_elem_of_singleton. congruence.
  - destruct (reducedMotion p); unfold matches, contains, progressBar; simpl;
      apply bool_decide_eq_false_2; rewrite list_elem_of_singleton; congruence.
Qed.

Lemma sidebar_collapsed_enhanceNewElements p :
  sidebar_collapsed (enhanceNewElements p) = sidebar_collapsed p.
Proof.
  unfold sidebar_collapsed.
  unfold CONFIG.selectors.sidebar. rewrite querySelector_enhanceNewElements by done.
  destruct (querySelector _ _) as [s|] eqn:Hs; simpl; [|done].
  destruct (querySelector_get _ _ _ Hs) as (x & Hx & _).
  rewrite enhance_enhance_rec, (get_enhance_rec _ _ _ _ Hx), Hx; simpl.
  by rewrite classList_enhance_rec.
Qed.

Lemma settled_settled theme : settled (settled theme) = settled theme.
Proof. apply settled_valid, settled_in. Qed.

Lemma restore_storage p :
  storage (restore p)
  = match querySelector CONFIG.selectors.app (document p) with
    | Some _ => <[CONFIG.storageKeys.theme := settled (getTheme p)]> (storage p)
    | None => storage p
    end.
Proof.
  unfold restore, enhanceNewElements; simpl. rewrite storage_applySavedSidebarState.
  destruct (querySelector _ _) as [a|] eqn:Ha.
  - by rewrite (setTheme_present _ _ _ Ha).
  - by rewrite (setTheme_absent _ _ Ha).
Qed.

Lemma reducedMotion_setTheme theme p :
  reducedMotion (setTheme theme p) = reducedMotion p.
Proof.
  destruct (querySelector CONFIG.selectors.app (document p)) as [a|] eqn:Ha.
  - by rewrite (setTheme_present _ _ _ Ha).
  - by rewrite (setTheme_absent _ _ Ha).
Qed.

Lemma reducedMotion_applySavedSidebarState p :
  reducedMotion (applySavedSidebarState p) = reducedMotion p.
Proof.
  unfold applySavedSidebarState.
  destruct (querySelector CONFIG.selectors.sidebar _); [|done].
  destruct (querySelector CONFIG.selectors.app _); [|done].
  by case_bool_decide.
Qed.

(** What [restore] computes depends on the document, the storage and the
    motion preference only. *)
Lemma restore_congruence p q :
  document p = document q → storage p = storage q →
  reducedMotion p = reducedMotion q →
  document (restore p) = document (restore q)
  ∧ storage (restore p) = storage (restore q).
Proof.
  intros Hd Hs Hr.
  assert (getTheme p = getTheme q) as Ht by (apply getTheme_storage; by rewrite Hs).
  assert (document (setTheme (getTheme p) p) = document (setTheme (getTheme q) q)
          ∧ storage (setTheme (getTheme p) p) = storage (setTheme (getTheme q) q))
    as [Hd1 Hs1].
  { rewrite Ht.
    destruct (querySelector CONFIG.selectors.app (document p)) as [a|] eqn:Ha.
    - rewrite (setTheme_present _ p _ Ha). rewrite Hd in Ha.
      rewrite (setTheme_present _ q _ Ha); simpl. by rewrite Hd, Hs.
    - rewrite (setTheme_absent _ p Ha). rewrite Hd in Ha.
      by rewrite (setTheme_absent _ q Ha). }
  assert (document (applySavedSidebarState (setTheme (getTheme p) p))
          = document (applySavedSidebarState (setTheme (getTheme q) q))) as Hd2.
  { unfold applySavedSidebarState, getItem. rewrite Hd1, Hs1.
    destruct (querySelector CONFIG.selectors.sidebar _); [|done].
    destruct (querySelector CONFIG.selectors.app _); [|done].
    case_bool_decide; [|done]. simpl. by rewrite Hd1. }
  split.
  - unfold restore, enhanceNewElements; simpl.
    by rewrite Hd2, !reducedMotion_applySavedSidebarState, !reducedMotion_setTheme, Hr.
  - unfold restore, enhanceNewElements; simpl.
    by rewrite !storage_applySavedSidebarState.
Qed.

Lemma restore_fixed p :
  document (restore (restore p)) = document (restore p)
  ∧ storage (restore (restore p)) = storage (restore p).
Proof.
  set (q1 := setTheme (getTheme p) p).
  set (q2 := applySavedSidebarState q1).
  set (p' := restore p).
  assert (p' = enhanceNewElements q2) as Hp' by done.
  assert (storage p' = storage q1) as Hst.
  { rewrite Hp'; simpl. apply storage_applySavedSidebarState. }
  assert (∀ sel : string, sel ≠ "collapsed" → sel ≠ "summary-icon" →
            sel ≠ "summary-progress" →
            querySelector (ClassSel sel) (document p')
            = querySelector (ClassSel sel) (document q1)) as Hsel.
  { intros sel ? ? ?. rewrite Hp', querySelector_enhanceNewElements by done.
    by apply querySelector_applySavedSidebarState. }
  (* the theme is applied already *)
  set (r1 := setTheme (getTheme p') p').
  assert (document r1 = document p' ∧ storage r1 = storage p') as [Hd1 Hs1].
  { unfold r1.
    destruct (querySelector CONFIG.selectors.app (document p')) as [a|] eqn:Ha;
      [|by rewrite (setTheme_absent _ _ Ha)].
    assert (querySelector CONFIG.selectors.app (document p) = Some a) as Ha0.
    { unfold CONFIG.selectors.app in *. rewrite Hsel in Ha by done.
      unfold q1 in Ha. by rewrite querySelector_setTheme in Ha. }
    assert (getItem CONFIG.storageKeys.theme p' = Some (settled (getTheme p))) as Hg.
    { unfold getItem. rewrite Hst. by apply (getItem_setTheme _ _ _ Ha0). }
    assert (getTheme p' = settled (getTheme p)) as Ht.
    { unfold getTheme. rewrite Hg; simpl.
      destruct (decide _) as [He|]; [|done]. by apply settled_not_empty in He. }
    assert (root_attribute "data-theme" p' = Some (settled (getTheme p))) as Hr.
    { rewrite Hp', root_attribute_enhanceNewElements.
      unfold q2. rewrite root_attribute_applySavedSidebarState by done.
      by apply (root_attribute_setTheme _ _ _ Ha0). }
    destruct (root_attribute_Some _ _ _ Hr) as (a' & x & Ha' & Hx & Hk).
    simplify_eq. rewrite (setTheme_present _ _ _ Ha); simpl.
    rewrite Ht, settled_settled. split.
    - by apply (update_id _ _ _ x), setAttribute_present.
    - by apply insert_id. }
  (* and so is the saved sidebar state *)
  assert (applySavedSidebarState r1 = r1) as Hr2.
  { destruct (decide (getItem CONFIG.storageKeys.sidebarCollapsed r1 = Some "true"))
      as [Hg|Hg]; [|by apply applySavedSidebarState_other].
    destruct (querySelector CONFIG.selectors.sidebar (document r1)) as [s|] eqn:Hs;
      [|apply applySavedSidebarState_absent; auto].
    destruct (querySelector CONFIG.selectors.app (document r1)) as [a|] eqn:Ha;
      [|apply applySavedSidebarState_absent; auto].
    rewrite (applySavedSidebarState_true _ _ _ Hg Hs Ha).
    assert (getItem CONFIG.storageKeys.sidebarCollapsed q1 = Some "true") as Hg1.
    { unfold getItem in *. by rewrite <- Hst, <- Hs1. }
    pose proof Hs as Hs0. pose proof Ha as Ha0.
    unfold CONFIG.selectors.sidebar, CONFIG.selectors.app in Hs0, Ha0.
    rewrite Hd1, Hsel in Hs0, Ha0 by done.
    destruct (applySavedSidebarState_collapses q1 s a Hg1 Hs0 Ha0)
      as (_ & _ & Hc & Hr).
    fold q2 in Hc, Hr.
    rewrite <- sidebar_collapsed_enhanceNewElements, <- Hp' in Hc.
    rewrite <- (root_attribute_enhanceNewElements _ q2), <- Hp' in Hr.
    rewrite (sidebar_collapsed_document p' r1) in Hc by done.
    rewrite (root_attribute_document _ p' r1) in Hr by done.
    destruct (sidebar_collapsed_Some _ _ Hc) as (s' & x & Hs' & Hx & Hcx).
    destruct (root_attribute_Some _ _ _ Hr) as (a' & y & Ha' & Hy & Hky).
    simplify_eq.
    rewrite (mutate_id s _ r1 x Hx (classList_add_present _ _ Hcx)).
    by rewrite (mutate_id a _ r1 y Hy (setAttribute_present _ _ _ Hky)). }
  change (restore p') with (enhanceNewElements (applySavedSidebarState r1)).
  rewrite Hr2. split; [|done].
  unfold enhanceNewElements; simpl. rewrite Hd1.
  assert (reducedMotion r1 = reducedMotion q2) as ->.
  { unfold r1. by rewrite reducedMotion_setTheme, Hp'. }
  rewrite Hp'; simpl. rewrite !enhance_enhance_rec. apply enhance_rec_idempotent.
Qed.

Lemma content_after_initUI q p c :
  p = console_write (Log "AI Research Agent Dashboard initialized")
        (addEventListener (OnResize c) (attachEventHandlers q)) →
  document p = document q ∧ storage p = storage q
  ∧ reducedMotion p = reducedMotion q.
Proof. by intros ->. Qed.

(** X10.  An activation that follows another changes neither the document
    nor the storage.  When [initUI] has run (and nothing threw), running it
    again, as the start-up poll does, leaves every element, class,
    attribute and decoration and every stored value as the first run left
    them. *)
Theorem initUI_again_keeps_content (w : World) :
  let w1 := world_of (initUI no_faults w) in
  let w2 := world_of (initUI no_faults w1) in
  document (page w2) = document (page w1)
  ∧ storage (page w2) = storage (page w1).
Proof.
  intros w1 w2.
  destruct (page_initUI_no_faults w) as [c Hw1].
  destruct (page_initUI_no_faults w1) as [c' Hw2].
  fold w1 in Hw1. fold w2 in Hw2.
  destruct (content_after_initUI (restore (page w)) _ _ Hw1) as (Hd & Hs & Hr).
  destruct (content_after_initUI (restore (page w1)) _ _ Hw2) as (Hd2 & Hs2 & _).
  destruct (restore_congruence _ _ Hd Hs Hr) as [Hd' Hs'].
  destruct (restore_fixed (page w)) as [Hfd Hfs].
  by rewrite Hd2, Hs2, Hd', Hs', Hfd, Hfs, Hd, Hs.
Qed.

(** ** What an activation adds *)

Lemma listeners_setTheme theme p : listeners (setTheme theme p) = listeners p.
Proof.
  destruct (querySelector CONFIG.selectors.app (document p)) as [a|] eqn:Ha.
  - by rewrite (setTheme_present _ _ _ Ha).
  - by rewrite (setTheme_absent _ _ Ha).
Qed.

Lemma listeners_toggleSidebar p : listeners (toggleSidebar p) = listeners p.
Proof.
  destruct (querySelector CONFIG.selectors.sidebar (document p)) as [s|] eqn:Hs;
    [|by rewrite toggleSidebar_absent; auto].
  destruct (querySelector CONFIG.selectors.app (document p)) as [a|] eqn:Ha;
    [|by rewrite toggleSidebar_absent; auto].
  destruct (sidebar_collapsed_present _ _ Hs) as [c Hc].
  by rewrite (toggleSidebar_present _ _ _ _ Hs Ha Hc).
Qed.

Lemma listeners_applySavedSidebarState p :
  listeners (applySavedSidebarState p) = listeners p.
Proof.
  unfold applySavedSidebarState.
  destruct (querySelector CONFIG.selectors.sidebar _); [|done].
  destruct (querySelector CONFIG.selectors.app _); [|done].
  by case_bool_decide.
Qed.

Lemma listeners_restore p : listeners (restore p) = listeners p.
Proof.
  unfold restore, enhanceNewElements; simpl.
  by rewrite listeners_applySavedSidebarState, listeners_setTheme.
Qed.

Lemma reducedMotion_restore p :
  reducedMotion (applySavedSidebarState (setTheme (getTheme p) p)) = reducedMotion p.
Proof.
  assert (∀ q, reducedMotion (applySavedSidebarState q) = reducedMotion q) as H1.
  { intros q. unfold applySavedSidebarState.
    destruct (querySelector CONFIG.selectors.sidebar _); [|done].
    destruct (querySelector CONFIG.selectors.app _); [|done].
    by case_bool_decide. }
  rewrite H1.
  destruct (querySelector CONFIG.selectors.app (document p)) as [a|] eqn:Ha.
  - by rewrite (setTheme_present _ _ _ Ha).
  - by rewrite (setTheme_absent _ _ Ha).
Qed.

(** The world [initUI] leaves when nothing throws: [news] are the timers
    that the enhancement pass has set. *)
Lemma initUI_no_faults_world w :
  ∃ news,
    world_of (initUI no_faults w) =
    mkWorld
      (console_write (Log "AI Research Agent Dashboard initialized")
         (addEventListener (OnResize (S (length (closures w))))
            (attachEventHandlers (restore (page w)))))
      (now w) (S (next_handle w + length news)%nat)
      (timers w ++ news
         ++ [mkTimer (next_handle w + length news)%nat (now w + 250) None
                     (Later (S (length (closures w))))])
      (closures w ++ [mkClosure EnhanceFunc 250 None;
                      mkClosure ResizeFunc 250 (Some (next_handle w + length news)%nat)])
      (Some (mkObserver true (length (closures w))))
      (streamlitReady w)
      (trace w ++ [(now w, InitUI)])
    ∧ progress_timers (next_handle w) (now w) news
    ∧ (length news ≤ length (boxes w))%nat
    ∧ (reducedMotion (page w) = true → news = []).
Proof.
  unfold initUI, initUI_body, bind, statement, run0, run1, read,
    try_catch, no_faults, world_of.
  match goal with |- context [enhanceNewElements_timed ?x] =>
    destruct (enhanceNewElements_timed_spec x) as (news & -> & Hs & Hl & Hr) end.
  exists news.
  cbn [debounce setupMutationObserver fst snd]. fields.
  cbn [now next_handle] in Hs. unfold boxes in Hl. cbn [page on_page set_page record
    set_trace] in Hl, Hr.
  rewrite boxes_applySavedSidebarState, boxes_setTheme in Hl.
  rewrite reducedMotion_restore in Hr.
  split_and!; [|done..].
  set (ks := closures w ++ [mkClosure EnhanceFunc 250 None]).
  assert (length ks = S (length (closures w))) as Hlen
    by (unfold ks; rewrite length_app; simpl; lia).
  rewrite Hlen.
  erewrite executedFunction_unfold; fields.
  2:{ rewrite <- Hlen. apply list_lookup_middle. done. }
  assert (alter (λ cl, mkClosure (func cl) (wait cl)
                                 (Some (next_handle w + length news)%nat))
                (S (length (closures w))) (ks ++ [mkClosure ResizeFunc 250 None])
          = closures w ++ [mkClosure EnhanceFunc 250 None;
                           mkClosure ResizeFunc 250
                                     (Some (next_handle w + length news)%nat)]) as ->.
  { rewrite <- Hlen, <- (Nat.add_0_r (length ks)), alter_app_r.
    unfold ks. by rewrite <- app_assoc. }
  cbn [drop timeout wait]. by rewrite <- app_assoc.
Qed.


(** ** Clicks *)

Lemma on_page_id w : on_page (λ p, p) w = w.
Proof. by destruct w. Qed.

Lemma click_fold target ls w :
  foldl (λ w l, match l with
                | OnClick => on_page (click_handler target) w
                | _ => w
                end) w ls
  = on_page (λ p, Nat.iter (click_listeners ls) (click_handler target) p) w.
Proof.
  revert w. induction ls as [|l ls IH]; intros w; simpl.
  - by destruct w.
  - destruct l; rewrite IH; try done.
    destruct w as [p ? ? ? ? ? ? ?]. unfold on_page, set_page; simpl.
    by rewrite Nat.iter_swap.
Qed.

Lemma click_listeners_app ls ls' :
  click_listeners (ls ++ ls') = (click_listeners ls + click_listeners ls')%nat.
Proof. induction ls as [|[] ls IH]; simpl; lia. Qed.

(** X12.  A click is handled once for every activation.  The handler of
    [attachEventHandlers] runs for each click listener that is registered,
    and every run of [initUI] registers one more: after [n] activations a
    click on the theme button toggles the theme [n] times. *)
Theorem click_runs_once_per_activation (faults : nat → World → option string)
    (target : Element) (w : World) :
  handle_event faults (Click target) w
  = on_page (λ p, Nat.iter (click_listeners (listeners p))
                           (click_handler target) p) w
  ∧ click_listeners (listeners (page (world_of (initUI no_faults w))))
    = S (click_listeners (listeners (page w)))
  ∧ (matches CONFIG.selectors.themeToggle target = true →
     matches CONFIG.selectors.sidebarToggle target = false →
     ∀ n, click_listeners (listeners (page w)) = n →
          page (handle_event faults (Click target) w)
          = Nat.iter n toggleTheme (page w)).
Proof.
  assert (handle_event faults (Click target) w
          = on_page (λ p, Nat.iter (click_listeners (listeners p))
                                   (click_handler target) p) w) as Hclick.
  { unfold handle_event, for_each_listener. rewrite click_fold. by destruct w. }
  split_and!; [done|..].
  - destruct (initUI_no_faults_world w) as (news & -> & _). fields.
    cbn [console_write set_console listeners addEventListener attachEventHandlers
         set_listeners].
    rewrite listeners_restore, !click_listeners_app; simpl. lia.
  - intros Ht Hs n Hn. rewrite Hclick; simpl. rewrite Hn.
    assert (∀ p, click_handler target p = toggleTheme p) as Hh.
    { intros p. unfold click_handler. by rewrite Ht, Hs. }
    clear Hn. induction n as [|n IH]; simpl; [done|]. by rewrite IH, Hh.
Qed.

Lemma click_runs_once_per_activation_witness :
  page (handle_event no_faults (Click (plain "button" ["theme-toggle-btn"] []))
          (world_of (initUI no_faults
                       (world_of (initUI no_faults (boot (page_of dashboard [])))))))
  = Nat.iter 2 toggleTheme
      (page (world_of (initUI no_faults
                         (world_of (initUI no_faults (boot (page_of dashboard []))))))).
Proof.
  apply (proj2 (proj2 (click_runs_once_per_activation no_faults
                         (plain "button" ["theme-toggle-btn"] []) _)));
    vm_compute; reflexivity.
Defined.

(** ** [debounce], for any function and any wait *)

Lemma drop_fresh h ts :
  (∀ tm, tm ∈ ts → (handle tm < h)%nat) → drop (Some h) ts = ts.
Proof.
  intros H. simpl. induction ts as [|t ts IH]; [done|].
  rewrite filter_cons_True.
  - rewrite IH; [done|]. intros tm Htm. apply H. by right.
  - specialize (H t ltac:(by left)). lia.
Qed.

Lemma drop_below g h ts tm :
  (∀ tm, tm ∈ ts → (handle tm < h)%nat) → tm ∈ drop g ts → (handle tm < h)%nat.
Proof. intros H Htm. by apply H, (drop_elem_of g). Qed.

Lemma filter_handle_snoc h ts tm :
  (∀ t, t ∈ ts → (handle t < h)%nat) → handle tm = h →
  filter (λ t, handle t ≠ h) (ts ++ [tm]) = ts.
Proof.
  intros Hts Htm. rewrite filter_snoc_False by (intros H; by apply H).
  apply (drop_fresh h ts Hts).
Qed.

Lemma fire_later_fields faults tm c cl w :
  callback tm = Later c → period tm = None → closures w !! c = Some cl →
  ∃ news,
    timers (fire faults tm w)
    = drop (timeout cl) (filter (λ t, handle t ≠ handle tm) (timers w)) ++ news
    ∧ progress_timers (next_handle w) (Z.max (now w) (due tm)) news
    ∧ (length news ≤ length (boxes w))%nat
    ∧ (func cl = ResizeFunc → news = [])
    ∧ trace (fire faults tm w)
      = trace w ++ [(Z.max (now w) (due tm), TimerFired (Later c));
                    (Z.max (now w) (due tm), Called (func cl) c)].
Proof.
  intros Hcb Hper Hcl. rewrite (fire_later faults tm c cl w Hcb Hper Hcl).
  match goal with
  | |- context [call_func ?f ?a] =>
      destruct (call_func_fields f a)
        as (_ & _ & _ & -> & _ & news & -> & _ & Hs & Hl & Hr)
  end.
  exists news. by split_and!.
Qed.

(** X13.  The debounced function, whatever it wraps.  Calling it schedules
    [later] for [wait] ms on and calls nothing; calling it again before
    that timer has run cancels the timer and schedules a new one, counted
    from the second call, so one timer of the closure is pending, not two;
    and when that timer runs, the wrapped function is called once and
    nothing of the closure stays pending: what is pending then are the
    timers of others, which are left alone throughout, and the timers that
    the wrapped function has set itself, which are those of the progress
    bars for the enhancement pass and none for the resize handler. *)
Theorem debounce_resets (faults : nat → World → option string)
    (c : nat) (cl : Closure) (t : Z) (w : World) :
  closures w !! c = Some cl →
  (∀ tm, tm ∈ timers w → (handle tm < next_handle w)%nat) →
  let others := drop (timeout cl) (timers w) in
  let w1 := executedFunction c w in
  let w2 := executedFunction c (set_now t w1) in
  let tm2 := mkTimer (S (next_handle w)) (t + wait cl) None (Later c) in
  (timers w1 = others ++ [mkTimer (next_handle w) (now w + wait cl) None (Later c)]
   ∧ trace w1 = trace w ∧ page w1 = page w)
  ∧ (timers w2 = others ++ [tm2] ∧ trace w2 = trace w ∧ page w2 = page w)
  ∧ (∃ news,
        timers (fire faults tm2 w2) = others ++ news
        ∧ progress_timers (S (S (next_handle w))) (Z.max t (t + wait cl)) news
        ∧ (length news ≤ length (boxes w))%nat
        ∧ (func cl = ResizeFunc → news = [])
        ∧ trace (fire faults tm2 w2)
          = trace w ++ [(Z.max t (t + wait cl), TimerFired (Later c));
                        (Z.max t (t + wait cl), Called (func cl) c)]).
Proof.
  intros Hc Hfresh others w1 w2 tm2.
  assert (w1 = mkWorld (page w) (now w) (S (next_handle w))
                 (others ++ [mkTimer (next_handle w) (now w + wait cl) None (Later c)])
                 (alter (λ cl, mkClosure (func cl) (wait cl) (Some (next_handle w)))
                        c (closures w))
                 (mutationObserver w) (streamlitReady w) (trace w)) as Hw1
    by apply (executedFunction_unfold _ _ _ Hc).
  set (cl1 := mkClosure (func cl) (wait cl) (Some (next_handle w))).
  assert (closures (set_now t w1) !! c = Some cl1) as Hc1.
  { rewrite Hw1; simpl. by rewrite list_lookup_alter_eq, Hc. }
  assert (∀ tm, tm ∈ others → (handle tm < next_handle w)%nat) as Hothers.
  { intros tm. by apply drop_below. }
  assert (drop (Some (next_handle w))
               (others ++ [mkTimer (next_handle w) (now w + wait cl) None (Later c)])
          = others) as Hdrop.
  { rewrite drop_app, (drop_fresh _ _ Hothers); simpl.
    rewrite filter_cons_False, filter_nil by (simpl; lia). apply app_nil_r. }
  assert (w2 = mkWorld (page w) t (S (S (next_handle w))) (others ++ [tm2])
                 (alter (λ cl, mkClosure (func cl) (wait cl) (Some (S (next_handle w))))
                        c (closures (set_now t w1)))
                 (mutationObserver w) (streamlitReady w) (trace w)) as Hw2.
  { unfold w2. rewrite (executedFunction_unfold _ _ _ Hc1).
    replace (drop (timeout cl1) (timers (set_now t w1))) with others
      by (rewrite Hw1; exact (eq_sym Hdrop)).
    by rewrite Hw1. }
  assert (closures w2 !! c
          = Some (mkClosure (func cl) (wait cl) (Some (S (next_handle w))))) as Hc2.
  { rewrite Hw2. cbn [closures]. by rewrite list_lookup_alter_eq, Hc1. }
  destruct (fire_later_fields faults tm2 c _ w2 eq_refl eq_refl Hc2)
    as (news & Ht & Hs & Hl & Hr & Htr).
  assert (timers w2 = others ++ [tm2] ∧ trace w2 = trace w ∧ now w2 = t
          ∧ next_handle w2 = S (S (next_handle w)) ∧ boxes w2 = boxes w)
    as (Ht2 & Htr2 & Hn2 & Hh2 & Hb2) by by rewrite Hw2.
  split_and!; try (by rewrite Hw1); try (by rewrite Hw2).
  exists news. rewrite Hn2, Hh2 in Hs. rewrite Hb2 in Hl.
  split_and!; try done.
  - rewrite Ht, Ht2. unfold tm2. cbn [handle timeout].
    assert (∀ tm, tm ∈ others → (handle tm < S (next_handle w))%nat) as Hothers'.
    { intros tm Htm. specialize (Hothers tm Htm). lia. }
    rewrite (filter_handle_snoc (S (next_handle w))) by done.
    by rewrite (drop_fresh _ _ Hothers').
  - by rewrite Htr, Htr2, Hn2.
Qed.

Lemma debounce_resets_witness :
  let w := (debounce EnhanceFunc 250 (boot (page_of dashboard []))).2 in
  timers (executedFunction 0 (set_now 100 (executedFunction 0 w)))
  = [mkTimer 2 350 None (Later 0)].
Proof.
  intros w.
  refine (proj1 (proj1 (proj2
    (debounce_resets no_faults 0 (mkClosure EnhanceFunc 250 None) 100 w _ _)))).
  - reflexivity.
  - intros tm Htm. by apply elem_of_nil in Htm.
Defined.

(** When the timer of a debounced enhancement pass runs, the pass is made
    and the two boxes of the dashboard get a timer each for their bars. *)
Example later_of_pass_sets_bars :
  let w := (debounce EnhanceFunc 250 (boot (page_of dashboard []))).2 in
  let w2 := executedFunction 0 (set_now 100 (executedFunction 0 w)) in
  timers (fire no_faults (mkTimer 2 350 None (Later 0)) w2)
  = [mkTimer 3 450 None (ShowProgress (Some [0; 0; 1; 2]%nat));
     mkTimer 4 450 None (ShowProgress (Some [0; 0; 2; 1]%nat))]
  ∧ enhance_passes (fire no_faults (mkTimer 2 350 None (Later 0)) w2) = [350%Z].
Proof. vm_compute. done. Qed.

(** ** [cleanup] *)

Lemma page_call_func f w :
  page (call_func f w)
  = match f with
    | EnhanceFunc => enhanceNewElements (page w)
    | ResizeFunc => handleResize_func (page w)
    end.
Proof. destruct f; [apply page_enhanceNewElements_timed|done]. Qed.

Lemma cleanup_fields w :
  page (cleanup w) = page w ∧ now (cleanup w) = now w
  ∧ next_handle (cleanup w) = next_handle w ∧ timers (cleanup w) = timers w
  ∧ closures (cleanup w) = closures w ∧ streamlitReady (cleanup w) = streamlitReady w
  ∧ trace (cleanup w) = trace w.
Proof. unfold cleanup. by destruct (mutationObserver w). Qed.

(** X14.  [cleanup] disconnects the observer and does nothing else.  After
    it no batch of mutation records schedules anything, whatever it holds:
    a mutation changes the document, the progress bars that pending timers
    hold go where the host moves them, and that is all.  Page, timers,
    closures and the poll are as they were, so a debounced call that is
    pending still runs and does to the page what it would have done; and a
    second [cleanup] changes nothing. *)
Theorem cleanup_only_disconnects (faults : nat → World → option string) (w : World) :
  (∀ change moved records,
      handle_event faults (Mutate change moved records) (cleanup w)
      = follow moved (on_page (λ p, set_document (change (document p)) p) (cleanup w)))
  ∧ (page (cleanup w) = page w ∧ timers (cleanup w) = timers w
     ∧ closures (cleanup w) = closures w
     ∧ streamlitReady (cleanup w) = streamlitReady w)
  ∧ (∀ tm c cl,
        callback tm = Later c → period tm = None → closures w !! c = Some cl →
        page (fire faults tm (cleanup w)) = page (fire faults tm w)
        ∧ trace (fire faults tm (cleanup w)) = trace (fire faults tm w))
  ∧ cleanup (cleanup w) = cleanup w.
Proof.
  destruct (cleanup_fields w) as (Hp & Hn & Hh & Ht & Hc & Hs & Htr).
  split_and!; try done.
  - intros change moved records. unfold handle_event, observer_callback.
    unfold cleanup. destruct (mutationObserver w) eqn:Ho; fields; [done|].
    unfold follow; fields. by rewrite Ho.
  - intros tm c cl Hcb Hper Hcl.
    assert (closures (cleanup w) !! c = Some cl) as Hcl' by by rewrite Hc.
    rewrite (fire_later faults tm c cl _ Hcb Hper Hcl').
    rewrite (fire_later faults tm c cl _ Hcb Hper Hcl).
    rewrite !page_call_func. fields.
    split; [by rewrite Hp|].
    match goal with
    | |- trace (call_func ?f ?a) = trace (call_func ?f ?b) =>
        destruct (call_func_fields f a) as (_ & _ & _ & -> & _);
        destruct (call_func_fields f b) as (_ & _ & _ & -> & _)
    end.
    fields. by rewrite Hn, Htr.
  - unfold cleanup. destruct (mutationObserver w) as [o|] eqn:Ho; fields; [done|].
    by rewrite Ho.
Qed.

Lemma cleanup_only_disconnects_witness :
  page (fire no_faults (mkTimer 8 750 None (Later 3)) (cleanup running))
  = page (fire no_faults (mkTimer 8 750 None (Later 3)) running).
Proof.
  refine (proj1 (proj1 (proj2 (proj2 (cleanup_only_disconnects no_faults running)))
                   (mkTimer 8 750 None (Later 3)) 3%nat
                   (mkClosure ResizeFunc 250 (Some 8%nat)) eq_refl eq_refl _)).
  vm_compute. reflexivity.
Defined.

(** ** Who enters [initUI] *)

Lemma activations_trace w w' l :
  trace w' = trace w ++ l →
  activations w' = activations w ++ activations (set_trace l w).
Proof. intros H. unfold activations. by rewrite H, omap_app. Qed.

Lemma sightings_trace w w' l :
  trace w' = trace w ++ l →
  sightings w' = sightings w ++ sightings (set_trace l w).
Proof. intros H. unfold sightings. by rewrite H, omap_app. Qed.

Lemma poll_ticks_trace w w' l :
  trace w' = trace w ++ l →
  poll_ticks w' = poll_ticks w ++ poll_ticks (set_trace l w).
Proof. intros H. unfold poll_ticks. by rewrite H, omap_app. Qed.

Lemma trace_executedFunction c w : trace (executedFunction c w) = trace w.
Proof.
  unfold executedFunction. destruct (closures w !! c) as [cl|]; [|done].
  by destruct (timeout cl).
Qed.

Lemma trace_after_sighting faults a w :
  trace (after_sighting faults a w)
  = trace w ++ [(now w, Sighted); (now w, InitUI)].
Proof.
  unfold after_sighting, clearInterval.
  match goal with
  | |- trace (clearTimer ?h ?w') = _ =>
      destruct (clearTimer_fields h w') as (_ & _ & _ & _ & -> & _)
  end.
  rewrite trace_initUI. fields. by rewrite <- app_assoc.
Qed.

Lemma fire_unfold faults tm w :
  fire faults tm w
  = world_of (run_callback faults (callback tm)
                (record (TimerFired (callback tm))
                   (set_timers (reschedule tm (timers w))
                      (set_now (Z.max (now w) (due tm)) w)))).
Proof. done. Qed.

Lemma unmarked_root_page w w' : page w' = page w → unmarked_root w' = unmarked_root w.
Proof. unfold unmarked_root. by intros ->. Qed.

(** The trace of a timer that fires. *)
Lemma trace_fire faults tm w :
  trace (fire faults tm w)
  = trace w ++ (Z.max (now w) (due tm), TimerFired (callback tm))
      :: callback_items (callback tm) (Z.max (now w) (due tm)) w.
Proof.
  rewrite fire_unfold.
  set (w3 := record _ _).
  assert (trace w3 = trace w ++ [(Z.max (now w) (due tm), TimerFired (callback tm))])
    as Htr by done.
  assert (now w3 = Z.max (now w) (due tm)) as Hnow by done.
  assert (closures w3 = closures w) as Hcl by done.
  assert (unmarked_root w3 = unmarked_root w) as Hun by done.
  clearbody w3. rewrite (cons_middle _ (trace w)), app_assoc, <- Htr.
  destruct (callback tm) as [c| | |bar|bar]; cbn [run_callback callback_items].
  4:{ unfold run0, show_progress; cbn [world_of]. destruct bar; fields;
        by rewrite Htr, app_nil_r. }
  4:{ unfold run0, fade_progress; cbn [world_of]. destruct bar; fields;
        by rewrite ?Htr, app_nil_r. }
  - unfold run0; cbn [world_of]. unfold later. rewrite Hcl.
    destruct (closures w !! c) as [cl|]; [|by rewrite app_nil_r].
    match goal with
    | |- trace (call_func ?f ?a) = _ =>
        destruct (call_func_fields f a) as (_ & _ & _ & -> & _)
    end.
    fields. unfold clearTimeout.
    destruct (clearTimer_fields (timeout cl) w3) as (_ & _ & _ & _ & -> & ->).
    by rewrite Hnow.
  - rewrite poll_tick_unfold; cbn [world_of]. rewrite Hun.
    destruct (unmarked_root w) as [a|]; [|by rewrite app_nil_r].
    by rewrite trace_after_sighting, Hnow.
  - unfold poll_abandon, run0; cbn [world_of]. unfold clearInterval.
    destruct (clearTimer_fields (streamlitReady w3) w3) as (_ & _ & _ & _ & -> & _).
    by rewrite app_nil_r.
Qed.

Lemma ready_listeners_app ls ls' :
  ready_listeners (ls ++ ls') = (ready_listeners ls + ready_listeners ls')%nat.
Proof. induction ls as [|[] ls IH]; simpl; lia. Qed.

Lemma listeners_handleResize_func p :
  listeners (handleResize_func p) = listeners p.
Proof.
  unfold handleResize_func.
  destruct (querySelector CONFIG.selectors.sidebar _); [|done].
  by case_bool_decide.
Qed.

Lemma listeners_call_func f w :
  listeners (page (call_func f w)) = listeners (page w).
Proof.
  rewrite page_call_func. destruct f; [done|apply listeners_handleResize_func].
Qed.

Lemma ready_listeners_initUI faults w :
  ready_listeners (listeners (page (world_of (initUI faults w))))
  = ready_listeners (listeners (page w)).
Proof.
  apply (initUI_preserves faults
           (λ w', ready_listeners (listeners (page w'))
                  = ready_listeners (listeners (page w)))); try done.
  - intros w' <-; simpl. by rewrite listeners_setTheme.
  - intros w' <-; simpl. by rewrite listeners_applySavedSidebarState.
  - intros w' <-. by rewrite page_enhanceNewElements_timed.
  - intros w' <-; simpl. rewrite !ready_listeners_app; simpl. lia.
  - intros c w' <-; simpl. rewrite !ready_listeners_app; simpl. lia.
  - intros c w' <-. by rewrite page_executedFunction.
Qed.

Lemma page_later c w :
  page (later c w) = page w
  ∨ ∃ f, page (later c w) = page (call_func f w).
Proof.
  unfold later. destruct (closures w !! c) as [cl|]; [|by left].
  right. exists (func cl). rewrite !page_call_func. fields.
  unfold clearTimeout. by destruct (timeout cl).
Qed.

(** The two steps that animate a progress bar restyle one node and leave
    the rest of the page alone. *)
Lemma progress_page (I : Page → Prop) faults bar w :
  (∀ b k v p, I p → I (mutate b (λ e, set_style (<[k := v]> (style e)) e) p)) →
  I (page w) →
  I (page (world_of (run_callback faults (ShowProgress bar) w)))
  ∧ I (page (world_of (run_callback faults (FadeProgress bar) w))).
Proof.
  intros H Hw. cbn [run_callback]. unfold run0, show_progress, fade_progress.
  cbn [world_of]. destruct bar; simpl; split; auto.
Qed.

Lemma listeners_fire faults tm w :
  ready_listeners (listeners (page (fire faults tm w)))
  = ready_listeners (listeners (page w)).
Proof.
  rewrite fire_unfold. set (w3 := record _ _).
  assert (page w3 = page w) as Hp by done. rewrite <- Hp. clearbody w3.
  destruct (callback tm) as [c| | |bar|bar].
  4,5: by apply (progress_page
                   (λ p, ready_listeners (listeners p)
                         = ready_listeners (listeners (page w3))) faults bar w3).
  all: cbn [run_callback].
  - unfold run0; cbn [world_of].
    destruct (page_later c w3) as [-> |[f ->]]; [done|].
    by rewrite listeners_call_func.
  - rewrite poll_tick_unfold; cbn [world_of].
    destruct (unmarked_root w3) as [a|]; [|done].
    unfold after_sighting, clearInterval.
    match goal with
    | |- context [clearTimer ?h ?w'] =>
        assert (page (clearTimer h w') = page w') as -> by by destruct h
    end.
    by rewrite ready_listeners_initUI.
  - unfold poll_abandon, run0; cbn [world_of]. unfold clearInterval.
    by destruct (streamlitReady w3).
Qed.

Lemma accounted_fire faults d n tm w :
  accounted d n w → accounted d n (fire faults tm w).
Proof.
  intros [Hd Hn]. split; [by rewrite listeners_fire|].
  pose proof (trace_fire faults tm w) as Htr.
  rewrite (activations_trace _ _ _ Htr), (sightings_trace _ _ _ Htr).
  rewrite !length_app, Hn.
  destruct (callback tm) as [c| | |bar|bar]; cbn [callback_items].
  - destruct (closures w !! c); simpl; lia.
  - destruct (unmarked_root w); simpl; lia.
  - simpl; lia.
  - simpl; lia.
  - simpl; lia.
Qed.

Lemma for_each_listener_invariant (I : World → Prop) f w :
  (∀ l w', I w' → I (f l w')) → I w → I (for_each_listener f w).
Proof.
  intros Hf. unfold for_each_listener.
  generalize (listeners (page w)). intros ls. revert w.
  induction ls as [|l ls IH]; intros w Hw; simpl; [done|]. by apply IH, Hf.
Qed.

Lemma accounted_initUI faults d n w :
  accounted d n w → accounted d (S n) (world_of (initUI faults w)).
Proof.
  intros [Hd Hn]. split; [by rewrite ready_listeners_initUI|].
  pose proof (trace_initUI faults w) as Htr.
  rewrite (activations_trace _ _ _ Htr), (sightings_trace _ _ _ Htr).
  rewrite !length_app, Hn. simpl. lia.
Qed.

Lemma accounted_ready_fold faults d ls :
  ∀ n w, accounted d n w →
         accounted d (n + ready_listeners ls)
           (foldl (λ w l, match l with
                          | OnDOMContentLoaded => world_of (initUI faults w)
                          | _ => w
                          end) w ls).
Proof.
  induction ls as [|l ls IH]; intros n w Hw; simpl.
  - by rewrite Nat.add_0_r.
  - destruct l; try by apply IH.
    rewrite <- Nat.add_succ_comm. by apply IH, accounted_initUI.
Qed.

Lemma listeners_click_handler target p :
  listeners (click_handler target p) = listeners p.
Proof.
  unfold click_handler.
  destruct (matches CONFIG.selectors.sidebarToggle target);
    destruct (matches CONFIG.selectors.themeToggle target);
    rewrite ?listeners_toggleSidebar; unfold toggleTheme;
    by rewrite ?listeners_setTheme.
Qed.

Lemma listeners_keydown_handler e p :
  listeners (keydown_handler e p) = listeners p.
Proof.
  unfold keydown_handler.
  destruct ((ctrlKey e || metaKey e) && shiftKey e && bool_decide (key e = "S"));
    destruct ((ctrlKey e || metaKey e) && shiftKey e && bool_decide (key e = "T"));
    rewrite ?listeners_toggleSidebar; unfold toggleTheme;
    by rewrite ?listeners_setTheme.
Qed.

Lemma accounted_page d n w w' :
  listeners (page w') = listeners (page w) → trace w' = trace w →
  accounted d n w → accounted d n w'.
Proof.
  unfold accounted, activations, sightings. by intros -> ->.
Qed.

Lemma accounted_handle_event faults d n ev w :
  accounted d n w →
  accounted d (n + match ev with DOMContentLoaded => d | _ => 0 end)
    (handle_event faults ev w).
Proof.
  intros Hw. destruct ev as [ch mv recs|width| |target|e|]; cbn [handle_event];
    rewrite ?Nat.add_0_r.
  - unfold observer_callback, follow. fields.
    destruct (mutationObserver w) as [o|]; [|by apply (accounted_page d n w)].
    destruct (connected o && shouldEnhance recs);
      [|by apply (accounted_page d n w)].
    apply (accounted_page d n w); [|by rewrite trace_executedFunction|done].
    by rewrite page_executedFunction.
  - apply for_each_listener_invariant; [|by apply (accounted_page d n w)].
    intros l w' Hw'. destruct l; try done.
    apply (accounted_page d n w');
      [by rewrite page_executedFunction|by rewrite trace_executedFunction|done].
  - destruct Hw as [Hd Hn]. rewrite <- Hd at 2.
    by apply accounted_ready_fold.
  - apply for_each_listener_invariant; [|done].
    intros l w' Hw'. destruct l; try done.
    apply (accounted_page d n w'); [|done|done].
    apply listeners_click_handler.
  - apply for_each_listener_invariant; [|done].
    intros l w' Hw'. destruct l; try done.
    apply (accounted_page d n w'); [|done|done].
    apply listeners_keydown_handler.
  - apply for_each_listener_invariant; [|done].
    intros l w' Hw'. destruct l; try done.
    destruct (cleanup_fields w') as (Hp & _ & _ & _ & _ & _ & Htr).
    apply (accounted_page d n w'); [by rewrite Hp|done|done].
Qed.

(** What holds before a run of the timers and is kept by every timer that
    fires and by the clock holds when the run is over. *)
Lemma run_until_invariant faults ties (J : World → Prop) :
  (∀ tm w, J w → earliest ties (timers w) = Some tm → J (fire faults tm w)) →
  (∀ T w, J w → (∀ tm, tm ∈ timers w → (T < due tm)%Z) →
          J (set_now (Z.max (now w) T) w)) →
  ∀ fuel T w w', J w → run_until faults ties fuel T w = Some w' → J w'.
Proof.
  intros Hfire Hnow fuel T. induction fuel as [|fuel IH]; intros w w' Hw;
    rewrite run_until_unfold;
    destruct (earliest ties (timers w)) as [tm|] eqn:He.
  - case_bool_decide; [done|]. intros [= <-]. apply Hnow; [done|].
    intros t Ht. pose proof (earliest_due _ _ _ _ He Ht). lia.
  - intros [= <-]. apply Hnow; [done|]. apply earliest_None in He.
    rewrite He. by intros t ?%elem_of_nil.
  - case_bool_decide.
    + apply IH. by apply Hfire.
    + intros [= <-]. apply Hnow; [done|].
      intros t Ht. pose proof (earliest_due _ _ _ _ He Ht). lia.
  - intros [= <-]. apply Hnow; [done|]. apply earliest_None in He.
    rewrite He. by intros t ?%elem_of_nil.
Qed.

Lemma accounted_run_until faults ties d n fuel T w w' :
  accounted d n w → run_until faults ties fuel T w = Some w' → accounted d n w'.
Proof.
  apply (run_until_invariant faults ties (accounted d n)).
  - intros tm w0 Hw0 _. by apply accounted_fire.
  - intros T' w0 Hw0 _. by apply (accounted_page d n w0).
Qed.

Lemma accounted_simulate faults ties d fuel evs :
  ∀ n w w', accounted d n w → simulate faults ties fuel evs w = Some w' →
            accounted d (n + d * ready_events evs) w'.
Proof.
  induction evs as [|[t ev] evs IH]; intros n w w' Hw; cbn [simulate].
  - intros [= <-]. simpl. by rewrite Nat.mul_0_r, Nat.add_0_r.
  - destruct (run_until faults ties fuel t w) as [w1|] eqn:Hrun; [|done].
    intros Hsim.
    pose proof (accounted_run_until _ _ _ _ _ _ _ _ Hw Hrun) as Hw1.
    pose proof (accounted_handle_event faults d n ev w1 Hw1) as Hw2.
    pose proof (IH _ _ _ Hw2 Hsim) as Hw'.
    destruct ev; simpl in *;
      rewrite ?Nat.add_0_r in Hw'; try done.
    replace (n + d * S (ready_events evs))%nat
      with (n + d + d * ready_events evs)%nat by lia. done.
Qed.

Lemma accounted_script_load faults (loading : bool) p :
  ready_listeners (listeners p) = 0%nat →
  accounted (if loading then 1 else 0)%nat (if loading then 0 else 1)%nat
    (world_of (script_load faults loading (boot p))).
Proof.
  intros Hp. rewrite script_load_unfold. cbv zeta. cbn [world_of].
  apply (accounted_page _ _
           (if loading
            then on_page (addEventListener OnDOMContentLoaded)
                   (on_page (addEventListener OnBeforeUnload) (boot p))
            else world_of (initUI faults
                             (on_page (addEventListener OnBeforeUnload) (boot p)))));
    [done|done|].
  assert (accounted 0 0 (on_page (addEventListener OnBeforeUnload) (boot p))) as H0.
  { split; [|done]. simpl. rewrite ready_listeners_app, Hp. done. }
  destruct loading; [|by apply (accounted_initUI faults 0 0)].
  split; [|done]. simpl. rewrite !ready_listeners_app, Hp. done.
Qed.

(** X15.  Who enters [initUI].  From the loading of the script on a page
    that has no [DOMContentLoaded] listener yet, whatever the document, the
    host's events, the exceptions inside [initUI] and the order in which
    the host runs timers that are due at the same time: the timers all run,
    and [initUI] has been entered once at load time (when the document was
    ready) or once for each [DOMContentLoaded] event (when it was still
    loading), and besides only by the poll, once for its sighting, if it
    made one.  No click, key, resize or mutation and no timer of a
    debounced call or of a progress bar enters [initUI]. *)
Theorem initUI_entries_accounted (faults : nat → World → option string)
    (ties : Timer → Timer → bool)
    (loading : bool) (p : Page) (evs : list (Z * HostEvent)) (T : Z) :
  ready_listeners (listeners p) = 0%nat →
  ∃ fuel0 w,
    (∀ fuel, (fuel0 ≤ fuel)%nat →
             simulate faults ties fuel evs
               (world_of (script_load faults loading (boot p)))
             ≫= run_until faults ties fuel T = Some w)
    ∧ length (activations w)
      = ((if loading then ready_events evs else 1) + length (sightings w))%nat
    ∧ (length (sightings w) ≤ 1)%nat.
Proof.
  intros Hp.
  destruct (poll_inv_script_load faults loading p) as [sid Hinv].
  destruct (simulate_poll faults ties sid evs _ Hinv)
    as (fuel1 & w1 & Hinv1 & Hsim).
  destruct (run_until_poll faults ties sid T w1 Hinv1)
    as (fuel2 & w2 & Hrun & Hinv2).
  exists (fuel1 `max` fuel2)%nat, w2. split_and!.
  - intros fuel Hfuel. rewrite Hsim by lia. simpl.
    apply (run_until_more_fuel faults ties fuel2); [done|lia].
  - pose proof (accounted_script_load faults loading p Hp) as H0.
    pose proof (accounted_simulate faults ties _ fuel1 evs _ _ w1 H0
                  (Hsim fuel1 (Nat.le_refl fuel1))) as H1.
    destruct (accounted_run_until _ _ _ _ _ _ _ _ H1 Hrun) as [_ ->].
    destruct loading; simpl; lia.
  - assert (poll_history T w2) as (k & _ & _ & [-> |[-> _]] & _); simpl; try lia.
    apply (poll_inv_history sid); [done|].
    by destruct (run_until_done _ _ _ _ _ _ Hrun) as (_ & _ & ?).
Qed.

Lemma initUI_entries_accounted_witness :
  ∃ fuel0 w,
    (∀ fuel, (fuel0 ≤ fuel)%nat →
             simulate no_faults lower_handle_first fuel late_render
               (world_of (script_load no_faults false (boot (page_of blank []))))
             ≫= run_until no_faults lower_handle_first fuel 20000 = Some w)
    ∧ length (activations w) = (1 + length (sightings w))%nat
    ∧ (length (sightings w) ≤ 1)%nat.
Proof.
  exact (initUI_entries_accounted no_faults lower_handle_first false
           (page_of blank []) late_render 20000 eq_refl).
Defined.

(** ** Runs of the poll when the host does nothing *)

Lemma unmarked_root_alt w :
  unmarked_root w
  = match querySelector CONFIG.selectors.app (document (page w)) with
    | Some a => match root_attribute initialized_marker (page w) with
                | None => Some a
                | Some _ => None
                end
    | None => None
    end.
Proof.
  unfold unmarked_root, root_attribute.
  destruct (querySelector _ _) as [a|] eqn:Ha; [|done]. simpl.
  destruct (querySelector_get _ _ _ Ha) as (x & -> & _); simpl.
  unfold hasAttribute. destruct (attributes x !! initialized_marker) as [v|] eqn:E.
  - rewrite bool_decide_eq_true_2; [done|by eexists].
  - rewrite bool_decide_eq_false_2; [done|]. by intros [? ?].
Qed.

Lemma unmarked_root_same_root w w' :
  same_root (page w) (page w') → unmarked_root w' = unmarked_root w.
Proof. intros [H1 H2]. rewrite !unmarked_root_alt. by rewrite H1, H2. Qed.

Lemma same_root_refl p : same_root p p.
Proof. done. Qed.

Lemma same_root_trans p q r : same_root p q → same_root q r → same_root p r.
Proof. intros [H1 H2] [H3 H4]. split; congruence. Qed.

Lemma same_root_setTheme theme p : same_root p (setTheme theme p).
Proof.
  split; [apply querySelector_setTheme|by apply root_attribute_setTheme_other].
Qed.

Lemma same_root_applySavedSidebarState p : same_root p (applySavedSidebarState p).
Proof.
  split; [by apply querySelector_applySavedSidebarState
         |by apply root_attribute_applySavedSidebarState].
Qed.

Lemma same_root_enhanceNewElements p : same_root p (enhanceNewElements p).
Proof.
  split; [by apply querySelector_enhanceNewElements
         |apply root_attribute_enhanceNewElements].
Qed.

Lemma same_root_handleResize_func p : same_root p (handleResize_func p).
Proof.
  split; [by apply querySelector_handleResize_func|].
  destruct (querySelector CONFIG.selectors.sidebar (document p)) as [s|] eqn:Hs;
    [|by rewrite handleResize_func_absent].
  rewrite (handleResize_func_present _ _ Hs).
  case_bool_decide.
  - apply root_attribute_mutate; [apply children_classList_add| |].
    + intros x. by apply matches_classList_add.
    + intros x. by rewrite attributes_classList_add.
  - apply root_attribute_mutate; [done| |done].
    intros x. by apply matches_classList_remove.
Qed.

Lemma same_root_call_func f w : same_root (page w) (page (call_func f w)).
Proof.
  rewrite page_call_func.
  destruct f; [apply same_root_enhanceNewElements|apply same_root_handleResize_func].
Qed.

Lemma same_root_later c w : same_root (page w) (page (later c w)).
Proof.
  destruct (page_later c w) as [-> |[f ->]];
    [apply same_root_refl|apply same_root_call_func].
Qed.

Lemma same_root_initUI faults w :
  same_root (page w) (page (world_of (initUI faults w))).
Proof.
  apply (initUI_preserves faults (λ w', same_root (page w) (page w')));
    try done.
  - intros w' H. eapply same_root_trans; [done|]. apply same_root_setTheme.
  - intros w' H. eapply same_root_trans; [done|].
    apply same_root_applySavedSidebarState.
  - intros w' H. rewrite page_enhanceNewElements_timed.
    eapply same_root_trans; [done|]. apply same_root_enhanceNewElements.
  - intros c w' H. by rewrite page_executedFunction.
Qed.

Lemma same_root_style b k v p :
  same_root p (mutate b (λ e, set_style (<[k := v]> (style e)) e) p).
Proof.
  split; [by apply querySelector_update|by apply root_attribute_mutate].
Qed.

(** A timer that is not a tick of the poll leaves the poll's record and the
    app root alone. *)
Lemma fire_quiet faults tm w :
  callback tm ≠ PollTick →
  poll_ticks (fire faults tm w) = poll_ticks w
  ∧ sightings (fire faults tm w) = sightings w
  ∧ activations (fire faults tm w) = activations w
  ∧ same_root (page w) (page (fire faults tm w)).
Proof.
  intros Hcb. pose proof (trace_fire faults tm w) as Htr.
  rewrite (poll_ticks_trace _ _ _ Htr), (sightings_trace _ _ _ Htr),
    (activations_trace _ _ _ Htr).
  rewrite fire_unfold. set (w3 := record _ _).
  assert (page w3 = page w) as Hp by done. rewrite <- Hp. clearbody w3.
  destruct (callback tm) as [c| | |bar|bar]; [|done|..];
    cbn [callback_items].
  - split_and!; [destruct (closures w !! c); apply app_nil_r..|].
    apply same_root_later.
  - split_and!; [apply app_nil_r..|].
    cbn [run_callback]. unfold poll_abandon, run0; cbn [world_of].
    unfold clearInterval. destruct (streamlitReady w3); apply same_root_refl.
  - split_and!; [apply app_nil_r..|].
    apply (progress_page (same_root (page w3)) faults bar w3);
      [|apply same_root_refl].
    intros b k v p Hq. eapply same_root_trans; [done|apply same_root_style].
  - split_and!; [apply app_nil_r..|].
    apply (progress_page (same_root (page w3)) faults bar w3);
      [|apply same_root_refl].
    intros b k v p Hq. eapply same_root_trans; [done|apply same_root_style].
Qed.

(** A tick of the poll that finds nothing to mark. *)
Lemma fire_blind_tick faults tm w :
  callback tm = PollTick → unmarked_root w = None →
  fire faults tm w
  = record (TimerFired PollTick)
      (set_timers (reschedule tm (timers w))
         (set_now (Z.max (now w) (due tm)) w)).
Proof.
  intros Hcb Hun. rewrite fire_unfold, Hcb. cbn [run_callback].
  rewrite poll_tick_unfold. cbn [world_of].
  by rewrite (unmarked_root_page w) by done; rewrite Hun.
Qed.

(** The timers that are pending after a timer has fired were pending
    before, or are the first step of a progress bar, set by a debounced
    pass, or the second step, set by the first. *)
Lemma timers_fire_new faults tm w t :
  callback tm ≠ PollTick → period tm = None →
  t ∈ timers (fire faults tm w) →
  t ∈ timers w
  ∨ (∃ c bar, callback tm = Later c ∧ callback t = ShowProgress bar
              ∧ due t = (Z.max (now w) (due tm) + 100)%Z)
  ∨ (∃ bar bar', callback tm = ShowProgress bar ∧ callback t = FadeProgress bar'
                 ∧ due t = (Z.max (now w) (due tm) + 300)%Z).
Proof.
  intros Hcb Hper. rewrite fire_unfold. unfold reschedule. rewrite Hper.
  set (w3 := record _ _).
  assert (∀ t, t ∈ timers w3 → t ∈ timers w) as Hsub.
  { intros t'. unfold w3. fields. by intros [_ ?]%list_elem_of_filter. }
  assert (now w3 = Z.max (now w) (due tm)) as Hnow by done.
  clearbody w3.
  destruct (callback tm) as [c| | |bar|bar]; [|done|..]; cbn [run_callback].
  - unfold run0; cbn [world_of]. unfold later.
    destruct (closures w3 !! c) as [cl|]; [|left; by apply Hsub].
    match goal with
    | |- context [call_func ?f ?a] =>
        destruct (call_func_fields f a)
          as (_ & _ & _ & _ & _ & news & -> & _ & Hs & _)
    end.
    unfold clearTimeout in *. fields. cbn [now record set_trace] in Hs.
    rewrite timers_clearTimer.
    intros [Ht%drop_elem_of|Ht]%elem_of_app; [left; by apply Hsub|].
    destruct (progress_timers_elem _ _ _ _ Hs Ht) as (i & b & _ & ->).
    right; left. exists c, (Some b). split_and!; [done..|]. simpl.
    rewrite now_clearTimer, Hnow. done.
  - unfold poll_abandon, run0; cbn [world_of]. unfold clearInterval.
    rewrite timers_clearTimer. intros Ht%drop_elem_of. left. by apply Hsub.
  - unfold run0, show_progress, setTimeout, add_timer; cbn [world_of snd].
    assert (∀ x, timers match bar with
                        | Some progressBar =>
                            on_page (mutate progressBar
                                       (λ e, set_style (<["width" := "100%"]> (style e)) e)) x
                        | None => x
                        end = timers x
                 ∧ now match bar with
                       | Some progressBar =>
                           on_page (mutate progressBar
                                      (λ e, set_style (<["width" := "100%"]> (style e)) e)) x
                       | None => x
                       end = now x) as Hb by (intros x; by destruct bar).
    fields. rewrite (proj1 (Hb w3)), (proj2 (Hb w3)).
    intros [Ht|Ht]%elem_of_app; [left; by apply Hsub|].
    apply list_elem_of_singleton in Ht as ->.
    right; right. exists bar, bar. by rewrite Hnow.
  - unfold run0, fade_progress; cbn [world_of].
    intros Ht. left. apply Hsub. by destruct bar.
Qed.

Lemma prompt_executedFunction c w : prompt w → prompt (executedFunction c w).
Proof.
  intros (Hn & Ht & Hc).
  destruct (closures w !! c) as [cl|] eqn:Hcl;
    [|by unfold executedFunction; rewrite Hcl].
  rewrite (executedFunction_unfold c cl w Hcl).
  unfold prompt; simpl. split_and!; [done| |].
  - intros tm [Hin%drop_elem_of|Hin]%elem_of_app; [by apply Ht|].
    apply list_elem_of_singleton in Hin as ->. simpl.
    specialize (Hc c cl Hcl). lia.
  - intros c' cl'. rewrite list_lookup_alter.
    case_decide as Heq; [subst c'|by apply Hc].
    rewrite Hcl; simpl. intros [= <-]; simpl. by eapply Hc.
Qed.

Lemma prompt_new_closure f w :
  prompt w → prompt (set_closures (closures w ++ [mkClosure f 250 None]) w).
Proof.
  intros (Hn & Ht & Hc). unfold prompt; simpl. split_and!; [done..|].
  intros c cl [Hcl|[_ Hcl]]%lookup_app_Some; [by eapply Hc|].
  apply list_lookup_singleton_Some in Hcl as [_ <-]. done.
Qed.

Lemma prompt_enhanceNewElements_timed w :
  prompt w → prompt (enhanceNewElements_timed w).
Proof.
  intros (Hn & Ht & Hc).
  destruct (enhanceNewElements_timed_spec w) as (news & -> & Hs & _).
  unfold prompt; simpl. split_and!; [done| |done].
  intros tm [Hin|Hin]%elem_of_app; [by apply Ht|].
  destruct (progress_timers_elem _ _ _ _ Hs Hin) as (i & b & _ & ->).
  simpl. lia.
Qed.

Lemma prompt_initUI faults w : prompt w → prompt (world_of (initUI faults w)).
Proof.
  apply (initUI_preserves faults prompt); try done.
  - apply prompt_enhanceNewElements_timed.
  - intros w'. apply (prompt_new_closure EnhanceFunc).
  - intros w'. apply (prompt_new_closure ResizeFunc).
  - intros c w'. apply prompt_executedFunction.
Qed.

(** The world in which the poll starts. *)
Lemma poll_start_state faults (loading : bool) p :
  ∃ sid,
    poll_inv sid (world_of (script_load faults loading (boot p)))
    ∧ with_handle sid (timers (world_of (script_load faults loading (boot p))))
      = [interval_timer sid 0]
    ∧ with_handle (S sid) (timers (world_of (script_load faults loading (boot p))))
      = [abandon_timer sid]
    ∧ trace (world_of (script_load faults loading (boot p)))
      = (if loading then [] else [(0%Z, InitUI)])
    ∧ unmarked_root (world_of (script_load faults loading (boot p)))
      = unmarked_root (boot p)
    ∧ (∀ tm, tm ∈ timers (world_of (script_load faults loading (boot p))) →
             handle tm ≠ sid → handle tm ≠ S sid →
             (due tm ≤ latest (callback tm))%Z)
    ∧ now (world_of (script_load faults loading (boot p))) = 0%Z.
Proof.
  rewrite script_load_unfold. cbv zeta. cbn [world_of].
  set (w1 := on_page (addEventListener OnBeforeUnload) (boot p)).
  set (w2 := if loading then on_page (addEventListener OnDOMContentLoaded) w1
             else world_of (initUI faults w1)).
  assert (tidy w2) as Htidy.
  { unfold w2. destruct loading; [apply tidy_on_page, tidy_on_page, tidy_boot|].
    apply tidy_initUI, tidy_on_page, tidy_boot. }
  assert (prompt w2) as (Hn & Hdue & _).
  { assert (prompt w1) as H1.
    { unfold prompt; simpl. split_and!; [done|by intros ? ?%elem_of_nil|].
      intros c cl. by rewrite lookup_nil. }
    unfold w2. destruct loading; [done|by apply prompt_initUI]. }
  assert (trace w2 = if loading then [] else [(0%Z, InitUI)]) as Htr.
  { unfold w2. destruct loading; [done|]. by rewrite trace_initUI. }
  assert (unmarked_root w2 = unmarked_root (boot p)) as Hun.
  { transitivity (unmarked_root w1); [|done].
    unfold w2. destruct loading; [done|].
    apply unmarked_root_same_root, same_root_initUI. }
  set (sid := next_handle w2).
  assert (∀ h, (sid ≤ h)%nat → with_handle h (timers w2) = []) as Hfresh.
  { intros h Hh. apply with_handle_fresh. intros tm Hin.
    destruct Htidy as (Ht & _). destruct (Ht tm Hin) as (? & _).
    unfold sid in Hh. lia. }
  exists sid. split; [by apply poll_inv_start|].
  unfold setTimeout, setInterval, add_timer. cbn [snd fst]. fields. fold sid.
  rewrite !with_handle_app, !Hfresh by lia. rewrite Hn.
  split_and!; [| |done|done| |done].
  - unfold with_handle. rewrite filter_cons_True by done.
    by rewrite filter_nil, filter_cons_False, filter_nil by (simpl; lia).
  - unfold with_handle. rewrite filter_cons_False by (simpl; lia).
    by rewrite filter_nil, filter_cons_True, filter_nil by done.
  - intros tm [[Hin|Hin]%elem_of_app|Hin]%elem_of_app H1 H2.
    + by apply Hdue.
    + apply list_elem_of_singleton in Hin as ->. done.
    + apply list_elem_of_singleton in Hin as ->. done.
Qed.

(** *** The poll's tick when an unmarked app root is there *)

Lemma unmarked_root_querySelector w a :
  unmarked_root w = Some a →
  querySelector CONFIG.selectors.app (document (page w)) = Some a.
Proof.
  unfold unmarked_root.
  destruct (querySelector CONFIG.selectors.app _) as [a'|]; [|done].
  destruct (from_option _ _ _); by intros [= ->].
Qed.

Lemma interval_pending_elem sid k w :
  with_handle sid (timers w) = [interval_timer sid k] →
  interval_timer sid k ∈ timers w.
Proof.
  intros Hi.
  assert (interval_timer sid k ∈ with_handle sid (timers w)) as H
      by (rewrite Hi; left).
  by apply list_elem_of_filter in H as [_ ?].
Qed.

Lemma sighting_step faults ties sid first k tm w :
  poll_inv sid w → earliest ties (timers w) = Some tm →
  before_sighting sid first k w ∨ sighted_at first k w →
  before_sighting sid first k (fire faults tm w)
  ∨ sighted_at first k (fire faults tm w).
Proof.
  intros [Hs (k' & Hticksk & Hk20 & Hph)] He Hcase.
  pose proof (earliest_elem _ _ _ He) as Hin.
  pose proof Hs as (Hr & Hnh & Ht & Hc & Hw & Hd).
  destruct Hcase
    as [(Hticks & Hsg & Hact & [a Hun] & Hk & Hi)|(Hticks & Hsg & Hact & Hm)].
  - (* the tick is still to come *)
    destruct Hph as [(_ & Hab & _)|(Hn' & _)]; [|by rewrite Hn' in Hi].
    pose proof (interval_pending_elem _ _ _ Hi) as Hint.
    destruct (decide (handle tm = sid)) as [H1|H1].
    + (* the tick *)
      pose proof (with_handle_elem _ _ _ Hin H1) as Hin'.
      rewrite Hi in Hin'. apply list_elem_of_singleton in Hin'. subst tm.
      right. pose proof (Hd _ Hin) as Hnow. cbn [interval_timer due] in Hnow.
      pose proof (trace_fire faults (interval_timer sid k) w) as Htr.
      cbn [interval_timer callback due callback_items] in Htr.
      rewrite Hun in Htr.
      rewrite (Z.max_r _ _ Hnow) in Htr.
      unfold sighted_at.
      rewrite (poll_ticks_trace _ _ _ Htr), (sightings_trace _ _ _ Htr),
        (activations_trace _ _ _ Htr), Hticks, Hsg, Hact, ticks_upto_S.
      split_and!; [done..|].
      rewrite fire_unfold. cbn [interval_timer callback run_callback].
      rewrite poll_tick_unfold. cbn [world_of].
      set (w3 := record _ _).
      assert (unmarked_root w3 = Some a) as -> by done.
      apply (after_sighting_spec faults a w3 sid); [|done].
      by apply (unmarked_root_querySelector w).
    + destruct (decide (handle tm = S sid)) as [H2|H2].
      * (* the timeout is due after the tick *)
        pose proof (with_handle_elem _ _ _ Hin H2) as Hin'.
        rewrite Hab in Hin'. apply list_elem_of_singleton in Hin'. subst tm.
        pose proof (earliest_due _ _ _ _ He Hint) as Hle.
        cbn [abandon_timer interval_timer due] in Hle. lia.
      * (* a timer of a debounced call or of a progress bar *)
        destruct (fire_other faults ties sid tm w Hs He H1 H2) as [(_ & Hv & _) _].
        unfold poll_view in Hv. injection Hv as Hv1 _ Hv3 Hv4.
        destruct (Ht tm Hin H1 H2) as (_ & Hcb & _).
        destruct (fire_quiet faults tm w Hcb) as (_ & _ & Hq3 & Hq4).
        left. unfold before_sighting.
        rewrite Hv1, Hv3, Hv4, Hq3, (unmarked_root_same_root _ _ Hq4), Hun.
        split_and!; [done..|by eexists|done|done].
  - (* the poll has made its sighting and is over *)
    assert (with_handle sid (timers w) = []
            ∧ (with_handle (S sid) (timers w) = [abandon_timer sid]
               ∨ with_handle (S sid) (timers w) = [])) as [Hn' Hab].
    { destruct Hph as [(_ & _ & Hsg0)|(Hn' & [[Hsg0 _]|(_ & _ & Hab)])];
        [by rewrite Hsg0 in Hsg|by rewrite Hsg0 in Hsg|done]. }
    assert (callback tm ≠ PollTick) as Hcb.
    { destruct (decide (handle tm = sid)) as [H1|H1].
      { pose proof (with_handle_elem _ _ _ Hin H1) as Hin'.
        rewrite Hn' in Hin'. by apply elem_of_nil in Hin'. }
      destruct (decide (handle tm = S sid)) as [H2|H2].
      { pose proof (with_handle_elem _ _ _ Hin H2) as Hin'.
        destruct Hab as [Hab|Hab]; rewrite Hab in Hin'.
        - by apply list_elem_of_singleton in Hin' as ->.
        - by apply elem_of_nil in Hin'. }
      by destruct (Ht tm Hin H1 H2) as (_ & ? & _). }
    destruct (fire_quiet faults tm w Hcb) as (Hq1 & Hq2 & Hq3 & _ & Hq4).
    right. unfold sighted_at. by rewrite Hq1, Hq2, Hq3, Hq4.
Qed.

(** From a world in which the next tick will find an unmarked root, the
    timers run and the sighting is made. *)
Lemma run_until_sighting faults ties sid first k T w :
  poll_inv sid w → before_sighting sid first k w →
  (500 * Z.of_nat (S k) ≤ T)%Z →
  ∃ fuel w', run_until faults ties fuel T w = Some w'
             ∧ sighted_at first k w' ∧ poll_stopped w'.
Proof.
  intros Hinv H0 HT.
  destruct (run_until_poll faults ties sid T w Hinv) as (fuel & w' & Hrun & Hinv').
  assert (poll_inv sid w'
          ∧ (before_sighting sid first k w' ∨ sighted_at first k w')) as [_ Hw].
  { apply (run_until_invariant faults ties
             (λ w, poll_inv sid w
                   ∧ (before_sighting sid first k w ∨ sighted_at first k w)))
      with (fuel := fuel) (T := T) (w := w); [| |by auto|done].
    - intros tm w1 [Hp Hc] He. split; [by apply (fire_poll faults ties)|].
      by apply (sighting_step faults ties sid first k tm w1).
    - intros T' w1 [Hp Hc] Hdue. split; [by apply poll_inv_set_now|done]. }
  destruct (run_until_done _ _ _ _ _ _ Hrun) as (_ & _ & Hdue).
  exists fuel, w'. split; [done|].
  destruct Hw as [(_ & _ & _ & _ & _ & Hi')|Hw].
  - pose proof (interval_pending_elem _ _ _ Hi') as H. specialize (Hdue _ H).
    cbn [interval_timer due] in Hdue. lia.
  - split; [done|].
    destruct (poll_inv_history sid T w' Hinv' Hdue) as (? & _ & _ & _ & Hst & _).
    apply Hst. destruct Hw as (_ & -> & _). done.
Qed.

(** *** An app root that is there when the script is loaded *)

(** X16.  An app root that is there when the script is loaded makes the
    poll activate once more.  When the document has an app root without the
    marker at load time and the host does nothing, then by any time from
    500 ms on, whatever throws inside [initUI] and in whatever order the
    host runs timers that are due at the same time: the poll has ticked
    once, at 500 ms, sighted the root, set the marker and entered
    [initUI]; that is the second activation when the script was loaded
    with the document ready (the first was at load time), and the only one
    when the document was still loading; and no tick is pending. *)
Theorem poll_activates_again (faults : nat → World → option string)
    (ties : Timer → Timer → bool)
    (loading : bool) (p : Page) (a : Path) (T : Z) :
  unmarked_root (boot p) = Some a →
  (500 ≤ T)%Z →
  ∃ fuel0 w,
    (∀ fuel, (fuel0 ≤ fuel)%nat →
             run_until faults ties fuel T
               (world_of (script_load faults loading (boot p))) = Some w)
    ∧ poll_ticks w = [500%Z]
    ∧ sightings w = [500%Z]
    ∧ activations w = (if loading then [] else [0%Z]) ++ [500%Z]
    ∧ root_attribute initialized_marker (page w) = Some "true"
    ∧ poll_stopped w.
Proof.
  intros Hun HT.
  destruct (poll_start_state faults loading p)
    as (sid & Hinv & Hi & Hab & Htr & Hun0 & _).
  set (w0 := world_of (script_load faults loading (boot p))) in *.
  set (first := if loading then [] else [0%Z]).
  assert (before_sighting sid first 0 w0) as H0.
  { unfold before_sighting, poll_ticks, sightings, activations.
    rewrite Htr, Hun0, Hun. unfold first.
    split_and!; [by destruct loading..|by eexists|lia|done]. }
  destruct (run_until_sighting faults ties sid first 0 T w0 Hinv H0)
    as (fuel & w & Hrun & (Ht & Hs & Ha & Hm) & Hst); [simpl; lia|].
  exists fuel, w. split.
  { intros fuel' Hfuel. by apply (run_until_more_fuel faults ties fuel). }
  by split_and!.
Qed.

Lemma poll_activates_again_witness :
  ∃ fuel0 w,
    (∀ fuel, (fuel0 ≤ fuel)%nat →
             run_until (fault_at 4 "out of memory") higher_handle_first fuel 3000
               (world_of (script_load (fault_at 4 "out of memory") false
                            (boot (page_of dashboard [])))) = Some w)
    ∧ poll_ticks w = [500%Z]
    ∧ sightings w = [500%Z]
    ∧ activations w = [0%Z; 500%Z]
    ∧ root_attribute initialized_marker (page w) = Some "true"
    ∧ poll_stopped w.
Proof.
  refine (poll_activates_again (fault_at 4 "out of memory") higher_handle_first
            false (page_of dashboard []) [0; 0]%nat 3000 _ _).
  - reflexivity.
  - lia.
Defined.

(** *** An app root that never shows up, or is marked already *)

Lemma activations_record item w :
  activations (record item w)
  = activations w ++ match item with InitUI => [now w] | _ => [] end.
Proof.
  unfold activations, record; simpl. rewrite omap_app; simpl.
  by destruct item.
Qed.

Lemma blind_step faults ties sid first tm w :
  poll_inv sid w → earliest ties (timers w) = Some tm →
  nothing_to_see sid first w → nothing_to_see sid first (fire faults tm w).
Proof.
  intros [Hs (k & Hticksk & Hk20 & Hph)] He
         (Hun & Hsg & Hact & Hothers & Hnext & Hlast).
  pose proof (earliest_elem _ _ _ He) as Hin.
  pose proof Hs as (Hr & Hnh & Ht & Hc & Hw & Hd).
  pose proof (now_fire faults tm w) as Hnow.
  destruct (decide (handle tm = sid)) as [H1|H1].
  - (* a tick that sees nothing *)
    pose proof (with_handle_elem _ _ _ Hin H1) as Hin'.
    destruct Hph as [(Hi & Hab & _)|(Hn' & _)];
      [|rewrite Hn' in Hin'; by apply elem_of_nil in Hin'].
    rewrite Hi in Hin'. apply list_elem_of_singleton in Hin'. subst tm.
    pose proof (Hd _ Hin) as Hle. cbn [interval_timer due] in Hle.
    rewrite (fire_blind_tick faults (interval_timer sid k) w eq_refl Hun) in *.
    rewrite (reschedule_interval _ 500) in * by done.
    unfold nothing_to_see. rewrite sightings_record, activations_record. fields.
    split_and!.
    + by rewrite (unmarked_root_page w).
    + rewrite app_nil_r. exact Hsg.
    + rewrite app_nil_r. exact Hact.
    + intros t' (t0 & -> & Hin0)%list_elem_of_fmap. unfold bump.
      destruct (decide (handle t0 = handle (interval_timer sid k))) as [Heq|Hne];
        simpl; [by intros ?|by apply Hothers].
    + change sid with (handle (interval_timer sid k)) at 1.
      rewrite with_handle_bump_same. cbn [handle interval_timer]. rewrite Hi.
      intros t' Ht'%list_elem_of_singleton. subst t'.
      unfold bump; simpl. rewrite decide_True by done. simpl. lia.
    + left. rewrite (with_handle_bump_other (S sid) (interval_timer sid k));
        [done|simpl; lia].
  - destruct (decide (handle tm = S sid)) as [H2|H2].
    + (* the timeout: the tick of 9.5 s has run, that of 10 s perhaps *)
      pose proof (with_handle_elem _ _ _ Hin H2) as Hin'.
      destruct Hph as [(Hi & Hab & _)|(Hn' & [(_ & Hab & _)|(Hsg' & _)])];
        [|rewrite Hab in Hin'; by apply elem_of_nil in Hin'
         |by rewrite Hsg' in Hsg].
      rewrite Hab in Hin'. apply list_elem_of_singleton in Hin'. subst tm.
      pose proof (interval_pending_elem _ _ _ Hi) as Hint.
      pose proof (earliest_due _ _ _ _ He Hint) as Hle.
      cbn [abandon_timer interval_timer due] in Hle.
      assert (k = 19 ∨ k = 20)%nat as Hk by lia.
      destruct (fire_quiet faults (abandon_timer sid) w) as (Hq1 & Hq2 & Hq3 & Hq4);
        [done|].
      assert (with_handle sid (timers (fire faults (abandon_timer sid) w)) = [])
        as Hgone.
      { rewrite fire_unfold. cbn [abandon_timer callback run_callback].
        unfold poll_abandon, run0; cbn [world_of]. fields. rewrite Hr.
        apply with_handle_none. }
      unfold nothing_to_see.
      rewrite Hq1, Hq2, Hq3, (unmarked_root_same_root _ _ Hq4), Hgone.
      split_and!; [done..| | |].
      * intros t Hin0.
        destruct (timers_fire_new faults (abandon_timer sid) w t)
          as [Hold|[(? & ? & ? & _)|(? & ? & ? & _)]]; [done..| |done|done].
        by apply Hothers.
      * by intros t ?%elem_of_nil.
      * right. split_and!; [|done|rewrite Hnow; simpl; lia].
        rewrite Hticksk. destruct Hk as [-> | ->]; auto.
    + (* a timer of a debounced call or of a progress bar *)
      destruct (fire_other faults ties sid tm w Hs He H1 H2) as [(_ & Hv & _) _].
      unfold poll_view in Hv. injection Hv as Hv1 Hv2 Hv3 Hv4.
      destruct (Ht tm Hin H1 H2) as (Hper & Hcb & _).
      destruct (fire_quiet faults tm w Hcb) as (_ & _ & Hq3 & Hq4).
      pose proof (Hothers tm Hin H1 H2) as Hearly.
      pose proof (Hd tm Hin) as Hdue.
      unfold nothing_to_see.
      rewrite Hv1, Hv2, Hv3, Hv4, Hq3, (unmarked_root_same_root _ _ Hq4).
      split_and!; [done..| | |].
      * intros t Hin0 Ht1 Ht2.
        destruct (timers_fire_new faults tm w t Hcb Hper Hin0)
          as [Hold|[(c & bar & Hc1 & -> & ->)|(bar & bar' & Hc1 & -> & ->)]].
        -- by apply Hothers.
        -- rewrite Hc1 in Hearly. simpl in *. lia.
        -- rewrite Hc1 in Hearly. simpl in *. lia.
      * intros t Hin0. specialize (Hnext t Hin0). lia.
      * destruct Hlast as [?|(? & ? & ?)]; [by left|right].
        split_and!; [done..|lia].
Qed.

Lemma nothing_to_see_set_now sid first x w :
  (now w ≤ x)%Z → nothing_to_see sid first w → nothing_to_see sid first (set_now x w).
Proof.
  intros Hx (Hun & Hsg & Hact & Hothers & Hnext & Hlast).
  unfold nothing_to_see. fields. split_and!; try done.
  - intros t Hin0. specialize (Hnext t Hin0). lia.
  - destruct Hlast as [?|(? & ? & ?)]; [by left|right].
    split_and!; [done..|lia].
Qed.

(** While there is nothing to see, the timers run and the poll goes on. *)
Lemma run_until_nothing_to_see faults ties sid first T w :
  poll_inv sid w → nothing_to_see sid first w →
  ∃ fuel w', run_until faults ties fuel T w = Some w'
             ∧ poll_inv sid w' ∧ nothing_to_see sid first w'.
Proof.
  intros Hinv H0.
  destruct (run_until_poll faults ties sid T w Hinv) as (fuel & w' & Hrun & Hinv').
  exists fuel, w'. split; [done|].
  apply (run_until_invariant faults ties
           (λ w, poll_inv sid w ∧ nothing_to_see sid first w))
    with (fuel := fuel) (T := T) (w := w); [| |by auto|done].
  - intros tm w1 [Hp Hc] He. split; [by apply (fire_poll faults ties)|].
    by apply (blind_step faults ties sid first tm w1).
  - intros T' w1 [Hp Hc] Hdue. split; [by apply poll_inv_set_now|].
    apply nothing_to_see_set_now; [lia|done].
Qed.

Lemma nothing_to_see_start faults (loading : bool) p sid :
  unmarked_root (boot p) = None →
  with_handle sid (timers (world_of (script_load faults loading (boot p))))
  = [interval_timer sid 0] →
  with_handle (S sid) (timers (world_of (script_load faults loading (boot p))))
  = [abandon_timer sid] →
  trace (world_of (script_load faults loading (boot p)))
  = (if loading then [] else [(0%Z, InitUI)]) →
  unmarked_root (world_of (script_load faults loading (boot p)))
  = unmarked_root (boot p) →
  (∀ tm, tm ∈ timers (world_of (script_load faults loading (boot p))) →
         handle tm ≠ sid → handle tm ≠ S sid →
         (due tm ≤ latest (callback tm))%Z) →
  now (world_of (script_load faults loading (boot p))) = 0%Z →
  nothing_to_see sid (if loading then [] else [0%Z])
    (world_of (script_load faults loading (boot p))).
Proof.
  intros Hun Hi Hab Htr Hun0 Hprompt Hn.
  unfold nothing_to_see, sightings, activations.
  rewrite Htr, Hun0, Hun, Hi, Hn.
  split_and!; [done|by destruct loading..|done| |by left].
  intros t Ht%list_elem_of_singleton. subst t. simpl. lia.
Qed.

Lemma latest_one_shot tm : one_shot tm → (latest (callback tm) ≤ 650)%Z.
Proof. intros (_ & H1 & H2). destruct (callback tm); simpl; done || lia. Qed.

(** X17.  An app root that never shows up lets the poll run out, and then
    the script is at rest.  When the document has no app root, or one that
    carries the marker already, and the host does nothing, then from 10 s
    after loading on, whatever throws inside [initUI] and in whatever order
    the host runs timers that are due at the same time: the poll has ticked
    every 500 ms from 500 ms to 9.5 s, and once more at 10 s if the host
    ran that tick before the timeout, which is due at the same time; it has
    seen nothing; [initUI] has run at load time only (not at all when the
    document was still loading); and no timer is pending. *)
Theorem poll_runs_out (faults : nat → World → option string)
    (ties : Timer → Timer → bool)
    (loading : bool) (p : Page) (T : Z) :
  unmarked_root (boot p) = None →
  (10000 ≤ T)%Z →
  ∃ fuel0 w,
    (∀ fuel, (fuel0 ≤ fuel)%nat →
             run_until faults ties fuel T
               (world_of (script_load faults loading (boot p))) = Some w)
    ∧ (poll_ticks w = ticks_upto 19 ∨ poll_ticks w = ticks_upto 20)
    ∧ sightings w = []
    ∧ activations w = (if loading then [] else [0%Z])
    ∧ timers w = [].
Proof.
  intros Hun HT.
  destruct (poll_start_state faults loading p)
    as (sid & Hinv & Hi & Hab & Htr & Hun0 & Hprompt & Hn).
  pose proof (nothing_to_see_start faults loading p sid Hun Hi Hab Htr Hun0
                Hprompt Hn) as H0.
  set (w0 := world_of (script_load faults loading (boot p))) in *.
  set (first := if loading then [] else [0%Z]) in *.
  destruct (run_until_nothing_to_see faults ties sid first T w0 Hinv H0)
    as (fuel & w & Hrun & Hinv' & Hw).
  destruct (run_until_done _ _ _ _ _ _ Hrun) as (_ & _ & Hdue).
  exists fuel, w. split.
  { intros fuel' Hfuel. by apply (run_until_more_fuel faults ties fuel). }
  destruct Hw as (_ & Hsg & Hact & Hothers & _ & Hlast).
  destruct Hlast as [Hab'|(Hticks & Hn' & _)].
  { assert (abandon_timer sid ∈ with_handle (S sid) (timers w)) as H
        by (rewrite Hab'; left).
    apply list_elem_of_filter in H as [_ H]. specialize (Hdue _ H).
    simpl in Hdue. lia. }
  split_and!; [done..|].
  destruct Hinv' as [(_ & _ & Hshot & _) (k & _ & _ & Hph)].
  destruct (timers w) as [|tm ts] eqn:Hts; [done|].
  assert (tm ∈ timers w) as Hin by (rewrite Hts; left).
  rewrite <- Hts in *.
  destruct (decide (handle tm = sid)) as [H1|H1].
  { pose proof (with_handle_elem _ _ _ Hin H1) as Hin'.
    rewrite Hn' in Hin'. by apply elem_of_nil in Hin'. }
  destruct (decide (handle tm = S sid)) as [H2|H2].
  { pose proof (with_handle_elem _ _ _ Hin H2) as Hin'.
    destruct Hph as [(Hi' & _)|(_ & [(_ & Hab' & _)|(Hsg' & _)])].
    - by rewrite Hn' in Hi'.
    - rewrite Hab' in Hin'. by apply elem_of_nil in Hin'.
    - by rewrite Hsg' in Hsg. }
  specialize (Hothers tm Hin H1 H2). specialize (Hdue tm Hin).
  pose proof (latest_one_shot tm (Hshot tm Hin H1 H2)). lia.
Qed.

Lemma poll_runs_out_witness :
  ∃ fuel0 w,
    (∀ fuel, (fuel0 ≤ fuel)%nat →
             run_until no_faults higher_handle_first fuel 12345
               (world_of (script_load no_faults false (boot (page_of nested []))))
             = Some w)
    ∧ (poll_ticks w = ticks_upto 19 ∨ poll_ticks w = ticks_upto 20)
    ∧ sightings w = []
    ∧ activations w = [0%Z]
    ∧ timers w = [].
Proof.
  refine (poll_runs_out no_faults higher_handle_first false
            (page_of nested []) 12345 _ _).
  - reflexivity.
  - lia.
Defined.

(** *** An app root that the host renders later *)

Lemma page_observer_callback records w :
  page (observer_callback records w) = page w.
Proof.
  unfold observer_callback. destruct (mutationObserver w) as [o|]; [|done].
  destruct (connected o && shouldEnhance records); [|done].
  apply page_executedFunction.
Qed.

Lemma trace_observer_callback records w :
  trace (observer_callback records w) = trace w.
Proof.
  unfold observer_callback. destruct (mutationObserver w) as [o|]; [|done].
  destruct (connected o && shouldEnhance records); [|done].
  apply trace_executedFunction.
Qed.

(** A run of the timers has one result, whatever the fuel. *)
Lemma run_until_functional faults ties fuel fuel' T w w1 w2 :
  run_until faults ties fuel T w = Some w1 →
  run_until faults ties fuel' T w = Some w2 → w1 = w2.
Proof.
  intros H1 H2.
  pose proof (run_until_more_fuel faults ties fuel (fuel `max` fuel') T w w1 H1
                ltac:(lia)) as H1'.
  pose proof (run_until_more_fuel faults ties fuel' (fuel `max` fuel') T w w2 H2
                ltac:(lia)) as H2'.
  congruence.
Qed.

(** X18.  The poll does what it is there for.  When the document has no
    unmarked app root at load time and the host does nothing until, at some
    time [t0] in the first 9.5 s, it changes the document that the script
    has made of it by then into one with an unmarked app root, then,
    whatever throws inside [initUI], whatever else the batch of mutation
    records makes the observer do and in whatever order the host runs
    timers that are due at the same time: the next tick of the poll, less
    than 500 ms later, sights the root, sets the marker and enters
    [initUI]; that tick is the poll's last. *)
Theorem poll_sees_late_root (faults : nat → World → option string)
    (ties : Timer → Timer → bool)
    (loading : bool) (p : Page) (t0 : Z) (change : Element → Element)
    (moved : Path → option Path) (records : list MutationRecord) (T : Z) :
  unmarked_root (boot p) = None →
  (0 ≤ t0 < 9500)%Z →
  (∀ fuel w1,
      run_until faults ties fuel t0
        (world_of (script_load faults loading (boot p))) = Some w1 →
      is_Some (unmarked_root
                 (on_page (λ q, set_document (change (document q)) q) w1))) →
  (t0 + 500 ≤ T)%Z →
  ∃ fuel0 w k,
    (∀ fuel, (fuel0 ≤ fuel)%nat →
             simulate faults ties fuel [(t0, Mutate change moved records)]
               (world_of (script_load faults loading (boot p)))
             ≫= run_until faults ties fuel T = Some w)
    ∧ (t0 < 500 * Z.of_nat (S k) ≤ t0 + 500)%Z
    ∧ poll_ticks w = ticks_upto (S k)
    ∧ sightings w = [(500 * Z.of_nat (S k))%Z]
    ∧ activations w
      = (if loading then [] else [0%Z]) ++ [(500 * Z.of_nat (S k))%Z]
    ∧ root_attribute initialized_marker (page w) = Some "true"
    ∧ poll_stopped w.
Proof.
  intros Hun Ht0 Hch HT.
  destruct (poll_start_state faults loading p)
    as (sid & Hinv & Hi & Hab & Htr & Hun0 & Hprompt & Hn).
  pose proof (nothing_to_see_start faults loading p sid Hun Hi Hab Htr Hun0
                Hprompt Hn) as H0.
  set (w0 := world_of (script_load faults loading (boot p))) in *.
  set (first := if loading then [] else [0%Z]) in *.
  (* up to the time of the rendering *)
  destruct (run_until_nothing_to_see faults ties sid first t0 w0 Hinv H0)
    as (fuel1 & w1 & Hrun1 & Hinv1 & Hw1).
  destruct (run_until_done _ _ _ _ _ _ Hrun1) as (_ & Hnow1 & Hdue1).
  rewrite Hn in Hnow1. specialize (Hnow1 ltac:(lia)).
  destruct Hw1 as (Hun1 & Hsg1 & Hact1 & _ & Hnext1 & Hlast1).
  destruct Hlast1 as [Hab1|(_ & _ & ?)]; [|lia].
  pose proof Hinv1 as [Hs1 (k & Hticks1 & Hk20 & Hph1)].
  destruct Hph1 as [(Hi1 & _ & _)|(_ & [(_ & Hab1' & _)|(Hsg1' & _)])];
    [|by rewrite Hab1' in Hab1|by rewrite Hsg1' in Hsg1].
  assert (interval_timer sid k ∈ with_handle sid (timers w1)) as Hint
      by (rewrite Hi1; left).
  pose proof (Hnext1 _ Hint) as Hle. cbn [interval_timer due] in Hle.
  apply list_elem_of_filter in Hint as [_ Hint].
  pose proof (Hdue1 _ Hint) as Hlt. cbn [interval_timer due] in Hlt.
  (* the rendering *)
  set (w1' := handle_event faults (Mutate change moved records) w1).
  pose proof (poll_inv_handle_event faults sid (Mutate change moved records)
                w1 Hinv1) as Hinv1'.
  fold w1' in Hinv1'.
  destruct (held_handle_event faults sid (poll_view sid w1) (now w1)
              (Mutate change moved records) w1) as (_ & Hv & _); [|done|].
  { intros mv tm. unfold poll_view; cbn [fst snd]. rewrite Hi1, Hab1.
    cbn [app]. rewrite !elem_of_cons, elem_of_nil. by intros [-> |[-> |[]]]. }
  fold w1' in Hv. unfold poll_view in Hv. injection Hv as Hv1 _ Hv3 Hv4.
  assert (trace w1' = trace w1 ∧ page w1'
          = page (on_page (λ q, set_document (change (document q)) q) w1))
    as [Htr1 Hpg1].
  { unfold w1'. cbn [handle_event].
    by rewrite trace_observer_callback, page_observer_callback. }
  assert (before_sighting sid first k w1') as Hb.
  { unfold before_sighting. rewrite Hv1, Hv3, Hv4.
    split_and!; [done|done| | |lia|done].
    - unfold activations. rewrite Htr1. exact Hact1.
    - rewrite (unmarked_root_page _ _ Hpg1). by apply (Hch fuel1). }
  (* the next tick *)
  destruct (run_until_sighting faults ties sid first k T w1' Hinv1' Hb)
    as (fuel2 & w2 & Hrun2 & (Ht2 & Hs2 & Ha2 & Hm2) & Hst2); [lia|].
  exists (fuel1 `max` fuel2)%nat, w2, k. split.
  { intros fuel Hfuel. cbn [simulate].
    rewrite (run_until_more_fuel faults ties fuel1 fuel t0 w0 w1 Hrun1) by lia.
    simpl. apply (run_until_more_fuel faults ties fuel2); [done|lia]. }
  split; [lia|]. by split_and!.
Qed.

Lemma poll_sees_late_root_witness :
  ∃ fuel0 w k,
    (∀ fuel, (fuel0 ≤ fuel)%nat →
             simulate no_faults lower_handle_first fuel
               [(1200%Z, Mutate render_app Some [])]
               (world_of (script_load no_faults false (boot (page_of blank []))))
             ≫= run_until no_faults lower_handle_first fuel 1700 = Some w)
    ∧ (1200 < 500 * Z.of_nat (S k) ≤ 1200 + 500)%Z
    ∧ poll_ticks w = ticks_upto (S k)
    ∧ sightings w = [(500 * Z.of_nat (S k))%Z]
    ∧ activations w = [0%Z] ++ [(500 * Z.of_nat (S k))%Z]
    ∧ root_attribute initialized_marker (page w) = Some "true"
    ∧ poll_stopped w.
Proof.
  refine (poll_sees_late_root no_faults lower_handle_first false
            (page_of blank []) 1200 render_app Some [] 1700 _ _ _ _).
  - reflexivity.
  - lia.
  - intros fuel w1 Hrun.
    destruct (run_until no_faults lower_handle_first 10 1200
                (world_of (script_load no_faults false (boot (page_of blank [])))))
      as [w|] eqn:Hc; [|by vm_compute in Hc].
    rewrite (run_until_functional _ _ _ _ _ _ _ _ Hrun Hc).
    vm_compute in Hc. injection Hc as <-. vm_compute. by eexists.
  - lia.
Defined.

(** ** Keys *)

Lemma keydown_fold e ls w :
  foldl (λ w l, match l with
                | OnKeydown => on_page (keydown_handler e) w
                | _ => w
                end) w ls
  = on_page (λ p, Nat.iter (keydown_listeners ls) (keydown_handler e) p) w.
Proof.
  revert w. induction ls as [|l ls IH]; intros w; simpl.
  - by destruct w.
  - destruct l; rewrite IH; try done.
    destruct w as [p ? ? ? ? ? ? ?]. unfold on_page, set_page; simpl.
    by rewrite Nat.iter_swap.
Qed.

Lemma keydown_listeners_app ls ls' :
  keydown_listeners (ls ++ ls')
  = (keydown_listeners ls + keydown_listeners ls')%nat.
Proof. induction ls as [|[] ls IH]; simpl; lia. Qed.

Lemma keydown_handler_cases e p :
  keydown_handler e p
  = if chord e
    then if decide (key e = "T") then toggleTheme p
         else if decide (key e = "S") then toggleSidebar p
         else p
    else p.
Proof.
  unfold keydown_handler, chord.
  destruct ((ctrlKey e || metaKey e) && shiftKey e); simpl; [|done].
  destruct (decide (key e = "T")) as [HT|HT].
  - rewrite (bool_decide_eq_true_2 _ HT).
    by rewrite bool_decide_eq_false_2 by (by rewrite HT).
  - rewrite (bool_decide_eq_false_2 _ HT).
    destruct (decide (key e = "S")) as [HS|HS].
    + by rewrite (bool_decide_eq_true_2 _ HS).
    + by rewrite (bool_decide_eq_false_2 _ HS).
Qed.

(** X19.  The keyboard shortcuts.  A key event is handled once for every
    keydown listener that is registered, and every run of [initUI]
    registers one more.  With Ctrl or Cmd and Shift held, the key ["T"]
    does what a click on the theme button does and the key ["S"] what a
    click on the sidebar button does; every other key event, and so a
    lower-case ["t"] or a shortcut without Shift, changes nothing at
    all. *)
Theorem keydown_shortcuts (faults : nat → World → option string)
    (e : KeyboardEvent) (w : World) :
  handle_event faults (Keydown e) w
  = on_page (λ p, Nat.iter (keydown_listeners (listeners p))
                           (keydown_handler e) p) w
  ∧ keydown_listeners (listeners (page (world_of (initUI no_faults w))))
    = S (keydown_listeners (listeners (page w)))
  ∧ (chord e = true → key e = "T" → ∀ p, keydown_handler e p = toggleTheme p)
  ∧ (chord e = true → key e = "S" → ∀ p, keydown_handler e p = toggleSidebar p)
  ∧ (chord e = false ∨ (key e ≠ "T" ∧ key e ≠ "S") →
     handle_event faults (Keydown e) w = w).
Proof.
  assert (handle_event faults (Keydown e) w
          = on_page (λ p, Nat.iter (keydown_listeners (listeners p))
                                   (keydown_handler e) p) w) as Hkey.
  { unfold handle_event, for_each_listener. rewrite keydown_fold. by destruct w. }
  split_and!; [done|..].
  - destruct (initUI_no_faults_world w) as (news & -> & _). fields.
    cbn [console_write set_console listeners addEventListener attachEventHandlers
         set_listeners].
    rewrite listeners_restore, !keydown_listeners_app; simpl. lia.
  - intros Hc Hk p. rewrite keydown_handler_cases, Hc. by rewrite decide_True.
  - intros Hc Hk p. rewrite keydown_handler_cases, Hc.
    rewrite decide_False by (by rewrite Hk). by rewrite decide_True.
  - intros Hno. rewrite Hkey.
    assert (∀ p, keydown_handler e p = p) as Hid.
    { intros p. rewrite keydown_handler_cases.
      destruct Hno as [-> |[HT HS]]; [done|].
      destruct (chord e); [|done]. by rewrite !decide_False. }
    assert (∀ n p, Nat.iter n (keydown_handler e) p = p) as Hiter.
    { induction n as [|n IH]; intros p; simpl; [done|]. by rewrite IH, Hid. }
    destruct w as [p ? ? ? ? ? ? ?]. unfold on_page, set_page; simpl.
    by rewrite Hiter.
Qed.

Lemma keydown_shortcuts_witness :
  handle_event no_faults (Keydown (mkKeyboardEvent true false true "t")) running
  = running.
Proof.
  apply (proj2 (proj2 (proj2 (proj2
    (keydown_shortcuts no_faults (mkKeyboardEvent true false true "t") running))))).
  right. by split.
Defined.

(** ** The first call of the resize handler *)

Lemma run_until_invariant_due faults ties (J : World → Prop) T :
  (∀ tm w, J w → earliest ties (timers w) = Some tm → (due tm ≤ T)%Z →
           J (fire faults tm w)) →
  (∀ w, J w → (∀ tm, tm ∈ timers w → (T < due tm)%Z) →
        J (set_now (Z.max (now w) T) w)) →
  ∀ fuel w w', J w → run_until faults ties fuel T w = Some w' → J w'.
Proof.
  intros Hfire Hnow fuel. induction fuel as [|fuel IH]; intros w w' Hw;
    rewrite run_until_unfold;
    destruct (earliest ties (timers w)) as [tm|] eqn:He.
  - case_bool_decide; [done|]. intros [= <-]. apply Hnow; [done|].
    intros t Ht. pose proof (earliest_due _ _ _ _ He Ht). lia.
  - intros [= <-]. apply Hnow; [done|]. apply earliest_None in He.
    rewrite He. by intros t ?%elem_of_nil.
  - case_bool_decide.
    + apply IH. by apply Hfire.
    + intros [= <-]. apply Hnow; [done|].
      intros t Ht. pose proof (earliest_due _ _ _ _ He Ht). lia.
  - intros [= <-]. apply Hnow; [done|]. apply earliest_None in He.
    rewrite He. by intros t ?%elem_of_nil.
Qed.

Lemma sidebar_mobile_mutate path f p :
  (∀ x, children (f x) = children x) →
  (∀ x, classList (f x) = classList x) →
  sidebar_mobile (mutate path f p) = sidebar_mobile p.
Proof.
  intros Hch Hcl. unfold sidebar_mobile, mutate; simpl.
  rewrite querySelector_update;
    [|done|intros x; destruct CONFIG.selectors.sidebar; simpl; by rewrite Hcl].
  destruct (querySelector _ _) as [s|]; simpl; [|done].
  pose proof (get_update_field classList s path f (document p) Hch Hcl
                (λ _ _, eq_refl)) as H.
  destruct (get s (update _ _ _)) as [y|], (get s (document p)) as [x|];
    simplify_eq/=; [|done]. by rewrite H.
Qed.

(** The resize handler makes the sidebar [mobile] or not as the width of
    the window says. *)
Lemma sidebar_mobile_handleResize_func p :
  sidebar_mobile (handleResize_func p)
  = (λ _, bool_decide (innerWidth p ≤ 768)%Z) <$> sidebar_mobile p.
Proof.
  destruct (querySelector CONFIG.selectors.sidebar (document p)) as [s|] eqn:Hs.
  2:{ rewrite handleResize_func_absent by done. unfold sidebar_mobile.
      by rewrite Hs. }
  unfold sidebar_mobile. unfold CONFIG.selectors.sidebar in *.
  rewrite querySelector_handleResize_func by done. rewrite Hs; simpl.
  rewrite (handleResize_func_present _ _ Hs); simpl. rewrite get_update.
  destruct (get s (document p)) as [x|]; simpl; [|done]. f_equal.
  case_bool_decide.
  - rewrite contains_classList_add. by rewrite bool_decide_eq_true_2, orb_true_r.
  - rewrite contains_classList_remove.
    by rewrite bool_decide_eq_true_2, andb_false_r.
Qed.

Lemma innerWidth_restore p : innerWidth (restore p) = innerWidth p.
Proof.
  unfold restore, enhanceNewElements; simpl.
  assert (∀ q, innerWidth (applySavedSidebarState q) = innerWidth q) as H1.
  { intros q. unfold applySavedSidebarState.
    destruct (querySelector CONFIG.selectors.sidebar _); [|done].
    destruct (querySelector CONFIG.selectors.app _); [|done].
    by case_bool_decide. }
  rewrite H1.
  destruct (querySelector CONFIG.selectors.app (document p)) as [a|] eqn:Ha.
  - by rewrite (setTheme_present _ _ _ Ha).
  - by rewrite (setTheme_absent _ _ Ha).
Qed.

Lemma resize_calls_trace w w' l :
  trace w' = trace w ++ l →
  resize_calls w' = resize_calls w ++ resize_calls (set_trace l w).
Proof. intros H. unfold resize_calls. by rewrite H, omap_app. Qed.

Lemma with_handle_filter_other s g ts :
  g ≠ s → with_handle s (filter (λ t, handle t ≠ g) ts) = with_handle s ts.
Proof. intros Hne. apply (with_handle_drop s (Some g)). congruence. Qed.

(** What a step of a progress bar's animation leaves alone. *)
Lemma fire_progress faults tm w :
  period tm = None →
  (∃ bar, callback tm = ShowProgress bar) ∨ (∃ bar, callback tm = FadeProgress bar) →
  ∃ news,
    timers (fire faults tm w)
    = filter (λ t, handle t ≠ handle tm) (timers w) ++ news
    ∧ (∀ t, t ∈ news → handle t = next_handle w
                       ∧ ∃ bar, callback t = FadeProgress bar)
    ∧ closures (fire faults tm w) = closures w
    ∧ (next_handle w ≤ next_handle (fire faults tm w))%nat
    ∧ resize_calls (fire faults tm w) = resize_calls w
    ∧ sidebar_mobile (page (fire faults tm w)) = sidebar_mobile (page w)
    ∧ innerWidth (page (fire faults tm w)) = innerWidth (page w).
Proof.
  intros Hp Hkind.
  assert (harmless w tm) as Hh.
  { split; [done|]. destruct Hkind; auto. }
  destruct (fire_harmless faults tm w Hh)
    as (g & news & _ & _ & Hnews & Hcl & Hnh & _).
  assert (resize_calls (fire faults tm w) = resize_calls w) as Hrc.
  { rewrite (resize_calls_trace _ _ _ (trace_fire faults tm w)).
    destruct Hkind as [[bar ->]|[bar ->]]; by rewrite app_nil_r. }
  assert (sidebar_mobile (page (fire faults tm w)) = sidebar_mobile (page w)
          ∧ innerWidth (page (fire faults tm w)) = innerWidth (page w)) as [HM HW].
  { rewrite fire_unfold. set (w3 := record _ _).
    assert (page w3 = page w) as <- by done. clearbody w3.
    destruct Hkind as [[bar ->]|[bar ->]];
      apply (progress_page
               (λ q, sidebar_mobile q = sidebar_mobile (page w3)
                     ∧ innerWidth q = innerWidth (page w3)) faults bar w3);
      try done;
      intros b k v q [<- <-]; (split; [by apply sidebar_mobile_mutate|done]). }
  assert (∃ news',
            timers (fire faults tm w)
            = filter (λ t, handle t ≠ handle tm) (timers w) ++ news'
            ∧ (∀ t, t ∈ news' → handle t = next_handle w
                                ∧ ∃ bar, callback t = FadeProgress bar))
    as (news' & Ht & Hn').
  { unfold fire, reschedule. rewrite Hp.
    destruct Hkind as [[bar Hcb]|[bar Hcb]]; rewrite Hcb;
      cbn [run_callback run0 world_of].
    - unfold show_progress, setTimeout, add_timer. cbn [snd].
      eexists [_]. split.
      + destruct bar; fields; reflexivity.
      + intros t ->%list_elem_of_singleton. destruct bar; simpl; eauto.
    - unfold fade_progress. exists []. split.
      + rewrite app_nil_r. by destruct bar.
      + by intros t ?%elem_of_nil. }
  exists news'. split_and!; try done. lia.
Qed.

(** What is pending in a world of the poll is due at 500 ms or later, or
    is a one-shot timer of a debounced call or of a progress bar. *)
Lemma timer_kinds sid w tm :
  poll_inv sid w → tm ∈ timers w →
  (500 ≤ due tm)%Z
  ∨ (period tm = None
     ∧ ((∃ c, callback tm = Later c)
        ∨ (∃ bar, callback tm = ShowProgress bar)
        ∨ (∃ bar, callback tm = FadeProgress bar))).
Proof.
  intros [(_ & _ & Hshot & _) (k & _ & _ & Hph)] Hin.
  destruct (decide (handle tm = sid)) as [H1|H1].
  { left. pose proof (with_handle_elem _ _ _ Hin H1) as Hin'.
    destruct Hph as [(Hi & _)|(Hi & _)]; rewrite Hi in Hin'.
    - apply list_elem_of_singleton in Hin' as ->. simpl. lia.
    - by apply elem_of_nil in Hin'. }
  destruct (decide (handle tm = S sid)) as [H2|H2].
  { left. pose proof (with_handle_elem _ _ _ Hin H2) as Hin'.
    assert (with_handle (S sid) (timers w) = [abandon_timer sid]
            ∨ with_handle (S sid) (timers w) = []) as [Hab|Hab].
    { destruct Hph as [(_ & ? & _)|(_ & [(_ & ? & _)|(_ & _ & [?|?])])]; auto. }
    - rewrite Hab in Hin'. apply list_elem_of_singleton in Hin' as ->.
      simpl. lia.
    - rewrite Hab in Hin'. by apply elem_of_nil in Hin'. }
  right. destruct (Hshot tm Hin H1 H2) as (Hp & Hc1 & Hc2). split; [done|].
  destruct (callback tm); try done; eauto.
Qed.

Section FirstResize.
Context (faults : nat → World → option string) (ties : Timer → Timer → bool).
Context (sid h : nat) (m : option bool) (width : Z).

Lemma resize_done_step tm w :
  poll_inv sid w → earliest ties (timers w) = Some tm → (due tm < 500)%Z →
  resize_done m width w → resize_done m width (fire faults tm w).
Proof.
  intros Hinv He Hdue (Hno & Hrc & HM).
  pose proof (earliest_elem _ _ _ He) as Hin.
  destruct (timer_kinds sid w tm Hinv Hin) as [?|(Hp & [[c Hc]|Hkind])]; [lia| |].
  { by destruct (Hno tm Hin c). }
  destruct (fire_progress faults tm w Hp Hkind)
    as (news & Ht & Hnews & _ & _ & Hrc' & HM' & _).
  unfold resize_done. rewrite Ht, Hrc', HM'.
  split_and!; [|done..].
  intros t [[_ Hin']%list_elem_of_filter|Hin']%elem_of_app c; [by apply Hno|].
  destruct (Hnews t Hin') as (_ & bar & ->). done.
Qed.

Lemma resize_pending_step tm w :
  poll_inv sid w → earliest ties (timers w) = Some tm → (due tm < 500)%Z →
  resize_pending h m width w →
  (handle tm ≠ h ∧ resize_pending h m width (fire faults tm w))
  ∨ (due tm = 250%Z ∧ resize_done m width (fire faults tm w)).
Proof.
  intros Hinv He Hdue (Hcl & Hwh & Hno & Hh & Hrc & HM & HW).
  pose proof (earliest_elem _ _ _ He) as Hin.
  destruct (decide (handle tm = h)) as [Heq|Hne].
  - (* the [later] of the resize handler *)
    right. pose proof (with_handle_elem _ _ _ Hin Heq) as Hin'.
    rewrite Hwh in Hin'. apply list_elem_of_singleton in Hin'. subst tm.
    split; [done|].
    destruct Hinv as [(_ & _ & _ & _ & _ & Hover) _].
    pose proof (Hover _ Hin) as Hnow. cbn [due] in Hnow.
    rewrite (fire_later faults (mkTimer h 250 None (Later 1)) 1 _ w
               eq_refl eq_refl Hcl).
    cbn [call_func func]. unfold resize_done. fields.
    cbn [due handle timeout]. split_and!.
    + intros t Ht%drop_elem_of c.
      apply list_elem_of_filter in Ht as [Hth Ht]. by apply Hno.
    + unfold resize_calls in *. fields. rewrite omap_app, Hrc. simpl.
      by rewrite Z.max_r.
    + by rewrite sidebar_mobile_handleResize_func, HM, HW.
  - (* a step of a progress bar *)
    left. split; [done|].
    destruct (timer_kinds sid w tm Hinv Hin) as [?|(Hp & [[c Hc]|Hkind])]; [lia| |].
    { by destruct (Hno tm Hin Hne c). }
    destruct (fire_progress faults tm w Hp Hkind)
      as (news & Ht & Hnews & Hcl' & Hnh & Hrc' & HM' & HW').
    unfold resize_pending. rewrite Ht, Hcl', Hrc', HM', HW'.
    split_and!; [done| | |lia|done..].
    + rewrite with_handle_app, with_handle_filter_other, Hwh by done.
      rewrite (with_handle_fresh h news); [done|].
      intros t Hin'. destruct (Hnews t Hin') as [-> _]. lia.
    + intros t [[_ Hin']%list_elem_of_filter|Hin']%elem_of_app Hth c;
        [by apply Hno|].
      destruct (Hnews t Hin') as (_ & bar & ->). done.
Qed.

End FirstResize.

(** The world the script leaves when it is loaded with the document ready
    and nothing throws: the first call of the resize handler is pending. *)
Lemma resize_pending_start p :
  ∃ h, resize_pending h
         (sidebar_mobile (page (world_of (script_load no_faults false (boot p)))))
         (innerWidth p)
         (world_of (script_load no_faults false (boot p))).
Proof.
  rewrite script_load_unfold. cbv zeta. cbn [world_of].
  destruct (initUI_no_faults_world (on_page (addEventListener OnBeforeUnload) (boot p)))
    as (news & -> & Hs & _).
  exists (S (length news)).
  unfold setTimeout, setInterval, add_timer. cbn [snd fst]. fields.
  unfold resize_pending. fields.
  simpl in Hs.
  split_and!.
  - done.
  - rewrite !with_handle_app.
    rewrite (with_handle_fresh (S (length news)) news).
    2:{ intros tm Hin.
        destruct (progress_timers_elem _ _ _ _ Hs Hin) as (i & b & Hi & ->).
        simpl. lia. }
    unfold with_handle. rewrite filter_cons_True by done.
    rewrite !filter_nil, !filter_cons_False, !filter_nil by (simpl; lia).
    done.
  - intros tm Hin Hne c. cbn [boot timers app] in Hin.
    rewrite !elem_of_app, !list_elem_of_singleton in Hin.
    destruct Hin as [[[Hin| ->]| ->]| ->]; [|done..].
    by destruct (progress_timers_elem _ _ _ _ Hs Hin) as (i & b & Hi & ->).
  - lia.
  - done.
  - done.
  - cbn [console_write set_console addEventListener attachEventHandlers
         set_listeners innerWidth]. by rewrite innerWidth_restore.
Qed.

(** X20.  The call [handleResize()] that ends [initUI] is debounced like
    every other.  When the script is loaded with the document ready and
    nothing throws, then, whatever the progress bars of the first pass do
    in the meantime and in whatever order the host runs timers that are due
    at the same time: in the first 250 ms the resize handler has not been
    called and the sidebar is [mobile] or not as [initUI] left it; from
    250 ms on (and before the poll's first tick) the handler has been
    called once, at 250 ms, and the sidebar, if there is one, has the class
    [mobile] exactly when the window is at most 768 px wide. *)
Theorem first_resize_is_deferred (ties : Timer → Timer → bool) (p : Page) (T : Z) :
  let w0 := world_of (script_load no_faults false (boot p)) in
  ((0 ≤ T < 250)%Z →
   ∃ fuel0 w,
     (∀ fuel, (fuel0 ≤ fuel)%nat → run_until no_faults ties fuel T w0 = Some w)
     ∧ resize_calls w = []
     ∧ sidebar_mobile (page w) = sidebar_mobile (page w0))
  ∧ ((250 ≤ T < 500)%Z →
     ∃ fuel0 w,
       (∀ fuel, (fuel0 ≤ fuel)%nat → run_until no_faults ties fuel T w0 = Some w)
       ∧ resize_calls w = [250%Z]
       ∧ sidebar_mobile (page w)
         = (λ _, bool_decide (innerWidth p ≤ 768)%Z) <$> sidebar_mobile (page w0)).
Proof.
  intros w0.
  destruct (poll_start_state no_faults false p) as (sid & Hinv & _).
  destruct (resize_pending_start p) as (h & Hpend).
  fold w0 in Hinv, Hpend.
  set (m := sidebar_mobile (page w0)) in *.
  destruct (run_until_poll no_faults ties sid T w0 Hinv) as (fuel & w & Hrun & _).
  destruct (run_until_done _ _ _ _ _ _ Hrun) as (_ & _ & Hlate).
  split; intros HT; exists fuel, w;
    (split; [intros fuel' Hfuel;
             by apply (run_until_more_fuel no_faults ties fuel)|]).
  - assert (poll_inv sid w ∧ resize_pending h m (innerWidth p) w)
      as [_ (_ & _ & _ & _ & ? & ? & _)]; [|done].
    apply (run_until_invariant_due no_faults ties
             (λ w, poll_inv sid w ∧ resize_pending h m (innerWidth p) w) T)
      with (fuel := fuel) (w := w0); [| |done|done].
    + intros tm w1 [Hp Hc] He Hdue.
      split; [by apply (fire_poll no_faults ties)|].
      destruct (resize_pending_step no_faults ties sid h m (innerWidth p) tm w1)
        as [[_ ?]|[? _]]; [done|done|lia|done|done|lia].
    + intros w1 [Hp Hc] Hdue. split; [by apply poll_inv_set_now|done].
  - assert (poll_inv sid w
            ∧ (resize_pending h m (innerWidth p) w
               ∨ resize_done m (innerWidth p) w)) as [_ [Hc|Hc]].
    { apply (run_until_invariant_due no_faults ties
               (λ w, poll_inv sid w
                     ∧ (resize_pending h m (innerWidth p) w
                        ∨ resize_done m (innerWidth p) w)) T)
        with (fuel := fuel) (w := w0); [| |by auto|done].
      - intros tm w1 [Hp [Hc|Hc]] He Hdue;
          (split; [by apply (fire_poll no_faults ties)|]).
        + destruct (resize_pending_step no_faults ties sid h m (innerWidth p)
                      tm w1) as [[_ ?]|[_ ?]]; [done|done|lia|done|by left|by right].
        + right. apply (resize_done_step no_faults ties sid); [done|done|lia|done].
      - intros w1 [Hp Hc] Hdue. split; [by apply poll_inv_set_now|done]. }
    + destruct Hc as (_ & Hwh & _).
      assert (mkTimer h 250 None (Later 1) ∈ with_handle h (timers w)) as Hin
          by (rewrite Hwh; left).
      apply list_elem_of_filter in Hin as [_ Hin]. specialize (Hlate _ Hin).
      simpl in Hlate. lia.
    + by destruct Hc as (_ & ? & ?).
Qed.

Lemma first_resize_is_deferred_witness :
  ∃ fuel0 w,
    (∀ fuel, (fuel0 ≤ fuel)%nat →
             run_until no_faults lower_handle_first fuel 300
               (world_of (script_load no_faults false
                            (boot (mkPage dashboard ∅ [] [] [] false 600))))
             = Some w)
    ∧ resize_calls w = [250%Z]
    ∧ sidebar_mobile (page w)
      = (λ _, bool_decide (600 ≤ 768)%Z)
          <$> sidebar_mobile
                (page (world_of (script_load no_faults false
                                   (boot (mkPage dashboard ∅ [] [] [] false 600))))).
Proof.
  apply (proj2 (first_resize_is_deferred lower_handle_first
                  (mkPage dashboard ∅ [] [] [] false 600) 300)).
  lia.
Defined.

(** On the dashboard, 600 px wide, with motion not reduced: the two
    progress bars take their first step at 100 ms, the resize handler is
    called at 250 ms and makes the sidebar [mobile]. *)
Example first_resize_after_bars :
  let w0 := world_of (script_load no_faults false
                        (boot (mkPage dashboard ∅ [] [] [] false 600))) in
  (sidebar_mobile (page w0) = Some false
   ∧ (λ w, (trace w, sidebar_mobile (page w)))
       <$> run_until no_faults lower_handle_first 30 200 w0
     = Some ([(0, InitUI); (100, TimerFired (ShowProgress (Some [0; 0; 1; 2]%nat)));
              (100, TimerFired (ShowProgress (Some [0; 0; 2; 1]%nat)))]%Z,
             Some false))
  ∧ (λ w, (resize_calls w, sidebar_mobile (page w)))
      <$> run_until no_faults lower_handle_first 30 300 w0
    = Some ([250%Z], Some true).
Proof. vm_compute. done. Qed.

(** ** Storage and attribute agree on the theme *)

Lemma root_attribute_handleResize_func k p :
  root_attribute k (handleResize_func p) = root_attribute k p.
Proof.
  destruct (querySelector CONFIG.selectors.sidebar (document p)) as [s|] eqn:Hs;
    [|by rewrite handleResize_func_absent].
  rewrite (handleResize_func_present _ _ Hs).
  case_bool_decide.
  - apply root_attribute_mutate; [apply children_classList_add| |].
    + intros x. by apply matches_classList_add.
    + intros x. by rewrite attributes_classList_add.
  - apply root_attribute_mutate; [done| |done].
    intros x. by apply matches_classList_remove.
Qed.

Lemma storage_handleResize_func p :
  storage (handleResize_func p) = storage p.
Proof.
  unfold handleResize_func.
  destruct (querySelector CONFIG.selectors.sidebar _); [|done].
  by case_bool_decide.
Qed.

Lemma theme_consistent_setTheme theme p :
  is_Some (querySelector CONFIG.selectors.app (document p)) →
  theme_consistent (setTheme theme p).
Proof.
  intros [a Ha]. exists (settled theme). split_and!.
  - apply settled_in.
  - by apply (getItem_setTheme _ _ a).
  - by apply (root_attribute_setTheme _ _ a).
Qed.

Lemma theme_consistent_root p :
  theme_consistent p → is_Some (querySelector CONFIG.selectors.app (document p)).
Proof.
  intros (t & _ & _ & Hr). destruct (root_attribute_Some _ _ _ Hr) as (a & _ & -> & _).
  by eexists.
Qed.

Lemma theme_consistent_kept p q :
  getItem CONFIG.storageKeys.theme q = getItem CONFIG.storageKeys.theme p →
  root_attribute "data-theme" q = root_attribute "data-theme" p →
  theme_consistent p → theme_consistent q.
Proof. intros Hg Hr (t & ? & ? & ?). exists t. by rewrite Hg, Hr. Qed.

Lemma theme_consistent_toggleSidebar p :
  theme_consistent p → theme_consistent (toggleSidebar p).
Proof.
  apply theme_consistent_kept;
    [by apply getItem_toggleSidebar_other|by apply root_attribute_toggleSidebar].
Qed.

Lemma theme_consistent_click_handler target p :
  theme_consistent p → theme_consistent (click_handler target p).
Proof.
  intros Hp. unfold click_handler.
  assert (theme_consistent
            (if matches CONFIG.selectors.themeToggle target
             then toggleTheme p else p)) as Hq.
  { destruct (matches CONFIG.selectors.themeToggle target); [|done].
    by apply theme_consistent_setTheme, theme_consistent_root. }
  destruct (matches CONFIG.selectors.sidebarToggle target); [|done].
  by apply theme_consistent_toggleSidebar.
Qed.

Lemma theme_consistent_keydown_handler e p :
  theme_consistent p → theme_consistent (keydown_handler e p).
Proof.
  intros Hp. rewrite keydown_handler_cases.
  destruct (chord e); [|done].
  destruct (decide (key e = "T"));
    [by apply theme_consistent_setTheme, theme_consistent_root|].
  destruct (decide (key e = "S")); [|done].
  by apply theme_consistent_toggleSidebar.
Qed.

Lemma theme_consistent_call_func f w :
  theme_consistent (page w) → theme_consistent (page (call_func f w)).
Proof.
  rewrite page_call_func. destruct f.
  - apply theme_consistent_kept; [done|apply root_attribute_enhanceNewElements].
  - apply theme_consistent_kept; [|apply root_attribute_handleResize_func].
    unfold getItem. by rewrite storage_handleResize_func.
Qed.

Lemma theme_consistent_later c w :
  theme_consistent (page w) → theme_consistent (page (later c w)).
Proof.
  destruct (page_later c w) as [-> |[f ->]]; [done|].
  apply theme_consistent_call_func.
Qed.

Lemma theme_consistent_initUI faults w :
  theme_consistent (page w) → theme_consistent (page (world_of (initUI faults w))).
Proof.
  apply (initUI_preserves faults (λ w', theme_consistent (page w'))); try done.
  - intros w' Hw'; simpl. by apply theme_consistent_setTheme, theme_consistent_root.
  - intros w'; simpl. apply theme_consistent_kept.
    + unfold getItem. by rewrite storage_applySavedSidebarState.
    + by apply root_attribute_applySavedSidebarState.
  - intros w'. rewrite page_enhanceNewElements_timed.
    apply theme_consistent_kept; [done|apply root_attribute_enhanceNewElements].
  - intros c w'. by rewrite page_executedFunction.
Qed.

Lemma theme_consistent_fire faults tm w :
  theme_consistent (page w) → theme_consistent (page (fire faults tm w)).
Proof.
  intros Hw. rewrite fire_unfold. set (w3 := record _ _).
  assert (theme_consistent (page w3)) as Hw3 by done. clearbody w3.
  destruct (callback tm) as [c| | |bar|bar].
  4,5: apply (progress_page theme_consistent faults bar w3); [|done];
       intros b k v p; apply theme_consistent_kept;
       [done|by apply root_attribute_mutate].
  all: cbn [run_callback].
  - unfold run0; cbn [world_of]. by apply theme_consistent_later.
  - rewrite poll_tick_unfold; cbn [world_of].
    destruct (unmarked_root w3) as [a|]; [|done].
    unfold after_sighting, clearInterval.
    match goal with
    | |- context [clearTimer ?h ?w'] =>
        assert (page (clearTimer h w') = page w') as -> by by destruct h
    end.
    apply theme_consistent_initUI. fields.
    revert Hw3. apply theme_consistent_kept; [done|].
    apply root_attribute_mutate; [done|done|].
    intros x; simpl. by rewrite lookup_insert_ne.
  - unfold poll_abandon, run0; cbn [world_of]. unfold clearInterval.
    by destruct (streamlitReady w3).
Qed.

(** X21.  Storage and attribute agree on the theme, and stay in agreement.
    Once [setTheme] has run on a page with an app root, the stored theme is
    a member of the theme list, [getTheme] returns it and the root carries
    it as [data-theme]; and everything the script does afterwards keeps it
    so: toggling, resetting or drawing a theme, toggling the sidebar, every
    timer that fires (debounced passes and resize handlers, the steps of
    the progress bars, the poll with its activation, whatever throws there)
    and every click, key, resize, [DOMContentLoaded] and [beforeunload]
    event. *)
Theorem theme_stays_consistent (faults : nat → World → option string) :
  (∀ theme p,
      is_Some (querySelector CONFIG.selectors.app (document p)) →
      theme_consistent (setTheme theme p))
  ∧ (∀ p, theme_consistent p →
          getTheme p ∈ CONFIG.themes
          ∧ root_attribute "data-theme" p = Some (getTheme p))
  ∧ (∀ p, theme_consistent p →
          theme_consistent (toggleTheme p)
          ∧ theme_consistent (resetTheme p)
          ∧ (∀ randomIndex, theme_consistent (randomTheme randomIndex p))
          ∧ theme_consistent (toggleSidebar p))
  ∧ (∀ tm w, theme_consistent (page w) →
             theme_consistent (page (fire faults tm w)))
  ∧ (∀ ev w, (∀ change moved records, ev ≠ Mutate change moved records) →
             theme_consistent (page w) →
             theme_consistent (page (handle_event faults ev w))).
Proof.
  split_and!.
  - apply theme_consistent_setTheme.
  - intros p (t & Hin & Hg & Hr).
    assert (getTheme p = t) as ->; [|done].
    unfold getTheme. rewrite Hg; simpl. destruct (decide (t = "")) as [->|]; [|done].
    unfold CONFIG.themes in Hin. rewrite !elem_of_cons, elem_of_nil in Hin.
    by destruct Hin as [|[|[|]]].
  - intros p Hp. pose proof (theme_consistent_root p Hp) as Ha.
    split_and!.
    + by apply theme_consistent_setTheme.
    + by apply theme_consistent_setTheme.
    + intros randomIndex. by apply theme_consistent_setTheme.
    + by apply theme_consistent_toggleSidebar.
  - apply theme_consistent_fire.
  - intros ev w Hev Hw.
    destruct ev as [ch mv recs|width| |target|e|]; cbn [handle_event].
    + by destruct (Hev ch mv recs).
    + apply (for_each_listener_invariant (λ w, theme_consistent (page w)));
        [|done].
      intros l w' Hw'. destruct l; try done. by rewrite page_executedFunction.
    + apply (for_each_listener_invariant (λ w, theme_consistent (page w)));
        [|done].
      intros l w' Hw'. destruct l; try done. by apply theme_consistent_initUI.
    + apply (for_each_listener_invariant (λ w, theme_consistent (page w)));
        [|done].
      intros l w' Hw'. destruct l; try done.
      by apply theme_consistent_click_handler.
    + apply (for_each_listener_invariant (λ w, theme_consistent (page w)));
        [|done].
      intros l w' Hw'. destruct l; try done.
      by apply theme_consistent_keydown_handler.
    + apply (for_each_listener_invariant (λ w, theme_consistent (page w)));
        [|done].
      intros l w' Hw'. destruct l; try done.
      by destruct (cleanup_fields w') as (-> & _).
Qed.

Lemma theme_stays_consistent_witness :
  theme_consistent (setTheme "Dark" (page_of dashboard [])).
Proof.
  apply (proj1 (theme_stays_consistent no_faults)). by eexists.
Defined.

(** ** Class, attribute and storage agree on the sidebar *)

Lemma sidebar_collapsed_handleResize_func p :
  sidebar_collapsed (handleResize_func p) = sidebar_collapsed p.
Proof.
  destruct (querySelector CONFIG.selectors.sidebar (document p)) as [s|] eqn:Hs;
    [|by rewrite handleResize_func_absent].
  unfold sidebar_collapsed. unfold CONFIG.selectors.sidebar in *.
  rewrite querySelector_handleResize_func by done. rewrite Hs; simpl.
  rewrite (handleResize_func_present _ _ Hs); simpl. rewrite get_update.
  destruct (get s (document p)) as [x|]; simpl; [|done]. f_equal.
  case_bool_decide.
  - rewrite contains_classList_add. by rewrite bool_decide_eq_false_2, orb_false_r.
  - rewrite contains_classList_remove.
    by rewrite bool_decide_eq_false_2, andb_true_r.
Qed.

Lemma sidebar_consistent_kept p q :
  sidebar_collapsed q = sidebar_collapsed p →
  root_attribute "data-sidebar-collapsed" q
  = root_attribute "data-sidebar-collapsed" p →
  getItem CONFIG.storageKeys.sidebarCollapsed q
  = getItem CONFIG.storageKeys.sidebarCollapsed p →
  sidebar_consistent p → sidebar_consistent q.
Proof. intros Hc Hr Hg (b & ? & ? & ?). exists b. by rewrite Hc, Hr, Hg. Qed.

Lemma sidebar_consistent_toggleSidebar p :
  is_Some (querySelector CONFIG.selectors.sidebar (document p)) →
  is_Some (querySelector CONFIG.selectors.app (document p)) →
  sidebar_consistent (toggleSidebar p).
Proof.
  intros [s Hs] [a Ha]. destruct (sidebar_collapsed_present _ _ Hs) as [c Hc].
  destruct (toggleSidebar_effect _ _ _ _ Hs Ha Hc) as (_ & _ & ? & ? & ?).
  by exists (negb c).
Qed.

Lemma sidebar_consistent_present p :
  sidebar_consistent p →
  is_Some (querySelector CONFIG.selectors.sidebar (document p))
  ∧ is_Some (querySelector CONFIG.selectors.app (document p)).
Proof.
  intros (b & Hc & Hr & _).
  destruct (sidebar_collapsed_Some _ _ Hc) as (s & _ & -> & _).
  destruct (root_attribute_Some _ _ _ Hr) as (a & _ & -> & _).
  split; by eexists.
Qed.

Lemma sidebar_consistent_setTheme theme p :
  sidebar_consistent p → sidebar_consistent (setTheme theme p).
Proof.
  apply sidebar_consistent_kept.
  - apply sidebar_collapsed_setTheme.
  - by apply root_attribute_setTheme_other.
  - by apply getItem_setTheme_other.
Qed.

Lemma sidebar_consistent_applySavedSidebarState p :
  sidebar_consistent p → sidebar_consistent (applySavedSidebarState p).
Proof.
  intros Hp. pose proof Hp as (b & Hc & Hr & Hg).
  destruct b; [|rewrite applySavedSidebarState_other; [done|by rewrite Hg]].
  destruct (sidebar_consistent_present p Hp) as [[s Hs] [a Ha]].
  destruct (applySavedSidebarState_collapses p s a Hg Hs Ha) as (_ & _ & ? & ?).
  exists true. split_and!; [done..|].
  unfold getItem. by rewrite storage_applySavedSidebarState.
Qed.

Lemma sidebar_consistent_enhanceNewElements p :
  sidebar_consistent p → sidebar_consistent (enhanceNewElements p).
Proof.
  apply sidebar_consistent_kept;
    [apply sidebar_collapsed_enhanceNewElements
    |apply root_attribute_enhanceNewElements|done].
Qed.

Lemma sidebar_consistent_handleResize_func p :
  sidebar_consistent p → sidebar_consistent (handleResize_func p).
Proof.
  apply sidebar_consistent_kept.
  - apply sidebar_collapsed_handleResize_func.
  - apply root_attribute_handleResize_func.
  - unfold getItem. by rewrite storage_handleResize_func.
Qed.

Lemma sidebar_consistent_click_handler target p :
  sidebar_consistent p → sidebar_consistent (click_handler target p).
Proof.
  intros Hp. unfold click_handler.
  assert (sidebar_consistent
            (if matches CONFIG.selectors.themeToggle target
             then toggleTheme p else p)) as Hq.
  { destruct (matches CONFIG.selectors.themeToggle target); [|done].
    by apply sidebar_consistent_setTheme. }
  destruct (matches CONFIG.selectors.sidebarToggle target); [|done].
  by apply sidebar_consistent_toggleSidebar; apply sidebar_consistent_present.
Qed.

Lemma sidebar_consistent_keydown_handler e p :
  sidebar_consistent p → sidebar_consistent (keydown_handler e p).
Proof.
  intros Hp. rewrite keydown_handler_cases.
  destruct (chord e); [|done].
  destruct (decide (key e = "T")); [by apply sidebar_consistent_setTheme|].
  destruct (decide (key e = "S")); [|done].
  by apply sidebar_consistent_toggleSidebar; apply sidebar_consistent_present.
Qed.

Lemma sidebar_consistent_later c w :
  sidebar_consistent (page w) → sidebar_consistent (page (later c w)).
Proof.
  destruct (page_later c w) as [-> |[f ->]]; [done|].
  rewrite page_call_func. destruct f;
    [apply sidebar_consistent_enhanceNewElements
    |apply sidebar_consistent_handleResize_func].
Qed.

Lemma sidebar_consistent_initUI faults w :
  sidebar_consistent (page w) →
  sidebar_consistent (page (world_of (initUI faults w))).
Proof.
  apply (initUI_preserves faults (λ w', sidebar_consistent (page w')));
    try done.
  - intros w'; simpl. apply sidebar_consistent_setTheme.
  - intros w'; simpl. apply sidebar_consistent_applySavedSidebarState.
  - intros w'. rewrite page_enhanceNewElements_timed.
    apply sidebar_consistent_enhanceNewElements.
  - intros c w'. by rewrite page_executedFunction.
Qed.

Lemma sidebar_consistent_fire faults tm w :
  sidebar_consistent (page w) → sidebar_consistent (page (fire faults tm w)).
Proof.
  intros Hw. rewrite fire_unfold. set (w3 := record _ _).
  assert (sidebar_consistent (page w3)) as Hw3 by done. clearbody w3.
  destruct (callback tm) as [c| | |bar|bar].
  4,5: apply (progress_page sidebar_consistent faults bar w3); [|done];
       intros b k v p; apply sidebar_consistent_kept;
       [by apply sidebar_collapsed_mutate|by apply root_attribute_mutate|done].
  all: cbn [run_callback].
  - unfold run0; cbn [world_of]. by apply sidebar_consistent_later.
  - rewrite poll_tick_unfold; cbn [world_of].
    destruct (unmarked_root w3) as [a|]; [|done].
    unfold after_sighting, clearInterval.
    match goal with
    | |- context [clearTimer ?h ?w'] =>
        assert (page (clearTimer h w') = page w') as -> by by destruct h
    end.
    apply sidebar_consistent_initUI. fields.
    revert Hw3. apply sidebar_consistent_kept; [|  |done].
    + by apply sidebar_collapsed_mutate.
    + apply root_attribute_mutate; [done|done|].
      intros x; simpl. by rewrite lookup_insert_ne.
  - unfold poll_abandon, run0; cbn [world_of]. unfold clearInterval.
    by destruct (streamlitReady w3).
Qed.

(** X22.  Class, attribute and storage agree on the sidebar, and stay in
    agreement.  Once [toggleSidebar] has run on a page with sidebar and app
    root, the sidebar's [collapsed] class, the root's
    [data-sidebar-collapsed] and the stored string say the same; and
    everything the script does afterwards keeps it so: setting or toggling
    a theme, toggling the sidebar again, applying the saved state, every
    timer that fires (debounced passes and resize handlers, the steps of
    the progress bars, the poll with its activation, whatever throws there)
    and every click, key, resize, [DOMContentLoaded] and [beforeunload]
    event. *)
Theorem sidebar_stays_consistent (faults : nat → World → option string) :
  (∀ p, is_Some (querySelector CONFIG.selectors.sidebar (document p)) →
        is_Some (querySelector CONFIG.selectors.app (document p)) →
        sidebar_consistent (toggleSidebar p))
  ∧ (∀ p, sidebar_consistent p →
          sidebar_consistent (toggleSidebar p)
          ∧ sidebar_consistent (applySavedSidebarState p)
          ∧ (∀ theme, sidebar_consistent (setTheme theme p))
          ∧ sidebar_consistent (toggleTheme p))
  ∧ (∀ tm w, sidebar_consistent (page w) →
             sidebar_consistent (page (fire faults tm w)))
  ∧ (∀ ev w, (∀ change moved records, ev ≠ Mutate change moved records) →
             sidebar_consistent (page w) →
             sidebar_consistent (page (handle_event faults ev w))).
Proof.
  split_and!.
  - apply sidebar_consistent_toggleSidebar.
  - intros p Hp. split_and!.
    + by apply sidebar_consistent_toggleSidebar; apply sidebar_consistent_present.
    + by apply sidebar_consistent_applySavedSidebarState.
    + intros theme. by apply sidebar_consistent_setTheme.
    + by apply sidebar_consistent_setTheme.
  - apply sidebar_consistent_fire.
  - intros ev w Hev Hw.
    destruct ev as [ch mv recs|width| |target|e|]; cbn [handle_event].
    + by destruct (Hev ch mv recs).
    + apply (for_each_listener_invariant (λ w, sidebar_consistent (page w)));
        [|done].
      intros l w' Hw'. destruct l; try done. by rewrite page_executedFunction.
    + apply (for_each_listener_invariant (λ w, sidebar_consistent (page w)));
        [|done].
      intros l w' Hw'. destruct l; try done. by apply sidebar_consistent_initUI.
    + apply (for_each_listener_invariant (λ w, sidebar_consistent (page w)));
        [|done].
      intros l w' Hw'. destruct l; try done.
      by apply sidebar_consistent_click_handler.
    + apply (for_each_listener_invariant (λ w, sidebar_consistent (page w)));
        [|done].
      intros l w' Hw'. destruct l; try done.
      by apply sidebar_consistent_keydown_handler.
    + apply (for_each_listener_invariant (λ w, sidebar_consistent (page w)));
        [|done].
      intros l w' Hw'. destruct l; try done.
      by destruct (cleanup_fields w') as (-> & _).
Qed.

Lemma sidebar_stays_consistent_witness :
  sidebar_consistent (toggleSidebar (page_of dashboard [])).
Proof.
  apply (proj1 (sidebar_stays_consistent no_faults)); by eexists.
Defined.
